(** * Orbital: the simulation core of MoebiusSt/Orbital, embedded in Rocq

    The JavaScript sources under [assets/js] are translated function by
    function.  JavaScript numbers are modelled as exact real numbers ([R]);
    the one place where the difference between IEEE-754 doubles and reals
    decides a property (division by a zero squared distance in the gravity
    loops) is additionally interpreted over the kernel's binary64 floats, from
    the same generic definition.  Object references into [celestialBodies]
    are modelled as indices into the registry list, [Date.now()] and
    [Math.random()] as explicit inputs.  State that only the renderer reads
    is kept out of [Body] and [State]: the camera, the mouse, the warning
    intensity and the orbit history are modelled beside them ([View],
    [updateWarning], [updateOrbitHistory]); the body angle and id, the orbit
    cache, the trail opacity and the logging are left out.  The seeded
    generator and the permutation table of [noise.js] work on 32-bit
    integers, modelled as [Z] with the wrap-around written out. *)

From Stdlib Require Import Floats.PrimFloat.
From Stdlib Require Import Reals Lra Lia List Bool ZArith PeanoNat.
From Stdlib Require Import Permutation.
Import ListNotations.

Local Open Scope R_scope.

(** ** Numbers *)

(** The comparison operators of JavaScript, as booleans over the reals. *)
Definition Rltb (a b : R) : bool := if Rlt_dec a b then true else false.
Definition Rleb (a b : R) : bool := if Rle_dec a b then true else false.
Definition Rgtb (a b : R) : bool := Rltb b a.
Definition Rgeb (a b : R) : bool := Rleb b a.

(** [Math.cbrt]. *)
Definition cbrt (v : R) : R :=
  match Rcase_abs v with
  | left _ => - Rpower (- v) (/ 3)
  | right _ => if Req_dec_T v 0 then 0 else Rpower v (/ 3)
  end.

(** [Math.round] on the values the code rounds (spark counts). *)
Definition Math_round (v : R) : Z := Int_part (v + / 2).

(** ** constants.js *)

Definition PLAYER_RADIUS : R := 30.
Definition DENSITY : R := 1000.
Definition SUN_GRAVITATIONAL_MASS : R := 1e20.
Definition G : R := 6.67430e-11 * 0.1.
Definition SUN_DISPLAY_RADIUS : R := 120.
Definition INIT_NUM_BODIES : nat := 400.

Definition BASE_EJECTION_MASS_PERCENT : R := 0.0005.
Definition MAX_EJECTION_MULTIPLIER : R := 85.
Definition EJECTION_GROWTH_RATE : R := 3.
Definition QUICK_CLICK_THRESHOLD : Z := 260.
Definition MAX_EJECTION_PERCENTAGE : R := 0.5.
Definition EJECTION_BASE_SPEED : R := 1200.
Definition EJECTION_PROPULSION_MULTIPLIER : R := 45.
Definition EJECTION_DECAY_RATE : R := 0.97.
Definition EJECTION_DECAY_INTERVAL : Z := 300.

Definition MASS_TRANSFER_PERCENT_PER_SEC : R := 4.0.
Definition EJECTION_COLLISION_DELAY : Z := 300.

Definition SUN_ABSORPTION_RATE : R := 1.5.
Definition SUN_ABSORPTION_START_RATIO : R := 0.4.
Definition SUN_ABSORPTION_RANGE_MULTIPLIER : R := 2.5.

Definition MIN_SPARKS : R := 2.
Definition MAX_SPARKS : R := 20.
Definition MIN_SPARK_SPEED_MULTIPLIER : R := 0.8.
Definition MAX_SPARK_SPEED_MULTIPLIER : R := 2.2.
Definition SPARK_SPEED_RANDOMNESS : R := 0.2.
Definition MAX_SPARK_SPREAD_ANGLE : R := PI / 6.
Definition MIN_SPARK_SPREAD_ANGLE : R := PI / 18.
Definition SPARK_LIFESPAN : Z := 1600.

Definition BASE_GAME_SPEED : R := 0.1.
Definition FAST_GAME_SPEED : R := 1.0.

(** ** utils.js *)

Definition calculateRadiusFromMass (mass : R) : R :=
  if Rleb mass 0 then 0.1
  else let volume := mass / DENSITY in cbrt ((3 * volume) / (4 * PI)).

Definition calculateMassFromRadius (radius : R) : R :=
  (4 / 3) * PI * (Rmax 0.1 radius) ^ 3 * DENSITY.

Definition getSunDisplayRadius (gameMassFraction : R) : R :=
  SUN_DISPLAY_RADIUS * cbrt (Rmax 0 gameMassFraction).

(** The constants computed by [initDerivedConstants], [initBodyMassConstant]
    and [initSparkMass]. *)
Definition PLAYER_INITIAL_MASS : R := calculateMassFromRadius PLAYER_RADIUS.
Definition MIN_PLAYER_MASS : R := PLAYER_INITIAL_MASS * 0.1.
Definition SUN_GAME_MASS : R := PLAYER_INITIAL_MASS * 180.
Definition GRAVITY_CROSSOVER_MULTIPLIER : R :=
  SUN_GRAVITATIONAL_MASS / SUN_GAME_MASS.
Definition MIN_BODY_MASS : R := PLAYER_INITIAL_MASS * 0.005.
Definition SPARK_MASS : R := PLAYER_INITIAL_MASS * 0.00001.

(** ** celestial-body.js *)

(** A [CelestialBody].  [mass] is the backing field [_mass] read through its
    getter; [_radius] is the stored radius, which the [radius] getter below
    clamps. *)
Record Body : Type := mkBody {
  x : R;
  y : R;
  vx : R;
  vy : R;
  mass : R;
  _radius : R;
  isPlayer : bool;
  isSun : bool;
  isSpark : bool;
  isGravitationalCenter : bool;
  creationTime : Z
}.

(** [_calculateRadius]; [sunCurrentGameMass] is the global it reads. *)
Definition _calculateRadius (sunCurrentGameMass : R) (sun : bool) (m : R) : R :=
  if sun then getSunDisplayRadius (sunCurrentGameMass / SUN_GAME_MASS)
  else calculateRadiusFromMass m.

(** [new CelestialBody(x, y, vx, vy, mass, isPlayer, isSun, isSpark)] *)
Definition CelestialBody (sunCurrentGameMass : R) (now : Z)
    (x0 y0 vx0 vy0 m : R) (player sun spark : bool) : Body :=
  {| x := x0; y := y0; vx := vx0; vy := vy0;
     mass := m;
     _radius := _calculateRadius sunCurrentGameMass sun m;
     isPlayer := player; isSun := sun; isSpark := spark;
     isGravitationalCenter := sun;
     creationTime := now |}.

(** [set mass(newMass)] *)
Definition set_mass (sunCurrentGameMass : R) (newMass : R) (b : Body) : Body :=
  let m := Rmax 0 newMass in
  let r := _calculateRadius sunCurrentGameMass (isSun b) m in
  {| x := x b; y := y b; vx := vx b; vy := vy b;
     mass := m;
     _radius := if Rltb m 1e-9 && negb (isSun b) && negb (isPlayer b)
                then 0.1 else r;
     isPlayer := isPlayer b; isSun := isSun b; isSpark := isSpark b;
     isGravitationalCenter := isGravitationalCenter b;
     creationTime := creationTime b |}.

(** [get radius()] *)
Definition radius (sunCurrentGameMass : R) (b : Body) : R :=
  if isSun b
  then Rmax 1 (getSunDisplayRadius (sunCurrentGameMass / SUN_GAME_MASS))
  else Rmax 0.5 (_radius b).

(** Plain field assignments. *)
Definition set_velocity (vx' vy' : R) (b : Body) : Body :=
  {| x := x b; y := y b; vx := vx'; vy := vy';
     mass := mass b; _radius := _radius b;
     isPlayer := isPlayer b; isSun := isSun b; isSpark := isSpark b;
     isGravitationalCenter := isGravitationalCenter b;
     creationTime := creationTime b |}.

Definition set_position (x' y' : R) (b : Body) : Body :=
  {| x := x'; y := y'; vx := vx b; vy := vy b;
     mass := mass b; _radius := _radius b;
     isPlayer := isPlayer b; isSun := isSun b; isSpark := isSpark b;
     isGravitationalCenter := isGravitationalCenter b;
     creationTime := creationTime b |}.

Definition set_isGravitationalCenter (c : bool) (b : Body) : Body :=
  {| x := x b; y := y b; vx := vx b; vy := vy b;
     mass := mass b; _radius := _radius b;
     isPlayer := isPlayer b; isSun := isSun b; isSpark := isSpark b;
     isGravitationalCenter := c;
     creationTime := creationTime b |}.

(** ** state.js *)

Record State : Type := mkState {
  celestialBodies : list Body;
  lastClickTime : Z;
  lastEjectionDecayTime : Z;
  currentEjectionMultiplier : R;
  gameWon : bool;
  playerIsGravitationalCenter : bool;
  sunAbsorptionProgress : R;
  gravityBlendFactor : R;
  sunCurrentGameMass : R;
  collisionDetectedThisFrame : bool;
  playerNeedsReset : bool;
  currentGameSpeed : R
}.

Definition set_celestialBodies (l : list Body) (s : State) : State :=
  {| celestialBodies := l;
     lastClickTime := lastClickTime s;
     lastEjectionDecayTime := lastEjectionDecayTime s;
     currentEjectionMultiplier := currentEjectionMultiplier s;
     gameWon := gameWon s;
     playerIsGravitationalCenter := playerIsGravitationalCenter s;
     sunAbsorptionProgress := sunAbsorptionProgress s;
     gravityBlendFactor := gravityBlendFactor s;
     sunCurrentGameMass := sunCurrentGameMass s;
     collisionDetectedThisFrame := collisionDetectedThisFrame s;
     playerNeedsReset := playerNeedsReset s;
     currentGameSpeed := currentGameSpeed s |}.

Definition set_collisionDetectedThisFrame (c : bool) (s : State) : State :=
  {| celestialBodies := celestialBodies s;
     lastClickTime := lastClickTime s;
     lastEjectionDecayTime := lastEjectionDecayTime s;
     currentEjectionMultiplier := currentEjectionMultiplier s;
     gameWon := gameWon s;
     playerIsGravitationalCenter := playerIsGravitationalCenter s;
     sunAbsorptionProgress := sunAbsorptionProgress s;
     gravityBlendFactor := gravityBlendFactor s;
     sunCurrentGameMass := sunCurrentGameMass s;
     collisionDetectedThisFrame := c;
     playerNeedsReset := playerNeedsReset s;
     currentGameSpeed := currentGameSpeed s |}.

Definition set_playerNeedsReset (c : bool) (s : State) : State :=
  {| celestialBodies := celestialBodies s;
     lastClickTime := lastClickTime s;
     lastEjectionDecayTime := lastEjectionDecayTime s;
     currentEjectionMultiplier := currentEjectionMultiplier s;
     gameWon := gameWon s;
     playerIsGravitationalCenter := playerIsGravitationalCenter s;
     sunAbsorptionProgress := sunAbsorptionProgress s;
     gravityBlendFactor := gravityBlendFactor s;
     sunCurrentGameMass := sunCurrentGameMass s;
     collisionDetectedThisFrame := collisionDetectedThisFrame s;
     playerNeedsReset := c;
     currentGameSpeed := currentGameSpeed s |}.

Definition set_gravityBlendFactor (g : R) (s : State) : State :=
  {| celestialBodies := celestialBodies s;
     lastClickTime := lastClickTime s;
     lastEjectionDecayTime := lastEjectionDecayTime s;
     currentEjectionMultiplier := currentEjectionMultiplier s;
     gameWon := gameWon s;
     playerIsGravitationalCenter := playerIsGravitationalCenter s;
     sunAbsorptionProgress := sunAbsorptionProgress s;
     gravityBlendFactor := g;
     sunCurrentGameMass := sunCurrentGameMass s;
     collisionDetectedThisFrame := collisionDetectedThisFrame s;
     playerNeedsReset := playerNeedsReset s;
     currentGameSpeed := currentGameSpeed s |}.

Definition set_currentEjectionMultiplier (m : R) (s : State) : State :=
  {| celestialBodies := celestialBodies s;
     lastClickTime := lastClickTime s;
     lastEjectionDecayTime := lastEjectionDecayTime s;
     currentEjectionMultiplier := m;
     gameWon := gameWon s;
     playerIsGravitationalCenter := playerIsGravitationalCenter s;
     sunAbsorptionProgress := sunAbsorptionProgress s;
     gravityBlendFactor := gravityBlendFactor s;
     sunCurrentGameMass := sunCurrentGameMass s;
     collisionDetectedThisFrame := collisionDetectedThisFrame s;
     playerNeedsReset := playerNeedsReset s;
     currentGameSpeed := currentGameSpeed s |}.

Definition set_lastClickTime (t : Z) (s : State) : State :=
  {| celestialBodies := celestialBodies s;
     lastClickTime := t;
     lastEjectionDecayTime := lastEjectionDecayTime s;
     currentEjectionMultiplier := currentEjectionMultiplier s;
     gameWon := gameWon s;
     playerIsGravitationalCenter := playerIsGravitationalCenter s;
     sunAbsorptionProgress := sunAbsorptionProgress s;
     gravityBlendFactor := gravityBlendFactor s;
     sunCurrentGameMass := sunCurrentGameMass s;
     collisionDetectedThisFrame := collisionDetectedThisFrame s;
     playerNeedsReset := playerNeedsReset s;
     currentGameSpeed := currentGameSpeed s |}.

Definition set_lastEjectionDecayTime (t : Z) (s : State) : State :=
  {| celestialBodies := celestialBodies s;
     lastClickTime := lastClickTime s;
     lastEjectionDecayTime := t;
     currentEjectionMultiplier := currentEjectionMultiplier s;
     gameWon := gameWon s;
     playerIsGravitationalCenter := playerIsGravitationalCenter s;
     sunAbsorptionProgress := sunAbsorptionProgress s;
     gravityBlendFactor := gravityBlendFactor s;
     sunCurrentGameMass := sunCurrentGameMass s;
     collisionDetectedThisFrame := collisionDetectedThisFrame s;
     playerNeedsReset := playerNeedsReset s;
     currentGameSpeed := currentGameSpeed s |}.

Definition set_currentGameSpeed (v : R) (s : State) : State :=
  {| celestialBodies := celestialBodies s;
     lastClickTime := lastClickTime s;
     lastEjectionDecayTime := lastEjectionDecayTime s;
     currentEjectionMultiplier := currentEjectionMultiplier s;
     gameWon := gameWon s;
     playerIsGravitationalCenter := playerIsGravitationalCenter s;
     sunAbsorptionProgress := sunAbsorptionProgress s;
     gravityBlendFactor := gravityBlendFactor s;
     sunCurrentGameMass := sunCurrentGameMass s;
     collisionDetectedThisFrame := collisionDetectedThisFrame s;
     playerNeedsReset := playerNeedsReset s;
     currentGameSpeed := v |}.

(** ** The registry as a JavaScript array *)

(** [celestialBodies.find(p)], as the index of the first match: the object
    reference the code keeps is this index. *)
Fixpoint findIndex (p : Body -> bool) (l : list Body) : option nat :=
  match l with
  | [] => None
  | b :: l' => if p b then Some 0%nat
               else option_map S (findIndex p l')
  end.

(** Mutation of the object at index [i]. *)
Fixpoint update (i : nat) (f : Body -> Body) (l : list Body) : list Body :=
  match l, i with
  | [], _ => []
  | b :: l', O => f b :: l'
  | b :: l', S i' => b :: update i' f l'
  end.

(** [celestialBodies.splice(i, 1)] *)
Fixpoint splice1 (i : nat) (l : list Body) : list Body :=
  match l, i with
  | [], _ => []
  | _ :: l', O => l'
  | b :: l', S i' => b :: splice1 i' l'
  end.

(** A loop over all indices that mutates each object. *)
Fixpoint forEachIndexFrom (k : nat) (f : nat -> Body -> Body) (l : list Body)
  : list Body :=
  match l with
  | [] => []
  | b :: l' => f k b :: forEachIndexFrom (S k) f l'
  end.

Definition forEachIndex (f : nat -> Body -> Body) (l : list Body) : list Body :=
  forEachIndexFrom 0 f l.

(** ** collision.js *)

(** How one pass of the inner loop body ends: [continue] (or falling off its
    end), the [break] after a removal with the new value of [i], or the
    [return] after [playerNeedsReset = true]. *)
Inductive PairOutcome : Type :=
| PairContinue (s : State)
| PairBreak (s : State) (bigI : nat)
| PairReturn (s : State).

(** [n1], [n2]: an ordinary body inside its post-ejection immunity window. *)
Definition immune (now : Z) (b : Body) : bool :=
  negb (isSpark b) && negb (isSun b) && negb (isPlayer b)
  && (now - creationTime b <? EJECTION_COLLISION_DELAY)%Z.

(** The seven [continue] guards before the distance test. *)
Definition excluded (now : Z) (b1 b2 : Body) : bool :=
  let n1 := immune now b1 in
  let n2 := immune now b2 in
  ((isPlayer b1 && isSpark b2) || (isPlayer b2 && isSpark b1))
  || (isSpark b1 && isSpark b2)
  || ((isPlayer b1 && n2) || (isPlayer b2 && n1))
  || ((isSpark b1 && n2) || (isSpark b2 && n1))
  || (n1 && n2)
  || ((isSpark b1 && negb (isSpark b2) && negb (isPlayer b2)
         && negb (isGravitationalCenter b2))
      || (isSpark b2 && negb (isSpark b1) && negb (isPlayer b1)
            && negb (isGravitationalCenter b1)))
  || ((isPlayer b1 && isSun b2) || (isPlayer b2 && isSun b1)).

(** The circle test: false when [distSq >= cr * cr]. *)
Definition overlapping (sunMass : R) (b1 b2 : Body) : bool :=
  let dx := x b2 - x b1 in
  let dy := y b2 - y b1 in
  let distSq := dx * dx + dy * dy in
  let cr := radius sunMass b1 + radius sunMass b2 in
  negb (Rgeb distSq (cr * cr)).

(** [transfer] (lines 54-56). *)
Definition transferAmount (dt : R) (small : Body) : R :=
  Rmax 0 (if isSpark small then mass small
          else Rmin (mass small)
                    (mass small * MASS_TRANSFER_PERCENT_PER_SEC * dt)).

(** The momentum update of a consuming player (lines 58-64). *)
Definition absorbVelocity (transfer : R) (small big : Body) : Body :=
  if isPlayer big && Rgtb transfer 0 then
    let total := mass big + transfer in
    if Rgtb total 1e-9 then
      set_velocity ((mass big * vx big + transfer * vx small) / total)
                   ((mass big * vy big + transfer * vy small) / total) big
    else big
  else big.

(** [big.mass += transfer; small.mass -= transfer] after the momentum
    update, on the objects at [bigI] and [smallI]. *)
Definition transferMass (transfer : R) (bigI smallI : nat) (small : Body)
    (s : State) : State :=
  let cur := sunCurrentGameMass s in
  let l1 := update bigI
              (fun big => let big' := absorbVelocity transfer small big in
                          set_mass cur (mass big' + transfer) big')
              (celestialBodies s) in
  let l2 := update smallI (fun sm => set_mass cur (mass sm - transfer) sm) l1 in
  set_celestialBodies l2 s.

(** The body of the inner loop for the pair [(i, j)]. *)
Definition resolvePair (now : Z) (dt : R) (i j : nat) (s : State)
  : PairOutcome :=
  match nth_error (celestialBodies s) i, nth_error (celestialBodies s) j with
  | Some b1, Some b2 =>
    if excluded now b1 b2 then PairContinue s
    else if negb (overlapping (sunCurrentGameMass s) b1 b2) then PairContinue s
    else
      let s1 := set_collisionDetectedThisFrame true s in
      let '(big, bigI, small, smallI) :=
        if Rgeb (mass b1) (mass b2) then (b1, i, b2, j) else (b2, j, b1, i) in
      if isGravitationalCenter small || isSpark big then PairContinue s1
      else
        let transfer := transferAmount dt small in
        let s2 := transferMass transfer bigI smallI small s1 in
        let small' :=
          set_mass (sunCurrentGameMass s) (mass small - transfer) small in
        if isPlayer small' && Rltb (mass small') MIN_PLAYER_MASS
        then PairReturn (set_playerNeedsReset true s2)
        else if Rleb (mass small') MIN_BODY_MASS
                || (isSpark small' && Rgeb transfer (mass small' * 0.99))
        then PairBreak
               (set_celestialBodies (splice1 smallI (celestialBodies s2)) s2)
               (if (smallI <? bigI)%nat then Nat.pred bigI else bigI)
        else PairContinue s2
  | _, _ => PairContinue s
  end.

(** The inner loop, [j] running from [n - 1] down to [0]. *)
Fixpoint innerLoop (now : Z) (dt : R) (i n : nat) (s : State) : PairOutcome :=
  match n with
  | O => PairContinue s
  | S j =>
    match resolvePair now dt i j s with
    | PairContinue s' => innerLoop now dt i j s'
    | o => o
    end
  end.

(** The outer loop; [n] is [i + 1], so [n = 0] ends it.  After a [break] the
    loop header's [i--] applies to [i = bigI].  [fuel] bounds the number of
    passes; [outerLoop_fuel] shows that the length of the registry is
    enough. *)
Fixpoint outerLoop (fuel : nat) (now : Z) (dt : R) (n : nat) (s : State)
  : State :=
  match fuel with
  | O => s
  | S fuel' =>
    match n with
    | O => s
    | S i =>
      match nth_error (celestialBodies s) i with
      | None => outerLoop fuel' now dt i s
      | Some _ =>
        match innerLoop now dt i i s with
        | PairReturn s' => s'
        | PairContinue s' =>
          if playerNeedsReset s' then s' else outerLoop fuel' now dt i s'
        | PairBreak s' bigI =>
          if playerNeedsReset s' then s' else outerLoop fuel' now dt bigI s'
        end
      end
    end
  end.

Definition checkCollisions (now : Z) (dt : R) (s : State) : State :=
  let n := length (celestialBodies s) in
  outerLoop n now dt n s.

(** ** physics.js: the gravity loops *)

(** The arithmetic the gravity loops use, so that their body can be read
    both over the reals and over IEEE-754 binary64. *)
Class JSNumber (N : Type) : Type := {
  num_add : N -> N -> N;
  num_sub : N -> N -> N;
  num_mul : N -> N -> N;
  num_div : N -> N -> N;
  num_sqrt : N -> N;
  num_gt0 : N -> bool;
  num_1em6 : N
}.

#[export] Instance JSNumber_R : JSNumber R := {
  num_add := Rplus;
  num_sub := Rminus;
  num_mul := Rmult;
  num_div := Rdiv;
  num_sqrt := sqrt;
  num_gt0 := fun v => Rgtb v 0;
  num_1em6 := 1e-6
}.

#[export] Instance JSNumber_float : JSNumber float := {
  num_add := PrimFloat.add;
  num_sub := PrimFloat.sub;
  num_mul := PrimFloat.mul;
  num_div := PrimFloat.div;
  num_sqrt := PrimFloat.sqrt;
  num_gt0 := fun v => PrimFloat.ltb 0%float v;
  num_1em6 := 0x1.0c6f7a0b5ed8dp-20%float (* the double the literal 1e-6 denotes *)
}.

(** The body of each gravity loop after its [continue] guard (lines 49-56,
    67-74, 84-91): the new [(vx, vy)] of a body at [(bx, by)] pulled towards
    a source at [(sx, sy)]. *)
Definition gravityKick {N : Type} `{JSNumber N}
    (g effectiveGravMass sx sy bx by_ bvx bvy gameDt : N) : N * N :=
  let dx := num_sub sx bx in
  let dy := num_sub sy by_ in
  let distSq := num_add (num_mul dx dx) (num_mul dy dy) in
  let dist := num_sqrt (num_add distSq num_1em6) in
  if num_gt0 dist then
    let acc := num_div (num_mul g effectiveGravMass) distSq in
    (num_add bvx (num_mul (num_div (num_mul acc dx) dist) gameDt),
     num_add bvy (num_mul (num_div (num_mul acc dy) dist) gameDt))
  else (bvx, bvy).

Definition pull (effectiveGravMass gameDt : R) (source body : Body) : Body :=
  let '(vx', vy') :=
    gravityKick G effectiveGravMass (x source) (y source)
                (x body) (y body) (vx body) (vy body) gameDt in
  set_velocity vx' vy' body.

(** ** Inputs of an operation *)

(** What an operation reads from outside the simulation state: the clock,
    the canvas size and the stream of [Math.random()] values, indexed by the
    order of the calls.  One operation is taken to run within one clock
    reading. *)
Record Env : Type := mkEnv {
  now : Z;
  canvasWidth : R;
  canvasHeight : R;
  random : nat -> R
}.

(** ** population.js *)

(** One pass of the loop of [populateSystem]; [k] counts the calls of
    [Math.random()] made so far. *)
Definition spawnBody (e : Env) (sunMass : R) (centerBody : Body) (k : nat)
  : Body :=
  let angle := random e k * PI * 2 in
  let baseDist := Rmax (radius sunMass centerBody) SUN_DISPLAY_RADIUS in
  let distance := baseDist * 3.5 + random e (k + 1) * baseDist * 15 in
  let x0 := x centerBody + cos angle * distance in
  let y0 := y centerBody + sin angle * distance in
  let gravMass :=
    if isSun centerBody then SUN_GRAVITATIONAL_MASS
    else mass centerBody * GRAVITY_CROSSOVER_MULTIPLIER in
  let orbitalSpeed := sqrt ((G * gravMass) / Rmax 1 distance) in
  let sf := 0.9 + random e (k + 2) * 0.2 in
  let vx0 := vx centerBody - sin angle * orbitalSpeed * sf in
  let vy0 := vy centerBody + cos angle * orbitalSpeed * sf in
  let rand := random e (k + 3) in
  let m :=
    if Rltb rand 0.7
    then PLAYER_INITIAL_MASS * (0.02 + random e (k + 4) * 0.2)
    else if Rltb rand 0.9
    then PLAYER_INITIAL_MASS * (0.4 + random e (k + 4) * 0.5)
    else PLAYER_INITIAL_MASS * (1.1 + random e (k + 4) * 1.4) in
  CelestialBody sunMass (now e) x0 y0 vx0 vy0 (Rmax MIN_BODY_MASS m)
                false false false.

Fixpoint spawnBodies (e : Env) (sunMass : R) (centerBody : Body)
    (k numMasses : nat) : list Body :=
  match numMasses with
  | O => []
  | S n => spawnBody e sunMass centerBody k
           :: spawnBodies e sunMass centerBody (k + 5) n
  end.

Definition populateSystem (e : Env) (numMasses : nat) (s : State) : State :=
  match findIndex isGravitationalCenter (celestialBodies s) with
  | None => s
  | Some c =>
    match nth_error (celestialBodies s) c with
    | None => s
    | Some centerBody =>
      set_celestialBodies
        (celestialBodies s
         ++ spawnBodies e (sunCurrentGameMass s) centerBody 0 numMasses) s
    end
  end.

(** ** game-state.js *)

Definition resetPlayer (e : Env) (s : State) : State :=
  let sun0 :=
    match findIndex isSun (celestialBodies s) with
    | None =>
      CelestialBody (sunCurrentGameMass s) (now e) 0 0 0 0 SUN_GAME_MASS
                    false true false
    | Some i =>
      match nth_error (celestialBodies s) i with
      | Some b =>
        set_mass (sunCurrentGameMass s) SUN_GAME_MASS
                 (set_isGravitationalCenter true b)
      | None =>
        CelestialBody (sunCurrentGameMass s) (now e) 0 0 0 0 SUN_GAME_MASS
                      false true false
      end
    end in
  let cur := SUN_GAME_MASS in
  let orbitR := Rmax (radius cur sun0 * 1.5)
                     (Rmin (canvasWidth e) (canvasHeight e) * 0.35) in
  let orbSpeed := sqrt ((G * SUN_GRAVITATIONAL_MASS) / orbitR) in
  let p := set_isGravitationalCenter false
             (CelestialBody cur (now e) (x sun0) (y sun0 - orbitR)
                            (vx sun0 + orbSpeed) (vy sun0)
                            PLAYER_INITIAL_MASS true false false) in
  let sun := set_isGravitationalCenter true sun0 in
  populateSystem e INIT_NUM_BODIES
    {| celestialBodies := [sun; p];
       lastClickTime := 0;
       lastEjectionDecayTime := 0;
       currentEjectionMultiplier := 1;
       gameWon := false;
       playerIsGravitationalCenter := false;
       sunAbsorptionProgress := 0;
       gravityBlendFactor := 0;
       sunCurrentGameMass := cur;
       collisionDetectedThisFrame := collisionDetectedThisFrame s;
       playerNeedsReset := false;
       currentGameSpeed := currentGameSpeed s |}.

(** ** main.js: [initializeGame] *)

Definition initializeGame (e : Env) : State :=
  let cur := SUN_GAME_MASS in
  let sun := CelestialBody cur (now e) 0 0 0 0 SUN_GAME_MASS false true false in
  let orbitRadius := Rmin (canvasWidth e) (canvasHeight e) * 0.35 in
  let orbitalSpeed := sqrt ((G * SUN_GRAVITATIONAL_MASS) / orbitRadius) in
  let p := CelestialBody cur (now e) 0 (- orbitRadius) orbitalSpeed 0
                         PLAYER_INITIAL_MASS true false false in
  populateSystem e INIT_NUM_BODIES
    {| celestialBodies := [sun; p];
       lastClickTime := 0;
       lastEjectionDecayTime := 0;
       currentEjectionMultiplier := 1;
       gameWon := false;
       playerIsGravitationalCenter := false;
       sunAbsorptionProgress := 0;
       gravityBlendFactor := 0;
       sunCurrentGameMass := cur;
       collisionDetectedThisFrame := false;
       playerNeedsReset := false;
       currentGameSpeed := BASE_GAME_SPEED |}.

(** ** absorption.js *)

Definition massRatio (player : Body) : R := mass player / SUN_GAME_MASS.

Definition canAbsorb (player : Body) : bool :=
  Rgeb (massRatio player) SUN_ABSORPTION_START_RATIO.

Definition playerSunDist (player sun : Body) : R :=
  let dx := x sun - x player in
  let dy := y sun - y player in
  sqrt (dx * dx + dy * dy).

Definition touchDist (sunMass : R) (player sun : Body) : R :=
  radius sunMass player + radius sunMass sun.

Definition absorptionRange (sunMass : R) (player sun : Body) : R :=
  touchDist sunMass player sun * SUN_ABSORPTION_RANGE_MULTIPLIER.

Definition absorptionRate (sunMass : R) (player sun : Body) : R :=
  let dist := playerSunDist player sun in
  let td := touchDist sunMass player sun in
  let range := absorptionRange sunMass player sun in
  let proximity :=
    Rmax 0 (Rmin 1 (1 - (dist - td * 0.5) / (range - td * 0.5))) in
  let advantage :=
    Rmin 2 ((massRatio player - SUN_ABSORPTION_START_RATIO)
            / (1 - SUN_ABSORPTION_START_RATIO)) in
  SUN_ABSORPTION_RATE * proximity * Rmax 0.2 advantage.

(** [transfer] (lines 61-63). *)
Definition absorptionTransfer (dt : R) (s : State) (player sun : Body) : R :=
  let gameDt := dt * currentGameSpeed s in
  let rate := absorptionRate (sunCurrentGameMass s) player sun in
  Rmax 0 (Rmin (sunCurrentGameMass s * rate * gameDt) (sunCurrentGameMass s)).

(** The momentum update of lines 67-71. *)
Definition absorbMomentum (transfer : R) (sun player : Body) : Body :=
  let totalAfter := mass player + transfer in
  if Rgtb totalAfter 1e-9 then
    set_velocity ((mass player * vx player + transfer * vx sun) / totalAfter)
                 ((mass player * vy player + transfer * vy sun) / totalAfter)
                 player
  else player.

(** The win transition (lines 83-99), on the state after the transfer; [pi]
    and [si] are the indices of [player] and [sun]. *)
Definition winTransition (pi si : nat) (s : State) : State :=
  let l1 := update pi
              (fun p => set_isGravitationalCenter true
                          (set_mass (sunCurrentGameMass s)
                                    (mass p + sunCurrentGameMass s) p))
              (celestialBodies s) in
  let l2 := splice1 si l1 in
  let pi' := if (si <? pi)%nat then Nat.pred pi else pi in
  let l3 := forEachIndex
              (fun i b => if (i =? pi')%nat then b
                          else set_isGravitationalCenter false b) l2 in
  {| celestialBodies := l3;
     lastClickTime := lastClickTime s;
     lastEjectionDecayTime := lastEjectionDecayTime s;
     currentEjectionMultiplier := currentEjectionMultiplier s;
     gameWon := true;
     playerIsGravitationalCenter := true;
     sunAbsorptionProgress := sunAbsorptionProgress s;
     gravityBlendFactor := 1;
     sunCurrentGameMass := 0;
     collisionDetectedThisFrame := collisionDetectedThisFrame s;
     playerNeedsReset := playerNeedsReset s;
     currentGameSpeed := currentGameSpeed s |}.

(** Lines 66-80: the transfer applied to player, sun and the globals. *)
Definition applyAbsorption (transfer : R) (pi si : nat) (sun : Body)
    (s : State) : State :=
  let l1 := update pi
              (fun p => let p' := absorbMomentum transfer sun p in
                        set_mass (sunCurrentGameMass s) (mass p' + transfer) p')
              (celestialBodies s) in
  let cur := sunCurrentGameMass s - transfer in
  let l2 := update si (set_mass cur cur) l1 in
  let progress := 1 - cur / SUN_GAME_MASS in
  {| celestialBodies := l2;
     lastClickTime := lastClickTime s;
     lastEjectionDecayTime := lastEjectionDecayTime s;
     currentEjectionMultiplier := currentEjectionMultiplier s;
     gameWon := gameWon s;
     playerIsGravitationalCenter := playerIsGravitationalCenter s;
     sunAbsorptionProgress := progress;
     gravityBlendFactor := Rmin 1 progress;
     sunCurrentGameMass := cur;
     collisionDetectedThisFrame := collisionDetectedThisFrame s;
     playerNeedsReset := playerNeedsReset s;
     currentGameSpeed := currentGameSpeed s |}.

Definition checkSunAbsorption (dt : R) (s : State) : State :=
  if gameWon s then s
  else
    match findIndex isPlayer (celestialBodies s),
          findIndex isSun (celestialBodies s) with
    | Some pi, Some si =>
      match nth_error (celestialBodies s) pi,
            nth_error (celestialBodies s) si with
      | Some player, Some sun =>
        let dist := playerSunDist player sun in
        let td := touchDist (sunCurrentGameMass s) player sun in
        if negb (canAbsorb player) then
          let s1 := if Rltb dist (td * 0.8)
                    then set_playerNeedsReset true s else s in
          set_gravityBlendFactor
            (Rmax 0 (gravityBlendFactor s1 - 0.5 * dt)) s1
        else if Rgtb dist (absorptionRange (sunCurrentGameMass s) player sun)
        then set_gravityBlendFactor
               (Rmax 0 (gravityBlendFactor s - 0.3 * dt)) s
        else
          let transfer := absorptionTransfer dt s player sun in
          if Rleb transfer 0 then s
          else
            let s2 := applyAbsorption transfer pi si sun s in
            if Rltb (sunCurrentGameMass s2) (SUN_GAME_MASS * 0.02)
            then winTransition pi si s2
            else s2
      | _, _ => s
      end
    | _, _ => s
    end.

(** ** ejection.js *)

(** The combo multiplier after a click at time [currentTime] (lines 30-32). *)
Definition comboMultiplier (currentTime : Z) (s : State) : R :=
  let timeSince := (currentTime - lastClickTime s)%Z in
  if (timeSince <=? QUICK_CLICK_THRESHOLD)%Z
  then Rmin (currentEjectionMultiplier s * EJECTION_GROWTH_RATE)
            MAX_EJECTION_MULTIPLIER
  else 1.

(** [ejectedMass] as first computed (line 34). *)
Definition requestedEjection (initMass multiplier : R) : R :=
  Rmin (initMass * BASE_EJECTION_MASS_PERCENT * multiplier)
       (initMass * MAX_EJECTION_PERCENTAGE).

(** The cosmetic sparks (lines 66-78); [k] counts the [Math.random()] calls. *)
Fixpoint spawnSparks (e : Env) (sunMass angle sd mainSpeed sparkSpeedMult
    sparkSpreadAngle : R) (player : Body) (k numSparks : nat) : list Body :=
  match numSparks with
  | O => []
  | S n =>
    let sa := angle + (random e k - 0.5) * sparkSpreadAngle in
    let ss := mainSpeed * sparkSpeedMult
              * (1 + (random e (k + 1) - 0.5) * 2 * SPARK_SPEED_RANDOMNESS) in
    CelestialBody sunMass (now e)
      (x player + cos angle * sd) (y player + sin angle * sd)
      (vx player + cos sa * ss) (vy player + sin sa * ss)
      SPARK_MASS false false true
    :: spawnSparks e sunMass angle sd mainSpeed sparkSpeedMult
                   sparkSpreadAngle player (k + 2) n
  end.

(** Lines 39-86, once [ejectedMass] is settled: the new registry.  [angle] is
    the aim direction [Math.atan2(screenMouseY - py, screenMouseX - px)],
    which the click handler derives from the mouse, camera and canvas. *)
Definition performEjection (e : Env) (angle : R) (pi : nat) (player0 : Body)
    (ejectedMass : R) (s : State) : list Body :=
  let initMass := mass player0 in
  let sunMass := sunCurrentGameMass s in
  let intRange := MAX_EJECTION_PERCENTAGE - BASE_EJECTION_MASS_PERCENT in
  let normInt0 :=
    if Rgtb intRange 1e-9
    then ((ejectedMass / initMass) - BASE_EJECTION_MASS_PERCENT) / intRange
    else 0 in
  let normInt := Rmax 0 (Rmin 1 normInt0) in
  let numSparks :=
    Z.to_nat (Math_round (MIN_SPARKS + (MAX_SPARKS - MIN_SPARKS) * normInt)) in
  let sparkSpeedMult :=
    MIN_SPARK_SPEED_MULTIPLIER
    + (MAX_SPARK_SPEED_MULTIPLIER - MIN_SPARK_SPEED_MULTIPLIER) * normInt * 170 in
  let sparkSpreadAngle :=
    MAX_SPARK_SPREAD_ANGLE
    - (MAX_SPARK_SPREAD_ANGLE - MIN_SPARK_SPREAD_ANGLE) * normInt * 15 in
  let speedF :=
    if Rgtb ejectedMass 1e-9
    then sqrt ((initMass * BASE_EJECTION_MASS_PERCENT) / ejectedMass)
    else 1 in
  let mainSpeed := EJECTION_BASE_SPEED * speedF in
  let player := set_mass sunMass (mass player0 - ejectedMass) player0 in
  let main :=
    if Rgeb ejectedMass MIN_BODY_MASS then
      let er := calculateRadiusFromMass ejectedMass in
      let sd := radius sunMass player + er * 1.1 in
      [CelestialBody sunMass (now e)
         (x player + cos angle * sd) (y player + sin angle * sd)
         (vx player + cos angle * mainSpeed) (vy player + sin angle * mainSpeed)
         ejectedMass false false false]
    else [] in
  let sparks :=
    let sr := calculateRadiusFromMass SPARK_MASS in
    let sd := radius sunMass player + sr * 1.5 in
    spawnSparks e sunMass angle sd mainSpeed sparkSpeedMult sparkSpreadAngle
                player 0 numSparks in
  let player' :=
    if Rgtb (mass player) 1e-9 then
      let imp := (ejectedMass * mainSpeed / mass player)
                 * EJECTION_PROPULSION_MULTIPLIER in
      set_velocity (vx player - cos angle * imp) (vy player - sin angle * imp)
                   player
    else player in
  update pi (fun _ => player') (celestialBodies s) ++ main ++ sparks.

Definition ejectMass (e : Env) (angle : R) (s : State) : State :=
  match findIndex isPlayer (celestialBodies s) with
  | None => s
  | Some pi =>
    match nth_error (celestialBodies s) pi with
    | None => s
    | Some player =>
      if Rleb (mass player) MIN_PLAYER_MASS then s
      else
        let currentTime := now e in
        let initMass := mass player in
        let s1 :=
          set_currentEjectionMultiplier (comboMultiplier currentTime s) s in
        let requested :=
          requestedEjection initMass (currentEjectionMultiplier s1) in
        let floored := Rltb (initMass - requested) MIN_PLAYER_MASS in
        let ejectedMass :=
          if floored then initMass - MIN_PLAYER_MASS else requested in
        if floored && Rleb ejectedMass 1e-9 then s1
        else
          set_lastClickTime currentTime
            (set_celestialBodies
               (performEjection e angle pi player ejectedMass s1) s1)
    end
  end.

Definition decayEjectionMultiplier (e : Env) (s : State) : State :=
  if (QUICK_CLICK_THRESHOLD <? now e - lastClickTime s)%Z
     && (EJECTION_DECAY_INTERVAL <? now e - lastEjectionDecayTime s)%Z
  then set_lastEjectionDecayTime (now e)
         (set_currentEjectionMultiplier
            (Rmax 1 (currentEjectionMultiplier s * EJECTION_DECAY_RATE)) s)
  else s.

(** ** physics.js: [updatePhysics] *)

(** The cleanup filter (lines 29-36). *)
Definition keepBody (now : Z) (body : Body) : bool :=
  if isSpark body && (SPARK_LIFESPAN <=? now - creationTime body)%Z then false
  else if negb (isPlayer body) && negb (isGravitationalCenter body)
          && negb (isSun body) && negb (isSpark body)
          && Rltb (mass body) MIN_BODY_MASS
  then false
  else true.

Definition cleanup (now : Z) (s : State) : State :=
  set_celestialBodies (filter (keepBody now) (celestialBodies s)) s.

(** A body found by [find], with the index that stands for its reference. *)
Definition findBody (p : Body -> bool) (l : list Body) : option (nat * Body) :=
  match findIndex p l with
  | None => None
  | Some i => option_map (fun b => (i, b)) (nth_error l i)
  end.

(** Sun gravity (lines 43-58). *)
Definition sunGravity (gameDt : R) (sun : option (nat * Body)) (s : State)
  : State :=
  match sun with
  | Some (si, sunB) =>
    if Rltb (gravityBlendFactor s) 1 then
      let sunWeight := 1 - gravityBlendFactor s in
      let effectiveGravMass := SUN_GRAVITATIONAL_MASS * sunWeight in
      set_celestialBodies
        (forEachIndex
           (fun i body =>
              if (i =? si)%nat || Rleb (mass body) 0 then body
              else pull effectiveGravMass gameDt sunB body)
           (celestialBodies s)) s
    else s
  | None => s
  end.

(** Player gravity (lines 61-76). *)
Definition playerGravity (gameDt : R) (player : option (nat * Body))
    (s : State) : State :=
  match player with
  | Some (pi, playerB) =>
    if Rgtb (gravityBlendFactor s) 0 && Rgtb (mass playerB) 0 then
      let playerWeight := gravityBlendFactor s in
      let effectivePlayerGravMass :=
        mass playerB * GRAVITY_CROSSOVER_MULTIPLIER * playerWeight in
      set_celestialBodies
        (forEachIndex
           (fun i body =>
              if (i =? pi)%nat || Rleb (mass body) 0 || isSun body then body
              else pull effectivePlayerGravMass gameDt playerB body)
           (celestialBodies s)) s
    else s
  | None => s
  end.

(** Post-win gravity (lines 79-93). *)
Definition postWinGravity (gameDt : R) (sun player : option (nat * Body))
    (s : State) : State :=
  match sun, player with
  | None, Some (pi, playerB) =>
    if gameWon s then
      let gm := mass playerB * GRAVITY_CROSSOVER_MULTIPLIER in
      set_celestialBodies
        (forEachIndex
           (fun i body =>
              if (i =? pi)%nat || Rleb (mass body) 0 then body
              else pull gm gameDt playerB body)
           (celestialBodies s)) s
    else s
  | _, _ => s
  end.

(** Lines 95-97. *)
Definition flagMissingBodies (sun player : option (nat * Body)) (s : State)
  : State :=
  match sun, player with
  | None, None => if gameWon s then s else set_playerNeedsReset true s
  | _, _ => s
  end.

(** Lines 100-116, the speed clamp and the Euler step of one body. *)
Definition MAX_V : R := 15000.

Definition moveBody (gameDt : R) (body : Body) : Body :=
  let sSq := vx body * vx body + vy body * vy body in
  let body1 :=
    if Rgtb sSq (MAX_V * MAX_V) then
      let f := MAX_V / sqrt sSq in
      set_velocity (vx body * f) (vy body * f) body
    else body in
  set_position (x body1 + vx body1 * gameDt) (y body1 + vy body1 * gameDt)
               body1.

Definition updatePositions (gameDt : R) (s : State) : State :=
  set_celestialBodies (map (moveBody gameDt) (celestialBodies s)) s.

(** Lines 24-116: everything before the collision stage.  The player body
    the gravity loops read is the object found after the cleanup; its
    position and mass are not written before the loops that read them. *)
Definition gravityAndMotion (now : Z) (dt : R) (s : State) : State :=
  let gameDt := dt * currentGameSpeed s in
  let s0 := cleanup now (set_collisionDetectedThisFrame false s) in
  let sun := findBody isSun (celestialBodies s0) in
  let player := findBody isPlayer (celestialBodies s0) in
  let s1 := sunGravity gameDt sun s0 in
  let s2 := playerGravity gameDt player s1 in
  let s3 := postWinGravity gameDt sun player s2 in
  let s4 := flagMissingBodies sun player s3 in
  updatePositions gameDt s4.

(** The tick.  The orbit-parameter stage, the camera, the warning intensity
    and the orbit history (lines 125-174) write only state that is left out
    of [Body] and [State]. *)
Definition updatePhysics (e : Env) (dt : R) (s : State) : State :=
  let s5 := checkCollisions (now e) dt (gravityAndMotion (now e) dt s) in
  if playerNeedsReset s5 then resetPlayer e s5
  else decayEjectionMultiplier e (checkSunAbsorption dt s5).

(** ** physics.js: [calculateOrbitParameters] *)

(** A JavaScript number that may be [Infinity]. *)
Inductive Ext : Type :=
| Fin (v : R)
| Infinity.

(** The object [calculateOrbitParameters] returns; the fields are named as
    the body's orbit cache that receives them. *)
Record OrbitParameters : Type := mkOrbit {
  orbitA : Ext;
  orbitB : Ext;
  orbitE : R;
  orbitPeriapsisAngle : R;
  orbitCollidesCenter : bool
}.

(** [Math.atan2].  The reals have no negative zero: where the code has
    [py = -0] and [px < 0], [Math.atan2] returns [-PI] and this function, at
    [py = 0], returns [PI]; whatever is stated of the angle below holds of
    both. *)
Definition atan2 (py px : R) : R :=
  if Rgtb px 0 then atan (py / px)
  else if Rltb px 0 then
    (if Rgeb py 0 then atan (py / px) + PI else atan (py / px) - PI)
  else if Rgtb py 0 then PI / 2
  else if Rltb py 0 then - (PI / 2)
  else 0.

Definition noOrbit : OrbitParameters :=
  {| orbitA := Fin 0; orbitB := Fin 0; orbitE := 0;
     orbitPeriapsisAngle := 0; orbitCollidesCenter := false |}.

Definition degenerateOrbit : OrbitParameters :=
  {| orbitA := Infinity; orbitB := Infinity; orbitE := 1;
     orbitPeriapsisAngle := 0; orbitCollidesCenter := false |}.

(** The blended gravitational mass of lines 192-203. *)
Definition effectiveGravMass (s : State) (center : Body) : R :=
  if isSun center then
    let m := SUN_GRAVITATIONAL_MASS * (1 - gravityBlendFactor s) in
    match findBody isPlayer (celestialBodies s) with
    | Some (_, pl) =>
      if Rgtb (gravityBlendFactor s) 0
      then m + mass pl * GRAVITY_CROSSOVER_MULTIPLIER * gravityBlendFactor s
      else m
    | None => m
    end
  else if isPlayer center && isGravitationalCenter center
  then mass center * GRAVITY_CROSSOVER_MULTIPLIER
  else mass center.

(** [mu] (line 205). *)
Definition orbitMu (s : State) (body center : Body) : R :=
  G * (effectiveGravMass s center + mass body).

(** The solver on two distinct objects (lines 182-226); over the reals every
    value is finite, so the [isFinite] tests always hold. *)
Definition solveOrbit (s : State) (body center : Body) : OrbitParameters :=
  let rx := x body - x center in
  let ry := y body - y center in
  let r := sqrt (rx * rx + ry * ry + 1e-9) in
  let cvx := if isPlayer center && isGravitationalCenter center
             then 0 else vx center in
  let cvy := if isPlayer center && isGravitationalCenter center
             then 0 else vy center in
  let vx_ := vx body - cvx in
  let vy_ := vy body - cvy in
  let vSq := vx_ * vx_ + vy_ * vy_ in
  let rdotv := rx * vx_ + ry * vy_ in
  let mu := orbitMu s body center in
  let E := vSq / 2 - mu / r in
  if Rgeb E (- 1e-9) then degenerateOrbit
  else
    let a := - mu / (2 * E) in
    if Rleb a 0 then degenerateOrbit
    else
      let h := rx * vy_ - ry * vx_ in
      let eSq := 1 + (2 * E * h * h) / (mu * mu) in
      let e := if Rgtb eSq 1e-9 then sqrt eSq else 0 in
      let b := a * sqrt (Rmax 0 (1 - e * e)) in
      let muInv := 1 / mu in
      let rInv := 1 / r in
      let fac := vSq * muInv - rInv in
      let ex := fac * rx - rdotv * vx_ * muInv in
      let ey := fac * ry - rdotv * vy_ * muInv in
      {| orbitA := Fin a; orbitB := Fin b; orbitE := e;
         orbitPeriapsisAngle := atan2 ey ex;
         orbitCollidesCenter :=
           Rleb (a * (1 - e))
                (radius (sunCurrentGameMass s) center
                 + radius (sunCurrentGameMass s) body) |}.

(** [calculateOrbitParameters(body, center)], the two objects given by their
    indices in the registry ([None] for a null center). *)
Definition calculateOrbitParameters (s : State) (bodyI : nat)
    (centerI : option nat) : OrbitParameters :=
  match centerI with
  | None => noOrbit
  | Some ci =>
    match nth_error (celestialBodies s) bodyI,
          nth_error (celestialBodies s) ci with
    | Some body, Some center =>
      if Rleb (mass body) 0 || isSpark body || (bodyI =? ci)%nat then noOrbit
      else solveOrbit s body center
    | _, _ => noOrbit
    end
  end.

(** ** The game loop *)

(** The operations that run between two frames: a tick of [gameLoop] (which
    returns early unless [0 < dt], and caps [dt] at 0.1), a click
    ([ejectMass]), and the space bar switching the game speed. *)
Inductive step : State -> State -> Prop :=
| step_tick (env : Env) (dt : R) (s : State) :
    0 < dt <= 0.1 -> step s (updatePhysics env dt s)
| step_click (env : Env) (angle : R) (s : State) :
    step s (ejectMass env angle s)
| step_keydown (s : State) :
    step s (set_currentGameSpeed FAST_GAME_SPEED s)
| step_keyup (s : State) :
    step s (set_currentGameSpeed BASE_GAME_SPEED s).

(** The states the running game can be in. *)
Inductive reachable : State -> Prop :=
| reachable_init (env : Env) : reachable (initializeGame env)
| reachable_step (s s' : State) : reachable s -> step s s' -> reachable s'.

(** ** input.js, with the mouse and camera globals of state.js *)

Definition ORBIT_HISTORY_LENGTH : nat := 90.

(** [camera = { x, y, scale }] *)
Record Camera : Type := mkCamera {
  camera_x : R;
  camera_y : R;
  camera_scale : R
}.

(** [mouseX], [mouseY], [screenMouseX], [screenMouseY] and [camera]. *)
Record View : Type := mkView {
  mouseX : R;
  mouseY : R;
  screenMouseX : R;
  screenMouseY : R;
  camera : Camera
}.

(** [updateMousePosition(event)]; [rectLeft] and [rectTop] are what
    [canvas.getBoundingClientRect()] returns, [clientX] and [clientY] the
    fields of the event. *)
Definition updateMousePosition (e : Env) (rectLeft rectTop clientX clientY : R)
    (v : View) : View :=
  let sx := clientX - rectLeft in
  let sy := clientY - rectTop in
  {| mouseX := (sx - canvasWidth e / 2) / camera_scale (camera v)
               + camera_x (camera v);
     mouseY := (sy - canvasHeight e / 2) / camera_scale (camera v)
               + camera_y (camera v);
     screenMouseX := sx;
     screenMouseY := sy;
     camera := camera v |}.

(** [handleZoom(event)]; [deltaY] is the field of the wheel event. *)
Definition handleZoom (e : Env) (deltaY : R) (v : View) : View :=
  let zoomFactor := if Rgtb deltaY 0 then 0.9 else 1.1 in
  let c := camera v in
  let wXBefore :=
    (screenMouseX v - canvasWidth e / 2) / camera_scale c + camera_x c in
  let wYBefore :=
    (screenMouseY v - canvasHeight e / 2) / camera_scale c + camera_y c in
  let scale' := Rmax 0.05 (Rmin 5 (camera_scale c * zoomFactor)) in
  {| mouseX := mouseX v;
     mouseY := mouseY v;
     screenMouseX := screenMouseX v;
     screenMouseY := screenMouseY v;
     camera :=
       {| camera_x :=
            camera_x c
            + (wXBefore
               - ((screenMouseX v - canvasWidth e / 2) / scale' + camera_x c));
          camera_y :=
            camera_y c
            + (wYBefore
               - ((screenMouseY v - canvasHeight e / 2) / scale' + camera_y c));
          camera_scale := scale' |} |}.

(** The aim direction of a click (ejection.js, lines 53-55): [px], [py] are
    the screen coordinates of the player. *)
Definition aimAngle (e : Env) (v : View) (player : Body) : R :=
  let px := (x player - camera_x (camera v)) * camera_scale (camera v)
            + canvasWidth e / 2 in
  let py := (y player - camera_y (camera v)) * camera_scale (camera v)
            + canvasHeight e / 2 in
  atan2 (screenMouseY v - py) (screenMouseX v - px).

(** ** main.js: [gameLoop] *)

(** [lastTime] and the simulation state. *)
Record Loop : Type := mkLoop {
  lastTime : R;
  game : State
}.

(** One frame; [perfNow] is the reading of [performance.now()].  Drawing and
    the error handler are left out. *)
Definition gameLoop (perfNow : R) (e : Env) (l : Loop) : Loop :=
  let dt := Rmin ((perfNow - lastTime l) / 1000) 0.1 in
  if Rleb dt 0 then {| lastTime := perfNow; game := game l |}
  else {| lastTime := perfNow; game := updatePhysics e dt (game l) |}.

(** ** game-state.js: the warning intensity and the orbit history *)

Definition calculateWarningIntensity (s : State) : R :=
  match findBody isPlayer (celestialBodies s) with
  | None => 0
  | Some (_, player) =>
    if gameWon s || Rgtb (sunAbsorptionProgress s) 0 then 0
    else
      let range := PLAYER_INITIAL_MASS - MIN_PLAYER_MASS in
      if Rleb range 0 then 0
      else
        let ratio := (mass player - MIN_PLAYER_MASS) / range in
        if Rgtb ratio 0.5 then 0
        else Rmax 0 (Rmin 1 (1 - ratio / 0.5))
  end.

(** The smoothing of [currentWarningIntensity] at the end of the tick
    (physics.js, lines 170-172), on the state [calculateWarningIntensity]
    reads. *)
Definition updateWarning (dt : R) (s : State) (currentWarningIntensity : R)
  : R :=
  let tw := calculateWarningIntensity s in
  Rmax 0 (Rmin 1 (currentWarningIntensity
                  + (tw - currentWarningIntensity) * 5 * dt)).

(** An entry of [orbitHistory]: the solver's result with the two fields
    [updateOrbitHistory] adds. *)
Record HistoryEntry : Type := mkHistoryEntry {
  params : OrbitParameters;
  absorbing : bool;
  absorptionProgress : R
}.

(** [isFinite(v)] and [v > 0] on a number that may be [Infinity]. *)
Definition isFinite (v : Ext) : bool :=
  match v with Fin _ => true | Infinity => false end.

Definition Ext_gt0 (v : Ext) : bool :=
  match v with Fin r => Rgtb r 0 | Infinity => true end.

(** [updateOrbitHistory()]; [center] is the sun, both branches of the
    conditional in its definition being [null]. *)
Definition updateOrbitHistory (s : State) (orbitHistory : list HistoryEntry)
  : list HistoryEntry :=
  match findBody isPlayer (celestialBodies s),
        findBody isSun (celestialBodies s) with
  | Some (pi, _), Some (ci, _) =>
    if (pi =? ci)%nat then []
    else
      let p := calculateOrbitParameters s pi (Some ci) in
      if isFinite (orbitA p) && Ext_gt0 (orbitA p)
         && isFinite (orbitB p) && Ext_gt0 (orbitB p)
      then
        let h := {| params := p;
                    absorbing := Rgtb (sunAbsorptionProgress s) 0;
                    absorptionProgress := sunAbsorptionProgress s |}
                 :: orbitHistory in
        if (ORBIT_HISTORY_LENGTH <? length h)%nat then removelast h else h
      else orbitHistory
  | _, _ => []
  end.

(** ** noise.js *)

(** [ToInt32] and [ToUint32] of an integer-valued number. *)
Definition toInt32 (z : Z) : Z :=
  ((z + 2147483648) mod 4294967296 - 2147483648)%Z.

Definition toUint32 (z : Z) : Z := (z mod 4294967296)%Z.

(** [a | b], [a ^ b], [a & b], [a >>> n] and [Math.imul(a, b)] on integer-valued
    numbers. *)
Definition bitor (a b : Z) : Z := toInt32 (Z.lor (toInt32 a) (toInt32 b)).

Definition bitxor (a b : Z) : Z := toInt32 (Z.lxor (toInt32 a) (toInt32 b)).

Definition bitand (a b : Z) : Z := toInt32 (Z.land (toInt32 a) (toInt32 b)).

Definition ushr (a n : Z) : Z := Z.shiftr (toUint32 a) n.

Definition imul (a b : Z) : Z := toInt32 (toInt32 a * toInt32 b).

(** One call of the generator [mulberry32(seed)] returns: the new value of
    the captured [seed] and the 32-bit integer that the call divides by
    4294967296. *)
Definition mulberry32_bits (seed : Z) : Z * Z :=
  let seed0 := bitor seed 0 in
  let seed1 := bitor (seed0 + 1831565813) 0 in
  let t := imul (bitxor seed1 (ushr seed1 15)) (bitor 1 seed1) in
  let t' := bitxor (t + imul (bitxor t (ushr t 7)) (bitor 61 t)) t in
  (seed1, ushr (bitxor t' (ushr t' 14)) 0).

(** The call itself: the new captured seed and the returned number. *)
Definition mulberry32 (seed : Z) : Z * R :=
  let '(seed', bits) := mulberry32_bits seed in
  (seed', IZR bits / 4294967296).

(** [p[i] = v] on an array, for an index inside it. *)
Fixpoint assign (i v : nat) (p : list nat) : list nat :=
  match p, i with
  | [], _ => []
  | _ :: t, O => v :: t
  | h :: t, S i' => h :: assign i' v t
  end.

(** [[p[i], p[j]] = [p[j], p[i]]] *)
Definition swap (i j : nat) (p : list nat) : list nat :=
  let pi := nth i p 0%nat in
  let pj := nth j p 0%nat in
  assign j pi (assign i pj p).

(** The shuffle loop of [createSimplexPerm], [i] running from its first
    argument down to 1. *)
Fixpoint shuffle (i : nat) (seed : Z) (p : list nat) : list nat :=
  match i with
  | O => p
  | S i' =>
    let '(seed', r) := mulberry32 seed in
    let j := Z.to_nat (Int_part (r * INR (i + 1))) in
    shuffle i' seed' (swap i j p)
  end.

Definition createSimplexPerm (seed : Z) : list nat :=
  let p := shuffle 255 seed (seq 0 256) in
  map (fun i => nth (Nat.land i 255) p 0%nat) (seq 0 512).

Definition SIMPLEX_GRAD : list (R * R) :=
  [(1, 1); (-1, 1); (1, -1); (-1, -1); (1, 0); (-1, 0); (0, 1); (0, -1)].

(** [grad(hash, gx, gy)]; [None] stands for a read outside the table. *)
Definition grad (hash : nat) (gx gy : R) : option R :=
  option_map (fun g => fst g * gx + snd g * gy)
             (nth_error SIMPLEX_GRAD (Nat.land hash 7)).

(** [perm[a + perm[b]]]; [None] stands for a read outside the table. *)
Definition permAt (perm : list nat) (a b : nat) : option nat :=
  match nth_error perm b with
  | Some v => nth_error perm (a + v)
  | None => None
  end.

(** The contribution of one corner: [if (t > 0) { t *= t; n = t * t *
    grad(perm[a + perm[b]], gx, gy); }], [n] being 0 otherwise. *)
Definition corner (perm : list nat) (t : R) (a b : nat) (gx gy : R)
  : option R :=
  if Rgtb t 0 then
    match permAt perm a b with
    | Some hash =>
      option_map (fun g => let t2 := t * t in t2 * t2 * g) (grad hash gx gy)
    | None => None
    end
  else Some 0.

(** [simplex2DWithPerm(x, y, perm)] ([simplex2D] is the same function on the
    global table); [None] when a read falls outside [perm]. *)
Definition simplex2DWithPerm (x y : R) (perm : list nat) : option R :=
  let F2 := 0.5 * (sqrt 3 - 1) in
  let G2 := (3 - sqrt 3) / 6 in
  let s := (x + y) * F2 in
  let i := Int_part (x + s) in
  let j := Int_part (y + s) in
  let t := IZR (i + j) * G2 in
  let x0 := x - (IZR i - t) in
  let y0 := y - (IZR j - t) in
  let i1 := if Rgtb x0 y0 then 1%nat else 0%nat in
  let j1 := if Rgtb x0 y0 then 0%nat else 1%nat in
  let x1 := x0 - INR i1 + G2 in
  let y1 := y0 - INR j1 + G2 in
  let x2 := x0 - 1 + 2 * G2 in
  let y2 := y0 - 1 + 2 * G2 in
  let ii := Z.to_nat (bitand i 255) in
  let jj := Z.to_nat (bitand j 255) in
  match corner perm (0.5 - x0 * x0 - y0 * y0) ii jj x0 y0,
        corner perm (0.5 - x1 * x1 - y1 * y1) (ii + i1) (jj + j1) x1 y1,
        corner perm (0.5 - x2 * x2 - y2 * y2) (ii + 1) (jj + 1) x2 y2 with
  | Some n0, Some n1, Some n2 => Some (70 * (n0 + n1 + n2))
  | _, _, _ => None
  end.

(** * Vocabulary of the properties *)

(** The sum of the masses in a registry. *)
Definition totalMass (l : list Body) : R :=
  fold_right (fun c acc => mass c + acc) 0 l.

(** The consuming and the shrinking body of a pair, as lines 49-50 of
    collision.js choose them, each with its index. *)
Definition bigOf (i j : nat) (b1 b2 : Body) : nat * Body :=
  if Rgeb (mass b1) (mass b2) then (i, b1) else (j, b2).

Definition smallOf (i j : nat) (b1 b2 : Body) : nat * Body :=
  if Rgeb (mass b1) (mass b2) then (j, b2) else (i, b1).

(** An ordinary mass: not the player, not the sun, not a spark, not the
    gravitational center. *)
Definition ordinary (c : Body) : Prop :=
  isPlayer c = false /\ isSun c = false /\ isSpark c = false
  /\ isGravitationalCenter c = false.

(** A registry of two ordinary bodies of masses 100 and 10, both created at
    time 0 at the origin, in a freshly started session. *)
Definition scenarioBody (m : R) : Body :=
  CelestialBody SUN_GAME_MASS 0 0 0 0 0 m false false false.

Definition scenarioState : State :=
  {| celestialBodies := [scenarioBody 100; scenarioBody 10];
     lastClickTime := 0;
     lastEjectionDecayTime := 0;
     currentEjectionMultiplier := 1;
     gameWon := false;
     playerIsGravitationalCenter := false;
     sunAbsorptionProgress := 0;
     gravityBlendFactor := 0;
     sunCurrentGameMass := SUN_GAME_MASS;
     collisionDetectedThisFrame := false;
     playerNeedsReset := false;
     currentGameSpeed := BASE_GAME_SPEED |}.

(** An operation on the state carried through the outcome of a pair. *)
Definition mapOutcome (f : State -> State) (o : PairOutcome) : PairOutcome :=
  match o with
  | PairContinue s => PairContinue (f s)
  | PairBreak s bigI => PairBreak (f s) bigI
  | PairReturn s => PairReturn (f s)
  end.

(** A session in which the player sits a hair above the minimum mass, and a
    click 100 ms after the session start. *)
Definition abortState : State :=
  {| celestialBodies :=
       [CelestialBody SUN_GAME_MASS 0 0 0 0 0 (MIN_PLAYER_MASS + 5e-10)
                      true false false];
     lastClickTime := 0;
     lastEjectionDecayTime := 0;
     currentEjectionMultiplier := 1;
     gameWon := false;
     playerIsGravitationalCenter := false;
     sunAbsorptionProgress := 0;
     gravityBlendFactor := 0;
     sunCurrentGameMass := SUN_GAME_MASS;
     collisionDetectedThisFrame := false;
     playerNeedsReset := false;
     currentGameSpeed := BASE_GAME_SPEED |}.

Definition clickEnv : Env :=
  {| now := 100; canvasWidth := 800; canvasHeight := 600;
     random := fun _ => 0.5 |}.

(** [G] and [SUN_GRAVITATIONAL_MASS] as the doubles the source literals
    denote. *)
#[local] Set Warnings "-inexact-float".
Definition G_f64 : float := (6.67430e-11 * 0.1)%float.
Definition SUN_GRAVITATIONAL_MASS_f64 : float := 1e20%float.
Definition BASE_GAME_SPEED_f64 : float := 0.1%float.
(** A 16 ms frame. *)
Definition frame_f64 : float := 0.016%float.
(** [Math.PI], and [MIN_PLAYER_MASS] as [initDerivedConstants] computes it
    in doubles. *)
Definition PI_f64 : float := 0x1.921fb54442d18p+1%float.
Definition MIN_PLAYER_MASS_f64 : float :=
  ((4 / 3) * PI_f64 * 27000 * 1000 * 0.1)%float.
Definition floorEpsilon_f64 : float := 1e-9%float.
#[local] Set Warnings "inexact-float".

(** The branch [checkSunAbsorption] takes: it does nothing ([Inactive]: game
    won, player or sun missing, or nothing to transfer), decays the blend
    because the player is too light ([NotEligible]) or too far
    ([OutOfRange]), or transfers game mass ([Absorbing]). *)
Inductive Phase : Type := Inactive | NotEligible | OutOfRange | Absorbing.

Definition absorptionPhase (dt : R) (s : State) : Phase :=
  if gameWon s then Inactive
  else
    match findIndex isPlayer (celestialBodies s),
          findIndex isSun (celestialBodies s) with
    | Some pi, Some si =>
      match nth_error (celestialBodies s) pi,
            nth_error (celestialBodies s) si with
      | Some player, Some sun =>
        if negb (canAbsorb player) then NotEligible
        else if Rgtb (playerSunDist player sun)
                     (absorptionRange (sunCurrentGameMass s) player sun)
        then OutOfRange
        else if Rleb (absorptionTransfer dt s player sun) 0 then Inactive
        else Absorbing
      | _, _ => Inactive
      end
    | _, _ => Inactive
    end.

(** A player of 0.8 sun game masses sitting on the sun after having absorbed
    30% of it and then having stayed out of range until the blend decayed
    to 0. *)
Definition reentryState : State :=
  {| celestialBodies :=
       [CelestialBody (0.7 * SUN_GAME_MASS) 0 0 0 0 0 (0.7 * SUN_GAME_MASS)
                      false true false;
        CelestialBody (0.7 * SUN_GAME_MASS) 0 0 0 0 0 (0.8 * SUN_GAME_MASS)
                      true false false];
     lastClickTime := 0;
     lastEjectionDecayTime := 0;
     currentEjectionMultiplier := 1;
     gameWon := false;
     playerIsGravitationalCenter := false;
     sunAbsorptionProgress := 0.3;
     gravityBlendFactor := 0;
     sunCurrentGameMass := 0.7 * SUN_GAME_MASS;
     collisionDetectedThisFrame := false;
     playerNeedsReset := false;
     currentGameSpeed := BASE_GAME_SPEED |}.

(** The sun at rest at the origin and a probe of mass 1000 on the circle of
    radius [d] around it, at [(d, 0)] with the tangential speed
    [sqrt(mu / d)] for the [mu] the solver uses for this pair while the
    blend is 0 and no player exists. *)
Definition probeMu : R := G * (SUN_GRAVITATIONAL_MASS * (1 - 0) + 1000).

Definition probeState (d : R) : State :=
  {| celestialBodies :=
       [CelestialBody SUN_GAME_MASS 0 0 0 0 0 SUN_GAME_MASS false true false;
        CelestialBody SUN_GAME_MASS 0 d 0 0 (sqrt (probeMu / d)) 1000
                      false false false];
     lastClickTime := 0;
     lastEjectionDecayTime := 0;
     currentEjectionMultiplier := 1;
     gameWon := false;
     playerIsGravitationalCenter := false;
     sunAbsorptionProgress := 0;
     gravityBlendFactor := 0;
     sunCurrentGameMass := SUN_GAME_MASS;
     collisionDetectedThisFrame := false;
     playerNeedsReset := false;
     currentGameSpeed := BASE_GAME_SPEED |}.

(** ** Role flags and the registry invariant *)

Definition countIf (p : Body -> bool) (l : list Body) : nat :=
  length (filter p l).

(** Two records of the same object at two times: the roles agree and a
    non-negative mass has stayed non-negative. *)
Definition evolved (c c' : Body) : Prop :=
  isPlayer c' = isPlayer c /\ isSun c' = isSun c /\ isSpark c' = isSpark c
  /\ isGravitationalCenter c' = isGravitationalCenter c
  /\ (0 <= mass c -> 0 <= mass c').

(** The combinations of roles the constructor calls of the sources produce:
    a spark is never the gravitational center, and the player is neither the
    sun nor a spark. *)
Definition flagsSane (c : Body) : Prop :=
  (isSpark c = true -> isGravitationalCenter c = false)
  /\ (isSun c = true -> isPlayer c = false)
  /\ (isPlayer c = true -> isSpark c = false).

(** A body that is not the player, not the sun and not the center, of
    non-negative mass. *)
Definition inert (c : Body) : Prop :=
  isPlayer c = false /\ isSun c = false /\ isGravitationalCenter c = false
  /\ 0 <= mass c.

(** The registry before the win: one sun, and the center flag is set on the
    sun and nowhere else. *)
Definition SunCentered (l : list Body) : Prop :=
  countIf isSun l = 1%nat
  /\ Forall (fun c => isGravitationalCenter c = isSun c) l.

(** The registry after the win: no sun, one center, and it is the player. *)
Definition PlayerCentered (l : list Body) : Prop :=
  Forall (fun c => isSun c = false) l
  /\ countIf isGravitationalCenter l = 1%nat
  /\ Forall (fun c => isGravitationalCenter c = true -> isPlayer c = true) l.

Definition RegistryInv (won : bool) (l : list Body) : Prop :=
  Forall flagsSane l
  /\ (countIf isPlayer l <= 1)%nat
  /\ (if won then PlayerCentered l else SunCentered l)
  /\ Forall (fun c => 0 <= mass c) l.

(** The invariant of the running game. *)
Definition Inv (s : State) : Prop :=
  RegistryInv (gameWon s) (celestialBodies s)
  /\ 0 <= gravityBlendFactor s <= 1
  /\ 0 <= sunCurrentGameMass s <= SUN_GAME_MASS
  /\ (gameWon s = true -> gravityBlendFactor s = 1).

(** The terminal state of the claim "win terminal". *)
Definition WinTerminal (s : State) : Prop :=
  Forall (fun c => isSun c = false) (celestialBodies s)
  /\ gravityBlendFactor s = 1
  /\ countIf isGravitationalCenter (celestialBodies s) = 1%nat
  /\ Forall (fun c => isGravitationalCenter c = true -> isPlayer c = true)
            (celestialBodies s)
  /\ (countIf isPlayer (celestialBodies s) <= 1)%nat.

(** A registry obtained from another by mutating objects without touching
    their roles and by removing objects that are not the center. *)
Inductive thinned : list Body -> list Body -> Prop :=
| thinned_nil : thinned [] []
| thinned_keep (c c' : Body) (l l' : list Body) :
    evolved c c' -> thinned l l' -> thinned (c :: l) (c' :: l')
| thinned_drop (c : Body) (l l' : list Body) :
    isGravitationalCenter c = false -> thinned l l' -> thinned (c :: l) l'.

(** A stage of the tick that thins the registry and leaves the win flag, the
    blend and the sun's game mass alone. *)
Definition stage (s s' : State) : Prop :=
  thinned (celestialBodies s) (celestialBodies s')
  /\ gameWon s' = gameWon s
  /\ gravityBlendFactor s' = gravityBlendFactor s
  /\ sunCurrentGameMass s' = sunCurrentGameMass s.

(** The state an outcome of the inner loop carries. *)
Definition outcomeState (o : PairOutcome) : State :=
  match o with
  | PairContinue s | PairBreak s _ | PairReturn s => s
  end.


(** The world point under the cursor, as [updateMousePosition] and
    [handleZoom] compute it from the screen position of the mouse. *)
Definition worldUnderCursor (e : Env) (v : View) : R * R :=
  ((screenMouseX v - canvasWidth e / 2) / camera_scale (camera v)
   + camera_x (camera v),
   (screenMouseY v - canvasHeight e / 2) / camera_scale (camera v)
   + camera_y (camera v)).

(** The screen position of a world point (physics.js, lines 112-113;
    ejection.js, lines 53-54). *)
Definition project (e : Env) (c : Camera) (w : R * R) : R * R :=
  ((fst w - camera_x c) * camera_scale c + canvasWidth e / 2,
   (snd w - camera_y c) * camera_scale c + canvasHeight e / 2).

(** A recorded orbit is a proper ellipse: finite positive semi-axes. *)
Definition properEllipse (h : HistoryEntry) : Prop :=
  exists a b, orbitA (params h) = Fin a /\ orbitB (params h) = Fin b
              /\ 0 < a /\ 0 < b.

(** A view at the start of a session, the mouse at the screen point
    (500, 200). *)
Definition someView : View :=
  {| mouseX := 0; mouseY := 0; screenMouseX := 500; screenMouseY := 200;
     camera := {| camera_x := 0; camera_y := 0; camera_scale := 1 |} |}.

(** What [populateSystem] promises of a body spawned around [centerBody]:
    it is an ordinary body created now, it lies between 3.5 and 18.5 base
    distances from the center, it moves at right angles to its radius
    vector relative to the center, and its mass lies between 2% and 250% of
    the player's initial mass. *)
Definition spawnedAround (e : Env) (sunMass : R) (centerBody b : Body) : Prop :=
  let baseDist := Rmax (radius sunMass centerBody) SUN_DISPLAY_RADIUS in
  let rx := x b - x centerBody in
  let ry := y b - y centerBody in
  ordinary b
  /\ creationTime b = now e
  /\ (3.5 * baseDist) ^ 2 <= rx * rx + ry * ry < (18.5 * baseDist) ^ 2
  /\ rx * (vx b - vx centerBody) + ry * (vy b - vy centerBody) = 0
  /\ 0.02 * PLAYER_INITIAL_MASS <= mass b < 2.5 * PLAYER_INITIAL_MASS.

(** ** The session invariant *)

(** The sun sits at the origin and does not move. *)
Definition atRest (c : Body) : Prop :=
  isSun c = true -> x c = 0 /\ y c = 0 /\ vx c = 0 /\ vy c = 0.

(** Two records of the same object at two times within a tick: the roles
    agree, a non-negative mass has stayed non-negative, and a sun that is
    not the player and was at rest is still where it was, at rest. *)
Definition settled (c c' : Body) : Prop :=
  evolved c c'
  /\ (isSun c = true -> isPlayer c = false -> vx c = 0 -> vy c = 0 ->
      x c' = x c /\ y c' = y c /\ vx c' = 0 /\ vy c' = 0).

(** A registry obtained from another by mutating objects as [settled]
    allows and by removing objects that are neither the player, nor the sun,
    nor the gravitational center. *)
Inductive kept : list Body -> list Body -> Prop :=
| kept_nil : kept [] []
| kept_keep (c c' : Body) (l l' : list Body) :
    settled c c' -> kept l l' -> kept (c :: l) (c' :: l')
| kept_drop (c : Body) (l l' : list Body) :
    isGravitationalCenter c = false -> isPlayer c = false ->
    isSun c = false -> kept l l' -> kept (c :: l) l'.

(** A stage of the tick that keeps the registry in this sense, leaves every
    global of the session alone except the two per-frame flags, and does not
    clear a pending reset request. *)
Definition sameSession (s s' : State) : Prop :=
  kept (celestialBodies s) (celestialBodies s')
  /\ gameWon s' = gameWon s
  /\ gravityBlendFactor s' = gravityBlendFactor s
  /\ sunCurrentGameMass s' = sunCurrentGameMass s
  /\ lastClickTime s' = lastClickTime s
  /\ lastEjectionDecayTime s' = lastEjectionDecayTime s
  /\ currentEjectionMultiplier s' = currentEjectionMultiplier s
  /\ playerIsGravitationalCenter s' = playerIsGravitationalCenter s
  /\ sunAbsorptionProgress s' = sunAbsorptionProgress s
  /\ currentGameSpeed s' = currentGameSpeed s
  /\ (playerNeedsReset s = true -> playerNeedsReset s' = true).

(** What holds of the session besides [Inv]: there is exactly one player,
    the sun is at rest at the origin, the combo multiplier lies in
    [1, MAX_EJECTION_MULTIPLIER], the game speed is one of the two speeds,
    the two win flags agree, and the absorption progress is the consumed
    share of the sun's game mass (above 0.98 once the game is won, when no
    game mass is left). *)
Definition SessionInv (s : State) : Prop :=
  countIf isPlayer (celestialBodies s) = 1%nat
  /\ Forall atRest (celestialBodies s)
  /\ 1 <= currentEjectionMultiplier s <= MAX_EJECTION_MULTIPLIER
  /\ (currentGameSpeed s = BASE_GAME_SPEED
      \/ currentGameSpeed s = FAST_GAME_SPEED)
  /\ playerIsGravitationalCenter s = gameWon s
  /\ (if gameWon s
      then 0.98 < sunAbsorptionProgress s <= 1 /\ sunCurrentGameMass s = 0
      else sunAbsorptionProgress s
           = 1 - sunCurrentGameMass s / SUN_GAME_MASS).

(** A player at or above the minimum mass. *)
Definition aboveFloor (c : Body) : Prop :=
  isPlayer c = true -> MIN_PLAYER_MASS <= mass c.

(** An invariant state in which a reset has been requested. *)
Definition flaggedState : State := set_playerNeedsReset true reentryState.

(** The sun's game mass that an absorbing call of [checkSunAbsorption]
    leaves before its win check: [sunCurrentGameMass - transfer]
    (line 75). *)
Definition gameMassAfterTransfer (dt : R) (s : State) : R :=
  match findIndex isPlayer (celestialBodies s),
        findIndex isSun (celestialBodies s) with
  | Some pi, Some si =>
    match nth_error (celestialBodies s) pi,
          nth_error (celestialBodies s) si with
    | Some player, Some sun =>
      sunCurrentGameMass s - absorptionTransfer dt s player sun
    | _, _ => sunCurrentGameMass s
    end
  | _, _ => sunCurrentGameMass s
  end.

(** The call of [checkSunAbsorption] that wins: an absorbing call whose
    transfer leaves the sun less than 2% of [SUN_GAME_MASS]. *)
Definition winningCall (dt : R) (s : State) : Prop :=
  absorptionPhase dt s = Absorbing
  /\ gameMassAfterTransfer dt s < SUN_GAME_MASS * 0.02.

(** A player of one sun game mass sitting on a sun that has 2.001% of its
    game mass left. *)
Definition nearWinState : State :=
  {| celestialBodies :=
       [CelestialBody (0.02001 * SUN_GAME_MASS) 0 0 0 0 0
                      (0.02001 * SUN_GAME_MASS) false true false;
        CelestialBody (0.02001 * SUN_GAME_MASS) 0 0 0 0 0 SUN_GAME_MASS
                      true false false];
     lastClickTime := 0;
     lastEjectionDecayTime := 0;
     currentEjectionMultiplier := 1;
     gameWon := false;
     playerIsGravitationalCenter := false;
     sunAbsorptionProgress := 0.97999;
     gravityBlendFactor := 0.97999;
     sunCurrentGameMass := 0.02001 * SUN_GAME_MASS;
     collisionDetectedThisFrame := false;
     playerNeedsReset := false;
     currentGameSpeed := BASE_GAME_SPEED |}.

(** Every player is the gravitational center. *)
Definition playersAreCenter (l : list Body) : Prop :=
  Forall (fun c => isPlayer c = true -> isGravitationalCenter c = true) l.



(** A session 100 ms after its start: the sun with its full game mass, the
    player with its initial mass 5000 below the sun, and an ordinary body of
    the same mass on the x axis, 280 from the sun's center and falling
    towards it at 10000 per second. *)
Definition infallState : State :=
  {| celestialBodies :=
       [CelestialBody SUN_GAME_MASS 0 0 0 0 0 SUN_GAME_MASS false true false;
        CelestialBody SUN_GAME_MASS 0 0 (- 5000) 365 0 PLAYER_INITIAL_MASS
                      true false false;
        CelestialBody SUN_GAME_MASS 0 280 0 (- 10000) 0 PLAYER_INITIAL_MASS
                      false false false];
     lastClickTime := 0;
     lastEjectionDecayTime := 0;
     currentEjectionMultiplier := 1;
     gameWon := false;
     playerIsGravitationalCenter := false;
     sunAbsorptionProgress := 0;
     gravityBlendFactor := 0;
     sunCurrentGameMass := SUN_GAME_MASS;
     collisionDetectedThisFrame := false;
     playerNeedsReset := false;
     currentGameSpeed := BASE_GAME_SPEED |}.

(** * Properties *)

(** ** Comparisons and constants *)

Lemma Rltb_true (u v : R) : u < v -> Rltb u v = true.
Proof. intros H. unfold Rltb. destruct (Rlt_dec u v); [reflexivity | lra]. Qed.

Lemma Rltb_false (u v : R) : v <= u -> Rltb u v = false.
Proof. intros H. unfold Rltb. destruct (Rlt_dec u v); [lra | reflexivity]. Qed.

Lemma Rleb_true (u v : R) : u <= v -> Rleb u v = true.
Proof. intros H. unfold Rleb. destruct (Rle_dec u v); [reflexivity | lra]. Qed.

Lemma Rleb_false (u v : R) : v < u -> Rleb u v = false.
Proof. intros H. unfold Rleb. destruct (Rle_dec u v); [lra | reflexivity]. Qed.

Lemma Rltb_iff (u v : R) : Rltb u v = true <-> u < v.
Proof. unfold Rltb. destruct (Rlt_dec u v); split; intros; try lra; congruence. Qed.

Lemma Rleb_iff (u v : R) : Rleb u v = true <-> u <= v.
Proof. unfold Rleb. destruct (Rle_dec u v); split; intros; try lra; congruence. Qed.

Lemma Rltb_iff_false (u v : R) : Rltb u v = false <-> v <= u.
Proof. unfold Rltb. destruct (Rlt_dec u v); split; intros; try lra; congruence. Qed.

Lemma Rleb_iff_false (u v : R) : Rleb u v = false <-> v < u.
Proof. unfold Rleb. destruct (Rle_dec u v); split; intros; try lra; congruence. Qed.

(** A quotient is the number whose product with the divisor is the
    dividend. *)
Lemma Rdiv_eq (u v w : R) : v <> 0 -> u = w * v -> u / v = w.
Proof.
  intros Hv ->. unfold Rdiv. rewrite Rmult_assoc, Rinv_r by exact Hv. ring.
Qed.

(** Case analysis on every comparison of the goal, closed by [lra]. *)
Ltac cmp_cases :=
  unfold Rgtb, Rgeb, Rltb, Rleb, Rmax, Rmin in *;
  repeat match goal with
         | |- context [Rlt_dec ?u ?v] => destruct (Rlt_dec u v)
         | |- context [Rle_dec ?u ?v] => destruct (Rle_dec u v)
         | H : context [Rlt_dec ?u ?v] |- _ => destruct (Rlt_dec u v)
         | H : context [Rle_dec ?u ?v] |- _ => destruct (Rle_dec u v)
         end;
  simpl in *; try congruence; try lra.

Lemma PI_gt_3 : 3 < PI.
Proof. generalize PI2_3_2. lra. Qed.

Lemma PLAYER_INITIAL_MASS_eq : PLAYER_INITIAL_MASS = 36000000 * PI.
Proof.
  unfold PLAYER_INITIAL_MASS, calculateMassFromRadius, PLAYER_RADIUS, DENSITY.
  rewrite Rmax_right by lra. simpl. field.
Qed.

Lemma PLAYER_INITIAL_MASS_pos : 108000000 < PLAYER_INITIAL_MASS.
Proof. rewrite PLAYER_INITIAL_MASS_eq. generalize PI_gt_3. lra. Qed.

Lemma MIN_BODY_MASS_pos : 0 < MIN_BODY_MASS.
Proof. unfold MIN_BODY_MASS. generalize PLAYER_INITIAL_MASS_pos. lra. Qed.

Lemma MIN_PLAYER_MASS_pos : 0 < MIN_PLAYER_MASS.
Proof. unfold MIN_PLAYER_MASS. generalize PLAYER_INITIAL_MASS_pos. lra. Qed.

Lemma MIN_BODY_lt_MIN_PLAYER : MIN_BODY_MASS < MIN_PLAYER_MASS.
Proof.
  unfold MIN_BODY_MASS, MIN_PLAYER_MASS. generalize PLAYER_INITIAL_MASS_pos. lra.
Qed.

Lemma SUN_GAME_MASS_pos : 0 < SUN_GAME_MASS.
Proof. unfold SUN_GAME_MASS. generalize PLAYER_INITIAL_MASS_pos. lra. Qed.

(** ** The registry: lookups after [update] and [splice1] *)

Lemma nth_error_update_eq (f : Body -> Body) (l : list Body) :
  forall i c, nth_error l i = Some c -> nth_error (update i f l) i = Some (f c).
Proof.
  induction l as [|h t IH]; intros [|i] c H; simpl in *; try discriminate.
  - congruence.
  - auto.
Qed.

Lemma nth_error_update_neq (f : Body -> Body) (l : list Body) :
  forall i k, i <> k -> nth_error (update i f l) k = nth_error l k.
Proof.
  induction l as [|h t IH]; intros [|i] [|k] H; simpl; auto; try congruence.
Qed.


Lemma totalMass_update (f : Body -> Body) (l : list Body) :
  forall i c, nth_error l i = Some c ->
    totalMass (update i f l) = totalMass l - mass c + mass (f c).
Proof.
  induction l as [|h t IH]; intros [|i] c H; simpl in *; try discriminate.
  - injection H as ->. lra.
  - rewrite (IH i c H). lra.
Qed.

Lemma totalMass_splice1 (l : list Body) :
  forall i c, nth_error l i = Some c ->
    totalMass (splice1 i l) = totalMass l - mass c.
Proof.
  induction l as [|h t IH]; intros [|i] c H; simpl in *; try discriminate.
  - injection H as ->. lra.
  - rewrite (IH i c H). lra.
Qed.

Lemma mass_set_mass (cur m : R) (c : Body) : mass (set_mass cur m c) = Rmax 0 m.
Proof. reflexivity. Qed.

Lemma mass_absorbVelocity (t : R) (small big : Body) :
  mass (absorbVelocity t small big) = mass big.
Proof.
  unfold absorbVelocity.
  destruct (isPlayer big && Rgtb t 0); [destruct (Rgtb _ _)|]; reflexivity.
Qed.

Lemma celestialBodies_set (l : list Body) (s : State) :
  celestialBodies (set_celestialBodies l s) = l.
Proof. reflexivity. Qed.

(** ** Collisions: the transfer *)

Lemma transferAmount_bounds (dt : R) (small : Body) :
  0 <= mass small -> 0 <= transferAmount dt small <= mass small.
Proof.
  intros H. unfold transferAmount. destruct (isSpark small); cmp_cases.
Qed.

Lemma transferAmount_spark (dt : R) (small : Body) :
  isSpark small = true -> 0 <= mass small -> transferAmount dt small = mass small.
Proof.
  intros Hs H. unfold transferAmount. rewrite Hs. cmp_cases.
Qed.

(** The masses at the two indices after [transferMass]. *)
Lemma transferMass_masses (t : R) (bigI smallI : nat) (big small : Body)
    (s : State) :
  bigI <> smallI ->
  nth_error (celestialBodies s) bigI = Some big ->
  nth_error (celestialBodies s) smallI = Some small ->
  exists big' small',
    nth_error (celestialBodies (transferMass t bigI smallI small s)) bigI
      = Some big'
    /\ nth_error (celestialBodies (transferMass t bigI smallI small s)) smallI
      = Some small'
    /\ mass big' = Rmax 0 (mass big + t)
    /\ mass small' = Rmax 0 (mass small - t).
Proof.
  intros Hne Hb Hs. unfold transferMass. simpl.
  eexists. eexists. split; [|split; [|split]].
  - rewrite nth_error_update_neq by auto.
    apply nth_error_update_eq. exact Hb.
  - apply nth_error_update_eq.
    rewrite nth_error_update_neq by auto. exact Hs.
  - rewrite mass_set_mass, mass_absorbVelocity. reflexivity.
  - rewrite mass_set_mass. reflexivity.
Qed.

Lemma transferMass_totalMass (t : R) (bigI smallI : nat) (big small : Body)
    (s : State) :
  bigI <> smallI ->
  nth_error (celestialBodies s) bigI = Some big ->
  nth_error (celestialBodies s) smallI = Some small ->
  0 <= mass big -> 0 <= t <= mass small ->
  totalMass (celestialBodies (transferMass t bigI smallI small s))
  = totalMass (celestialBodies s).
Proof.
  intros Hne Hb Hs Hm Ht. unfold transferMass. simpl.
  erewrite totalMass_update
    by (rewrite nth_error_update_neq by auto; exact Hs).
  erewrite totalMass_update by exact Hb.
  rewrite !mass_set_mass, mass_absorbVelocity.
  rewrite !Rmax_right by lra. lra.
Qed.

(** What [resolvePair] does once the pair is known to collide. *)
Lemma resolvePair_unfold (now : Z) (dt : R) (i j : nat) (s : State)
    (b1 b2 : Body) :
  nth_error (celestialBodies s) i = Some b1 ->
  nth_error (celestialBodies s) j = Some b2 ->
  resolvePair now dt i j s =
    if excluded now b1 b2 then PairContinue s
    else if negb (overlapping (sunCurrentGameMass s) b1 b2) then PairContinue s
    else
      let s1 := set_collisionDetectedThisFrame true s in
      let bigI := fst (bigOf i j b1 b2) in
      let big := snd (bigOf i j b1 b2) in
      let smallI := fst (smallOf i j b1 b2) in
      let small := snd (smallOf i j b1 b2) in
      if isGravitationalCenter small || isSpark big then PairContinue s1
      else
        let transfer := transferAmount dt small in
        let s2 := transferMass transfer bigI smallI small s1 in
        let small' :=
          set_mass (sunCurrentGameMass s) (mass small - transfer) small in
        if isPlayer small' && Rltb (mass small') MIN_PLAYER_MASS
        then PairReturn (set_playerNeedsReset true s2)
        else if Rleb (mass small') MIN_BODY_MASS
                || (isSpark small' && Rgeb transfer (mass small' * 0.99))
        then PairBreak
               (set_celestialBodies (splice1 smallI (celestialBodies s2)) s2)
               (if (smallI <? bigI)%nat then Nat.pred bigI else bigI)
        else PairContinue s2.
Proof.
  intros H1 H2. unfold resolvePair, bigOf, smallOf. rewrite H1, H2.
  destruct (excluded now b1 b2); [reflexivity|].
  destruct (negb (overlapping _ b1 b2)); [reflexivity|].
  destruct (Rgeb (mass b1) (mass b2)); reflexivity.
Qed.

Lemma big_small_indices (i j : nat) (b1 b2 : Body) (s : State) :
  (j < i)%nat ->
  nth_error (celestialBodies s) i = Some b1 ->
  nth_error (celestialBodies s) j = Some b2 ->
  fst (bigOf i j b1 b2) <> fst (smallOf i j b1 b2)
  /\ nth_error (celestialBodies s) (fst (bigOf i j b1 b2))
     = Some (snd (bigOf i j b1 b2))
  /\ nth_error (celestialBodies s) (fst (smallOf i j b1 b2))
     = Some (snd (smallOf i j b1 b2))
  /\ mass (snd (bigOf i j b1 b2)) + mass (snd (smallOf i j b1 b2))
     = mass b1 + mass b2.
Proof.
  intros Hlt H1 H2. unfold bigOf, smallOf.
  destruct (Rgeb (mass b1) (mass b2)); simpl; repeat split; auto; lia || lra.
Qed.

(** C1.  Mass conservation in collisions.  For a pair [(i, j)] of bodies with
    non-negative masses (as all masses of the running game are, see
    [reachable_masses] and [collision_masses] below), the transfer lies
    between 0 and the small body's mass; immediately after the transfer the
    big body has gained exactly what the small body has lost, so their
    combined mass is unchanged; the registry total is unchanged by every
    resolution that removes no body; and when the resolution removes the
    small body, the registry total drops by that body's residual mass only,
    which is zero for a spark (its whole mass has already been added to the
    big body). *)
Theorem collision_mass_conservation :
  forall (now : Z) (dt : R) (s : State) (i j : nat) (b1 b2 : Body),
    (j < i)%nat ->
    nth_error (celestialBodies s) i = Some b1 ->
    nth_error (celestialBodies s) j = Some b2 ->
    0 <= mass b1 -> 0 <= mass b2 ->
    let bigI := fst (bigOf i j b1 b2) in
    let big := snd (bigOf i j b1 b2) in
    let smallI := fst (smallOf i j b1 b2) in
    let small := snd (smallOf i j b1 b2) in
    let transfer := transferAmount dt small in
    0 <= transfer <= mass small
    /\ (exists big' small',
          nth_error (celestialBodies
                       (transferMass transfer bigI smallI small s)) bigI
            = Some big'
          /\ nth_error (celestialBodies
                          (transferMass transfer bigI smallI small s)) smallI
            = Some small'
          /\ mass big' = mass big + transfer
          /\ mass small' = mass small - transfer
          /\ mass big' + mass small' = mass b1 + mass b2)
    /\ match resolvePair now dt i j s with
       | PairContinue s' | PairReturn s' =>
         totalMass (celestialBodies s') = totalMass (celestialBodies s)
       | PairBreak s' _ =>
         totalMass (celestialBodies s')
           = totalMass (celestialBodies s) - (mass small - transfer)
         /\ (isSpark small = true ->
             totalMass (celestialBodies s') = totalMass (celestialBodies s))
       end.
Proof.
  intros now dt s i j b1 b2 Hlt H1 H2 Hm1 Hm2 bigI big smallI small transfer.
  destruct (big_small_indices i j b1 b2 s Hlt H1 H2) as (Hne & Hb & Hs & Hsum).
  fold bigI smallI big small in Hne, Hb, Hs, Hsum.
  assert (Hmb : 0 <= mass big /\ 0 <= mass small).
  { unfold big, small, bigOf, smallOf.
    destruct (Rgeb (mass b1) (mass b2)); simpl; lra. }
  destruct Hmb as [Hmb Hms].
  assert (Ht : 0 <= transfer <= mass small)
    by (apply transferAmount_bounds; exact Hms).
  split; [exact Ht|]. split.
  - destruct (transferMass_masses transfer bigI smallI big small s Hne Hb Hs)
      as (big' & small' & E1 & E2 & E3 & E4).
    exists big', small'. rewrite E3, E4, !Rmax_right by lra.
    repeat split; auto; lra.
  - rewrite (resolvePair_unfold now dt i j s b1 b2 H1 H2).
    fold bigI smallI big small transfer.
    destruct (excluded now b1 b2); [reflexivity|].
    destruct (negb (overlapping _ b1 b2)); [reflexivity|].
    cbv zeta.
    destruct (isGravitationalCenter small || isSpark big); [reflexivity|].
    pose proof (transferMass_totalMass transfer bigI smallI big small
                  (set_collisionDetectedThisFrame true s) Hne Hb Hs Hmb Ht)
      as Htot.
    simpl celestialBodies in Htot at 2.
    destruct (isPlayer _ && Rltb _ MIN_PLAYER_MASS); [exact Htot|].
    destruct (Rleb _ MIN_BODY_MASS || _); [|exact Htot].
    destruct (transferMass_masses transfer bigI smallI big small
                (set_collisionDetectedThisFrame true s) Hne Hb Hs)
      as (big' & small' & E1 & E2 & E3 & E4).
    rewrite celestialBodies_set. fold transfer.
    rewrite (totalMass_splice1 _ _ _ E2), Htot, E4, Rmax_right by lra.
    split; [reflexivity|].
    intros Hsp. unfold transfer.
    rewrite (transferAmount_spark dt small Hsp Hms). lra.
Qed.

(** ** Collisions: the scenario of two ordinary bodies *)

Lemma excluded_ordinary (now : Z) (c1 c2 : Body) :
  ordinary c1 -> ordinary c2 ->
  immune now c1 = false -> immune now c2 = false ->
  excluded now c1 c2 = false.
Proof.
  intros (P1 & S1 & K1 & C1) (P2 & S2 & K2 & C2) I1 I2.
  unfold excluded. rewrite I1, I2, P1, P2, K1, K2. reflexivity.
Qed.

(** One heavier and one lighter ordinary body that overlap: the pair
    resolution with [dt = 1/2] moves the whole lighter mass and removes the
    lighter body. *)
Lemma resolvePair_absorbs (now : Z) (s : State) (i j : nat) (b1 b2 : Body) :
  (j < i)%nat ->
  nth_error (celestialBodies s) i = Some b1 ->
  nth_error (celestialBodies s) j = Some b2 ->
  ordinary b1 -> ordinary b2 ->
  immune now b1 = false -> immune now b2 = false ->
  overlapping (sunCurrentGameMass s) b1 b2 = true ->
  let small := snd (smallOf i j b1 b2) in
  0 <= mass small ->
  transferAmount (1 / 2) small = mass small
  /\ resolvePair now (1 / 2) i j s =
     PairBreak
       (set_celestialBodies
          (splice1 (fst (smallOf i j b1 b2))
             (celestialBodies
                (transferMass (mass small) (fst (bigOf i j b1 b2))
                   (fst (smallOf i j b1 b2)) small
                   (set_collisionDetectedThisFrame true s))))
          (transferMass (mass small) (fst (bigOf i j b1 b2))
             (fst (smallOf i j b1 b2)) small
             (set_collisionDetectedThisFrame true s)))
       (if (fst (smallOf i j b1 b2) <? fst (bigOf i j b1 b2))%nat
        then Nat.pred (fst (bigOf i j b1 b2)) else fst (bigOf i j b1 b2)).
Proof.
  intros Hlt H1 H2 O1 O2 I1 I2 Hov small Hms.
  assert (Ht : transferAmount (1 / 2) small = mass small).
  { unfold transferAmount, MASS_TRANSFER_PERCENT_PER_SEC.
    destruct (isSpark small); cmp_cases. }
  split; [exact Ht|].
  rewrite (resolvePair_unfold now (1 / 2) i j s b1 b2 H1 H2).
  rewrite (excluded_ordinary now b1 b2 O1 O2 I1 I2), Hov. cbv zeta.
  fold small. rewrite Ht.
  assert (Hflags : isGravitationalCenter small = false
                   /\ isSpark (snd (bigOf i j b1 b2)) = false
                   /\ isPlayer small = false).
  { destruct O1 as (P1 & S1 & K1 & C1), O2 as (P2 & S2 & K2 & C2).
    unfold small, smallOf, bigOf.
    destruct (Rgeb (mass b1) (mass b2)); simpl; auto. }
  destruct Hflags as (Hc & Hk & Hp).
  rewrite Hc, Hk. simpl.
  rewrite Hp. simpl.
  replace (mass small - mass small) with 0 by lra.
  rewrite (Rmax_left 0 0) by lra.
  rewrite (Rleb_true 0 MIN_BODY_MASS)
    by (generalize MIN_BODY_MASS_pos; lra).
  reflexivity.
Qed.

(** C6.  Two overlapping, non-immune ordinary bodies of masses 100 and 10
    (in either registry order) with [dt = 0.5]: the transfer is
    [min(10, 10 * 4.0 * 0.5) = 10], the masses after the transfer are 110 and
    0, and [checkCollisions] leaves a registry that holds the big body alone,
    with mass 110. *)
Theorem collision_scenario_100_10 :
  forall (now : Z) (s : State) (c1 c2 : Body),
    celestialBodies s = [c1; c2] ->
    (mass c1 = 100 /\ mass c2 = 10) \/ (mass c1 = 10 /\ mass c2 = 100) ->
    ordinary c1 -> ordinary c2 ->
    immune now c1 = false -> immune now c2 = false ->
    overlapping (sunCurrentGameMass s) c2 c1 = true ->
    let small := snd (smallOf 1 0 c2 c1) in
    let smallI := fst (smallOf 1 0 c2 c1) in
    let bigI := fst (bigOf 1 0 c2 c1) in
    mass small = 10
    /\ transferAmount 0.5 small = Rmin 10 (10 * 4.0 * 0.5)
    /\ transferAmount 0.5 small = 10
    /\ (exists big' small',
          celestialBodies
            (transferMass 10 bigI smallI small
               (set_collisionDetectedThisFrame true s))
          = (if (bigI =? 0)%nat then [big'; small'] else [small'; big'])
          /\ mass big' = 110 /\ mass small' = 0
          /\ celestialBodies (checkCollisions now 0.5 s) = [big']).
Proof.
  intros now s c1 c2 Hl Hm O1 O2 I1 I2 Hov small smallI bigI.
  assert (H1 : nth_error (celestialBodies s) 1 = Some c2)
    by (rewrite Hl; reflexivity).
  assert (H0 : nth_error (celestialBodies s) 0 = Some c1)
    by (rewrite Hl; reflexivity).
  assert (Hsmall : mass small = 10
                   /\ mass (snd (bigOf 1 0 c2 c1)) = 100).
  { unfold small, smallOf, bigOf.
    unfold Rgeb.
    destruct Hm as [[E1 E2]|[E1 E2]]; rewrite E1, E2.
    - rewrite (Rleb_false 100 10) by lra. simpl. auto.
    - rewrite (Rleb_true 10 100) by lra. simpl. auto. }
  destruct Hsmall as [Hs10 Hb100].
  replace 0.5 with (1 / 2) by lra.
  destruct (resolvePair_absorbs now s 1 0 c2 c1 (Nat.lt_0_succ 0) H1 H0
              O2 O1 I2 I1 Hov) as [Ht Hres].
  { fold small. lra. }
  fold small smallI bigI in Ht, Hres.
  rewrite Hs10 in Ht, Hres.
  split; [exact Hs10|]. split.
  { rewrite Ht. unfold Rmin. destruct (Rle_dec 10 _); lra. }
  split; [exact Ht|].
  unfold checkCollisions. rewrite Hl. simpl length.
  change (outerLoop 2 now (1 / 2) 2 s) with
    (match nth_error (celestialBodies s) 1 with
     | None => outerLoop 1 now (1 / 2) 1 s
     | Some _ =>
       match innerLoop now (1 / 2) 1 1 s with
       | PairReturn s' => s'
       | PairContinue s' =>
         if playerNeedsReset s' then s' else outerLoop 1 now (1 / 2) 1 s'
       | PairBreak s' bigI =>
         if playerNeedsReset s' then s' else outerLoop 1 now (1 / 2) bigI s'
       end
     end).
  rewrite H1.
  change (innerLoop now (1 / 2) 1 1 s) with
    (match resolvePair now (1 / 2) 1 0 s with
     | PairContinue s' => innerLoop now (1 / 2) 1 0 s'
     | o => o
     end).
  rewrite Hres.
  assert (HbigI : (bigI = 0%nat /\ smallI = 1%nat)
                  \/ (bigI = 1%nat /\ smallI = 0%nat)).
  { unfold bigI, smallI, bigOf, smallOf.
    destruct (Rgeb (mass c2) (mass c1)); simpl; auto. }
  assert (Hbig0 : nth_error (celestialBodies s) bigI
                  = Some (snd (bigOf 1 0 c2 c1))
                  /\ nth_error (celestialBodies s) smallI = Some small).
  { unfold bigI, smallI, small, bigOf, smallOf.
    destruct (Rgeb (mass c2) (mass c1)); simpl; auto. }
  destruct Hbig0 as [Hbg Hsm].
  set (big := snd (bigOf 1 0 c2 c1)) in *.
  clearbody big small bigI smallI.
  assert (Emasses : forall cur big0,
            mass big0 = 100 ->
            mass (set_mass cur (mass (absorbVelocity 10 small big0) + 10)
                           (absorbVelocity 10 small big0)) = 110
            /\ mass (set_mass cur (mass small - 10) small) = 0).
  { intros cur big0 E. rewrite !mass_set_mass, mass_absorbVelocity, E, Hs10.
    replace (10 - 10) with 0 by lra.
    rewrite Rmax_right by lra. rewrite Rmax_left by lra. split; lra. }
  destruct HbigI as [[-> ->]|[-> ->]]; rewrite Hl in Hbg, Hsm;
    simpl in Hbg, Hsm; injection Hbg as <-; injection Hsm as <-;
    unfold transferMass; rewrite !celestialBodies_set;
    simpl celestialBodies; rewrite Hl; simpl;
    (eexists; eexists; split; [reflexivity|]);
    destruct (Emasses (sunCurrentGameMass s) _ Hb100) as [E110 E0];
    (split; [exact E110|]); (split; [exact E0|]);
    destruct (playerNeedsReset s); reflexivity.
Qed.

Lemma radius_not_sun (cur : R) (c : Body) :
  isSun c = false -> 0.5 <= radius cur c.
Proof. intros H. unfold radius. rewrite H. apply Rmax_l. Qed.

Lemma radius_sun (cur : R) (c : Body) :
  isSun c = true -> 1 <= radius cur c.
Proof. intros H. unfold radius. rewrite H. apply Rmax_l. Qed.

Lemma radius_pos (cur : R) (c : Body) : 0.5 <= radius cur c.
Proof.
  destruct (isSun c) eqn:E.
  - generalize (radius_sun cur c E). lra.
  - apply radius_not_sun; exact E.
Qed.

(** Two bodies at the same position overlap. *)
Lemma overlapping_same_position (cur : R) (c1 c2 : Body) :
  x c1 = x c2 -> y c1 = y c2 -> overlapping cur c1 c2 = true.
Proof.
  intros Hx Hy. unfold overlapping. rewrite Hx, Hy.
  generalize (radius_pos cur c1) (radius_pos cur c2). intros R1 R2.
  unfold Rgeb. rewrite Rleb_false; [reflexivity|]. nra.
Qed.

Lemma collision_mass_conservation_witness :
  totalMass (celestialBodies
               (transferMass (transferAmount 0.5 (scenarioBody 10)) 0 1
                             (scenarioBody 10) scenarioState))
  = totalMass (celestialBodies scenarioState)
  /\ match resolvePair 1000 0.5 1 0 scenarioState with
     | PairBreak s' _ =>
       totalMass (celestialBodies s')
       = totalMass (celestialBodies scenarioState)
         - (10 - transferAmount 0.5 (scenarioBody 10))
     | _ => True
     end.
Proof.
  assert (E : smallOf 1 0 (scenarioBody 10) (scenarioBody 100)
              = (1%nat, scenarioBody 10)
              /\ bigOf 1 0 (scenarioBody 10) (scenarioBody 100)
                 = (0%nat, scenarioBody 100)).
  { unfold smallOf, bigOf, Rgeb. simpl. rewrite Rleb_false by lra. auto. }
  destruct E as [Es Eb].
  pose proof (collision_mass_conservation 1000 0.5 scenarioState 1 0
                (scenarioBody 10) (scenarioBody 100) (Nat.lt_0_succ 0)
                eq_refl eq_refl) as H.
  simpl mass in H. specialize (H ltac:(lra) ltac:(lra)).
  cbv zeta in H. rewrite Es, Eb in H. simpl fst in H. simpl snd in H.
  destruct H as (Ht & (big' & small' & E1 & E2 & E3 & E4 & E5) & Hout).
  split.
  - unfold transferMass. rewrite celestialBodies_set.
    unfold transferMass in E1, E2. rewrite celestialBodies_set in E1, E2.
    simpl in E1, E2. injection E1 as <-. injection E2 as <-.
    simpl in E5. simpl. lra.
  - destruct (resolvePair 1000 0.5 1 0 scenarioState); auto.
    destruct Hout as [Hout _]. exact Hout.
Defined.

Lemma collision_scenario_100_10_witness :
  exists big',
    celestialBodies (checkCollisions 1000 0.5 scenarioState) = [big']
    /\ mass big' = 110.
Proof.
  destruct (collision_scenario_100_10 1000 scenarioState
              (scenarioBody 100) (scenarioBody 10) eq_refl)
    as (_ & _ & _ & big' & small' & _ & E110 & _ & Hc).
  - left. split; reflexivity.
  - repeat split.
  - repeat split.
  - reflexivity.
  - reflexivity.
  - apply overlapping_same_position; reflexivity.
  - exists big'. split; [exact Hc | exact E110].
Defined.

(** ** Collisions and the game speed *)

Section GameSpeed.

Variable v : R.

Lemma resolvePair_speed (now : Z) (dt : R) (i j : nat) (s : State) :
  resolvePair now dt i j (set_currentGameSpeed v s)
  = mapOutcome (set_currentGameSpeed v) (resolvePair now dt i j s).
Proof.
  unfold resolvePair. simpl celestialBodies. simpl sunCurrentGameMass.
  destruct (nth_error (celestialBodies s) i) as [b1|]; [|reflexivity].
  destruct (nth_error (celestialBodies s) j) as [b2|]; [|reflexivity].
  destruct (excluded now b1 b2); [reflexivity|].
  destruct (negb (overlapping _ b1 b2)); [reflexivity|].
  destruct (Rgeb (mass b1) (mass b2));
    match goal with
    | |- context [isGravitationalCenter ?c || isSpark ?d] =>
      destruct (isGravitationalCenter c || isSpark d); [reflexivity|]
    end;
    match goal with
    | |- context [isPlayer ?c && Rltb ?m MIN_PLAYER_MASS] =>
      destruct (isPlayer c && Rltb m MIN_PLAYER_MASS); [reflexivity|]
    end;
    match goal with
    | |- context [Rleb ?m MIN_BODY_MASS || ?c] =>
      destruct (Rleb m MIN_BODY_MASS || c); reflexivity
    end.
Qed.

Lemma innerLoop_speed (now : Z) (dt : R) (i : nat) :
  forall n s,
    innerLoop now dt i n (set_currentGameSpeed v s)
    = mapOutcome (set_currentGameSpeed v) (innerLoop now dt i n s).
Proof.
  induction n as [|j IH]; intros s; simpl; [reflexivity|].
  rewrite resolvePair_speed.
  destruct (resolvePair now dt i j s); simpl; auto.
Qed.

Lemma outerLoop_speed (now : Z) (dt : R) :
  forall fuel n s,
    outerLoop fuel now dt n (set_currentGameSpeed v s)
    = set_currentGameSpeed v (outerLoop fuel now dt n s).
Proof.
  induction fuel as [|fuel IH]; intros n s; simpl; [reflexivity|].
  destruct n as [|i]; [reflexivity|].
  destruct (nth_error (celestialBodies s) i); [|apply IH].
  rewrite innerLoop_speed.
  destruct (innerLoop now dt i i s) as [s'|s' bigI|s']; simpl;
    try reflexivity; destruct (playerNeedsReset s'); auto.
Qed.

End GameSpeed.

(** ** The registry: [find] *)

Lemma findIndex_Some (p : Body -> bool) (l : list Body) :
  forall i, findIndex p l = Some i ->
    exists c, nth_error l i = Some c /\ p c = true.
Proof.
  induction l as [|h t IH]; intros i H; simpl in H; [discriminate|].
  destruct (p h) eqn:E.
  - injection H as <-. exists h. auto.
  - destruct (findIndex p t) as [k|]; [|discriminate].
    injection H as <-. apply (IH k eq_refl).
Qed.

Lemma findIndex_update (p : Body -> bool) (f : Body -> Body) (l : list Body) :
  forall i c, findIndex p l = Some i -> nth_error l i = Some c ->
    p (f c) = true -> findIndex p (update i f l) = Some i.
Proof.
  induction l as [|h t IH]; intros i c H Hn Hp; simpl in H; [discriminate|].
  destruct (p h) eqn:E.
  - injection H as <-. simpl in Hn. injection Hn as ->. simpl. now rewrite Hp.
  - destruct (findIndex p t) as [k|] eqn:Ek; [|discriminate].
    injection H as <-. simpl in Hn. simpl. rewrite E.
    now rewrite (IH k c eq_refl Hn Hp).
Qed.

Lemma findIndex_app (p : Body -> bool) (l l' : list Body) :
  forall i, findIndex p l = Some i -> findIndex p (l ++ l') = Some i.
Proof.
  induction l as [|h t IH]; intros i H; simpl in *; [discriminate|].
  destruct (p h); [exact H|].
  destruct (findIndex p t) as [k|]; [|discriminate].
  now rewrite (IH k eq_refl).
Qed.

Lemma nth_error_app_l (l l' : list Body) (i : nat) (c : Body) :
  nth_error l i = Some c -> nth_error (l ++ l') i = Some c.
Proof.
  intros H. rewrite nth_error_app1; [exact H|].
  apply nth_error_Some. congruence.
Qed.

Lemma findBody_Some (p : Body -> bool) (l : list Body) (i : nat) (c : Body) :
  findBody p l = Some (i, c) <->
  findIndex p l = Some i /\ nth_error l i = Some c.
Proof.
  unfold findBody. split.
  - destruct (findIndex p l) as [k|]; [|discriminate].
    destruct (nth_error l k) eqn:E; simpl; [|discriminate].
    intros H. injection H as <- <-. auto.
  - intros [-> ->]. reflexivity.
Qed.

(** ** Ejection *)

(** The player after an ejection of [ejectedMass] is the old player with the
    mass reduced through the setter and, possibly, a new velocity. *)
Lemma performEjection_player (env : Env) (angle : R) (pi : nat)
    (player : Body) (ejectedMass : R) (s : State) :
  findIndex isPlayer (celestialBodies s) = Some pi ->
  nth_error (celestialBodies s) pi = Some player ->
  exists player',
    findBody isPlayer (performEjection env angle pi player ejectedMass s)
    = Some (pi, player')
    /\ mass player' = Rmax 0 (mass player - ejectedMass).
Proof.
  intros Hf Hn. unfold performEjection.
  destruct (findIndex_Some _ _ _ Hf) as (c & Hc & Hp).
  assert (c = player) by congruence. subst c.
  match goal with
  | |- context [update pi (fun _ => ?q) _] => set (player' := q)
  end.
  assert (Hflag : isPlayer player' = true /\
                  mass player' = Rmax 0 (mass player - ejectedMass)).
  { unfold player'. destruct (Rgtb _ 1e-9); simpl; auto. }
  destruct Hflag as [Hpl Hm].
  exists player'. split; [|exact Hm].
  apply findBody_Some. split.
  - apply findIndex_app.
    apply (findIndex_update isPlayer _ _ pi player Hf Hn Hpl).
  - apply nth_error_app_l. apply (nth_error_update_eq _ _ pi player Hn).
Qed.

(** C7.  The ejection mass floor.  When the player exists with a mass of at
    least [MIN_PLAYER_MASS], after [ejectMass] the player is still the body
    [find] returns (same index) and its mass is still at least
    [MIN_PLAYER_MASS]. *)
Theorem ejectMass_keeps_floor :
  forall (env : Env) (angle : R) (s : State) (pi : nat) (player : Body),
    findBody isPlayer (celestialBodies s) = Some (pi, player) ->
    MIN_PLAYER_MASS <= mass player ->
    exists player',
      findBody isPlayer (celestialBodies (ejectMass env angle s))
      = Some (pi, player')
      /\ MIN_PLAYER_MASS <= mass player'.
Proof.
  intros env angle s pi player Hfb Hm.
  destruct (proj1 (findBody_Some _ _ _ _) Hfb) as [Hf Hn].
  unfold ejectMass. rewrite Hf, Hn.
  destruct (Rleb (mass player) MIN_PLAYER_MASS) eqn:Hle.
  { exists player. auto. }
  apply Rleb_iff_false in Hle.
  set (s1 := set_currentEjectionMultiplier _ s).
  set (requested := requestedEjection _ _).
  destruct (Rltb (mass player - requested) MIN_PLAYER_MASS) eqn:Hfl;
    cbv zeta; simpl andb; cbv iota.
  - destruct (Rleb (mass player - MIN_PLAYER_MASS) 1e-9).
    + exists player. auto.
    + change (celestialBodies (set_lastClickTime ?t (set_celestialBodies ?l ?q)))
        with l.
      destruct (performEjection_player env angle pi player
                  (mass player - MIN_PLAYER_MASS) s1 Hf Hn)
        as (player' & Hfb' & Hm').
      exists player'. split; [exact Hfb'|]. rewrite Hm'.
      replace (mass player - (mass player - MIN_PLAYER_MASS))
        with MIN_PLAYER_MASS by lra.
      apply Rmax_r.
  - apply Rltb_iff_false in Hfl.
    change (celestialBodies (set_lastClickTime ?t (set_celestialBodies ?l ?q)))
      with l.
    destruct (performEjection_player env angle pi player requested s1 Hf Hn)
      as (player' & Hfb' & Hm').
    exists player'. split; [exact Hfb'|]. rewrite Hm'.
    eapply Rle_trans; [exact Hfl | apply Rmax_r].
Qed.

(** The floor in doubles.  With the constants of constants.js, the double
    next above [MIN_PLAYER_MASS] exceeds it by more than the [1e-9] of
    line 37 (by about 1.86e-9): a player mass that is a double is either at
    most [MIN_PLAYER_MASS] or leaves an ejectable amount above [1e-9]. *)
Lemma floor_abort_window_f64 :
  PrimFloat.ltb floorEpsilon_f64
    (PrimFloat.sub (PrimFloat.next_up MIN_PLAYER_MASS_f64) MIN_PLAYER_MASS_f64)
  = true.
Proof. vm_compute. reflexivity. Qed.

Lemma ejectMass_keeps_floor_witness :
  exists player',
    findBody isPlayer (celestialBodies (ejectMass clickEnv 0 abortState))
    = Some (0%nat, player')
    /\ MIN_PLAYER_MASS <= mass player'.
Proof.
  apply (ejectMass_keeps_floor clickEnv 0 abortState 0 _ eq_refl).
  simpl. lra.
Defined.

(** ** Gravity at zero separation *)

(** C4, evaluated in IEEE-754 doubles.  A body that sits exactly on the sun
    (here both at [(3.5, -2)], sun weight 1, a 16 ms frame at base speed):
    [dist = sqrt(0 + 1e-6)] passes the [dist > 0] guard, the acceleration
    [G * effectiveGravMass / distSq] divides by the unfloored [distSq = 0]
    and is [Infinity], and [acc * dx = Infinity * 0] makes both velocity
    components [NaN]. *)
Theorem gravityKick_coincident_is_NaN :
  let kick :=
    gravityKick G_f64 (SUN_GRAVITATIONAL_MASS_f64 * (1 - 0))%float
                3.5%float (-2)%float 3.5%float (-2)%float
                10%float 20%float (frame_f64 * BASE_GAME_SPEED_f64)%float in
  PrimFloat.is_nan (fst kick) = true /\ PrimFloat.is_nan (snd kick) = true.
Proof. vm_compute. split; reflexivity. Qed.

(** The same over the reals: the epsilon under the square root does not bound
    the acceleration.  For every bound there is a body close to the source
    whose velocity changes by more than the bound in one step. *)
Lemma gravityKick_unbounded (effMass gameDt bound : R) :
  0 < effMass -> 0 < gameDt -> 0 < bound ->
  exists d : R,
    0 < d /\ bound < fst (gravityKick G effMass 0 0 (- d) 0 0 0 gameDt).
Proof.
  intros He Hdt Hb.
  assert (HG : 0 < G) by (unfold G; lra).
  set (k := G * effMass * gameDt).
  assert (Hk : 0 < k).
  { unfold k. apply Rmult_lt_0_compat; [apply Rmult_lt_0_compat|]; assumption. }
  set (d := Rmin 1 (k / (4 * bound))).
  assert (Hd : 0 < d <= 1 /\ d <= k / (4 * bound)).
  { unfold d. split; [split|].
    - apply Rmin_glb_lt; [lra|]. apply Rdiv_lt_0_compat; lra.
    - apply Rmin_l.
    - apply Rmin_r. }
  destruct Hd as [[Hd0 Hd1] Hdk].
  exists d. split; [exact Hd0|].
  unfold gravityKick. simpl.
  replace (0 - - d) with d by lra. replace (0 - 0) with 0 by lra.
  replace (d * d + 0 * 0) with (d * d) by lra.
  set (r := sqrt (d * d + 1e-6)).
  assert (Hr : 0 < r < 2).
  { unfold r. split.
    - apply sqrt_lt_R0. nra.
    - replace 2 with (sqrt 4) by (replace 4 with (2 * 2) by lra;
                                   apply sqrt_square; lra).
      apply sqrt_lt_1; nra. }
  unfold Rgtb. rewrite (Rltb_true 0 r) by lra. simpl.
  assert (Hb4 : bound * (4 * d) <= k).
  { apply (Rmult_le_compat_r (4 * bound)) in Hdk; [|lra].
    unfold Rdiv in Hdk. rewrite Rmult_assoc, Rinv_l in Hdk by lra. lra. }
  replace (0 + G * effMass / (d * d) * d / r * gameDt) with (k / (d * r)).
  2:{ unfold k. field. split; lra. }
  apply (Rmult_lt_reg_r (d * r)); [nra|].
  unfold Rdiv. rewrite Rmult_assoc, Rinv_l by nra. nra.
Qed.

(** ** Sun absorption and the gravity blend *)

Lemma applyAbsorption_mass (t : R) (pi si : nat) (sun : Body) (s : State) :
  sunCurrentGameMass (applyAbsorption t pi si sun s) = sunCurrentGameMass s - t.
Proof. reflexivity. Qed.

Lemma applyAbsorption_blend (t : R) (pi si : nat) (sun : Body) (s : State) :
  gravityBlendFactor (applyAbsorption t pi si sun s)
  = Rmin 1 (1 - (sunCurrentGameMass s - t) / SUN_GAME_MASS).
Proof. reflexivity. Qed.

Lemma applyAbsorption_progress (t : R) (pi si : nat) (sun : Body) (s : State) :
  sunAbsorptionProgress (applyAbsorption t pi si sun s)
  = 1 - (sunCurrentGameMass s - t) / SUN_GAME_MASS.
Proof. reflexivity. Qed.

Lemma winTransition_blend (pi si : nat) (s : State) :
  gravityBlendFactor (winTransition pi si s) = 1.
Proof. reflexivity. Qed.

Lemma winTransition_mass (pi si : nat) (s : State) :
  sunCurrentGameMass (winTransition pi si s) = 0.
Proof. reflexivity. Qed.

Lemma absorptionTransfer_bounds (dt : R) (s : State) (player sun : Body) :
  0 <= sunCurrentGameMass s ->
  0 <= absorptionTransfer dt s player sun <= sunCurrentGameMass s.
Proof.
  intros H. unfold absorptionTransfer. cbv zeta.
  set (t := sunCurrentGameMass s * _ * _). clearbody t.
  cmp_cases.
Qed.

(** What one call of [checkSunAbsorption] does to the blend.  With [0 <= dt],
    the blend in [0, 1] and the sun's game mass in [0, SUN_GAME_MASS], the
    call keeps the blend in [0, 1]; it leaves the blend alone when inactive,
    lowers it by at most [0.5 * dt] when the player is not eligible and by at
    most [0.3 * dt] when out of range; and when absorbing it assigns the
    absorption progress after the call (1 at the win) to the blend, whatever
    the blend was. *)
Lemma gravityBlendFactor_step :
  forall (dt : R) (s : State),
    0 <= dt ->
    0 <= gravityBlendFactor s <= 1 ->
    0 <= sunCurrentGameMass s <= SUN_GAME_MASS ->
    let s' := checkSunAbsorption dt s in
    0 <= gravityBlendFactor s' <= 1
    /\ 0 <= sunCurrentGameMass s' <= sunCurrentGameMass s
    /\ match absorptionPhase dt s with
       | Inactive => gravityBlendFactor s' = gravityBlendFactor s
       | NotEligible =>
         gravityBlendFactor s' = Rmax 0 (gravityBlendFactor s - 0.5 * dt)
         /\ gravityBlendFactor s - 0.5 * dt <= gravityBlendFactor s'
            <= gravityBlendFactor s
       | OutOfRange =>
         gravityBlendFactor s' = Rmax 0 (gravityBlendFactor s - 0.3 * dt)
         /\ gravityBlendFactor s - 0.3 * dt <= gravityBlendFactor s'
            <= gravityBlendFactor s
       | Absorbing =>
         gravityBlendFactor s' = 1 - sunCurrentGameMass s' / SUN_GAME_MASS
         /\ sunCurrentGameMass s' < sunCurrentGameMass s
         /\ (gravityBlendFactor s = 1 - sunCurrentGameMass s / SUN_GAME_MASS ->
             gravityBlendFactor s' - gravityBlendFactor s
             = (sunCurrentGameMass s - sunCurrentGameMass s') / SUN_GAME_MASS)
       end.
Proof.
  intros dt s Hdt Hg Hc s'. subst s'.
  unfold checkSunAbsorption, absorptionPhase.
  destruct (gameWon s); [repeat split; lra|].
  destruct (findIndex isPlayer (celestialBodies s)) as [pi|];
    [|repeat split; lra].
  destruct (findIndex isSun (celestialBodies s)) as [si|];
    [|repeat split; lra].
  destruct (nth_error (celestialBodies s) pi) as [player|];
    [|repeat split; lra].
  destruct (nth_error (celestialBodies s) si) as [sun|];
    [|repeat split; lra].
  destruct (negb (canAbsorb player)).
  { destruct (Rltb (playerSunDist player sun)
                   (touchDist (sunCurrentGameMass s) player sun * 0.8));
      simpl; repeat split; cmp_cases. }
  destruct (Rgtb (playerSunDist player sun)
                 (absorptionRange (sunCurrentGameMass s) player sun)).
  { simpl. repeat split; cmp_cases. }
  pose proof (absorptionTransfer_bounds dt s player sun (proj1 Hc)) as Ht.
  set (t := absorptionTransfer dt s player sun) in *. clearbody t.
  destruct (Rleb t 0) eqn:Et; [repeat split; lra|].
  apply Rleb_iff_false in Et.
  pose proof SUN_GAME_MASS_pos as HS.
  assert (Hdiv : 0 <= (sunCurrentGameMass s - t) / SUN_GAME_MASS <= 1).
  { split.
    - apply Rmult_le_pos; [lra|]. apply Rlt_le, Rinv_0_lt_compat, HS.
    - apply (Rmult_le_reg_r SUN_GAME_MASS); [exact HS|].
      unfold Rdiv. rewrite Rmult_assoc, Rinv_l by lra. lra. }
  rewrite applyAbsorption_mass.
  destruct (Rltb (sunCurrentGameMass s - t) (SUN_GAME_MASS * 0.02)).
  - rewrite winTransition_blend, winTransition_mass.
    unfold Rdiv at 1 2. rewrite !Rmult_0_l.
    repeat split; lra.
  - rewrite applyAbsorption_blend, applyAbsorption_mass.
    rewrite Rmin_right by lra.
    repeat split; lra.
Qed.

(** The sun and the player of [reentryState]. *)
Lemma reentryState_bodies :
  exists sun player,
    celestialBodies reentryState = [sun; player]
    /\ isSun sun = true /\ isPlayer sun = false
    /\ isSun player = false /\ isPlayer player = true
    /\ x sun = 0 /\ y sun = 0 /\ x player = 0 /\ y player = 0
    /\ mass player = 0.8 * SUN_GAME_MASS.
Proof. eexists. eexists. repeat split; reflexivity. Qed.

Lemma touchDist_pos (cur : R) (player sun : Body) :
  1 <= touchDist cur player sun.
Proof.
  unfold touchDist.
  generalize (radius_pos cur player) (radius_pos cur sun). lra.
Qed.

(** At zero distance the proximity factor is 1. *)
Lemma absorptionRate_on_sun (cur : R) (player sun : Body) :
  playerSunDist player sun = 0 ->
  absorptionRate cur player sun
  = SUN_ABSORPTION_RATE
    * Rmax 0.2 (Rmin 2 ((massRatio player - SUN_ABSORPTION_START_RATIO)
                        / (1 - SUN_ABSORPTION_START_RATIO))).
Proof.
  intros Hd. unfold absorptionRate. cbv zeta. rewrite Hd.
  unfold absorptionRange, SUN_ABSORPTION_RANGE_MULTIPLIER.
  pose proof (touchDist_pos cur player sun) as Htd.
  set (td := touchDist cur player sun) in *. clearbody td.
  rewrite (Rdiv_eq (0 - td * 0.5) (td * 2.5 - td * 0.5) (- 0.25)) by lra.
  rewrite (Rmin_left 1 (1 - - 0.25)) by lra.
  rewrite (Rmax_right 0 1) by lra. ring.
Qed.

Lemma checkSunAbsorption_reentry :
  absorptionPhase 0.01 reentryState = Absorbing
  /\ exists sun,
       checkSunAbsorption 0.01 reentryState
       = applyAbsorption (0.0007 * SUN_GAME_MASS) 1 0 sun reentryState.
Proof.
  destruct reentryState_bodies
    as (sun & player & Hl & Hss & Hsp & Hps & Hpp & Xs & Ys & Xp & Yp & Hm).
  pose proof SUN_GAME_MASS_pos as HS.
  assert (Hfp : findIndex isPlayer (celestialBodies reentryState) = Some 1%nat)
    by (rewrite Hl; simpl; rewrite Hsp, Hpp; reflexivity).
  assert (Hfs : findIndex isSun (celestialBodies reentryState) = Some 0%nat)
    by (rewrite Hl; simpl; rewrite Hss; reflexivity).
  assert (Hnp : nth_error (celestialBodies reentryState) 1 = Some player)
    by (rewrite Hl; reflexivity).
  assert (Hns : nth_error (celestialBodies reentryState) 0 = Some sun)
    by (rewrite Hl; reflexivity).
  assert (Hratio : massRatio player = 0.8)
    by (unfold massRatio; rewrite Hm; apply Rdiv_eq; lra).
  assert (Hcan : canAbsorb player = true).
  { unfold canAbsorb, Rgeb, SUN_ABSORPTION_START_RATIO. rewrite Hratio.
    apply Rleb_true. lra. }
  assert (Hdist : playerSunDist player sun = 0).
  { unfold playerSunDist. rewrite Xs, Ys, Xp, Yp.
    replace ((0 - 0) * (0 - 0) + (0 - 0) * (0 - 0)) with 0 by ring.
    apply sqrt_0. }
  assert (Hrange : Rgtb (playerSunDist player sun)
                     (absorptionRange (sunCurrentGameMass reentryState)
                                      player sun) = false).
  { rewrite Hdist. unfold Rgtb, absorptionRange, SUN_ABSORPTION_RANGE_MULTIPLIER.
    apply Rltb_false.
    generalize (touchDist_pos (sunCurrentGameMass reentryState) player sun).
    lra. }
  assert (Ht : absorptionTransfer 0.01 reentryState player sun
               = 0.0007 * SUN_GAME_MASS).
  { unfold absorptionTransfer. cbv zeta.
    rewrite (absorptionRate_on_sun _ _ _ Hdist), Hratio.
    change (sunCurrentGameMass reentryState) with (0.7 * SUN_GAME_MASS).
    change (currentGameSpeed reentryState) with BASE_GAME_SPEED.
    unfold SUN_ABSORPTION_RATE, SUN_ABSORPTION_START_RATIO, BASE_GAME_SPEED.
    rewrite (Rdiv_eq (0.8 - 0.4) (1 - 0.4) (2 / 3)) by lra.
    rewrite (Rmin_right 2 (2 / 3)) by lra.
    rewrite (Rmax_right 0.2 (2 / 3)) by lra.
    rewrite Rmin_left by nra. rewrite Rmax_right by nra. lra. }
  split.
  - unfold absorptionPhase. change (gameWon reentryState) with false.
    cbv iota. rewrite Hfp, Hfs, Hnp, Hns, Hcan, Hrange, Ht. simpl negb.
    cbv iota. rewrite Rleb_false by lra. reflexivity.
  - exists sun.
    unfold checkSunAbsorption. change (gameWon reentryState) with false.
    cbv iota. rewrite Hfp, Hfs, Hnp, Hns, Hcan, Hrange, Ht. simpl negb.
    cbv iota zeta. rewrite Rleb_false by lra.
    rewrite applyAbsorption_mass.
    change (sunCurrentGameMass reentryState) with (0.7 * SUN_GAME_MASS).
    rewrite Rltb_false by lra. reflexivity.
Qed.

Lemma gravityBlendFactor_step_witness :
  0 <= gravityBlendFactor (checkSunAbsorption 0.01 reentryState) <= 1.
Proof.
  apply (gravityBlendFactor_step 0.01 reentryState).
  - lra.
  - simpl. lra.
  - simpl. generalize SUN_GAME_MASS_pos. lra.
Defined.

(** C2.  The blend does not change smoothly.  [reentryState] is what is left
    when a player that has absorbed 30% of the sun stays out of range until
    the blend has decayed to 0 (the progress is kept) and then comes back.
    The absorption stage of the next 10 ms tick moves 0.07% of
    [SUN_GAME_MASS], so the absorption progress rises by 0.0007; the blend,
    which the stage overwrites with the progress, jumps by 0.3007 in that one
    tick: from the decayed 0 to 0.3007. *)
Theorem gravityBlendFactor_jumps_on_reentry :
  absorptionPhase 0.01 reentryState = Absorbing
  /\ sunAbsorptionProgress (checkSunAbsorption 0.01 reentryState)
     - sunAbsorptionProgress reentryState = 0.0007
  /\ gravityBlendFactor (checkSunAbsorption 0.01 reentryState)
     - gravityBlendFactor reentryState = 0.3007.
Proof.
  destruct checkSunAbsorption_reentry as [Hph [sun E]].
  split; [exact Hph|]. rewrite E.
  rewrite applyAbsorption_progress, applyAbsorption_blend.
  change (sunCurrentGameMass reentryState) with (0.7 * SUN_GAME_MASS).
  change (sunAbsorptionProgress reentryState) with 0.3.
  change (gravityBlendFactor reentryState) with 0.
  pose proof SUN_GAME_MASS_pos as HS.
  rewrite (Rdiv_eq (0.7 * SUN_GAME_MASS - 0.0007 * SUN_GAME_MASS)
             SUN_GAME_MASS 0.6993) by lra.
  rewrite Rmin_right by lra. split; lra.
Qed.

(** ** The orbit solver on a circular orbit *)







(** ** Thinned registries *)

Lemma evolved_refl (c : Body) : evolved c c.
Proof. repeat split; auto. Qed.

Lemma evolved_trans (c1 c2 c3 : Body) :
  evolved c1 c2 -> evolved c2 c3 -> evolved c1 c3.
Proof.
  intros (A1 & A2 & A3 & A4 & A5) (B1 & B2 & B3 & B4 & B5).
  repeat split; try congruence; auto.
Qed.

Create HintDb registry.
#[local] Hint Resolve evolved_refl : registry.
#[local] Hint Constructors thinned : registry.

Lemma thinned_refl (l : list Body) : thinned l l.
Proof. induction l; auto with registry. Qed.

Lemma thinned_trans (l1 l2 : list Body) :
  thinned l1 l2 -> forall l3, thinned l2 l3 -> thinned l1 l3.
Proof.
  induction 1 as [|c c' l l' Hf H IH|c l l' Hc H IH]; intros l3 H23.
  - exact H23.
  - inversion H23 as [|d d' m m' Hf' H' |d m m' Hc' H']; subst.
    + apply thinned_keep; [eapply evolved_trans; eauto | auto].
    + apply thinned_drop; [|auto].
      destruct Hf as (_ & _ & _ & E & _). congruence.
  - apply thinned_drop; auto.
Qed.

Lemma thinned_update (f : Body -> Body) (l : list Body) :
  (forall c, evolved c (f c)) -> forall i, thinned l (update i f l).
Proof.
  intros Hf. induction l as [|h t IH]; intros [|i]; simpl;
    auto using thinned_refl with registry.
Qed.

Lemma thinned_splice1 (l : list Body) :
  forall i, (forall c, nth_error l i = Some c ->
                       isGravitationalCenter c = false) ->
            thinned l (splice1 i l).
Proof.
  induction l as [|h t IH]; intros [|i] H; simpl;
    auto using thinned_refl with registry.
Qed.

Lemma thinned_filter (p : Body -> bool) (l : list Body) :
  Forall (fun c => p c = false -> isGravitationalCenter c = false) l ->
  thinned l (filter p l).
Proof.
  induction 1 as [|h t Hh Ht IH]; simpl; [constructor|].
  destruct (p h) eqn:E; auto with registry.
Qed.

Lemma thinned_map (f : Body -> Body) (l : list Body) :
  (forall c, evolved c (f c)) -> thinned l (map f l).
Proof. intros Hf. induction l; simpl; auto with registry. Qed.

Lemma thinned_forEachIndex (f : nat -> Body -> Body) (l : list Body) :
  (forall i c, evolved c (f i c)) -> thinned l (forEachIndex f l).
Proof.
  intros Hf. unfold forEachIndex. generalize 0%nat.
  induction l; intros k; simpl; auto with registry.
Qed.

Lemma thinned_Forall (P : Body -> Prop) (l l' : list Body) :
  (forall c c', evolved c c' -> P c -> P c') ->
  thinned l l' -> Forall P l -> Forall P l'.
Proof.
  intros HP. induction 1 as [|c c' l l' Hf H IH|c l l' Hc H IH];
    intros HF; inversion HF; subst; eauto.
Qed.

Lemma countIf_cons (p : Body -> bool) (c : Body) (l : list Body) :
  countIf p (c :: l) = ((if p c then 1 else 0) + countIf p l)%nat.
Proof. unfold countIf. simpl. destruct (p c); reflexivity. Qed.

Lemma countIf_app (p : Body -> bool) (l l' : list Body) :
  countIf p (l ++ l') = (countIf p l + countIf p l')%nat.
Proof. unfold countIf. rewrite filter_app. apply length_app. Qed.

Lemma thinned_count_center (l l' : list Body) :
  thinned l l' ->
  countIf isGravitationalCenter l' = countIf isGravitationalCenter l.
Proof.
  induction 1 as [|c c' l l' Hf H IH|c l l' Hc H IH];
    rewrite ?countIf_cons; auto.
  - destruct Hf as (_ & _ & _ & -> & _). lia.
  - rewrite Hc. lia.
Qed.

Lemma thinned_count_player (l l' : list Body) :
  thinned l l' -> (countIf isPlayer l' <= countIf isPlayer l)%nat.
Proof.
  induction 1 as [|c c' l l' Hf H IH|c l l' Hc H IH];
    rewrite ?countIf_cons; auto.
  - destruct Hf as (-> & _). lia.
  - lia.
Qed.

Lemma thinned_count_sun (l l' : list Body) :
  thinned l l' ->
  Forall (fun c => isGravitationalCenter c = isSun c) l ->
  countIf isSun l' = countIf isSun l.
Proof.
  induction 1 as [|c c' l l' Hf H IH|c l l' Hc H IH]; intros HF;
    inversion HF; subst; rewrite ?countIf_cons; auto.
  - destruct Hf as (_ & -> & _). rewrite IH by assumption. lia.
  - replace (isSun c) with false by congruence. rewrite IH by assumption. lia.
Qed.

Lemma RegistryInv_thinned (won : bool) (l l' : list Body) :
  RegistryInv won l -> thinned l l' -> RegistryInv won l'.
Proof.
  intros (Hs & Hp & Hw & Hm) Ht. split; [|split; [|split]].
  - apply (thinned_Forall flagsSane l l'); auto.
    intros c c' (E1 & E2 & E3 & E4 & _) (A & B & C).
    unfold flagsSane. rewrite E1, E2, E3, E4. auto.
  - pose proof (thinned_count_player l l' Ht). lia.
  - destruct won.
    + destruct Hw as (H1 & H2 & H3). split; [|split].
      * apply (thinned_Forall _ l l'); auto.
        intros c c' (E1 & E2 & E3 & E4 & _). congruence.
      * rewrite (thinned_count_center l l' Ht). exact H2.
      * apply (thinned_Forall _ l l'); auto.
        intros c c' (E1 & E2 & E3 & E4 & _). rewrite E1, E4. auto.
    + destruct Hw as (H1 & H2). split.
      * rewrite (thinned_count_sun l l' Ht H2). exact H1.
      * apply (thinned_Forall _ l l'); auto.
        intros c c' (E1 & E2 & E3 & E4 & _). congruence.
  - apply (thinned_Forall _ l l'); auto.
    intros c c' (_ & _ & _ & _ & E). exact E.
Qed.

Lemma stage_refl (s : State) : stage s s.
Proof. repeat split. apply thinned_refl. Qed.

Lemma stage_trans (s1 s2 s3 : State) : stage s1 s2 -> stage s2 s3 -> stage s1 s3.
Proof.
  intros (A1 & A2 & A3 & A4) (B1 & B2 & B3 & B4).
  repeat split; try congruence. eapply thinned_trans; eauto.
Qed.

Lemma Inv_stage (s s' : State) : Inv s -> stage s s' -> Inv s'.
Proof.
  intros (HR & Hb & Hc & Hw) (T & E1 & E2 & E3).
  unfold Inv. rewrite E1, E2, E3.
  split; [eapply RegistryInv_thinned; eauto | auto].
Qed.

(** ** The stages of the tick thin the registry *)

Lemma evolved_set_mass (cur m : R) (c : Body) : evolved c (set_mass cur m c).
Proof. repeat split. intros _. simpl. apply Rmax_l. Qed.

Lemma evolved_set_velocity (u w : R) (c : Body) :
  evolved c (set_velocity u w c).
Proof. repeat split; auto. Qed.

Lemma evolved_set_position (u w : R) (c : Body) :
  evolved c (set_position u w c).
Proof. repeat split; auto. Qed.

Lemma evolved_absorbVelocity (t : R) (small big : Body) :
  evolved big (absorbVelocity t small big).
Proof.
  unfold absorbVelocity.
  destruct (isPlayer big && Rgtb t 0); [destruct (Rgtb _ 1e-9)|];
    repeat split; auto.
Qed.

Lemma evolved_absorbMomentum (t : R) (sun player : Body) :
  evolved player (absorbMomentum t sun player).
Proof.
  unfold absorbMomentum. destruct (Rgtb _ 1e-9); repeat split; auto.
Qed.

Lemma evolved_pull (m gameDt : R) (source body : Body) :
  evolved body (pull m gameDt source body).
Proof.
  unfold pull. destruct (gravityKick _ _ _ _ _ _ _ _ _). repeat split; auto.
Qed.

Lemma evolved_moveBody (gameDt : R) (body : Body) :
  evolved body (moveBody gameDt body).
Proof.
  unfold moveBody. destruct (Rgtb _ (MAX_V * MAX_V)); repeat split; auto.
Qed.

#[local] Hint Resolve evolved_set_mass evolved_set_velocity
  evolved_set_position evolved_absorbVelocity evolved_absorbMomentum
  evolved_pull
  evolved_moveBody evolved_trans thinned_refl stage_refl : registry.

Lemma stage_set_playerNeedsReset (q : bool) (s : State) :
  stage s (set_playerNeedsReset q s).
Proof. repeat split. apply thinned_refl. Qed.

Lemma stage_set_collisionDetectedThisFrame (q : bool) (s : State) :
  stage s (set_collisionDetectedThisFrame q s).
Proof. repeat split. apply thinned_refl. Qed.

#[local] Hint Resolve stage_set_playerNeedsReset
  stage_set_collisionDetectedThisFrame : registry.

Lemma stage_set_celestialBodies (l : list Body) (s : State) :
  thinned (celestialBodies s) l -> stage s (set_celestialBodies l s).
Proof. intros H. repeat split. exact H. Qed.

Lemma stage_cleanup (now : Z) (s : State) :
  Forall flagsSane (celestialBodies s) -> stage s (cleanup now s).
Proof.
  intros H. apply stage_set_celestialBodies, thinned_filter.
  eapply Forall_impl; [|exact H].
  intros c (Hs & _) Hk. unfold keepBody in Hk.
  destruct (isSpark c) eqn:Es.
  - auto.
  - simpl in Hk. rewrite andb_true_r in Hk.
    destruct (isGravitationalCenter c); [|reflexivity].
    rewrite andb_false_r in Hk. discriminate.
Qed.

Lemma stage_sunGravity (gameDt : R) (sun : option (nat * Body)) (s : State) :
  stage s (sunGravity gameDt sun s).
Proof.
  unfold sunGravity. destruct sun as [[si sunB]|]; auto with registry.
  destruct (Rltb _ 1); auto with registry.
  apply stage_set_celestialBodies, thinned_forEachIndex.
  intros i c. destruct (_ || _); auto with registry.
Qed.

Lemma stage_playerGravity (gameDt : R) (player : option (nat * Body))
    (s : State) :
  stage s (playerGravity gameDt player s).
Proof.
  unfold playerGravity. destruct player as [[pi playerB]|]; auto with registry.
  destruct (_ && _); auto with registry.
  apply stage_set_celestialBodies, thinned_forEachIndex.
  intros i c. destruct (_ || _); auto with registry.
Qed.

Lemma stage_postWinGravity (gameDt : R) (sun player : option (nat * Body))
    (s : State) :
  stage s (postWinGravity gameDt sun player s).
Proof.
  unfold postWinGravity.
  destruct sun as [[si sunB]|]; auto with registry.
  destruct player as [[pi playerB]|]; auto with registry.
  destruct (gameWon s); auto with registry.
  apply stage_set_celestialBodies, thinned_forEachIndex.
  intros i c. destruct (_ || _); auto with registry.
Qed.

Lemma stage_flagMissingBodies (sun player : option (nat * Body)) (s : State) :
  stage s (flagMissingBodies sun player s).
Proof.
  unfold flagMissingBodies.
  destruct sun, player; auto with registry.
  destruct (gameWon s); auto with registry.
Qed.

Lemma stage_updatePositions (gameDt : R) (s : State) :
  stage s (updatePositions gameDt s).
Proof.
  apply stage_set_celestialBodies, thinned_map. auto with registry.
Qed.

Lemma stage_gravityAndMotion (now : Z) (dt : R) (s : State) :
  Forall flagsSane (celestialBodies s) ->
  stage s (gravityAndMotion now dt s).
Proof.
  intros H. unfold gravityAndMotion. cbv zeta.
  eapply stage_trans; [|apply stage_updatePositions].
  eapply stage_trans; [|apply stage_flagMissingBodies].
  eapply stage_trans; [|apply stage_postWinGravity].
  eapply stage_trans; [|apply stage_playerGravity].
  eapply stage_trans; [|apply stage_sunGravity].
  apply (stage_cleanup now (set_collisionDetectedThisFrame false s)), H.
Qed.

Lemma nth_error_update_flags (f : Body -> Body) (l : list Body) :
  (forall c, evolved c (f c)) ->
  forall i k c, nth_error (update i f l) k = Some c ->
    exists c0, nth_error l k = Some c0 /\ evolved c0 c.
Proof.
  intros Hf. induction l as [|h t IH]; intros [|i] [|k] c H; simpl in *;
    try discriminate; eauto with registry.
  injection H as <-. eauto.
Qed.

Lemma stage_transferMass (t : R) (bigI smallI : nat) (small : Body)
    (s : State) :
  stage s (transferMass t bigI smallI small s).
Proof.
  unfold transferMass. apply stage_set_celestialBodies.
  eapply thinned_trans; apply thinned_update; eauto with registry.
Qed.

Lemma transferMass_small_flags (t : R) (bigI smallI : nat) (small : Body)
    (s : State) (c : Body) :
  nth_error (celestialBodies s) smallI = Some small ->
  nth_error (celestialBodies (transferMass t bigI smallI small s)) smallI
  = Some c ->
  evolved small c.
Proof.
  intros Hs Hc. unfold transferMass in Hc. rewrite celestialBodies_set in Hc.
  apply nth_error_update_flags in Hc; [|auto with registry].
  destruct Hc as (c1 & Hc1 & F1).
  apply nth_error_update_flags in Hc1; [|eauto with registry].
  destruct Hc1 as (c0 & Hc0 & F0).
  assert (c0 = small) by congruence. subst c0. eauto with registry.
Qed.

Lemma stage_resolvePair (now : Z) (dt : R) (i j : nat) (s : State) :
  stage s (outcomeState (resolvePair now dt i j s)).
Proof.
  destruct (nth_error (celestialBodies s) i) as [b1|] eqn:H1;
    [|unfold resolvePair; rewrite H1; auto with registry].
  destruct (nth_error (celestialBodies s) j) as [b2|] eqn:H2;
    [|unfold resolvePair; rewrite H1, H2; auto with registry].
  rewrite (resolvePair_unfold now dt i j s b1 b2 H1 H2).
  destruct (excluded now b1 b2); [auto with registry|].
  destruct (negb (overlapping _ b1 b2)); [auto with registry|].
  cbv zeta.
  set (bigI := fst (bigOf i j b1 b2)). set (smallI := fst (smallOf i j b1 b2)).
  set (small := snd (smallOf i j b1 b2)).
  assert (Hs : nth_error (celestialBodies s) smallI = Some small).
  { unfold smallI, small, smallOf.
    destruct (Rgeb (mass b1) (mass b2)); assumption. }
  destruct (isGravitationalCenter small) eqn:Ec;
    [simpl; repeat split; apply thinned_refl|].
  destruct (isSpark (snd (bigOf i j b1 b2)));
    [simpl; repeat split; apply thinned_refl|].
  simpl orb. cbv iota.
  set (s1 := set_collisionDetectedThisFrame true s).
  set (t := transferAmount dt small).
  pose proof (stage_transferMass t bigI smallI small s1) as Hst.
  assert (Hs2 : stage s (transferMass t bigI smallI small s1)).
  { eapply stage_trans; [|exact Hst]. repeat split. apply thinned_refl. }
  destruct (isPlayer _ && Rltb _ MIN_PLAYER_MASS).
  { simpl. eapply stage_trans; [exact Hs2|]. repeat split. apply thinned_refl. }
  destruct (Rleb _ MIN_BODY_MASS || _); [|exact Hs2].
  simpl. eapply stage_trans; [exact Hs2|].
  apply stage_set_celestialBodies, thinned_splice1.
  intros c Hc.
  destruct (transferMass_small_flags t bigI smallI small s1 c Hs Hc)
    as (_ & _ & _ & E & _).
  congruence.
Qed.

Lemma stage_innerLoop (now : Z) (dt : R) (i : nat) :
  forall n s, stage s (outcomeState (innerLoop now dt i n s)).
Proof.
  induction n as [|j IH]; intros s; simpl; [auto with registry|].
  pose proof (stage_resolvePair now dt i j s) as H.
  destruct (resolvePair now dt i j s) as [s'|s' k|s']; simpl in *; auto.
  eapply stage_trans; [exact H | apply IH].
Qed.

Lemma stage_outerLoop (now : Z) (dt : R) :
  forall fuel n s, stage s (outerLoop fuel now dt n s).
Proof.
  induction fuel as [|fuel IH]; intros n s; simpl; [auto with registry|].
  destruct n as [|i]; [auto with registry|].
  destruct (nth_error (celestialBodies s) i); [|apply IH].
  pose proof (stage_innerLoop now dt i i s) as H.
  destruct (innerLoop now dt i i s) as [s'|s' k|s']; simpl in H; auto;
    destruct (playerNeedsReset s'); auto;
    (eapply stage_trans; [exact H | apply IH]).
Qed.

Lemma stage_checkCollisions (now : Z) (dt : R) (s : State) :
  stage s (checkCollisions now dt s).
Proof. apply stage_outerLoop. Qed.

Lemma stage_decayEjectionMultiplier (env : Env) (s : State) :
  stage s (decayEjectionMultiplier env s).
Proof.
  unfold decayEjectionMultiplier. destruct (_ && _); auto with registry.
  repeat split. apply thinned_refl.
Qed.

(** ** The registry: lookups after [splice1] and [forEachIndex], counting *)

Lemma nth_error_splice1 (l : list Body) :
  forall i k,
    nth_error (splice1 i l) k
    = if (k <? i)%nat then nth_error l k else nth_error l (S k).
Proof.
  induction l as [|h t IH]; intros i k.
  - simpl. destruct (k <? i)%nat; destruct i, k; reflexivity.
  - destruct i as [|i]; [reflexivity|].
    destruct k as [|k]; [reflexivity|].
    simpl splice1. simpl nth_error. rewrite IH. reflexivity.
Qed.

Lemma nth_error_forEachIndexFrom (f : nat -> Body -> Body) (l : list Body) :
  forall a k,
    nth_error (forEachIndexFrom a f l) k
    = option_map (f (a + k)%nat) (nth_error l k).
Proof.
  induction l as [|h t IH]; intros a [|k]; simpl; auto.
  - rewrite Nat.add_0_r. reflexivity.
  - rewrite IH. replace (S a + k)%nat with (a + S k)%nat by lia. reflexivity.
Qed.

Lemma Forall_nth_error (P : Body -> Prop) (l : list Body) :
  Forall P l <-> (forall k c, nth_error l k = Some c -> P c).
Proof.
  rewrite Forall_forall. split.
  - intros H k c Hk. apply H. eapply nth_error_In; eauto.
  - intros H c Hin. destruct (In_nth_error l c Hin) as [k Hk]. eauto.
Qed.

(** The only body with property [p] is the one [find] returns. *)
Lemma countIf_one_unique (p : Body -> bool) (l : list Body) :
  forall i k c,
    countIf p l = 1%nat -> findIndex p l = Some i ->
    nth_error l k = Some c -> k <> i -> p c = false.
Proof.
  induction l as [|h t IH]; intros i k c Hc Hf Hk Hne; [destruct k; discriminate|].
  rewrite countIf_cons in Hc. simpl in Hf.
  destruct (p h) eqn:Eh.
  - injection Hf as <-. destruct k as [|k]; [congruence|]. simpl in Hk.
    assert (H0 : countIf p t = 0%nat) by lia.
    unfold countIf in H0. apply length_zero_iff_nil in H0.
    destruct (p c) eqn:Ec; [|reflexivity].
    assert (Hin : In c (filter p t))
      by (apply filter_In; split; [eapply nth_error_In; eauto | exact Ec]).
    rewrite H0 in Hin. destruct Hin.
  - destruct (findIndex p t) as [i'|] eqn:Ef; [|discriminate].
    injection Hf as <-. destruct k as [|k]; simpl in Hk.
    + congruence.
    + apply (IH i' k c); auto.
Qed.

Lemma countIf_ext (p : Body -> bool) (l l' : list Body) :
  Forall2 (fun c c' => p c' = p c) l l' -> countIf p l' = countIf p l.
Proof.
  induction 1 as [|c c' l l' E H IH]; [reflexivity|].
  rewrite !countIf_cons, E, IH. reflexivity.
Qed.

Lemma countIf_update (p : Body -> bool) (f : Body -> Body) (l : list Body) :
  (forall c, p (f c) = p c) -> forall i, countIf p (update i f l) = countIf p l.
Proof.
  intros Hf. induction l as [|h t IH]; intros [|i]; simpl; auto.
  - rewrite !countIf_cons, Hf. reflexivity.
  - rewrite !countIf_cons, IH. reflexivity.
Qed.

Lemma countIf_splice1 (p : Body -> bool) (l : list Body) :
  forall i, (countIf p (splice1 i l) <= countIf p l)%nat.
Proof.
  induction l as [|h t IH]; intros [|i]; simpl; auto.
  - rewrite countIf_cons. lia.
  - rewrite !countIf_cons. specialize (IH i). lia.
Qed.

Lemma countIf_forEachIndexFrom (p : Body -> bool) (f : nat -> Body -> Body)
    (l : list Body) :
  (forall k c, p (f k c) = p c) ->
  forall a, countIf p (forEachIndexFrom a f l) = countIf p l.
Proof.
  intros Hf. induction l as [|h t IH]; intros a; simpl; auto.
  rewrite !countIf_cons, Hf, IH. reflexivity.
Qed.

(** Clearing the center flag everywhere but at index [q] leaves at most the
    body at [q] as center. *)
Lemma countIf_center_cleared (q : nat) (l : list Body) :
  forall a, (q < a)%nat ->
    countIf isGravitationalCenter
      (forEachIndexFrom a
         (fun i c => if (i =? q)%nat then c
                     else set_isGravitationalCenter false c) l) = 0%nat.
Proof.
  induction l as [|h t IH]; intros a Hlt; simpl; [reflexivity|].
  rewrite countIf_cons, IH by lia.
  destruct (Nat.eqb_spec a q); [lia | reflexivity].
Qed.

Lemma countIf_center_marked (q : nat) (l : list Body) :
  forall a, (a <= q)%nat ->
    countIf isGravitationalCenter
      (forEachIndexFrom a
         (fun i c => if (i =? q)%nat then c
                     else set_isGravitationalCenter false c) l)
    = match nth_error l (q - a) with
      | Some c => if isGravitationalCenter c then 1%nat else 0%nat
      | None => 0%nat
      end.
Proof.
  induction l as [|h t IH]; intros a Hle; simpl.
  - destruct (q - a)%nat; reflexivity.
  - rewrite countIf_cons.
    destruct (Nat.eqb_spec a q) as [->|Hne].
    + rewrite Nat.sub_diag, countIf_center_cleared by lia. simpl. lia.
    + rewrite IH by lia.
      replace (q - a)%nat with (S (q - S a)) by lia. reflexivity.
Qed.

(** ** The win transition *)

Lemma flagwise_refl (l : list Body) : Forall2 evolved l l.
Proof. induction l; constructor; auto with registry. Qed.

Lemma flagwise_update (f : Body -> Body) (l : list Body) :
  (forall c, evolved c (f c)) ->
  forall i, Forall2 evolved l (update i f l).
Proof.
  intros Hf. induction l as [|h t IH]; intros [|i]; simpl; constructor;
    auto using flagwise_refl with registry.
Qed.

Lemma flagwise_trans (l1 l2 l3 : list Body) :
  Forall2 evolved l1 l2 -> Forall2 evolved l2 l3 -> Forall2 evolved l1 l3.
Proof.
  intros H. revert l3.
  induction H as [|c c' l l' Hc H IH]; intros l3 H3; inversion H3; subst;
    constructor; eauto with registry.
Qed.

Lemma flagwise_nth_error (l l' : list Body) :
  Forall2 evolved l l' ->
  forall k,
    (forall c', nth_error l' k = Some c' ->
       exists c, nth_error l k = Some c /\ evolved c c')
    /\ (forall c, nth_error l k = Some c ->
       exists c', nth_error l' k = Some c' /\ evolved c c').
Proof.
  induction 1 as [|c0 c0' l l' Hc H IH]; intros [|k]; simpl;
    split; intros d Hd; try discriminate.
  - injection Hd as <-. eauto.
  - injection Hd as <-. eauto.
  - apply (IH k); exact Hd.
  - apply (IH k); exact Hd.
Qed.

Lemma flagwise_applyAbsorption (t : R) (pi si : nat) (sun : Body) (s : State) :
  Forall2 evolved (celestialBodies s)
          (celestialBodies (applyAbsorption t pi si sun s)).
Proof.
  unfold applyAbsorption. simpl celestialBodies.
  eapply flagwise_trans; apply flagwise_update; intros c.
  - eapply evolved_trans; [apply evolved_absorbMomentum|].
    apply evolved_set_mass.
  - apply evolved_set_mass.
Qed.

(** The index of the player after the sun has been spliced out. *)
Lemma nth_error_splice1_shift (m : list Body) (si pi : nat) :
  si <> pi ->
  nth_error (splice1 si m) (if (si <? pi)%nat then Nat.pred pi else pi)
  = nth_error m pi.
Proof.
  intros Hne. rewrite nth_error_splice1.
  destruct (Nat.ltb_spec si pi) as [Hlt|Hge].
  - replace (Nat.pred pi <? si)%nat with false
      by (symmetry; apply Nat.ltb_ge; lia).
    f_equal. lia.
  - replace (pi <? si)%nat with true by (symmetry; apply Nat.ltb_lt; lia).
    reflexivity.
Qed.

Lemma nth_error_splice1_other (m : list Body) (si pi k : nat) (c : Body) :
  si <> pi ->
  nth_error (splice1 si m) k = Some c ->
  k <> (if (si <? pi)%nat then Nat.pred pi else pi) ->
  exists k', k' <> si /\ k' <> pi /\ nth_error m k' = Some c.
Proof.
  intros Hne Hk Hkp. rewrite nth_error_splice1 in Hk.
  destruct (Nat.ltb_spec k si) as [Hlt|Hge].
  - exists k. repeat split; auto; [lia|].
    destruct (Nat.ltb_spec si pi); lia.
  - exists (S k). repeat split; auto; [lia|].
    destruct (Nat.ltb_spec si pi); lia.
Qed.

Lemma RegistryInv_winTransition (pi si : nat) (l : list Body) (s : State) :
  RegistryInv false l ->
  findIndex isPlayer l = Some pi ->
  findIndex isSun l = Some si ->
  Forall2 evolved l (celestialBodies s) ->
  RegistryInv true (celestialBodies (winTransition pi si s)).
Proof.
  intros (Hsane & Hpl & (Hone & Hcs) & Hmass) Hfp Hfs Hfw.
  destruct (findIndex_Some _ _ _ Hfp) as (player & Hnp & Hpp).
  destruct (findIndex_Some _ _ _ Hfs) as (sun & Hns & Hss).
  pose proof (proj1 (Forall_nth_error _ _) Hsane) as Hsane'.
  assert (Hne : si <> pi).
  { intros ->. assert (player = sun) by congruence. subst.
    destruct (Hsane' _ _ Hns) as (_ & H & _). rewrite (H Hss) in Hpp.
    discriminate. }
  destruct (proj2 (flagwise_nth_error _ _ Hfw pi) _ Hnp)
    as (p2 & Hp2 & (Fp1 & Fp2 & Fp3 & Fp4 & Fp5)).
  pose proof (proj1 (Forall_nth_error _ _) Hmass) as Hmass'.
  unfold winTransition. simpl celestialBodies.
  set (W := fun p : Body => set_isGravitationalCenter true
                (set_mass (sunCurrentGameMass s)
                          (mass p + sunCurrentGameMass s) p)).
  set (m := update pi W (celestialBodies s)).
  set (pi' := if (si <? pi)%nat then Nat.pred pi else pi).
  set (mark := fun (i : nat) (c : Body) =>
                 if (i =? pi')%nat then c
                 else set_isGravitationalCenter false c).
  assert (Hm_pi : nth_error (splice1 si m) pi' = Some (W p2)).
  { unfold pi'. rewrite (nth_error_splice1_shift m si pi Hne).
    apply nth_error_update_eq. exact Hp2. }
  assert (Hm_other : forall k c, nth_error (splice1 si m) k = Some c ->
            k <> pi' ->
            exists k' c0, k' <> si /\ nth_error l k' = Some c0
                          /\ evolved c0 c).
  { intros k c Hk Hkp.
    destruct (nth_error_splice1_other m si pi k c Hne Hk Hkp)
      as (k' & K1 & K2 & K3).
    unfold m in K3. rewrite nth_error_update_neq in K3 by auto.
    destruct (proj1 (flagwise_nth_error _ _ Hfw k') _ K3) as (c0 & K4 & K5).
    eauto. }
  assert (Hlook : forall k c, nth_error (forEachIndex mark (splice1 si m)) k
                              = Some c ->
            (k = pi' /\ c = W p2)
            \/ (k <> pi' /\ exists k' c0 c1,
                  c = set_isGravitationalCenter false c1
                  /\ k' <> si /\ nth_error l k' = Some c0
                  /\ evolved c0 c1)).
  { intros k c Hk. unfold forEachIndex in Hk.
    rewrite nth_error_forEachIndexFrom in Hk. simpl in Hk.
    destruct (nth_error (splice1 si m) k) as [c1|] eqn:E1; [|discriminate].
    simpl in Hk. injection Hk as <-. unfold mark.
    destruct (Nat.eqb_spec k pi') as [->|Hkp].
    - left. split; [reflexivity|]. congruence.
    - right. split; [exact Hkp|].
      destruct (Hm_other k c1 E1 Hkp) as (k' & c0 & K1 & K2 & K3).
      exists k', c0, c1. auto. }
  assert (Hpsane : flagsSane player) by (apply (Hsane' _ _ Hnp)).
  split; [|split; [|split; [split; [|split]|]]].
  - apply Forall_nth_error. intros k c Hk.
    destruct (Hlook k c Hk) as [[_ ->]|(_ & k' & c0 & c1 & -> & _ & K2 & K3)].
    + destruct Hpsane as (A & B & C). unfold flagsSane, W. simpl.
      rewrite Fp1, Fp2, Fp3. rewrite (C Hpp). repeat split; auto; discriminate.
    + destruct (Hsane' _ _ K2) as (A & B & C).
      destruct K3 as (E1 & E2 & E3 & E4 & _).
      unfold flagsSane. simpl. rewrite E1, E2, E3. auto.
  - unfold forEachIndex.
    rewrite countIf_forEachIndexFrom
      by (intros k c; unfold mark; destruct (k =? pi')%nat; reflexivity).
    eapply Nat.le_trans; [apply countIf_splice1|].
    unfold m. rewrite countIf_update by reflexivity.
    rewrite (countIf_ext isPlayer l (celestialBodies s)); [exact Hpl|].
    eapply Forall2_impl; [|exact Hfw]. intros c c' (E & _). exact E.
  - apply Forall_nth_error. intros k c Hk.
    destruct (Hlook k c Hk) as [[_ ->]|(_ & k' & c0 & c1 & -> & K1 & K2 & K3)].
    + unfold W. simpl. rewrite Fp2.
      destruct (Hsane' _ _ Hnp) as (_ & B & _).
      destruct (isSun player) eqn:E; [|reflexivity].
      rewrite (B eq_refl) in Hpp. discriminate.
    + simpl. destruct K3 as (_ & -> & _).
      apply (countIf_one_unique isSun l si k' c0 Hone Hfs K2 K1).
  - unfold forEachIndex, mark.
    rewrite countIf_center_marked by lia. rewrite Nat.sub_0_r, Hm_pi.
    reflexivity.
  - apply Forall_nth_error. intros k c Hk.
    destruct (Hlook k c Hk) as [[_ ->]|(_ & k' & c0 & c1 & -> & K1 & K2 & K3)].
    + intros _. unfold W. simpl. congruence.
    + simpl. discriminate.
  - apply Forall_nth_error. intros k c Hk.
    destruct (Hlook k c Hk) as [[_ ->]|(_ & k' & c0 & c1 & -> & K1 & K2 & K3)].
    + unfold W. simpl. apply Rmax_l.
    + simpl. destruct K3 as (_ & _ & _ & _ & E). apply E, (Hmass' _ _ K2).
Qed.

(** ** The invariant of the running game *)

Lemma Inv_checkSunAbsorption (dt : R) (s : State) :
  0 <= dt -> Inv s -> Inv (checkSunAbsorption dt s).
Proof.
  intros Hdt HI. pose proof HI as (HR & Hb & Hc & Hw).
  unfold checkSunAbsorption.
  destruct (gameWon s) eqn:Ew; [exact HI|].
  destruct (findIndex isPlayer (celestialBodies s)) as [pi|] eqn:Hfp;
    [|exact HI].
  destruct (findIndex isSun (celestialBodies s)) as [si|] eqn:Hfs;
    [|exact HI].
  destruct (nth_error (celestialBodies s) pi) as [player|]; [|exact HI].
  destruct (nth_error (celestialBodies s) si) as [sun|]; [|exact HI].
  destruct (negb (canAbsorb player)).
  { destruct (Rltb _ _); unfold Inv; simpl; rewrite Ew;
      (split; [exact HR|]); repeat split; try discriminate; cmp_cases. }
  destruct (Rgtb (playerSunDist player sun) _).
  { unfold Inv; simpl; rewrite Ew;
      (split; [exact HR|]); repeat split; try discriminate; cmp_cases. }
  pose proof (absorptionTransfer_bounds dt s player sun (proj1 Hc)) as Ht.
  set (t := absorptionTransfer dt s player sun) in *. clearbody t.
  destruct (Rleb t 0); [exact HI|].
  pose proof SUN_GAME_MASS_pos as HS.
  destruct (Rltb _ (SUN_GAME_MASS * 0.02)).
  - unfold Inv.
    change (gameWon (winTransition pi si (applyAbsorption t pi si sun s)))
      with true.
    rewrite winTransition_blend, winTransition_mass.
    split; [|repeat split; lra].
    apply (RegistryInv_winTransition pi si (celestialBodies s)); auto.
    apply flagwise_applyAbsorption.
  - unfold Inv.
    change (gameWon (applyAbsorption t pi si sun s)) with (gameWon s).
    rewrite Ew, applyAbsorption_blend, applyAbsorption_mass.
    split; [|split; [|split; [|discriminate]]].
    + apply (RegistryInv_thinned false (celestialBodies s)); [exact HR|].
      unfold applyAbsorption. simpl celestialBodies.
      eapply thinned_trans; apply thinned_update; intros c.
      * eapply evolved_trans; [apply evolved_absorbMomentum|].
        apply evolved_set_mass.
      * apply evolved_set_mass.
    + split; [|apply Rmin_l].
      apply Rmin_glb; [lra|].
      assert ((sunCurrentGameMass s - t) / SUN_GAME_MASS <= 1); [|lra].
      apply (Rmult_le_reg_r SUN_GAME_MASS); [exact HS|].
      unfold Rdiv. rewrite Rmult_assoc, Rinv_l by lra. lra.
    + lra.
Qed.

Lemma inert_sane (c : Body) : inert c -> flagsSane c.
Proof.
  intros (P & S & C & _). unfold flagsSane. rewrite P, S, C.
  repeat split; auto; discriminate.
Qed.

Lemma countIf_inert (extra : list Body) :
  Forall inert extra ->
  countIf isPlayer extra = 0%nat /\ countIf isSun extra = 0%nat
  /\ countIf isGravitationalCenter extra = 0%nat.
Proof.
  induction 1 as [|c l (P & S & C & _) H (IH1 & IH2 & IH3)];
    [repeat split|].
  rewrite !countIf_cons, P, S, C, IH1, IH2, IH3. repeat split.
Qed.

Lemma RegistryInv_app_inert (won : bool) (l extra : list Body) :
  RegistryInv won l -> Forall inert extra -> RegistryInv won (l ++ extra).
Proof.
  intros (Hs & Hp & Hw & Hm) He.
  destruct (countIf_inert extra He) as (C1 & C2 & C3).
  split; [|split; [|split]].
  - apply Forall_app. split; [exact Hs|].
    eapply Forall_impl; [|exact He]. apply inert_sane.
  - rewrite countIf_app. lia.
  - destruct won.
    + destruct Hw as (H1 & H2 & H3). split; [|split].
      * apply Forall_app. split; [exact H1|].
        eapply Forall_impl; [|exact He]. intros c (_ & S & _). exact S.
      * rewrite countIf_app. lia.
      * apply Forall_app. split; [exact H3|].
        eapply Forall_impl; [|exact He]. intros c (_ & _ & C & _). congruence.
    + destruct Hw as (H1 & H2). split.
      * rewrite countIf_app. lia.
      * apply Forall_app. split; [exact H2|].
        eapply Forall_impl; [|exact He]. intros c (_ & S & C & _). congruence.
  - apply Forall_app. split; [exact Hm|].
    eapply Forall_impl; [|exact He]. intros c (_ & _ & _ & M). exact M.
Qed.

Lemma RegistryInv_sun_player (sun p : Body) :
  isSun sun = true -> isPlayer sun = false -> isSpark sun = false ->
  isGravitationalCenter sun = true ->
  isPlayer p = true -> isSun p = false -> isSpark p = false ->
  isGravitationalCenter p = false ->
  0 <= mass sun -> 0 <= mass p ->
  RegistryInv false [sun; p].
Proof.
  intros A1 A2 A3 A4 B1 B2 B3 B4 M1 M2.
  split; [|split; [|split; [split|]]].
  - repeat constructor; unfold flagsSane;
      rewrite ?A1, ?A2, ?A3, ?A4, ?B1, ?B2, ?B3, ?B4; auto; discriminate.
  - unfold countIf. simpl. rewrite A2, B1. simpl. lia.
  - unfold countIf. simpl. rewrite A1, B2. reflexivity.
  - repeat constructor; congruence.
  - constructor; [exact M1|]. constructor; [exact M2 | constructor].
Qed.

Lemma inert_spawnBodies (env : Env) (cur : R) (centerBody : Body) :
  forall n k, Forall inert (spawnBodies env cur centerBody k n).
Proof.
  induction n as [|n IH]; intros k; simpl; constructor; auto.
  repeat split. simpl.
  eapply Rle_trans; [|apply Rmax_l]. apply Rlt_le, MIN_BODY_MASS_pos.
Qed.

Lemma populateSystem_spec (env : Env) (n : nat) (s : State) :
  exists extra,
    Forall inert extra
    /\ populateSystem env n s
       = set_celestialBodies (celestialBodies s ++ extra) s.
Proof.
  unfold populateSystem.
  destruct (findIndex isGravitationalCenter (celestialBodies s)) as [c|].
  - destruct (nth_error (celestialBodies s) c) as [centerBody|].
    + eexists. split; [apply inert_spawnBodies | reflexivity].
    + exists []. split; [constructor|]. rewrite app_nil_r.
      destruct s; reflexivity.
  - exists []. split; [constructor|]. rewrite app_nil_r.
    destruct s; reflexivity.
Qed.

Lemma findIndex_none (p : Body -> bool) (l : list Body) :
  Forall (fun c => p c = false) l -> findIndex p l = None.
Proof.
  induction 1 as [|c l Hc H IH]; simpl; [reflexivity|].
  rewrite Hc, IH. reflexivity.
Qed.

Lemma Inv_resetPlayer (env : Env) (s : State) :
  Inv s -> Inv (resetPlayer env s).
Proof.
  intros (HR & Hb & Hc & Hw).
  unfold resetPlayer. cbv zeta.
  match goal with
  | |- Inv (populateSystem env INIT_NUM_BODIES ?base) =>
    destruct (populateSystem_spec env INIT_NUM_BODIES base) as (extra & He & ->)
  end.
  pose proof SUN_GAME_MASS_pos as HS.
  unfold Inv. simpl.
  split; [|repeat split; try lra; discriminate].
  apply (RegistryInv_app_inert false [_; _]); [|exact He].
  apply RegistryInv_sun_player; try reflexivity.
  - destruct (findIndex isSun (celestialBodies s)) as [i|] eqn:Hf;
      [|reflexivity].
    destruct (findIndex_Some _ _ _ Hf) as (c & Hn & Hs).
    rewrite Hn. exact Hs.
  - destruct (findIndex isSun (celestialBodies s)) as [i|] eqn:Hf;
      [|reflexivity].
    destruct (findIndex_Some _ _ _ Hf) as (c & Hn & Hs).
    rewrite Hn. simpl.
    destruct HR as (Hsane & _).
    destruct (proj1 (Forall_nth_error _ _) Hsane _ _ Hn) as (_ & B & _).
    auto.
  - destruct (findIndex isSun (celestialBodies s)) as [i|] eqn:Hf;
      [|reflexivity].
    destruct (findIndex_Some _ _ _ Hf) as (c & Hn & Hs).
    rewrite Hn. simpl.
    destruct HR as (Hsane & _ & Hrole & _).
    destruct (proj1 (Forall_nth_error _ _) Hsane _ _ Hn) as (A & _ & _).
    destruct (gameWon s).
    + destruct Hrole as (Hno & _).
      rewrite (proj1 (Forall_nth_error _ _) Hno _ _ Hn) in Hs. discriminate.
    + destruct Hrole as (_ & Hcs).
      pose proof (proj1 (Forall_nth_error _ _) Hcs _ _ Hn) as E.
      simpl in E. destruct (isSpark c); [|reflexivity].
      rewrite (A eq_refl), Hs in E. discriminate.
  - destruct (findIndex isSun (celestialBodies s)) as [i|]; [|simpl; lra].
    destruct (nth_error (celestialBodies s) i); simpl; [apply Rmax_l | lra].
  - simpl. generalize PLAYER_INITIAL_MASS_pos. lra.
Qed.

Lemma Inv_initializeGame (env : Env) : Inv (initializeGame env).
Proof.
  unfold initializeGame. cbv zeta.
  match goal with
  | |- Inv (populateSystem env INIT_NUM_BODIES ?base) =>
    destruct (populateSystem_spec env INIT_NUM_BODIES base) as (extra & He & ->)
  end.
  pose proof SUN_GAME_MASS_pos as HS.
  unfold Inv. simpl.
  split; [|repeat split; try lra; discriminate].
  apply (RegistryInv_app_inert false [_; _]); [|exact He].
  apply RegistryInv_sun_player; try reflexivity; simpl;
    generalize PLAYER_INITIAL_MASS_pos; lra.
Qed.

Lemma thinned_update_at (l : list Body) (c' : Body) :
  forall i c, nth_error l i = Some c -> evolved c c' ->
    thinned l (update i (fun _ => c') l).
Proof.
  induction l as [|h t IH]; intros [|i] c H Hf; simpl in *; try discriminate.
  - injection H as ->. auto with registry.
  - eauto with registry.
Qed.

Lemma inert_spawnSparks (env : Env) (cur angle sd mainSpeed mult spread : R)
    (player : Body) :
  forall n k,
    Forall inert
      (spawnSparks env cur angle sd mainSpeed mult spread player k n).
Proof.
  induction n as [|n IH]; intros k; simpl; constructor; auto.
  repeat split. simpl. unfold SPARK_MASS.
  generalize PLAYER_INITIAL_MASS_pos. lra.
Qed.

Lemma RegistryInv_performEjection (env : Env) (angle : R) (pi : nat)
    (player : Body) (ejectedMass : R) (s : State) (won : bool) :
  nth_error (celestialBodies s) pi = Some player ->
  RegistryInv won (celestialBodies s) ->
  RegistryInv won (performEjection env angle pi player ejectedMass s).
Proof.
  intros Hn HR. unfold performEjection. cbv zeta.
  apply RegistryInv_app_inert.
  - apply (RegistryInv_thinned won (celestialBodies s)); [exact HR|].
    apply (thinned_update_at _ _ pi player Hn).
    destruct (Rgtb _ 1e-9);
      [eapply evolved_trans; [|apply evolved_set_velocity]|];
      apply evolved_set_mass.
  - apply Forall_app. split.
    + destruct (Rgeb ejectedMass MIN_BODY_MASS) eqn:E; [|constructor].
      constructor; [|constructor]. repeat split. simpl.
      apply Rleb_iff in E. generalize MIN_BODY_MASS_pos. lra.
    + apply inert_spawnSparks.
Qed.

Lemma Inv_ejectMass (env : Env) (angle : R) (s : State) :
  Inv s -> Inv (ejectMass env angle s).
Proof.
  intros HI. pose proof HI as (HR & Hb & Hc & Hw).
  unfold ejectMass.
  destruct (findIndex isPlayer (celestialBodies s)) as [pi|]; [|exact HI].
  destruct (nth_error (celestialBodies s) pi) as [player|] eqn:Hn;
    [|exact HI].
  destruct (Rleb (mass player) MIN_PLAYER_MASS); [exact HI|].
  cbv zeta.
  destruct (_ && _); [exact HI|].
  unfold Inv. simpl.
  split; [|auto].
  apply (RegistryInv_performEjection env angle pi player _
           (set_currentEjectionMultiplier _ s) (gameWon s) Hn HR).
Qed.

Lemma Inv_updatePhysics (env : Env) (dt : R) (s : State) :
  0 <= dt -> Inv s -> Inv (updatePhysics env dt s).
Proof.
  intros Hdt HI. unfold updatePhysics. cbv zeta.
  assert (H5 : Inv (checkCollisions (now env) dt
                      (gravityAndMotion (now env) dt s))).
  { apply (Inv_stage s); [exact HI|].
    eapply stage_trans; [|apply stage_checkCollisions].
    apply stage_gravityAndMotion. destruct HI as ((Hs & _) & _). exact Hs. }
  destruct (playerNeedsReset _).
  - apply Inv_resetPlayer, H5.
  - eapply Inv_stage; [|apply stage_decayEjectionMultiplier].
    apply Inv_checkSunAbsorption; assumption.
Qed.

Lemma Inv_step (s s' : State) : Inv s -> step s s' -> Inv s'.
Proof.
  intros HI Hst. destruct Hst as [env dt s [Hdt _]|env angle s|s|s].
  - apply Inv_updatePhysics; [lra | exact HI].
  - apply Inv_ejectMass, HI.
  - exact HI.
  - exact HI.
Qed.

(** Every state of the running game satisfies the invariant. *)
Lemma reachable_Inv (s : State) : reachable s -> Inv s.
Proof.
  induction 1 as [env|s s' Hr IH Hst].
  - apply Inv_initializeGame.
  - exact (Inv_step s s' IH Hst).
Qed.

Lemma countIf_pointwise (p q : Body -> bool) (l : list Body) :
  Forall (fun c => p c = q c) l -> countIf p l = countIf q l.
Proof.
  induction 1 as [|c l E H IH]; [reflexivity|].
  rewrite !countIf_cons, E, IH. reflexivity.
Qed.

Lemma Inv_one_center (s : State) :
  Inv s -> countIf isGravitationalCenter (celestialBodies s) = 1%nat.
Proof.
  intros ((_ & _ & Hrole & _) & _). destruct (gameWon s).
  - destruct Hrole as (_ & H & _). exact H.
  - destruct Hrole as (H1 & H2).
    rewrite (countIf_pointwise _ _ _ H2). exact H1.
Qed.

Lemma Inv_WinTerminal (s : State) :
  Inv s -> gameWon s = true -> WinTerminal s.
Proof.
  intros ((_ & Hp & Hrole & _) & _ & _ & Hb) Hw. rewrite Hw in Hrole.
  destruct Hrole as (H1 & H2 & H3). unfold WinTerminal. auto.
Qed.

(** In the running game, a won session is in the terminal state, and the
    blend never leaves [0, 1]. *)
Lemma reachable_WinTerminal (s : State) :
  reachable s -> gameWon s = true -> WinTerminal s.
Proof. intros H. apply Inv_WinTerminal, reachable_Inv, H. Qed.

Lemma reachable_blend (s : State) :
  reachable s -> 0 <= gravityBlendFactor s <= 1.
Proof. intros H. destruct (reachable_Inv s H) as (_ & Hb & _). exact Hb. Qed.

(** Masses are never negative: not between two operations of the game
    loop, and not in the states the collision loops pass through. *)
Lemma reachable_masses (s : State) :
  reachable s -> Forall (fun c => 0 <= mass c) (celestialBodies s).
Proof.
  intros H. destruct (reachable_Inv s H) as ((_ & _ & _ & Hm) & _). exact Hm.
Qed.

Lemma collision_masses (now : Z) (dt : R) (i n : nat) (s : State) :
  reachable s ->
  Forall (fun c => 0 <= mass c)
         (celestialBodies
            (outcomeState
               (innerLoop now dt i n (gravityAndMotion now dt s)))).
Proof.
  intros H. pose proof (reachable_Inv s H) as HI.
  assert (HI' : Inv (outcomeState
                       (innerLoop now dt i n (gravityAndMotion now dt s)))).
  { apply (Inv_stage s); [exact HI|].
    eapply stage_trans; [|apply stage_innerLoop].
    apply stage_gravityAndMotion. destruct HI as ((Hs & _) & _). exact Hs. }
  destruct HI' as ((_ & _ & _ & Hm) & _). exact Hm.
Qed.

Lemma gameWon_ejectMass (env : Env) (angle : R) (s : State) :
  gameWon (ejectMass env angle s) = gameWon s.
Proof.
  unfold ejectMass.
  destruct (findIndex isPlayer (celestialBodies s)) as [pi|]; [|reflexivity].
  destruct (nth_error (celestialBodies s) pi) as [player|]; [|reflexivity].
  destruct (Rleb (mass player) MIN_PLAYER_MASS); [reflexivity|].
  cbv zeta. destruct (_ && _); reflexivity.
Qed.

(** ** Termination of the collision loops *)

Lemma resolvePair_break_index (now : Z) (dt : R) (i j k : nat)
    (s s' : State) :
  (j < i)%nat -> resolvePair now dt i j s = PairBreak s' k -> (k <= i)%nat.
Proof.
  intros Hlt. unfold resolvePair.
  destruct (nth_error (celestialBodies s) i) as [b1|]; [|discriminate].
  destruct (nth_error (celestialBodies s) j) as [b2|]; [|discriminate].
  destruct (excluded now b1 b2); [discriminate|].
  destruct (negb (overlapping _ b1 b2)); [discriminate|].
  destruct (Rgeb (mass b1) (mass b2));
    match goal with
    | |- context [isGravitationalCenter ?c || isSpark ?d] =>
      destruct (isGravitationalCenter c || isSpark d); [discriminate|]
    end;
    match goal with
    | |- context [isPlayer ?c && Rltb ?m MIN_PLAYER_MASS] =>
      destruct (isPlayer c && Rltb m MIN_PLAYER_MASS); [discriminate|]
    end;
    match goal with
    | |- context [Rleb ?m MIN_BODY_MASS || ?c] =>
      destruct (Rleb m MIN_BODY_MASS || c); [|discriminate]
    end;
    intros H; injection H as _ <-.
  - destruct (Nat.ltb_spec j i); lia.
  - destruct (Nat.ltb_spec i j); lia.
Qed.

Lemma innerLoop_break_index (now : Z) (dt : R) (i k : nat) (s' : State) :
  forall n s,
    (n <= i)%nat -> innerLoop now dt i n s = PairBreak s' k -> (k <= i)%nat.
Proof.
  induction n as [|j IH]; intros s Hle H; simpl in H; [discriminate|].
  destruct (resolvePair now dt i j s) as [s1|s1 k1|s1] eqn:E.
  - apply (IH s1); [lia | exact H].
  - injection H as _ <-. apply (resolvePair_break_index now dt i j k1 s s1); auto.
  - discriminate.
Qed.

(** The outer loop never runs out of fuel when it is given at least as much
    as the index it starts from: each pass continues from a smaller index. *)
Lemma outerLoop_fuel (now : Z) (dt : R) :
  forall fuel1 fuel2 n s,
    (n <= fuel1)%nat -> (n <= fuel2)%nat ->
    outerLoop fuel1 now dt n s = outerLoop fuel2 now dt n s.
Proof.
  induction fuel1 as [|fuel1 IH]; intros fuel2 n s H1 H2.
  - assert (n = 0%nat) by lia. subst n. destruct fuel2; reflexivity.
  - destruct fuel2 as [|fuel2];
      [assert (n = 0%nat) by lia; subst n; reflexivity|].
    destruct n as [|i]; [reflexivity|]. simpl.
    destruct (nth_error (celestialBodies s) i); [|apply IH; lia].
    destruct (innerLoop now dt i i s) as [s1|s1 k|s1] eqn:E; auto.
    + destruct (playerNeedsReset s1); [reflexivity | apply IH; lia].
    + pose proof (innerLoop_break_index now dt i k s1 i s (Nat.le_refl i) E).
      destruct (playerNeedsReset s1); [reflexivity | apply IH; lia].
Qed.

Lemma checkCollisions_fuel (now : Z) (dt : R) (s : State) (fuel : nat) :
  (length (celestialBodies s) <= fuel)%nat ->
  outerLoop fuel now dt (length (celestialBodies s)) s
  = checkCollisions now dt s.
Proof. intros H. apply outerLoop_fuel; auto. Qed.

(** ** Radius and mass *)

Lemma cbrt_pos (v : R) : 0 < v -> cbrt v = Rpower v (/ 3).
Proof.
  intros H. unfold cbrt. destruct (Rcase_abs v); [lra|].
  destruct (Req_dec_T v 0); [lra | reflexivity].
Qed.

Lemma cbrt_0 : cbrt 0 = 0.
Proof.
  unfold cbrt. destruct (Rcase_abs 0); [lra|].
  destruct (Req_dec_T 0 0); [reflexivity | lra].
Qed.

Lemma cbrt_gt_0 (v : R) : 0 < v -> 0 < cbrt v.
Proof. intros H. rewrite cbrt_pos by exact H. apply exp_pos. Qed.

Lemma cbrt_cube (u : R) : 0 < u -> cbrt (u ^ 3) = u.
Proof.
  intros H. rewrite cbrt_pos by (apply pow_lt; exact H).
  rewrite <- (Rpower_pow 3 u H), Rpower_mult.
  replace (INR 3 * / 3) with 1 by (simpl; lra).
  apply Rpower_1, H.
Qed.

Lemma cube_cbrt (v : R) : 0 < v -> cbrt v ^ 3 = v.
Proof.
  intros H. rewrite cbrt_pos by exact H.
  assert (Hp : 0 < Rpower v (/ 3)) by apply exp_pos.
  rewrite <- (Rpower_pow 3 _ Hp), Rpower_mult.
  replace (/ 3 * INR 3) with 1 by (simpl; lra).
  apply Rpower_1, H.
Qed.

Lemma cube_lt (u v : R) : 0 <= u -> u < v -> u ^ 3 < v ^ 3.
Proof.
  intros Hu Hv. simpl. rewrite !Rmult_1_r.
  assert (u * u < v * v) by nra. nra.
Qed.

Lemma cbrt_lt (u v : R) : 0 < u -> u < v -> cbrt u < cbrt v.
Proof.
  intros Hu Hv.
  pose proof (cbrt_gt_0 u Hu). pose proof (cbrt_gt_0 v ltac:(lra)).
  destruct (Rlt_dec (cbrt u) (cbrt v)) as [|N]; [assumption|].
  exfalso. apply Rnot_lt_le in N.
  pose proof (cube_cbrt u Hu). pose proof (cube_cbrt v ltac:(lra)).
  destruct N as [N|N].
  - pose proof (cube_lt _ _ (Rlt_le _ _ H0) N). lra.
  - rewrite N in *. lra.
Qed.

(** X1.  The two conversions of utils.js invert each other up to their clamps:
    the radius of the mass of radius [r] is [max(0.1, r)], and the mass of
    the radius of mass [m] is [m] unless [m] is below the mass of radius
    0.1, which it returns then. *)
Theorem radius_mass_round_trip :
  (forall r, calculateRadiusFromMass (calculateMassFromRadius r) = Rmax 0.1 r)
  /\ (forall m, calculateMassFromRadius (calculateRadiusFromMass m)
                = Rmax (calculateMassFromRadius 0.1) m).
Proof.
  pose proof PI_RGT_0 as Hpi.
  split.
  - intros r. unfold calculateMassFromRadius, calculateRadiusFromMass.
    set (rho := Rmax 0.1 r).
    assert (Hrho : 0 < rho) by (unfold rho, Rmax; destruct (Rle_dec 0.1 r); lra).
    assert (Hm : 0 < 4 / 3 * PI * rho ^ 3 * DENSITY).
    { unfold DENSITY. pose proof (pow_lt rho 3 Hrho). nra. }
    rewrite Rleb_false by exact Hm.
    replace (3 * (4 / 3 * PI * rho ^ 3 * DENSITY / DENSITY) / (4 * PI))
      with (rho ^ 3) by (unfold DENSITY; field; lra).
    apply cbrt_cube, Hrho.
  - intros m.
    assert (Hmin : calculateMassFromRadius 0.1 = 4 / 3 * PI * 0.1 ^ 3 * DENSITY).
    { unfold calculateMassFromRadius. rewrite Rmax_left by lra. reflexivity. }
    assert (Hminpos : 0 < calculateMassFromRadius 0.1).
    { rewrite Hmin. unfold DENSITY. nra. }
    unfold calculateRadiusFromMass.
    destruct (Rle_dec m 0) as [Hle|Hgt].
    + rewrite Rleb_true by exact Hle. rewrite Rmax_left by lra. reflexivity.
    + apply Rnot_le_lt in Hgt. rewrite Rleb_false by exact Hgt. cbv zeta.
      set (v := 3 * (m / DENSITY) / (4 * PI)).
      assert (Hv : 0 < v).
      { unfold v, DENSITY. apply Rdiv_lt_0_compat; lra. }
      assert (Hm : m = 4 / 3 * PI * v * DENSITY).
      { unfold v, DENSITY. field. lra. }
      pose proof (cube_cbrt v Hv) as Hc. pose proof (cbrt_gt_0 v Hv) as Hc0.
      unfold calculateMassFromRadius at 1.
      destruct (Rle_dec (calculateMassFromRadius 0.1) m) as [Hbig|Hsmall].
      * rewrite (Rmax_right _ m) by exact Hbig.
        assert (Hv' : 0.1 ^ 3 <= v).
        { rewrite Hmin, Hm in Hbig. unfold DENSITY in Hbig. nra. }
        assert (0.1 <= cbrt v).
        { destruct (Rle_dec 0.1 (cbrt v)) as [|N]; [assumption|].
          apply Rnot_le_lt in N.
          pose proof (cube_lt _ _ (Rlt_le _ _ Hc0) N). lra. }
        rewrite Rmax_right by assumption. rewrite Hc. lra.
      * apply Rnot_le_lt in Hsmall.
        rewrite (Rmax_left _ m) by lra.
        assert (Hv' : v < 0.1 ^ 3).
        { rewrite Hmin, Hm in Hsmall. unfold DENSITY in Hsmall. nra. }
        assert (cbrt v <= 0.1).
        { destruct (Rle_dec (cbrt v) 0.1) as [|N]; [assumption|].
          apply Rnot_le_lt in N.
          pose proof (cube_lt 0.1 (cbrt v) ltac:(lra) N). lra. }
        rewrite Rmax_left by assumption. symmetry. exact Hmin.
Qed.

(** ** The radius of the sun *)

Lemma cbrt_1 : cbrt 1 = 1.
Proof.
  replace 1 with (1 ^ 3) at 1 by ring. apply cbrt_cube. lra.
Qed.

Lemma cbrt_le (u v : R) : 0 <= u -> u <= v -> cbrt u <= cbrt v.
Proof.
  intros Hu Hv. destruct (Req_dec u 0) as [->|Hne].
  - rewrite cbrt_0. destruct (Req_dec v 0) as [->|Hv0].
    + rewrite cbrt_0. lra.
    + apply Rlt_le, cbrt_gt_0. lra.
  - destruct (Req_dec u v) as [->|Huv]; [lra|].
    apply Rlt_le, cbrt_lt; lra.
Qed.

Lemma getSunDisplayRadius_mono (f f' : R) :
  f' <= f -> getSunDisplayRadius f' <= getSunDisplayRadius f.
Proof.
  intros H. unfold getSunDisplayRadius, SUN_DISPLAY_RADIUS.
  apply Rmult_le_compat_l; [lra|].
  apply cbrt_le; [apply Rmax_l|].
  apply Rmax_lub; [apply Rmax_l|].
  eapply Rle_trans; [exact H | apply Rmax_r].
Qed.

(** X26.  While the sun's game mass lies between 0 and [SUN_GAME_MASS], the radius
    the [radius] getter reports for the sun lies between 1 and
    [SUN_DISPLAY_RADIUS]; it is [SUN_DISPLAY_RADIUS] at the full game mass,
    1 when nothing is left, and it never grows when the game mass
    shrinks. *)
Theorem sun_radius_bounds (cur : R) (sun : Body) :
  isSun sun = true -> 0 <= cur <= SUN_GAME_MASS ->
  1 <= radius cur sun <= SUN_DISPLAY_RADIUS
  /\ radius SUN_GAME_MASS sun = SUN_DISPLAY_RADIUS
  /\ radius 0 sun = 1
  /\ (forall cur', cur' <= cur -> radius cur' sun <= radius cur sun).
Proof.
  intros Hs Hc. pose proof SUN_GAME_MASS_pos as HS.
  unfold radius. rewrite Hs.
  assert (Hfull : getSunDisplayRadius (SUN_GAME_MASS / SUN_GAME_MASS)
                  = SUN_DISPLAY_RADIUS).
  { unfold getSunDisplayRadius.
    replace (SUN_GAME_MASS / SUN_GAME_MASS) with 1 by (field; lra).
    rewrite Rmax_right by lra. rewrite cbrt_1. ring. }
  assert (Hdiv : forall a b, a <= b -> a / SUN_GAME_MASS <= b / SUN_GAME_MASS).
  { intros a b Hab. unfold Rdiv. apply Rmult_le_compat_r; [|exact Hab].
    apply Rlt_le, Rinv_0_lt_compat, HS. }
  split; [split; [apply Rmax_l|]|split; [|split]].
  - apply Rmax_lub; [unfold SUN_DISPLAY_RADIUS; lra|].
    rewrite <- Hfull. apply getSunDisplayRadius_mono, Hdiv, Hc.
  - rewrite Hfull. apply Rmax_right. unfold SUN_DISPLAY_RADIUS. lra.
  - unfold getSunDisplayRadius. replace (0 / SUN_GAME_MASS) with 0 by (field; lra).
    rewrite (Rmax_left 0 0) by lra. rewrite cbrt_0, Rmult_0_r.
    apply Rmax_left. lra.
  - intros cur' Hle.
    apply Rmax_lub; [apply Rmax_l|].
    eapply Rle_trans; [|apply Rmax_r].
    apply getSunDisplayRadius_mono, Hdiv, Hle.
Qed.

Lemma sun_radius_bounds_witness :
  1 <= radius (0.7 * SUN_GAME_MASS)
         (CelestialBody SUN_GAME_MASS 0 0 0 0 0 SUN_GAME_MASS false true false)
    <= SUN_DISPLAY_RADIUS
  /\ radius SUN_GAME_MASS
       (CelestialBody SUN_GAME_MASS 0 0 0 0 0 SUN_GAME_MASS false true false)
     = SUN_DISPLAY_RADIUS
  /\ radius 0
       (CelestialBody SUN_GAME_MASS 0 0 0 0 0 SUN_GAME_MASS false true false)
     = 1
  /\ (forall cur',
        cur' <= 0.7 * SUN_GAME_MASS ->
        radius cur'
          (CelestialBody SUN_GAME_MASS 0 0 0 0 0 SUN_GAME_MASS false true false)
        <= radius (0.7 * SUN_GAME_MASS)
             (CelestialBody SUN_GAME_MASS 0 0 0 0 0 SUN_GAME_MASS
                            false true false)).
Proof.
  apply (sun_radius_bounds (0.7 * SUN_GAME_MASS)
           (CelestialBody SUN_GAME_MASS 0 0 0 0 0 SUN_GAME_MASS
                          false true false)).
  - reflexivity.
  - pose proof SUN_GAME_MASS_pos. lra.
Defined.

(** ** Mouse, camera and zoom *)

(** X2.  The zoom keeps the scale within [0.05, 5] and, for a camera of positive
    scale, leaves the world point under the cursor where it was. *)
Theorem handleZoom_keeps_focus (e : Env) (deltaY : R) (v : View) :
  0 < camera_scale (camera v) ->
  0.05 <= camera_scale (camera (handleZoom e deltaY v)) <= 5
  /\ worldUnderCursor e (handleZoom e deltaY v) = worldUnderCursor e v.
Proof.
  intros Hs. split.
  - simpl. split; [apply Rmax_l|].
    apply Rmax_lub; [lra | apply Rmin_l].
  - unfold worldUnderCursor, handleZoom. simpl. f_equal; ring.
Qed.

Lemma handleZoom_keeps_focus_witness :
  0.05 <= camera_scale (camera (handleZoom clickEnv 1 someView)) <= 5
  /\ worldUnderCursor clickEnv (handleZoom clickEnv 1 someView)
     = worldUnderCursor clickEnv someView.
Proof. apply (handleZoom_keeps_focus clickEnv 1 someView). simpl. lra. Defined.

(** X3.  After [updateMousePosition] the stored world position of the mouse is
    the world point under the cursor, and projecting it back to the screen
    with the projection of physics.js and ejection.js gives the screen
    position of the mouse again. *)
Theorem updateMousePosition_round_trip
    (e : Env) (rectLeft rectTop clientX clientY : R) (v : View) :
  camera_scale (camera v) <> 0 ->
  let v' := updateMousePosition e rectLeft rectTop clientX clientY v in
  (mouseX v', mouseY v') = worldUnderCursor e v'
  /\ project e (camera v') (mouseX v', mouseY v')
     = (clientX - rectLeft, clientY - rectTop).
Proof.
  intros Hs v'. split; [reflexivity|].
  unfold project, v', updateMousePosition. simpl. f_equal; field; exact Hs.
Qed.

Lemma updateMousePosition_round_trip_witness :
  let v' := updateMousePosition clickEnv 10 20 310 120 someView in
  (mouseX v', mouseY v') = worldUnderCursor clickEnv v'
  /\ project clickEnv (camera v') (mouseX v', mouseY v')
     = (310 - 10, 120 - 20).
Proof.
  apply (updateMousePosition_round_trip clickEnv 10 20 310 120 someView).
  simpl. lra.
Defined.

Lemma atan2_scale (k py px : R) : 0 < k -> atan2 (k * py) (k * px) = atan2 py px.
Proof.
  intros Hk. unfold atan2, Rgtb, Rgeb.
  destruct (Rlt_dec 0 px) as [Hx|Hx].
  - rewrite (Rltb_true 0 px Hx), (Rltb_true 0 (k * px)) by nra.
    f_equal. field. lra.
  - rewrite (Rltb_false 0 px), (Rltb_false 0 (k * px)) by nra.
    destruct (Rlt_dec px 0) as [Hx'|Hx'].
    + rewrite (Rltb_true px 0 Hx'), (Rltb_true (k * px) 0) by nra.
      replace (k * py / (k * px)) with (py / px) by (field; lra).
      destruct (Rle_dec 0 py) as [Hy|Hy].
      * rewrite (Rleb_true 0 py Hy), (Rleb_true 0 (k * py)) by nra. reflexivity.
      * rewrite (Rleb_false 0 py), (Rleb_false 0 (k * py)) by nra. reflexivity.
    + assert (px = 0) by lra. subst px.
      rewrite (Rltb_false 0 0), (Rltb_false (k * 0) 0) by lra.
      destruct (Rlt_dec 0 py) as [Hy|Hy].
      * rewrite (Rltb_true 0 py Hy), (Rltb_true 0 (k * py)) by nra. reflexivity.
      * rewrite (Rltb_false 0 py), (Rltb_false 0 (k * py)) by nra.
        destruct (Rlt_dec py 0) as [Hy'|Hy'].
        -- rewrite (Rltb_true py 0 Hy'), (Rltb_true (k * py) 0) by nra.
           reflexivity.
        -- rewrite (Rltb_false py 0), (Rltb_false (k * py) 0) by nra.
           reflexivity.
Qed.

(** X4.  The direction of an ejection is the world-space direction from the
    player to the point under the cursor, whatever the zoom. *)
Theorem ejection_aims_at_cursor (e : Env) (v : View) (player : Body) :
  0 < camera_scale (camera v) ->
  aimAngle e v player
  = atan2 (snd (worldUnderCursor e v) - y player)
          (fst (worldUnderCursor e v) - x player).
Proof.
  intros Hs. unfold aimAngle, worldUnderCursor. cbv zeta. simpl fst. simpl snd.
  match goal with
  | |- _ = atan2 ?a ?b =>
    rewrite <- (atan2_scale (camera_scale (camera v)) a b Hs)
  end.
  f_equal; field; lra.
Qed.

Lemma ejection_aims_at_cursor_witness :
  aimAngle clickEnv someView (scenarioBody 100)
  = atan2 (snd (worldUnderCursor clickEnv someView) - y (scenarioBody 100))
          (fst (worldUnderCursor clickEnv someView) - x (scenarioBody 100)).
Proof.
  apply (ejection_aims_at_cursor clickEnv someView (scenarioBody 100)).
  simpl. lra.
Defined.

(** ** The frame loop *)

(** X5.  A frame of [gameLoop] keeps the game among the reachable states: it
    calls [updatePhysics] only with [0 < dt <= 0.1], and not at all when the
    clock has not advanced; in both cases it records the clock reading. *)
Theorem gameLoop_reachable (perfNow : R) (e : Env) (l : Loop) :
  reachable (game l) ->
  reachable (game (gameLoop perfNow e l))
  /\ lastTime (gameLoop perfNow e l) = perfNow
  /\ (perfNow <= lastTime l -> game (gameLoop perfNow e l) = game l).
Proof.
  intros Hr. unfold gameLoop.
  set (dt := Rmin ((perfNow - lastTime l) / 1000) 0.1).
  destruct (Rle_dec dt 0) as [Hle|Hgt].
  - rewrite Rleb_true by exact Hle. simpl. auto.
  - apply Rnot_le_lt in Hgt. rewrite Rleb_false by exact Hgt. simpl.
    split; [|split; [reflexivity|]].
    + apply (reachable_step (game l)); [exact Hr|].
      apply step_tick. split; [exact Hgt | apply Rmin_r].
    + intros Hb. exfalso.
      assert (dt <= (perfNow - lastTime l) / 1000) by apply Rmin_l. lra.
Qed.

Lemma gameLoop_reachable_witness :
  reachable (game (gameLoop 16 clickEnv
                     {| lastTime := 0; game := initializeGame clickEnv |}))
  /\ lastTime (gameLoop 16 clickEnv
                 {| lastTime := 0; game := initializeGame clickEnv |}) = 16
  /\ (16 <= 0 ->
      game (gameLoop 16 clickEnv
              {| lastTime := 0; game := initializeGame clickEnv |})
      = initializeGame clickEnv).
Proof.
  apply (gameLoop_reachable 16 clickEnv
           {| lastTime := 0; game := initializeGame clickEnv |}).
  simpl. apply reachable_init.
Defined.

(** ** The warning intensity *)

Lemma warning_range_pos : 0 < PLAYER_INITIAL_MASS - MIN_PLAYER_MASS.
Proof. unfold MIN_PLAYER_MASS. pose proof PLAYER_INITIAL_MASS_pos. lra. Qed.

Lemma calculateWarningIntensity_bounds (s : State) :
  0 <= calculateWarningIntensity s <= 1.
Proof.
  unfold calculateWarningIntensity.
  destruct (findBody isPlayer (celestialBodies s)) as [[pi player]|]; [|lra].
  destruct (gameWon s || Rgtb (sunAbsorptionProgress s) 0); [lra|].
  destruct (Rleb _ 0); [lra|]. cbv zeta.
  destruct (Rgtb _ 0.5); [lra|].
  split; [apply Rmax_l|]. apply Rmax_lub; [lra | apply Rmin_l].
Qed.

(** X6.  The warning target lies in [0, 1]; while the game is not won and no
    absorption has begun, it is 0 exactly when the player has at least 55%
    of the initial mass and 1 exactly when the player is at or below the
    minimum mass. *)
Theorem calculateWarningIntensity_thresholds (s : State) :
  0 <= calculateWarningIntensity s <= 1
  /\ forall pi player,
       findBody isPlayer (celestialBodies s) = Some (pi, player) ->
       gameWon s = false -> sunAbsorptionProgress s <= 0 ->
       (calculateWarningIntensity s = 0
        <-> 0.55 * PLAYER_INITIAL_MASS <= mass player)
       /\ (calculateWarningIntensity s = 1
           <-> mass player <= MIN_PLAYER_MASS).
Proof.
  split; [apply calculateWarningIntensity_bounds|].
  intros pi player Hf Hw Hp. unfold calculateWarningIntensity.
  rewrite Hf, Hw. unfold Rgtb.
  rewrite (Rltb_false 0 (sunAbsorptionProgress s) Hp). simpl orb. cbv iota. pose proof warning_range_pos as Hr.
  rewrite Rleb_false by exact Hr. cbv zeta.
  set (range := PLAYER_INITIAL_MASS - MIN_PLAYER_MASS) in *.
  set (ratio := (mass player - MIN_PLAYER_MASS) / range).
  assert (Hm : mass player = MIN_PLAYER_MASS + ratio * range).
  { unfold ratio. field. lra. }
  assert (H55 : 0.55 * PLAYER_INITIAL_MASS = MIN_PLAYER_MASS + 0.5 * range).
  { unfold range, MIN_PLAYER_MASS. lra. }
  destruct (Rlt_dec 0.5 ratio) as [Hgt|Hle].
  - rewrite Rltb_true by exact Hgt. split; split; intros; try nra.
  - apply Rnot_lt_le in Hle. rewrite Rltb_false by exact Hle.
    split; split; intros H.
    + revert H. unfold Rmax, Rmin.
      destruct (Rle_dec 1 _); destruct (Rle_dec 0 _); intros; nra.
    + assert (ratio = 0.5) by nra.
      replace (1 - ratio / 0.5) with 0 by lra.
      rewrite Rmin_right by lra. apply Rmax_left. lra.
    + revert H. unfold Rmax, Rmin.
      destruct (Rle_dec 1 _); destruct (Rle_dec 0 _); intros; nra.
    + assert (ratio <= 0) by nra.
      rewrite Rmin_left by lra. apply Rmax_right. lra.
Qed.

(** X7.  For a frame of at most 0.2 s (the loop caps it at 0.1 s) the smoothed
    warning intensity moves from its old value towards the target without
    passing it, and stays in [0, 1]. *)
Theorem updateWarning_no_overshoot (dt : R) (s : State) (w : R) :
  0 <= w <= 1 -> 0 <= dt <= 0.2 ->
  0 <= updateWarning dt s w <= 1
  /\ Rmin w (calculateWarningIntensity s) <= updateWarning dt s w
     <= Rmax w (calculateWarningIntensity s).
Proof.
  intros Hw Hdt. unfold updateWarning. cbv zeta.
  pose proof (calculateWarningIntensity_bounds s) as Ht.
  set (tw := calculateWarningIntensity s) in *.
  assert (Hlo : Rmin w tw <= w + (tw - w) * 5 * dt).
  { unfold Rmin. destruct (Rle_dec w tw); nra. }
  assert (Hhi : w + (tw - w) * 5 * dt <= Rmax w tw).
  { unfold Rmax. destruct (Rle_dec w tw); nra. }
  assert (H0 : 0 <= Rmin w tw) by (apply Rmin_glb; lra).
  assert (H1 : Rmax w tw <= 1) by (apply Rmax_lub; lra).
  rewrite Rmin_right by lra. rewrite Rmax_right by lra. lra.
Qed.

Lemma updateWarning_no_overshoot_witness :
  0 <= updateWarning 0.1 scenarioState 0.5 <= 1
  /\ Rmin 0.5 (calculateWarningIntensity scenarioState)
     <= updateWarning 0.1 scenarioState 0.5
     <= Rmax 0.5 (calculateWarningIntensity scenarioState).
Proof. apply (updateWarning_no_overshoot 0.1 scenarioState 0.5); lra. Defined.

(** ** The orbit history *)

Lemma length_removelast_le (A : Type) (l : list A) :
  (length (removelast l) <= Nat.pred (length l))%nat.
Proof.
  induction l as [|a [|b t] IH]; simpl in *; lia.
Qed.

Lemma Forall_removelast (A : Type) (P : A -> Prop) (l : list A) :
  Forall P l -> Forall P (removelast l).
Proof.
  induction 1 as [|a l Ha H IH]; simpl; [constructor|].
  destruct l; [constructor | constructor; assumption].
Qed.

(** X8.  The orbit history never holds more than [ORBIT_HISTORY_LENGTH] entries,
    every entry is a proper ellipse (finite positive semi-axes), and the
    history is emptied whenever there is no sun (as in every tick after the
    win) or no player. *)
Theorem updateOrbitHistory_bounded (s : State) (h : list HistoryEntry) :
  (length h <= ORBIT_HISTORY_LENGTH)%nat -> Forall properEllipse h ->
  (length (updateOrbitHistory s h) <= ORBIT_HISTORY_LENGTH)%nat
  /\ Forall properEllipse (updateOrbitHistory s h)
  /\ (findBody isSun (celestialBodies s) = None
      \/ findBody isPlayer (celestialBodies s) = None ->
      updateOrbitHistory s h = []).
Proof.
  intros Hl Hp. unfold updateOrbitHistory.
  destruct (findBody isPlayer (celestialBodies s)) as [[pi player]|];
    [|simpl; repeat split; auto with arith].
  destruct (findBody isSun (celestialBodies s)) as [[ci sun]|];
    [|simpl; repeat split; auto with arith].
  destruct (pi =? ci)%nat.
  { simpl. repeat split; auto with arith. }
  cbv zeta.
  set (p := calculateOrbitParameters s pi (Some ci)).
  destruct (isFinite (orbitA p) && Ext_gt0 (orbitA p)
            && isFinite (orbitB p) && Ext_gt0 (orbitB p)) eqn:E.
  - assert (Hnew : properEllipse
                     {| params := p;
                        absorbing := Rgtb (sunAbsorptionProgress s) 0;
                        absorptionProgress := sunAbsorptionProgress s |}).
    { unfold properEllipse. simpl.
      apply andb_prop in E. destruct E as [E E4].
      apply andb_prop in E. destruct E as [E E3].
      apply andb_prop in E. destruct E as [E1 E2].
      destruct (orbitA p) as [a|]; [|discriminate].
      destruct (orbitB p) as [b|]; [|discriminate].
      exists a, b. simpl in E2, E4.
      apply Rltb_iff in E2. apply Rltb_iff in E4. auto. }
    set (h1 := _ :: h) in *.
    assert (Hh1 : Forall properEllipse h1) by (constructor; assumption).
    destruct (Nat.ltb_spec ORBIT_HISTORY_LENGTH (length h1)) as [Hlong|Hshort].
    + split; [|split].
      * pose proof (length_removelast_le _ h1). simpl length in *. lia.
      * apply Forall_removelast, Hh1.
      * intros [H|H]; discriminate.
    + split; [exact Hshort|]. split; [exact Hh1|].
      intros [H|H]; discriminate.
  - split; [exact Hl|]. split; [exact Hp|]. intros [H|H]; discriminate.
Qed.

Lemma updateOrbitHistory_bounded_witness :
  (length (updateOrbitHistory scenarioState []) <= ORBIT_HISTORY_LENGTH)%nat
  /\ Forall properEllipse (updateOrbitHistory scenarioState [])
  /\ (findBody isSun (celestialBodies scenarioState) = None
      \/ findBody isPlayer (celestialBodies scenarioState) = None ->
      updateOrbitHistory scenarioState [] = []).
Proof.
  apply (updateOrbitHistory_bounded scenarioState []).
  - simpl. lia.
  - constructor.
Defined.

(** ** The population of the system *)

Lemma length_spawnBodies (e : Env) (sunMass : R) (centerBody : Body) :
  forall n k, length (spawnBodies e sunMass centerBody k n) = n.
Proof. induction n as [|n IH]; intros k; simpl; auto. Qed.

(** X9.  Without a gravitational center [populateSystem] changes nothing; with
    one it leaves the existing bodies as they are and appends exactly
    [numMasses] bodies. *)
Theorem populateSystem_appends (e : Env) (numMasses : nat) (s : State) :
  (findIndex isGravitationalCenter (celestialBodies s) = None ->
   populateSystem e numMasses s = s)
  /\ (forall c, findIndex isGravitationalCenter (celestialBodies s) = Some c ->
      exists extra,
        celestialBodies (populateSystem e numMasses s)
        = celestialBodies s ++ extra
        /\ length extra = numMasses).
Proof.
  unfold populateSystem. split.
  - intros ->. reflexivity.
  - intros c Hc. rewrite Hc.
    destruct (findIndex_Some _ _ _ Hc) as (centerBody & Hn & _). rewrite Hn.
    eexists. split; [reflexivity | apply length_spawnBodies].
Qed.

Lemma spawnBody_spawnedAround (e : Env) (sunMass : R) (centerBody : Body)
    (k : nat) :
  (forall i, 0 <= random e i < 1) ->
  spawnedAround e sunMass centerBody (spawnBody e sunMass centerBody k).
Proof.
  intros Hr. unfold spawnedAround, spawnBody. cbv zeta.
  set (baseDist := Rmax (radius sunMass centerBody) SUN_DISPLAY_RADIUS).
  assert (Hb : 0 < baseDist).
  { unfold baseDist. eapply Rlt_le_trans; [|apply Rmax_r].
    unfold SUN_DISPLAY_RADIUS. lra. }
  set (angle := random e k * PI * 2).
  set (distance := baseDist * 3.5 + random e (k + 1) * baseDist * 15).
  pose proof (Hr (k + 1)%nat) as H1. pose proof (Hr (k + 4)%nat) as H4.
  pose proof (sin2_cos2 angle) as Hsc. unfold Rsqr in Hsc.
  assert (Hd : 3.5 * baseDist <= distance < 18.5 * baseDist).
  { unfold distance. nra. }
  split; [repeat split|]. split; [reflexivity|]. simpl.
  split; [|split].
  - replace ((x centerBody + cos angle * distance - x centerBody)
             * (x centerBody + cos angle * distance - x centerBody)
             + (y centerBody + sin angle * distance - y centerBody)
               * (y centerBody + sin angle * distance - y centerBody))
      with (distance * distance
            * (sin angle * sin angle + cos angle * cos angle)) by ring.
    rewrite Hsc. nra.
  - ring.
  - pose proof PLAYER_INITIAL_MASS_pos as HP.
    assert (Hmin : MIN_BODY_MASS <= 0.02 * PLAYER_INITIAL_MASS).
    { unfold MIN_BODY_MASS. lra. }
    destruct (Rltb (random e (k + 3)) 0.7);
      [|destruct (Rltb (random e (k + 3)) 0.9)];
      rewrite Rmax_right by nra; nra.
Qed.

(** X10.  With [Math.random()] in [0, 1), every body [populateSystem] appends is
    an ordinary body placed between 3.5 and 18.5 base distances from the
    center, moving tangentially around it, with a mass between 2% and 250%
    of the player's initial mass. *)
Theorem populateSystem_orbits (e : Env) (numMasses : nat) (s : State)
    (c : nat) (centerBody : Body) :
  (forall i, 0 <= random e i < 1) ->
  findBody isGravitationalCenter (celestialBodies s) = Some (c, centerBody) ->
  exists extra,
    celestialBodies (populateSystem e numMasses s) = celestialBodies s ++ extra
    /\ Forall (spawnedAround e (sunCurrentGameMass s) centerBody) extra.
Proof.
  intros Hr Hf. apply findBody_Some in Hf. destruct Hf as [Hi Hn].
  unfold populateSystem. rewrite Hi, Hn.
  eexists. split; [reflexivity|].
  generalize 0%nat. induction numMasses as [|n IH]; intros k; simpl;
    constructor; auto using spawnBody_spawnedAround.
Qed.

Lemma populateSystem_orbits_witness :
  exists extra,
    celestialBodies (populateSystem clickEnv 3 (probeState 500))
    = celestialBodies (probeState 500) ++ extra
    /\ Forall (spawnedAround clickEnv (sunCurrentGameMass (probeState 500))
                 (CelestialBody SUN_GAME_MASS 0 0 0 0 0 SUN_GAME_MASS
                                false true false))
              extra.
Proof.
  apply (populateSystem_orbits clickEnv 3 (probeState 500) 0).
  - intros i. simpl. lra.
  - reflexivity.
Defined.

(** ** The speed limit *)

Lemma moveBody_speed (gameDt : R) (body : Body) :
  vx (moveBody gameDt body) * vx (moveBody gameDt body)
  + vy (moveBody gameDt body) * vy (moveBody gameDt body) <= MAX_V * MAX_V
  /\ x (moveBody gameDt body) = x body + vx (moveBody gameDt body) * gameDt
  /\ y (moveBody gameDt body) = y body + vy (moveBody gameDt body) * gameDt.
Proof.
  unfold moveBody. cbv zeta.
  set (sSq := vx body * vx body + vy body * vy body).
  assert (H0 : 0 <= sSq) by (unfold sSq; nra).
  unfold Rgtb. destruct (Rlt_dec (MAX_V * MAX_V) sSq) as [Hgt|Hle].
  - rewrite Rltb_true by exact Hgt. simpl.
    split; [|split; reflexivity].
    assert (HM : 0 < MAX_V * MAX_V) by (unfold MAX_V; lra).
    assert (Hs : 0 < sqrt sSq) by (apply sqrt_lt_R0; lra).
    pose proof (sqrt_sqrt sSq H0) as Hss.
    replace (vx body * (MAX_V / sqrt sSq) * (vx body * (MAX_V / sqrt sSq))
             + vy body * (MAX_V / sqrt sSq) * (vy body * (MAX_V / sqrt sSq)))
      with (sSq * (MAX_V * MAX_V) / (sqrt sSq * sqrt sSq))
      by (unfold sSq at 1; field; lra).
    rewrite Hss. apply Req_le. field. lra.
  - apply Rnot_lt_le in Hle. rewrite Rltb_false by exact Hle. simpl.
    split; [exact Hle | split; reflexivity].
Qed.

(** X11.  After the position update no body is faster than [MAX_V], and every
    body has moved by its (capped) velocity times the game time step, so by
    at most [MAX_V * gameDt]. *)
Theorem updatePositions_speed_limit (gameDt : R) (s : State) :
  Forall2
    (fun b b' =>
       vx b' * vx b' + vy b' * vy b' <= MAX_V * MAX_V
       /\ x b' = x b + vx b' * gameDt
       /\ y b' = y b + vy b' * gameDt
       /\ (x b' - x b) ^ 2 + (y b' - y b) ^ 2 <= (MAX_V * gameDt) ^ 2
       /\ mass b' = mass b)
    (celestialBodies s) (celestialBodies (updatePositions gameDt s)).
Proof.
  unfold updatePositions. rewrite celestialBodies_set.
  induction (celestialBodies s) as [|b l IH]; simpl; constructor; auto.
  destruct (moveBody_speed gameDt b) as (Hv & Hx & Hy).
  repeat split; auto.
  - rewrite Hx, Hy.
    set (u := vx (moveBody gameDt b)) in *.
    set (w := vy (moveBody gameDt b)) in *.
    assert (Hg : 0 <= gameDt * gameDt) by nra.
    pose proof (Rmult_le_compat_r _ _ _ Hg Hv). simpl. nra.
  - unfold moveBody. cbv zeta. destruct (Rgtb _ _); reflexivity.
Qed.

(** ** What a click adds to the registry *)

Lemma Math_round_bounds (v : R) (a b : Z) :
  IZR a <= v <= IZR b -> (a <= Math_round v <= b)%Z.
Proof.
  intros [Ha Hb]. unfold Math_round.
  destruct (base_Int_part (v + / 2)) as [H1 H2].
  split.
  - assert (H : (a - 1 < Int_part (v + / 2))%Z).
    { apply lt_IZR. rewrite minus_IZR. lra. }
    lia.
  - assert (H : (Int_part (v + / 2) < b + 1)%Z).
    { apply lt_IZR. rewrite plus_IZR. lra. }
    lia.
Qed.

Lemma spawnSparks_spec (e : Env) (sunMass angle sd mainSpeed mult spread : R)
    (player : Body) :
  forall n k,
    length (spawnSparks e sunMass angle sd mainSpeed mult spread player k n) = n
    /\ Forall (fun c => isSpark c = true /\ mass c = SPARK_MASS
                        /\ isPlayer c = false /\ isSun c = false
                        /\ isGravitationalCenter c = false
                        /\ creationTime c = now e)
              (spawnSparks e sunMass angle sd mainSpeed mult spread player k n).
Proof.
  induction n as [|n IH]; intros k; simpl; [split; [reflexivity|constructor]|].
  destruct (IH (k + 2)%nat) as [Hl Hf].
  split; [now rewrite Hl|]. constructor; [|exact Hf]. repeat split.
Qed.

Lemma performEjection_shape (e : Env) (angle : R) (pi : nat) (player0 : Body)
    (ejectedMass : R) (s : State) :
  0 < ejectedMass < mass player0 ->
  exists player' main sparks,
    performEjection e angle pi player0 ejectedMass s
    = update pi (fun _ => player') (celestialBodies s) ++ main ++ sparks
    /\ isPlayer player' = isPlayer player0
    /\ mass player' = mass player0 - ejectedMass
    /\ (main = [] /\ ejectedMass < MIN_BODY_MASS
        \/ exists m, main = [m] /\ ordinary m /\ mass m = ejectedMass
                     /\ creationTime m = now e
                     /\ MIN_BODY_MASS <= ejectedMass)
    /\ (2 <= length sparks <= 20)%nat
    /\ Forall (fun c => isSpark c = true /\ mass c = SPARK_MASS
                        /\ isPlayer c = false /\ isSun c = false
                        /\ isGravitationalCenter c = false
                        /\ creationTime c = now e) sparks.
Proof.
  intros Hm. unfold performEjection. cbv zeta.
  match goal with
  | |- context [update pi (fun _ => ?q) _ ++ ?m ++ ?sp] =>
    exists q, m, sp
  end.
  split; [reflexivity|].
  split; [destruct (Rgtb _ 1e-9); reflexivity|].
  split.
  { destruct (Rgtb _ 1e-9); simpl; apply Rmax_right; lra. }
  split.
  { unfold Rgeb. destruct (Rle_dec MIN_BODY_MASS ejectedMass) as [H|H].
    - rewrite Rleb_true by exact H. right. eexists. split; [reflexivity|].
      repeat split; auto.
    - apply Rnot_le_lt in H. rewrite Rleb_false by exact H. left. auto. }
  match goal with
  | |- context [spawnSparks e ?a ?b ?c ?d ?f ?g ?p 0 ?n] =>
    destruct (spawnSparks_spec e a b c d f g p n 0) as [Hl Hf];
    rewrite Hl; split; [|exact Hf]
  end.
  match goal with
  | |- context [Math_round ?v] =>
    assert (Hr : (2 <= Math_round v <= 20)%Z)
  end.
  { apply Math_round_bounds. unfold MIN_SPARKS, MAX_SPARKS.
    match goal with
    | |- context [Rmax 0 (Rmin 1 ?q)] =>
      assert (0 <= Rmax 0 (Rmin 1 q) <= 1)
        by (split; [apply Rmax_l | apply Rmax_lub; [lra | apply Rmin_l]]);
      set (normInt := Rmax 0 (Rmin 1 q)) in *
    end.
    simpl. lra. }
  lia.
Qed.

(** X12.  A click of a session whose combo multiplier is at least 1 either leaves
    the registry as it is, or replaces the player by a player that has
    lost less than half of its mass and appends the ejected bodies: one
    ordinary body carrying exactly the mass the player lost when that is at
    least [MIN_BODY_MASS] (none otherwise), then between 2 and 20 sparks of
    mass [SPARK_MASS]; the click time is recorded. *)
Theorem ejectMass_postcondition (e : Env) (angle : R) (s : State) :
  1 <= currentEjectionMultiplier s ->
  celestialBodies (ejectMass e angle s) = celestialBodies s
  \/ exists pi player player' main sparks,
       findBody isPlayer (celestialBodies s) = Some (pi, player)
       /\ celestialBodies (ejectMass e angle s)
          = update pi (fun _ => player') (celestialBodies s) ++ main ++ sparks
       /\ isPlayer player' = true
       /\ 0.5 * mass player <= mass player' < mass player
       /\ (main = [] /\ mass player - mass player' < MIN_BODY_MASS
           \/ exists m, main = [m] /\ ordinary m
                        /\ mass m = mass player - mass player'
                        /\ creationTime m = now e
                        /\ MIN_BODY_MASS <= mass m)
       /\ (2 <= length sparks <= 20)%nat
       /\ Forall (fun c => isSpark c = true /\ mass c = SPARK_MASS
                           /\ isPlayer c = false /\ isSun c = false
                           /\ isGravitationalCenter c = false
                           /\ creationTime c = now e) sparks
       /\ lastClickTime (ejectMass e angle s) = now e.
Proof.
  intros Hmult. unfold ejectMass.
  destruct (findIndex isPlayer (celestialBodies s)) as [pi|] eqn:Hi;
    [|left; reflexivity].
  destruct (nth_error (celestialBodies s) pi) as [player|] eqn:Hn;
    [|left; reflexivity].
  destruct (findIndex_Some _ _ _ Hi) as (c & Hc & Hp).
  assert (c = player) by congruence. subst c.
  destruct (Rle_dec (mass player) MIN_PLAYER_MASS) as [Hlow|Hhigh].
  { rewrite Rleb_true by exact Hlow. left. reflexivity. }
  apply Rnot_le_lt in Hhigh. rewrite Rleb_false by exact Hhigh. cbv zeta.
  pose proof MIN_PLAYER_MASS_pos as HMP.
  set (s1 := set_currentEjectionMultiplier (comboMultiplier (now e) s) s).
  assert (Hm1 : 1 <= currentEjectionMultiplier s1).
  { simpl. unfold comboMultiplier. cbv zeta.
    destruct (_ <=? QUICK_CLICK_THRESHOLD)%Z; [|lra].
    apply Rmin_glb; unfold EJECTION_GROWTH_RATE, MAX_EJECTION_MULTIPLIER; lra. }
  set (requested := requestedEjection (mass player)
                      (currentEjectionMultiplier s1)).
  assert (Hreq : 0 < requested <= 0.5 * mass player).
  { unfold requested, requestedEjection, BASE_EJECTION_MASS_PERCENT,
      MAX_EJECTION_PERCENTAGE.
    split; [apply Rmin_glb_lt; nra|].
    eapply Rle_trans; [apply Rmin_r | lra]. }
  set (floored := Rltb (mass player - requested) MIN_PLAYER_MASS).
  set (ejectedMass := if floored then mass player - MIN_PLAYER_MASS
                      else requested).
  destruct (floored && Rleb ejectedMass 1e-9) eqn:Hab; [left; reflexivity|].
  right.
  assert (Hej : 0 < ejectedMass <= 0.5 * mass player
                /\ ejectedMass < mass player).
  { unfold ejectedMass in *. destruct floored eqn:Hfl.
    - unfold floored in Hfl. apply Rltb_iff in Hfl. lra.
    - lra. }
  destruct (performEjection_shape e angle pi player ejectedMass s1)
    as (player' & main & sparks & E & Hpl & Hmass & Hmain & Hsp & Hf);
    [lra|].
  exists pi, player, player', main, sparks.
  split; [apply findBody_Some; auto|].
  split; [exact E|].
  split; [congruence|].
  split; [lra|].
  split.
  { destruct Hmain as [[-> Hlt]|(m & -> & Ho & Hmm & Hct & Hge)].
    - left. split; [reflexivity | lra].
    - right. exists m. repeat split; try apply Ho; auto; lra. }
  auto.
Qed.

Lemma ejectMass_postcondition_witness :
  celestialBodies (ejectMass clickEnv 0 (initializeGame clickEnv))
  = celestialBodies (initializeGame clickEnv)
  \/ exists pi player player' main sparks,
       findBody isPlayer (celestialBodies (initializeGame clickEnv))
       = Some (pi, player)
       /\ celestialBodies (ejectMass clickEnv 0 (initializeGame clickEnv))
          = update pi (fun _ => player')
                   (celestialBodies (initializeGame clickEnv))
            ++ main ++ sparks
       /\ isPlayer player' = true
       /\ 0.5 * mass player <= mass player' < mass player
       /\ (main = [] /\ mass player - mass player' < MIN_BODY_MASS
           \/ exists m, main = [m] /\ ordinary m
                        /\ mass m = mass player - mass player'
                        /\ creationTime m = now clickEnv
                        /\ MIN_BODY_MASS <= mass m)
       /\ (2 <= length sparks <= 20)%nat
       /\ Forall (fun c => isSpark c = true /\ mass c = SPARK_MASS
                           /\ isPlayer c = false /\ isSun c = false
                           /\ isGravitationalCenter c = false
                           /\ creationTime c = now clickEnv) sparks
       /\ lastClickTime (ejectMass clickEnv 0 (initializeGame clickEnv))
          = now clickEnv.
Proof.
  apply (ejectMass_postcondition clickEnv 0 (initializeGame clickEnv)).
  simpl. lra.
Defined.

(** ** Pairs the collision stage leaves alone *)

(** X13.  [checkCollisions] leaves a pair untouched (not even the collision flag
    is raised) when it is the player and the sun; when one body is a spark
    and the other is not a gravitational center other than the player; or
    when one body is an ordinary body younger than
    [EJECTION_COLLISION_DELAY] and the other is the player, a spark or
    another such body. *)
Theorem resolvePair_leaves_alone (now : Z) (dt : R) (i j : nat) (s : State)
    (b1 b2 : Body) :
  nth_error (celestialBodies s) i = Some b1 ->
  nth_error (celestialBodies s) j = Some b2 ->
  (isPlayer b1 = true /\ isSun b2 = true)
  \/ (isSun b1 = true /\ isPlayer b2 = true)
  \/ (isSpark b1 = true
      /\ (isGravitationalCenter b2 = false \/ isPlayer b2 = true))
  \/ (isSpark b2 = true
      /\ (isGravitationalCenter b1 = false \/ isPlayer b1 = true))
  \/ (immune now b1 = true
      /\ (isPlayer b2 = true \/ isSpark b2 = true \/ immune now b2 = true))
  \/ (immune now b2 = true
      /\ (isPlayer b1 = true \/ isSpark b1 = true \/ immune now b1 = true)) ->
  resolvePair now dt i j s = PairContinue s.
Proof.
  intros H1 H2 H. unfold resolvePair. rewrite H1, H2.
  replace (excluded now b1 b2) with true; [reflexivity|].
  symmetry. unfold excluded. cbv zeta. revert H.
  destruct (immune now b1), (immune now b2), (isPlayer b1), (isPlayer b2),
    (isSpark b1), (isSpark b2); simpl; try reflexivity;
    destruct (isSun b1), (isSun b2), (isGravitationalCenter b1),
      (isGravitationalCenter b2); simpl; try reflexivity;
    intros H; exfalso; intuition discriminate.
Qed.

Lemma resolvePair_leaves_alone_witness :
  resolvePair 5000 0.016 1 0 reentryState = PairContinue reentryState.
Proof.
  eapply (resolvePair_leaves_alone 5000 0.016 1 0 reentryState).
  - reflexivity.
  - reflexivity.
  - left. split; reflexivity.
Defined.

(** ** The shape of the solver's result *)

Lemma atan_pos (v : R) : 0 < v -> 0 < atan v.
Proof. intros H. rewrite <- atan_0. apply atan_increasing, H. Qed.

Lemma atan_neg (v : R) : v < 0 -> atan v < 0.
Proof. intros H. rewrite <- atan_0. apply atan_increasing, H. Qed.

Lemma atan2_range (py px : R) : - PI <= atan2 py px <= PI.
Proof.
  pose proof PI_RGT_0 as Hpi. unfold atan2, Rgtb, Rgeb.
  pose proof (atan_bound (py / px)) as Hb.
  destruct (Rlt_dec 0 px) as [Hx|Hx].
  - rewrite (Rltb_true 0 px Hx). lra.
  - rewrite (Rltb_false 0 px) by lra.
    destruct (Rlt_dec px 0) as [Hx'|Hx'].
    + rewrite (Rltb_true px 0 Hx').
      destruct (Rle_dec 0 py) as [Hy|Hy].
      * rewrite (Rleb_true 0 py Hy).
        destruct (Req_dec py 0) as [->|Hne].
        -- replace (0 / px) with 0 by (field; lra). rewrite atan_0. lra.
        -- assert (py / px < 0).
           { pose proof (Rinv_lt_0_compat px Hx'). unfold Rdiv. nra. }
           pose proof (atan_neg _ H). lra.
      * apply Rnot_le_lt in Hy. rewrite (Rleb_false 0 py Hy).
        assert (0 < py / px).
        { pose proof (Rinv_lt_0_compat px Hx'). unfold Rdiv. nra. }
        pose proof (atan_pos _ H). lra.
    + rewrite (Rltb_false px 0) by lra.
      destruct (Rltb 0 py); [lra|]. destruct (Rltb py 0); lra.
Qed.

(** X14.  Whatever the two bodies, the solver returns the zero orbit, the
    degenerate orbit, or an ellipse: finite semi-axes with [0 < a],
    [0 <= b <= a], an eccentricity in [0, 1] with
    [b * b = a * a * (1 - e * e)], and a periapsis angle in [-PI, PI]. *)
Theorem calculateOrbitParameters_shape (s : State) (bodyI : nat)
    (centerI : option nat) :
  calculateOrbitParameters s bodyI centerI = noOrbit
  \/ calculateOrbitParameters s bodyI centerI = degenerateOrbit
  \/ exists a b,
       orbitA (calculateOrbitParameters s bodyI centerI) = Fin a
       /\ orbitB (calculateOrbitParameters s bodyI centerI) = Fin b
       /\ 0 < a /\ 0 <= b <= a
       /\ 0 <= orbitE (calculateOrbitParameters s bodyI centerI) <= 1
       /\ b * b
          = a * a * (1 - orbitE (calculateOrbitParameters s bodyI centerI)
                         * orbitE (calculateOrbitParameters s bodyI centerI))
       /\ - PI <= orbitPeriapsisAngle
                    (calculateOrbitParameters s bodyI centerI) <= PI.
Proof.
  unfold calculateOrbitParameters.
  destruct centerI as [ci|]; [|left; reflexivity].
  destruct (nth_error (celestialBodies s) bodyI) as [body|];
    [|left; reflexivity].
  destruct (nth_error (celestialBodies s) ci) as [center|];
    [|left; reflexivity].
  destruct (Rleb (mass body) 0 || isSpark body || (bodyI =? ci)%nat);
    [left; reflexivity|].
  right. unfold solveOrbit. cbv zeta.
  set (rx := x body - x center). set (ry := y body - y center).
  set (r := sqrt (rx * rx + ry * ry + 1e-9)).
  set (vx_ := vx body - _). set (vy_ := vy body - _).
  set (vSq := vx_ * vx_ + vy_ * vy_).
  set (mu := orbitMu s body center).
  set (E := vSq / 2 - mu / r).
  unfold Rgeb.
  destruct (Rle_dec (- 1e-9) E) as [HE|HE].
  { rewrite Rleb_true by exact HE. left. reflexivity. }
  apply Rnot_le_lt in HE. rewrite Rleb_false by exact HE.
  set (a := - mu / (2 * E)).
  destruct (Rle_dec a 0) as [Ha|Ha].
  { rewrite Rleb_true by exact Ha. left. reflexivity. }
  apply Rnot_le_lt in Ha. rewrite Rleb_false by exact Ha.
  right.
  set (h := rx * vy_ - ry * vx_).
  set (eSq := 1 + 2 * E * h * h / (mu * mu)).
  assert (HeSq : eSq <= 1).
  { unfold eSq.
    assert (Hq : 0 <= / (mu * mu)).
    { destruct (Req_dec (mu * mu) 0) as [->|Hne];
        [rewrite Rinv_0; lra|].
      apply Rlt_le, Rinv_0_lt_compat. nra. }
    unfold Rdiv. assert (2 * E * h * h <= 0) by nra. nra. }
  set (e := if Rgtb eSq 1e-9 then sqrt eSq else 0).
  assert (He : 0 <= e <= 1 /\ 0 <= 1 - e * e).
  { unfold e, Rgtb. destruct (Rlt_dec 1e-9 eSq) as [Hg|Hg].
    - rewrite Rltb_true by exact Hg.
      pose proof (sqrt_pos eSq). pose proof (sqrt_sqrt eSq ltac:(lra)).
      assert (sqrt eSq <= 1).
      { rewrite <- sqrt_1. apply sqrt_le_1; lra. }
      repeat split; nra.
    - rewrite Rltb_false by lra. lra. }
  destruct He as [He He2].
  eexists. eexists. simpl.
  split; [reflexivity|]. split; [reflexivity|].
  fold a. fold e. rewrite (Rmax_right 0 (1 - e * e)) by exact He2.
  pose proof (sqrt_pos (1 - e * e)) as Hs0.
  pose proof (sqrt_sqrt (1 - e * e) He2) as Hss.
  assert (Hs1 : sqrt (1 - e * e) <= 1).
  { destruct (Rle_dec (sqrt (1 - e * e)) 1) as [|N]; [assumption|].
    apply Rnot_le_lt in N. nra. }
  split; [exact Ha|]. split; [split; nra|]. split; [exact He|].
  split; [|apply atan2_range].
  replace (a * sqrt (1 - e * e) * (a * sqrt (1 - e * e)))
    with (a * a * (sqrt (1 - e * e) * sqrt (1 - e * e))) by ring.
  rewrite Hss. reflexivity.
Qed.

(** ** The total mass in the collision stage *)

Lemma masses_stage (s s' : State) :
  stage s s' -> Forall (fun c => 0 <= mass c) (celestialBodies s) ->
  Forall (fun c => 0 <= mass c) (celestialBodies s').
Proof.
  intros (Ht & _) H.
  apply (thinned_Forall _ (celestialBodies s) _); auto.
  intros c c' (_ & _ & _ & _ & E). exact E.
Qed.

Lemma totalMass_resolvePair (now : Z) (dt : R) (i j : nat) (s : State) :
  (j < i)%nat -> Forall (fun c => 0 <= mass c) (celestialBodies s) ->
  totalMass (celestialBodies (outcomeState (resolvePair now dt i j s)))
  <= totalMass (celestialBodies s).
Proof.
  intros Hlt HF.
  destruct (nth_error (celestialBodies s) i) as [b1|] eqn:H1;
    [|unfold resolvePair; rewrite H1; simpl; lra].
  destruct (nth_error (celestialBodies s) j) as [b2|] eqn:H2;
    [|unfold resolvePair; rewrite H1, H2; simpl; lra].
  rewrite (resolvePair_unfold now dt i j s b1 b2 H1 H2).
  destruct (excluded now b1 b2); [simpl; lra|].
  destruct (negb (overlapping _ b1 b2)); [simpl; lra|].
  cbv zeta.
  destruct (big_small_indices i j b1 b2 s Hlt H1 H2) as (Hne & Hb & Hs & _).
  set (bigI := fst (bigOf i j b1 b2)) in *.
  set (smallI := fst (smallOf i j b1 b2)) in *.
  set (big := snd (bigOf i j b1 b2)) in *.
  set (small := snd (smallOf i j b1 b2)) in *.
  destruct (isGravitationalCenter small || isSpark big); [simpl; lra|].
  set (s1 := set_collisionDetectedThisFrame true s).
  set (t := transferAmount dt small).
  pose proof (proj1 (Forall_nth_error _ _) HF) as Hm.
  assert (Ht : 0 <= t <= mass small)
    by (apply transferAmount_bounds; eapply Hm; eauto).
  assert (E2 : totalMass (celestialBodies (transferMass t bigI smallI small s1))
               = totalMass (celestialBodies s)).
  { apply (transferMass_totalMass t bigI smallI big small s1); auto.
    eapply Hm; eauto. }
  destruct (isPlayer _ && Rltb _ MIN_PLAYER_MASS).
  { cbn [outcomeState]. unfold set_playerNeedsReset. cbn [celestialBodies].
    lra. }
  destruct (Rleb _ MIN_BODY_MASS || _); [|cbn [outcomeState]; lra].
  cbn [outcomeState]. rewrite celestialBodies_set.
  destruct (transferMass_masses t bigI smallI big small s1 Hne Hb Hs)
    as (big' & small' & _ & Hs' & _ & Hms).
  rewrite (totalMass_splice1 _ smallI small' Hs'), E2, Hms.
  pose proof (Rmax_l 0 (mass small - t)). lra.
Qed.

Lemma totalMass_innerLoop (now : Z) (dt : R) (i : nat) :
  forall n s,
    (n <= i)%nat -> Forall (fun c => 0 <= mass c) (celestialBodies s) ->
    totalMass (celestialBodies (outcomeState (innerLoop now dt i n s)))
    <= totalMass (celestialBodies s).
Proof.
  induction n as [|j IH]; intros s Hle HF; simpl; [lra|].
  pose proof (totalMass_resolvePair now dt i j s ltac:(lia) HF) as H.
  pose proof (masses_stage _ _ (stage_resolvePair now dt i j s) HF) as HF'.
  destruct (resolvePair now dt i j s) as [s'|s' k|s']; simpl in *; auto.
  eapply Rle_trans; [apply IH; [lia | exact HF'] | exact H].
Qed.

Lemma totalMass_outerLoop (now : Z) (dt : R) :
  forall fuel n s,
    Forall (fun c => 0 <= mass c) (celestialBodies s) ->
    totalMass (celestialBodies (outerLoop fuel now dt n s))
    <= totalMass (celestialBodies s).
Proof.
  induction fuel as [|fuel IH]; intros n s HF; simpl; [lra|].
  destruct n as [|i]; [lra|].
  destruct (nth_error (celestialBodies s) i); [|apply IH; exact HF].
  pose proof (totalMass_innerLoop now dt i i s (Nat.le_refl i) HF) as H.
  pose proof (masses_stage _ _ (stage_innerLoop now dt i i s) HF) as HF'.
  destruct (innerLoop now dt i i s) as [s'|s' k|s']; simpl in H, HF'; auto;
    destruct (playerNeedsReset s'); auto;
    (eapply Rle_trans; [apply IH; exact HF' | exact H]).
Qed.

(** X15.  With non-negative masses, the collision stage creates no mass: the total
    mass of the registry after [checkCollisions] is at most the total
    before, and no mass is negative afterwards. *)
Theorem checkCollisions_total_mass (now : Z) (dt : R) (s : State) :
  Forall (fun c => 0 <= mass c) (celestialBodies s) ->
  totalMass (celestialBodies (checkCollisions now dt s))
  <= totalMass (celestialBodies s)
  /\ Forall (fun c => 0 <= mass c)
            (celestialBodies (checkCollisions now dt s)).
Proof.
  intros HF. split.
  - apply totalMass_outerLoop, HF.
  - apply (masses_stage s); [apply stage_checkCollisions | exact HF].
Qed.

Lemma checkCollisions_total_mass_witness :
  totalMass (celestialBodies (checkCollisions 5000 0.016 scenarioState))
  <= totalMass (celestialBodies scenarioState)
  /\ Forall (fun c => 0 <= mass c)
            (celestialBodies (checkCollisions 5000 0.016 scenarioState)).
Proof.
  apply (checkCollisions_total_mass 5000 0.016 scenarioState).
  repeat constructor; simpl; lra.
Defined.

(** ** Termination of the collision stage *)

(** X16.  The outer loop of [checkCollisions] ends within
    [celestialBodies.length] passes: each pass resumes below the index it
    started from, also after a removal has reset the index to that of the
    consuming body.  In the model, any fuel of at least the length of the
    registry gives the result of [checkCollisions]. *)
Theorem checkCollisions_terminates (now : Z) (dt : R) (s : State)
    (fuel : nat) :
  (length (celestialBodies s) <= fuel)%nat ->
  outerLoop fuel now dt (length (celestialBodies s)) s
  = checkCollisions now dt s.
Proof. intros H. apply outerLoop_fuel; auto. Qed.

Lemma checkCollisions_terminates_witness :
  outerLoop 7 5000 0.016 (length (celestialBodies scenarioState)) scenarioState
  = checkCollisions 5000 0.016 scenarioState.
Proof.
  apply (checkCollisions_terminates 5000 0.016 scenarioState 7).
  simpl. lia.
Defined.

(** ** Gravity away from the singularity *)

(** X17.  Away from the source, the pull of a gravity loop is central and
    attractive: the velocity changes by a non-negative multiple of the
    vector from the body to the source, by less than
    [G * effectiveGravMass / distSq * gameDt] in norm, and position and mass
    do not change. *)
Theorem pull_is_central (effectiveGravMass gameDt : R) (source body : Body) :
  0 < (x source - x body) * (x source - x body)
      + (y source - y body) * (y source - y body) ->
  0 <= effectiveGravMass -> 0 <= gameDt ->
  exists k,
    0 <= k
    /\ vx (pull effectiveGravMass gameDt source body)
       = vx body + k * (x source - x body)
    /\ vy (pull effectiveGravMass gameDt source body)
       = vy body + k * (y source - y body)
    /\ (k * (x source - x body)) ^ 2 + (k * (y source - y body)) ^ 2
       <= (G * effectiveGravMass
           / ((x source - x body) * (x source - x body)
              + (y source - y body) * (y source - y body)) * gameDt) ^ 2
    /\ x (pull effectiveGravMass gameDt source body) = x body
    /\ y (pull effectiveGravMass gameDt source body) = y body
    /\ mass (pull effectiveGravMass gameDt source body) = mass body.
Proof.
  intros Hd Hm Hdt.
  set (dx := x source - x body) in *. set (dy := y source - y body) in *.
  set (distSq := dx * dx + dy * dy) in *.
  assert (HG : 0 < G) by (unfold G; lra).
  assert (Hs : 0 < sqrt (distSq + 1e-6)) by (apply sqrt_lt_R0; lra).
  pose proof (sqrt_sqrt (distSq + 1e-6) ltac:(lra)) as Hss.
  set (dist := sqrt (distSq + 1e-6)) in *.
  exists (G * effectiveGravMass * gameDt / (distSq * dist)).
  assert (Hk : 0 <= G * effectiveGravMass * gameDt / (distSq * dist)).
  { apply Rmult_le_pos; [|apply Rlt_le, Rinv_0_lt_compat; nra].
    apply Rmult_le_pos; [nra | exact Hdt]. }
  unfold pull, gravityKick. simpl.
  fold dx dy. fold distSq. fold dist.
  unfold Rgtb. rewrite Rltb_true by exact Hs. simpl.
  split; [exact Hk|].
  split; [fold dx; field; lra|].
  split; [fold dy; field; lra|].
  split; [|auto].
  set (c := G * effectiveGravMass * gameDt) in *.
  assert (Hc : c = G * effectiveGravMass * gameDt) by reflexivity.
  assert (Hds : distSq = dx * dx + dy * dy) by reflexivity.
  clearbody c dist distSq.
  match goal with
  | |- ?L <= ?R =>
    replace L with (c * c / (distSq * distSq * (dist * dist))
                    * (dx * dx + dy * dy)) by (field; lra);
    replace R with (c * c / (distSq * distSq)) by (rewrite Hc; field; lra)
  end.
  rewrite <- Hds, Hss.
  replace (c * c / (distSq * distSq * (distSq + 1e-6)) * distSq)
    with (c * c / (distSq * (distSq + 1e-6))) by (field; lra).
  unfold Rdiv. apply Rmult_le_compat_l; [nra|].
  apply Rinv_le_contravar; nra.
Qed.

Lemma pull_is_central_witness :
  exists k,
    0 <= k
    /\ vx (pull 1000 0.016 (scenarioBody 100)
             (set_position 3 4 (scenarioBody 10)))
       = vx (set_position 3 4 (scenarioBody 10))
         + k * (x (scenarioBody 100) - x (set_position 3 4 (scenarioBody 10)))
    /\ vy (pull 1000 0.016 (scenarioBody 100)
             (set_position 3 4 (scenarioBody 10)))
       = vy (set_position 3 4 (scenarioBody 10))
         + k * (y (scenarioBody 100) - y (set_position 3 4 (scenarioBody 10)))
    /\ (k * (x (scenarioBody 100) - x (set_position 3 4 (scenarioBody 10))))
       ^ 2
       + (k * (y (scenarioBody 100) - y (set_position 3 4 (scenarioBody 10))))
         ^ 2
       <= (G * 1000
           / ((x (scenarioBody 100) - x (set_position 3 4 (scenarioBody 10)))
              * (x (scenarioBody 100) - x (set_position 3 4 (scenarioBody 10)))
              + (y (scenarioBody 100) - y (set_position 3 4 (scenarioBody 10)))
                * (y (scenarioBody 100)
                   - y (set_position 3 4 (scenarioBody 10))))
           * 0.016) ^ 2
    /\ x (pull 1000 0.016 (scenarioBody 100)
            (set_position 3 4 (scenarioBody 10)))
       = x (set_position 3 4 (scenarioBody 10))
    /\ y (pull 1000 0.016 (scenarioBody 100)
            (set_position 3 4 (scenarioBody 10)))
       = y (set_position 3 4 (scenarioBody 10))
    /\ mass (pull 1000 0.016 (scenarioBody 100)
               (set_position 3 4 (scenarioBody 10)))
       = mass (set_position 3 4 (scenarioBody 10)).
Proof.
  apply (pull_is_central 1000 0.016 (scenarioBody 100)
           (set_position 3 4 (scenarioBody 10))); simpl; lra.
Defined.

(** ** Kept registries *)

Lemma settled_refl (c : Body) : settled c c.
Proof. split; [apply evolved_refl | auto]. Qed.

Lemma settled_trans (c1 c2 c3 : Body) :
  settled c1 c2 -> settled c2 c3 -> settled c1 c3.
Proof.
  intros [E1 R1] [E2 R2]. split; [eapply evolved_trans; eauto|].
  intros Hs Hp Hx Hy. destruct (R1 Hs Hp Hx Hy) as (A & B & C & D).
  destruct E1 as (P & S & _).
  destruct R2 as (A' & B' & C' & D'); try congruence.
  repeat split; congruence.
Qed.

Lemma settled_not_sun (c c' : Body) :
  isSun c = false -> evolved c c' -> settled c c'.
Proof. intros Hs He. split; [exact He | congruence]. Qed.

Lemma settled_set_mass (cur m : R) (c : Body) : settled c (set_mass cur m c).
Proof. split; [apply evolved_set_mass | simpl; auto]. Qed.

Lemma settled_absorbVelocity (t : R) (small big : Body) :
  settled big (absorbVelocity t small big).
Proof.
  split; [apply evolved_absorbVelocity|].
  intros _ Hp Hx Hy. unfold absorbVelocity. rewrite Hp. simpl. auto.
Qed.

Lemma settled_moveBody (gameDt : R) (body : Body) :
  settled body (moveBody gameDt body).
Proof.
  split; [apply evolved_moveBody|].
  intros _ _ Hx Hy. unfold moveBody. cbv zeta. rewrite Hx, Hy.
  unfold Rgtb. rewrite Rltb_false by (unfold MAX_V; lra).
  simpl. rewrite Hx, Hy. repeat split; lra.
Qed.

Lemma kept_refl (l : list Body) : kept l l.
Proof. induction l; constructor; auto using settled_refl. Qed.

Lemma kept_trans (l1 l2 : list Body) :
  kept l1 l2 -> forall l3, kept l2 l3 -> kept l1 l3.
Proof.
  induction 1 as [|c c' l l' Hf H IH|c l l' Hc Hp Hs H IH]; intros l3 H23.
  - exact H23.
  - inversion H23 as [|d d' m m' Hf' H' |d m m' Hc' Hp' Hs' H']; subst.
    + apply kept_keep; [eapply settled_trans; eauto | auto].
    + destruct Hf as ((P & S & _ & C & _) & _).
      apply kept_drop; [congruence | congruence | congruence | auto].
  - apply kept_drop; auto.
Qed.

Lemma kept_thinned (l l' : list Body) : kept l l' -> thinned l l'.
Proof.
  induction 1 as [|c c' l l' [Hf _] H IH|c l l' Hc Hp Hs H IH];
    constructor; auto.
Qed.

Lemma kept_length (l l' : list Body) :
  kept l l' -> (length l' <= length l)%nat.
Proof. induction 1; simpl; lia. Qed.

Lemma kept_count_player (l l' : list Body) :
  kept l l' -> countIf isPlayer l' = countIf isPlayer l.
Proof.
  induction 1 as [|c c' l l' [Hf _] H IH|c l l' Hc Hp Hs H IH];
    rewrite ?countIf_cons; auto.
  - destruct Hf as (-> & _). lia.
  - rewrite Hp. lia.
Qed.

Lemma kept_count_sun (l l' : list Body) :
  kept l l' -> countIf isSun l' = countIf isSun l.
Proof.
  induction 1 as [|c c' l l' [Hf _] H IH|c l l' Hc Hp Hs H IH];
    rewrite ?countIf_cons; auto.
  - destruct Hf as (_ & -> & _). lia.
  - rewrite Hs. lia.
Qed.

Lemma kept_atRest (l l' : list Body) :
  kept l l' -> Forall flagsSane l -> Forall atRest l -> Forall atRest l'.
Proof.
  induction 1 as [|c c' l l' [Hf Hr] H IH|c l l' Hc Hp Hs H IH];
    intros HS HR.
  - constructor.
  - apply Forall_cons_iff in HS. destruct HS as [(_ & Hsane & _) HS].
    apply Forall_cons_iff in HR. destruct HR as [Hrest HR].
    constructor; [|auto].
    intros Hsun. destruct Hf as (_ & E & _). rewrite E in Hsun.
    destruct (Hrest Hsun) as (A & B & C & D).
    destruct (Hr Hsun (Hsane Hsun) C D) as (A' & B' & C' & D').
    repeat split; congruence.
  - apply Forall_cons_iff in HS. apply Forall_cons_iff in HR.
    apply IH; [apply HS | apply HR].
Qed.

Lemma kept_update_at (f : Body -> Body) (l : list Body) :
  forall i, (forall c, nth_error l i = Some c -> settled c (f c)) ->
            kept l (update i f l).
Proof.
  induction l as [|h t IH]; intros [|i] H; simpl.
  - constructor.
  - constructor.
  - constructor; [apply H; reflexivity | apply kept_refl].
  - constructor; [apply settled_refl | apply IH; exact H].
Qed.

Lemma kept_map (f : Body -> Body) (l : list Body) :
  (forall c, settled c (f c)) -> kept l (map f l).
Proof. intros Hf. induction l; simpl; constructor; auto. Qed.

Lemma kept_forEachIndexFrom (f : nat -> Body -> Body) (l : list Body) :
  forall a,
    (forall k c, nth_error l k = Some c -> settled c (f (a + k)%nat c)) ->
    kept l (forEachIndexFrom a f l).
Proof.
  induction l as [|h t IH]; intros a H; simpl; constructor.
  - specialize (H 0%nat h eq_refl). rewrite Nat.add_0_r in H. exact H.
  - apply IH. intros k c Hk. specialize (H (S k) c Hk).
    replace (S a + k)%nat with (a + S k)%nat by lia. exact H.
Qed.

Lemma kept_forEachIndex (f : nat -> Body -> Body) (l : list Body) :
  (forall k c, nth_error l k = Some c -> settled c (f k c)) ->
  kept l (forEachIndex f l).
Proof. intros H. apply kept_forEachIndexFrom. exact H. Qed.

Lemma kept_filter (p : Body -> bool) (l : list Body) :
  Forall (fun c => p c = false ->
                   isGravitationalCenter c = false /\ isPlayer c = false
                   /\ isSun c = false) l ->
  kept l (filter p l).
Proof.
  induction 1 as [|h t Hh Ht IH]; simpl; [constructor|].
  destruct (p h) eqn:E.
  - constructor; [apply settled_refl | exact IH].
  - destruct (Hh eq_refl) as (A & B & C). apply kept_drop; auto.
Qed.

Lemma kept_splice1 (l : list Body) :
  forall i, (forall c, nth_error l i = Some c ->
                       isGravitationalCenter c = false /\ isPlayer c = false
                       /\ isSun c = false) ->
            kept l (splice1 i l).
Proof.
  induction l as [|h t IH]; intros [|i] H; simpl.
  - constructor.
  - constructor.
  - destruct (H h eq_refl) as (A & B & C).
    apply kept_drop; auto using kept_refl.
  - constructor; [apply settled_refl | apply IH; exact H].
Qed.

(** ** Stages that keep the session *)

Lemma sameSession_refl (s : State) : sameSession s s.
Proof. repeat split; auto. apply kept_refl. Qed.

Lemma sameSession_trans (s1 s2 s3 : State) :
  sameSession s1 s2 -> sameSession s2 s3 -> sameSession s1 s3.
Proof.
  intros (A0 & A1 & A2 & A3 & A4 & A5 & A6 & A7 & A8 & A9 & A10)
         (B0 & B1 & B2 & B3 & B4 & B5 & B6 & B7 & B8 & B9 & B10).
  split; [eapply kept_trans; eauto|].
  repeat split; try congruence. auto.
Qed.

Lemma sameSession_stage (s s' : State) : sameSession s s' -> stage s s'.
Proof.
  intros (A0 & A1 & A2 & A3 & _). repeat split; auto using kept_thinned.
Qed.

Lemma sameSession_bodies (l : list Body) (s : State) :
  kept (celestialBodies s) l -> sameSession s (set_celestialBodies l s).
Proof. intros H. repeat split; auto. Qed.

Lemma SessionInv_sameSession (s s' : State) :
  Inv s -> SessionInv s -> sameSession s s' -> SessionInv s'.
Proof.
  intros ((HS & _) & _) (I1 & I2 & I3 & I4 & I5 & I6)
         (A0 & A1 & A2 & A3 & A4 & A5 & A6 & A7 & A8 & A9 & A10).
  unfold SessionInv. rewrite A1, A3, A6, A7, A8, A9.
  rewrite (kept_count_player _ _ A0).
  split; [|split; [|split; [|split; [|split]]]]; auto.
  eapply kept_atRest; eauto.
Qed.

Lemma registry_not_center_not_sun (won : bool) (l : list Body) (c : Body) :
  RegistryInv won l -> In c l -> isGravitationalCenter c = false ->
  isSun c = false.
Proof.
  intros (_ & _ & Hw & _) Hin Hc. destruct won.
  - destruct Hw as (H & _). rewrite Forall_forall in H. auto.
  - destruct Hw as (_ & H). rewrite Forall_forall in H.
    rewrite <- (H c Hin). exact Hc.
Qed.

Lemma registry_spark (won : bool) (l : list Body) (c : Body) :
  RegistryInv won l -> In c l -> isSpark c = true ->
  isGravitationalCenter c = false /\ isPlayer c = false /\ isSun c = false.
Proof.
  intros HR Hin Hs. pose proof HR as (Hsane & _).
  rewrite Forall_forall in Hsane. destruct (Hsane c Hin) as (A & _ & C).
  split; [auto|]. split.
  - destruct (isPlayer c); [|reflexivity]. rewrite C in Hs; [discriminate|auto].
  - eapply registry_not_center_not_sun; eauto.
Qed.

Lemma registry_one_sun (won : bool) (l : list Body) (si k : nat) (c : Body) :
  RegistryInv won l -> findIndex isSun l = Some si ->
  nth_error l k = Some c -> k <> si -> isSun c = false.
Proof.
  intros (_ & _ & Hw & _) Hf Hk Hne. destruct won.
  - destruct Hw as (H & _). rewrite Forall_forall in H.
    apply H. eapply nth_error_In; eauto.
  - destruct Hw as (H & _). eapply countIf_one_unique; eauto.
Qed.

Lemma sameSession_cleanup (now : Z) (s : State) :
  Inv s -> sameSession s (cleanup now s).
Proof.
  intros (HR & _). unfold cleanup. apply sameSession_bodies.
  apply kept_filter.
  apply Forall_forall. intros c Hin Hk. unfold keepBody in Hk.
  destruct (isSpark c) eqn:Es.
  - eapply registry_spark; eauto.
  - simpl in Hk. rewrite andb_true_r in Hk.
    destruct (isPlayer c); [discriminate|].
    destruct (isGravitationalCenter c); [discriminate|].
    destruct (isSun c); [discriminate|]. auto.
Qed.

Lemma sameSession_sunGravity (gameDt : R) (s : State) :
  Inv s ->
  sameSession s (sunGravity gameDt (findBody isSun (celestialBodies s)) s).
Proof.
  intros (HR & _). unfold sunGravity.
  destruct (findBody isSun (celestialBodies s)) as [[si sunB]|] eqn:Hf;
    [|apply sameSession_refl].
  apply findBody_Some in Hf. destruct Hf as [Hi Hn].
  destruct (Rltb (gravityBlendFactor s) 1); [|apply sameSession_refl].
  apply sameSession_bodies, kept_forEachIndex. intros k c Hk.
  destruct (Nat.eqb_spec k si) as [->|Hne]; [apply settled_refl|].
  simpl. destruct (Rleb (mass c) 0); [apply settled_refl|].
  apply settled_not_sun; [|apply evolved_pull].
  eapply registry_one_sun; eauto.
Qed.

Lemma sameSession_playerGravity (gameDt : R) (player : option (nat * Body))
    (s : State) :
  sameSession s (playerGravity gameDt player s).
Proof.
  unfold playerGravity. destruct player as [[pi playerB]|];
    [|apply sameSession_refl].
  destruct (_ && _); [|apply sameSession_refl].
  apply sameSession_bodies, kept_forEachIndex. intros k c Hk.
  destruct (_ || _) eqn:E; [apply settled_refl|].
  apply orb_false_elim in E. destruct E as [_ E].
  apply settled_not_sun; [exact E | apply evolved_pull].
Qed.

Lemma sameSession_postWinGravity (gameDt : R) (sun player : option (nat * Body))
    (s : State) :
  Inv s -> sameSession s (postWinGravity gameDt sun player s).
Proof.
  intros ((_ & _ & Hw & _) & _). unfold postWinGravity.
  destruct sun; [apply sameSession_refl|].
  destruct player as [[pi playerB]|]; [|apply sameSession_refl].
  destruct (gameWon s); [|apply sameSession_refl].
  destruct Hw as (Hns & _). rewrite Forall_forall in Hns.
  apply sameSession_bodies, kept_forEachIndex. intros k c Hk.
  destruct (_ || _); [apply settled_refl|].
  apply settled_not_sun; [|apply evolved_pull].
  apply Hns. eapply nth_error_In; eauto.
Qed.

Lemma sameSession_flagMissingBodies (sun player : option (nat * Body))
    (s : State) :
  sameSession s (flagMissingBodies sun player s).
Proof.
  unfold flagMissingBodies. destruct sun, player; try apply sameSession_refl.
  destruct (gameWon s); [apply sameSession_refl|].
  repeat split; auto. apply kept_refl.
Qed.

Lemma sameSession_updatePositions (gameDt : R) (s : State) :
  sameSession s (updatePositions gameDt s).
Proof.
  unfold updatePositions. apply sameSession_bodies, kept_map.
  intros c. apply settled_moveBody.
Qed.

Lemma sameSession_gravityAndMotion (now : Z) (dt : R) (s : State) :
  Inv s -> sameSession s (gravityAndMotion now dt s).
Proof.
  intros HI. unfold gravityAndMotion. cbv zeta.
  set (s00 := set_collisionDetectedThisFrame false s).
  assert (H00 : sameSession s s00) by (repeat split; auto; apply kept_refl).
  assert (I00 : Inv s00) by (eapply Inv_stage; eauto using sameSession_stage).
  set (s0 := cleanup now s00).
  assert (H0 : sameSession s00 s0) by (apply sameSession_cleanup; exact I00).
  assert (I0 : Inv s0) by (eapply Inv_stage; eauto using sameSession_stage).
  set (sun := findBody isSun (celestialBodies s0)).
  set (player := findBody isPlayer (celestialBodies s0)).
  set (s1 := sunGravity _ sun s0).
  assert (H1 : sameSession s0 s1) by (apply sameSession_sunGravity; exact I0).
  assert (I1 : Inv s1) by (eapply Inv_stage; eauto using sameSession_stage).
  set (s2 := playerGravity _ player s1).
  assert (H2 : sameSession s1 s2) by apply sameSession_playerGravity.
  assert (I2 : Inv s2) by (eapply Inv_stage; eauto using sameSession_stage).
  set (s3 := postWinGravity _ sun player s2).
  assert (H3 : sameSession s2 s3) by (apply sameSession_postWinGravity; exact I2).
  set (s4 := flagMissingBodies sun player s3).
  assert (H4 : sameSession s3 s4) by apply sameSession_flagMissingBodies.
  eapply sameSession_trans; [exact H00|].
  eapply sameSession_trans; [exact H0|].
  eapply sameSession_trans; [exact H1|].
  eapply sameSession_trans; [exact H2|].
  eapply sameSession_trans; [exact H3|].
  eapply sameSession_trans; [exact H4|].
  apply sameSession_updatePositions.
Qed.

Lemma sameSession_transferMass (t : R) (bigI smallI : nat) (small : Body)
    (s : State) :
  sameSession s (transferMass t bigI smallI small s).
Proof.
  unfold transferMass. cbv zeta. apply sameSession_bodies.
  eapply kept_trans; apply kept_update_at; intros c _.
  - eapply settled_trans; [apply settled_absorbVelocity|].
    apply settled_set_mass.
  - apply settled_set_mass.
Qed.

Lemma sameSession_resolvePair (now : Z) (dt : R) (i j : nat) (s : State) :
  Inv s -> sameSession s (outcomeState (resolvePair now dt i j s)).
Proof.
  intros HI. pose proof HI as (HR & _).
  destruct (nth_error (celestialBodies s) i) as [b1|] eqn:H1;
    [|unfold resolvePair; rewrite H1; apply sameSession_refl].
  destruct (nth_error (celestialBodies s) j) as [b2|] eqn:H2;
    [|unfold resolvePair; rewrite H1, H2; apply sameSession_refl].
  rewrite (resolvePair_unfold now dt i j s b1 b2 H1 H2).
  destruct (excluded now b1 b2); [apply sameSession_refl|].
  destruct (negb (overlapping _ b1 b2)); [apply sameSession_refl|].
  cbv zeta.
  set (bigI := fst (bigOf i j b1 b2)). set (smallI := fst (smallOf i j b1 b2)).
  set (small := snd (smallOf i j b1 b2)).
  assert (Hs : nth_error (celestialBodies s) smallI = Some small).
  { unfold smallI, small, smallOf.
    destruct (Rgeb (mass b1) (mass b2)); assumption. }
  assert (Hflag : sameSession s (set_collisionDetectedThisFrame true s))
    by (repeat split; auto; apply kept_refl).
  destruct (isGravitationalCenter small) eqn:Ec; [exact Hflag|].
  destruct (isSpark (snd (bigOf i j b1 b2))); [exact Hflag|].
  simpl orb. cbv iota.
  set (s1 := set_collisionDetectedThisFrame true s) in *.
  set (t := transferAmount dt small).
  assert (Hs2 : sameSession s (transferMass t bigI smallI small s1)).
  { eapply sameSession_trans; [exact Hflag|]. apply sameSession_transferMass. }
  destruct (isPlayer _ && Rltb _ MIN_PLAYER_MASS) eqn:Ep.
  { simpl. eapply sameSession_trans; [exact Hs2|].
    repeat split; auto. apply kept_refl. }
  destruct (Rleb _ MIN_BODY_MASS || _) eqn:Er; [|exact Hs2].
  simpl. eapply sameSession_trans; [exact Hs2|].
  apply sameSession_bodies, kept_splice1.
  intros c Hc.
  destruct (transferMass_small_flags t bigI smallI small s1 c Hs Hc)
    as (E1 & E2 & E3 & E4 & E5).
  assert (Hin : In small (celestialBodies s)) by (eapply nth_error_In; eauto).
  assert (Hsun : isSun small = false)
    by (eapply registry_not_center_not_sun; eauto).
  split; [congruence|]. split; [|congruence].
  rewrite E1. destruct (isPlayer small) eqn:Epl; [|reflexivity]. exfalso.
  simpl in Ep. rewrite Epl in Ep. simpl in Ep. apply Rltb_iff_false in Ep.
  destruct HR as (Hsane & _). rewrite Forall_forall in Hsane.
  destruct (Hsane small Hin) as (_ & _ & Hnsp).
  simpl in Er. rewrite (Hnsp Epl) in Er. simpl in Er.
  rewrite orb_false_r in Er.
  apply Rleb_iff in Er. pose proof MIN_BODY_lt_MIN_PLAYER. lra.
Qed.

Lemma sameSession_innerLoop (now : Z) (dt : R) (i : nat) :
  forall n s, Inv s -> sameSession s (outcomeState (innerLoop now dt i n s)).
Proof.
  induction n as [|j IH]; intros s HI; simpl; [apply sameSession_refl|].
  pose proof (sameSession_resolvePair now dt i j s HI) as H.
  destruct (resolvePair now dt i j s) as [s'|s' k|s']; simpl in *; auto.
  eapply sameSession_trans; [exact H|]. apply IH.
  eapply Inv_stage; eauto using sameSession_stage.
Qed.

Lemma sameSession_outerLoop (now : Z) (dt : R) :
  forall fuel n s, Inv s -> sameSession s (outerLoop fuel now dt n s).
Proof.
  induction fuel as [|fuel IH]; intros n s HI; simpl;
    [apply sameSession_refl|].
  destruct n as [|i]; [apply sameSession_refl|].
  destruct (nth_error (celestialBodies s) i); [|apply IH; exact HI].
  pose proof (sameSession_innerLoop now dt i i s HI) as H.
  destruct (innerLoop now dt i i s) as [s'|s' k|s']; simpl in H; auto;
    destruct (playerNeedsReset s'); auto;
    (eapply sameSession_trans; [exact H|]; apply IH;
     eapply Inv_stage; eauto using sameSession_stage).
Qed.

Lemma sameSession_checkCollisions (now : Z) (dt : R) (s : State) :
  Inv s -> sameSession s (checkCollisions now dt s).
Proof. apply sameSession_outerLoop. Qed.

(** ** The registry: more on [find], [update], [splice1] *)

Lemma Forall_update (P : Body -> Prop) (f : Body -> Body) (l : list Body) :
  (forall c, P c -> P (f c)) ->
  forall i, Forall P l -> Forall P (update i f l).
Proof.
  intros Hf. induction l as [|h t IH]; intros [|i] H; simpl; auto;
    inversion H; subst; constructor; auto.
Qed.

Lemma Forall_splice1 (P : Body -> Prop) (l : list Body) :
  forall i, Forall P l -> Forall P (splice1 i l).
Proof.
  induction l as [|h t IH]; intros [|i] H; simpl; auto;
    inversion H; subst; auto.
Qed.

Lemma Forall_forEachIndexFrom (P : Body -> Prop) (f : nat -> Body -> Body)
    (l : list Body) :
  (forall k c, P c -> P (f k c)) ->
  forall a, Forall P l -> Forall P (forEachIndexFrom a f l).
Proof.
  intros Hf. induction l as [|h t IH]; intros a H; simpl; auto.
  inversion H; subst. constructor; auto.
Qed.

Lemma countIf_ge_1 (p : Body -> bool) (l : list Body) :
  forall k c, nth_error l k = Some c -> p c = true -> (1 <= countIf p l)%nat.
Proof.
  induction l as [|h t IH]; intros [|k] c Hk Hp; simpl in Hk;
    try discriminate; rewrite countIf_cons.
  - injection Hk as ->. rewrite Hp. lia.
  - specialize (IH k c Hk Hp). lia.
Qed.

(** When at most one body has property [p], [find] returns it. *)
Lemma findBody_unique (p : Body -> bool) (l : list Body) :
  forall k c, (countIf p l <= 1)%nat -> nth_error l k = Some c ->
              p c = true -> findBody p l = Some (k, c).
Proof.
  intros k c Hc Hk Hp. apply findBody_Some. split; [|exact Hk].
  revert k Hc Hk. induction l as [|h t IH]; intros [|k] Hc Hk;
    simpl in Hk; try discriminate; rewrite countIf_cons in Hc; simpl.
  - injection Hk as ->. rewrite Hp. reflexivity.
  - destruct (p h) eqn:Eh.
    + pose proof (countIf_ge_1 p t k c Hk Hp). lia.
    + rewrite (IH k); [reflexivity | lia | exact Hk].
Qed.

(** ** Sun absorption: the player and the game mass *)

Lemma player_not_sun (won : bool) (l : list Body) (pi si : nat) :
  RegistryInv won l -> findIndex isPlayer l = Some pi ->
  findIndex isSun l = Some si -> pi <> si.
Proof.
  intros (Hsane & _) Hp Hs ->.
  destruct (findIndex_Some _ _ _ Hp) as (c & Hc & Hpl).
  destruct (findIndex_Some _ _ _ Hs) as (c' & Hc' & Hsu).
  assert (c' = c) by congruence. subst c'.
  rewrite Forall_forall in Hsane.
  destruct (Hsane c (nth_error_In _ _ Hc)) as (_ & H & _).
  rewrite (H Hsu) in Hpl. discriminate.
Qed.

Lemma applyAbsorption_player (t : R) (pi si : nat) (sun player : Body)
    (s : State) :
  pi <> si -> nth_error (celestialBodies s) pi = Some player ->
  exists p2,
    nth_error (celestialBodies (applyAbsorption t pi si sun s)) pi = Some p2
    /\ isPlayer p2 = isPlayer player
    /\ mass p2 = Rmax 0 (mass player + t).
Proof.
  intros Hne Hn. unfold applyAbsorption. simpl celestialBodies.
  eexists. split.
  - rewrite nth_error_update_neq by auto.
    apply nth_error_update_eq. exact Hn.
  - split.
    + unfold absorbMomentum. destruct (Rgtb _ _); reflexivity.
    + simpl. f_equal. unfold absorbMomentum.
      destruct (Rgtb _ _); reflexivity.
Qed.

Lemma winTransition_player (pi si : nat) (p2 : Body) (s : State) :
  pi <> si -> nth_error (celestialBodies s) pi = Some p2 ->
  exists p3,
    nth_error (celestialBodies (winTransition pi si s))
              (if (si <? pi)%nat then Nat.pred pi else pi) = Some p3
    /\ isPlayer p3 = isPlayer p2
    /\ mass p3 = Rmax 0 (mass p2 + sunCurrentGameMass s).
Proof.
  intros Hne Hn. unfold winTransition. simpl celestialBodies.
  unfold forEachIndex. rewrite nth_error_forEachIndexFrom.
  rewrite nth_error_splice1_shift by auto.
  rewrite (nth_error_update_eq _ _ pi p2 Hn). simpl.
  rewrite Nat.eqb_refl. eexists. split; [reflexivity|]. split; reflexivity.
Qed.

Lemma checkSunAbsorption_player (dt : R) (s : State) (pi : nat)
    (player : Body) :
  Inv s -> gameWon s = false ->
  findBody isPlayer (celestialBodies s) = Some (pi, player) ->
  exists pi' player',
    nth_error (celestialBodies (checkSunAbsorption dt s)) pi' = Some player'
    /\ isPlayer player' = true
    /\ mass player' + sunCurrentGameMass (checkSunAbsorption dt s)
       = mass player + sunCurrentGameMass s
    /\ mass player <= mass player'.
Proof.
  intros HI Hw Hf. pose proof HI as (HR & Hb & Hc & _).
  apply findBody_Some in Hf. destruct Hf as [Hi Hn].
  destruct (findIndex_Some _ _ _ Hi) as (c & Hc' & Hpl).
  assert (c = player) by congruence. subst c. clear Hc'.
  assert (Hm : 0 <= mass player).
  { destruct HR as (_ & _ & _ & H). rewrite Forall_forall in H.
    apply H. eapply nth_error_In; eauto. }
  assert (Hsame : exists pi' player',
             nth_error (celestialBodies s) pi' = Some player'
             /\ isPlayer player' = true
             /\ mass player' + sunCurrentGameMass s
                = mass player + sunCurrentGameMass s
             /\ mass player <= mass player')
    by (exists pi, player; repeat split; auto; lra).
  unfold checkSunAbsorption. rewrite Hw, Hi.
  destruct (findIndex isSun (celestialBodies s)) as [si|] eqn:Hs;
    [|exact Hsame].
  rewrite Hn.
  destruct (nth_error (celestialBodies s) si) as [sun|] eqn:Hsn;
    [|exact Hsame].
  destruct (negb (canAbsorb player)).
  { destruct (Rltb _ _); exact Hsame. }
  destruct (Rgtb (playerSunDist player sun) _); [exact Hsame|].
  pose proof (absorptionTransfer_bounds dt s player sun (proj1 Hc)) as Ht.
  set (t := absorptionTransfer dt s player sun) in *. clearbody t.
  destruct (Rleb t 0); [exact Hsame|].
  assert (Hne : pi <> si) by (eapply player_not_sun; eauto).
  destruct (applyAbsorption_player t pi si sun player s Hne Hn)
    as (p2 & Hp2 & Hf2 & Hm2).
  rewrite Rmax_right in Hm2 by lra.
  destruct (Rltb _ (SUN_GAME_MASS * 0.02)).
  - destruct (winTransition_player pi si p2 _ Hne Hp2) as (p3 & Hp3 & Hf3 & Hm3).
    rewrite applyAbsorption_mass in Hm3. rewrite Rmax_right in Hm3 by lra.
    eexists. exists p3. split; [exact Hp3|].
    rewrite winTransition_mass. repeat split; [congruence | lra | lra].
  - exists pi, p2. split; [exact Hp2|].
    rewrite applyAbsorption_mass. repeat split; [congruence | lra | lra].
Qed.

Lemma countIf_pos_find (p : Body -> bool) (l : list Body) :
  (1 <= countIf p l)%nat -> exists k c, findBody p l = Some (k, c).
Proof.
  intros H. unfold findBody.
  destruct (findIndex p l) as [k|] eqn:E.
  - destruct (findIndex_Some _ _ _ E) as (c & Hc & _).
    exists k, c. rewrite Hc. reflexivity.
  - exfalso. revert H E. induction l as [|h t IH]; simpl.
    + unfold countIf. simpl. lia.
    + rewrite countIf_cons. destruct (p h); [discriminate|].
      destruct (findIndex p t); [discriminate|]. intros H _. apply IH; auto.
Qed.

Lemma kept_applyAbsorption (t : R) (pi si : nat) (sun player : Body)
    (s : State) :
  nth_error (celestialBodies s) pi = Some player -> isPlayer player = true ->
  kept (celestialBodies s) (celestialBodies (applyAbsorption t pi si sun s)).
Proof.
  intros Hn Hp. unfold applyAbsorption. simpl celestialBodies.
  eapply kept_trans; apply kept_update_at.
  - intros c Hc. assert (c = player) by congruence. subst c.
    split.
    + eapply evolved_trans; [apply evolved_absorbMomentum|].
      apply evolved_set_mass.
    + intros _ Hnp. congruence.
  - intros c _. apply settled_set_mass.
Qed.

Lemma atRest_winTransition (pi si : nat) (s : State) :
  Forall atRest (celestialBodies s) ->
  Forall atRest (celestialBodies (winTransition pi si s)).
Proof.
  intros H. unfold winTransition. simpl celestialBodies.
  apply Forall_forEachIndexFrom.
  { intros k c Hc. destruct (k =? _)%nat; [exact Hc|]. exact Hc. }
  apply Forall_splice1. apply Forall_update; [|exact H].
  intros c Hc. exact Hc.
Qed.

Lemma SessionInv_checkSunAbsorption (dt : R) (s : State) :
  0 <= dt -> Inv s -> SessionInv s -> SessionInv (checkSunAbsorption dt s).
Proof.
  intros Hdt HI HS.
  pose proof (Inv_checkSunAbsorption dt s Hdt HI) as HI'.
  pose proof HI as (HR & Hb & Hc & _).
  pose proof HS as (S1 & S2 & S3 & S4 & S5 & S6).
  destruct (gameWon s) eqn:Hw.
  { unfold checkSunAbsorption. rewrite Hw. exact HS. }
  assert (Hcount : countIf isPlayer (celestialBodies (checkSunAbsorption dt s))
                   = 1%nat).
  { destruct (countIf_pos_find isPlayer (celestialBodies s)) as (pi & p & Hf);
      [lia|].
    destruct (checkSunAbsorption_player dt s pi p HI Hw Hf)
      as (pi' & p' & Hn & Hp & _).
    pose proof (countIf_ge_1 isPlayer _ pi' p' Hn Hp).
    destruct HI' as ((_ & Hle & _) & _). lia. }
  unfold SessionInv. split; [exact Hcount|]. clear Hcount.
  unfold checkSunAbsorption. rewrite Hw.
  assert (Hsame : Forall atRest (celestialBodies s)
                  /\ 1 <= currentEjectionMultiplier s <= MAX_EJECTION_MULTIPLIER
                  /\ (currentGameSpeed s = BASE_GAME_SPEED
                      \/ currentGameSpeed s = FAST_GAME_SPEED)
                  /\ playerIsGravitationalCenter s = gameWon s
                  /\ (if gameWon s
                      then 0.98 < sunAbsorptionProgress s <= 1
                           /\ sunCurrentGameMass s = 0
                      else sunAbsorptionProgress s
                           = 1 - sunCurrentGameMass s / SUN_GAME_MASS))
    by (rewrite Hw; auto).
  destruct (findIndex isPlayer (celestialBodies s)) as [pi|] eqn:Hi;
    [|exact Hsame].
  destruct (findIndex isSun (celestialBodies s)) as [si|] eqn:Hs;
    [|exact Hsame].
  destruct (nth_error (celestialBodies s) pi) as [player|] eqn:Hn;
    [|exact Hsame].
  destruct (nth_error (celestialBodies s) si) as [sun|] eqn:Hsn;
    [|exact Hsame].
  destruct (negb (canAbsorb player)).
  { destruct (Rltb _ _); simpl; rewrite Hw; auto. }
  destruct (Rgtb (playerSunDist player sun) _).
  { simpl; rewrite Hw; auto. }
  pose proof (absorptionTransfer_bounds dt s player sun (proj1 Hc)) as Ht.
  set (t := absorptionTransfer dt s player sun) in *. clearbody t.
  destruct (Rleb t 0) eqn:Et; [exact Hsame|].
  apply Rleb_iff_false in Et.
  destruct (findIndex_Some _ _ _ Hi) as (c & Hc' & Hpl).
  assert (c = player) by congruence. subst c. clear Hc'.
  assert (Hrest2 : Forall atRest
                     (celestialBodies (applyAbsorption t pi si sun s))).
  { eapply kept_atRest; [eapply kept_applyAbsorption; eauto | apply HR | auto]. }
  pose proof SUN_GAME_MASS_pos as HSG.
  destruct (Rltb _ (SUN_GAME_MASS * 0.02)) eqn:Ewin.
  - rewrite applyAbsorption_mass in Ewin. apply Rltb_iff in Ewin.
    split; [apply atRest_winTransition; exact Hrest2|].
    split; [exact S3|]. split; [exact S4|]. split; [reflexivity|].
    change (gameWon (winTransition pi si (applyAbsorption t pi si sun s)))
      with true. cbv iota.
    change (sunAbsorptionProgress
              (winTransition pi si (applyAbsorption t pi si sun s)))
      with (1 - (sunCurrentGameMass s - t) / SUN_GAME_MASS).
    assert (0 <= (sunCurrentGameMass s - t) / SUN_GAME_MASS < 0.02).
    { split.
      - apply Rmult_le_reg_r with SUN_GAME_MASS; [exact HSG|].
        unfold Rdiv. rewrite Rmult_assoc, Rinv_l by lra. lra.
      - apply Rmult_lt_reg_r with SUN_GAME_MASS; [exact HSG|].
        unfold Rdiv. rewrite Rmult_assoc, Rinv_l by lra. lra. }
    rewrite winTransition_mass. split; [lra | reflexivity].
  - split; [exact Hrest2|]. split; [exact S3|]. split; [exact S4|].
    change (gameWon (applyAbsorption t pi si sun s)) with (gameWon s).
    rewrite Hw. split; [exact S5 | reflexivity].
Qed.

Lemma SessionInv_decayEjectionMultiplier (e : Env) (s : State) :
  SessionInv s -> SessionInv (decayEjectionMultiplier e s).
Proof.
  intros HS. unfold decayEjectionMultiplier.
  destruct (_ && _); [|exact HS].
  destruct HS as (S1 & S2 & S3 & S4 & S5 & S6).
  unfold SessionInv. simpl.
  split; [exact S1|]. split; [exact S2|].
  split; [|split; [exact S4 | split; [exact S5 | exact S6]]].
  split; [apply Rmax_l|].
  apply Rmax_lub; unfold EJECTION_DECAY_RATE, MAX_EJECTION_MULTIPLIER in *; lra.
Qed.

Lemma atRest_inert (extra : list Body) :
  Forall inert extra -> Forall atRest extra.
Proof.
  intros H. eapply Forall_impl; [|exact H].
  intros c (_ & S & _) Hs. congruence.
Qed.

Lemma SessionInv_populated (e : Env) (sun p : Body) (base : State) :
  celestialBodies base = [sun; p] ->
  isPlayer sun = false -> isPlayer p = true -> isSun p = false ->
  atRest sun ->
  currentEjectionMultiplier base = 1 ->
  (currentGameSpeed base = BASE_GAME_SPEED
   \/ currentGameSpeed base = FAST_GAME_SPEED) ->
  playerIsGravitationalCenter base = false -> gameWon base = false ->
  sunAbsorptionProgress base = 0 -> sunCurrentGameMass base = SUN_GAME_MASS ->
  SessionInv (populateSystem e INIT_NUM_BODIES base).
Proof.
  intros Hl A1 A2 A3 A4 B1 B2 B3 B4 B5 B6.
  destruct (populateSystem_spec e INIT_NUM_BODIES base) as (extra & He & ->).
  destruct (countIf_inert extra He) as (C1 & _).
  unfold SessionInv. simpl. rewrite Hl, B1, B3, B4, B5, B6.
  split; [|split; [|split; [|split; [|split]]]]; auto.
  - change ([sun; p] ++ extra) with (sun :: p :: extra).
    rewrite !countIf_cons, A1, A2, C1. reflexivity.
  - change ([sun; p] ++ extra) with (sun :: p :: extra).
    constructor; [exact A4|]. constructor; [intros H; congruence|].
    apply atRest_inert, He.
  - unfold MAX_EJECTION_MULTIPLIER. lra.
  - pose proof SUN_GAME_MASS_pos. field. lra.
Qed.

Lemma SessionInv_initializeGame (e : Env) : SessionInv (initializeGame e).
Proof.
  unfold initializeGame. cbv zeta.
  eapply SessionInv_populated; try reflexivity; auto.
  intros _. repeat split; reflexivity.
Qed.

Lemma SessionInv_resetPlayer (e : Env) (s : State) :
  Inv s -> SessionInv s -> SessionInv (resetPlayer e s).
Proof.
  intros ((Hsane & _) & _) (_ & S2 & _ & S4 & _).
  unfold resetPlayer. cbv zeta.
  eapply SessionInv_populated; try reflexivity; auto.
  - destruct (findIndex isSun (celestialBodies s)) as [i|] eqn:Hf;
      [|reflexivity].
    destruct (findIndex_Some _ _ _ Hf) as (c & Hn & Hs).
    rewrite Hn. simpl.
    destruct (proj1 (Forall_nth_error _ _) Hsane _ _ Hn) as (_ & B & _).
    auto.
  - destruct (findIndex isSun (celestialBodies s)) as [i|] eqn:Hf;
      [|intros _; repeat split; reflexivity].
    destruct (findIndex_Some _ _ _ Hf) as (c & Hn & Hs).
    rewrite Hn. intros _. simpl.
    exact (proj1 (Forall_nth_error _ _) S2 _ _ Hn Hs).
Qed.

Lemma performEjection_split (e : Env) (angle : R) (pi : nat) (player0 : Body)
    (ejectedMass : R) (s : State) :
  exists player' extra,
    performEjection e angle pi player0 ejectedMass s
    = update pi (fun _ => player') (celestialBodies s) ++ extra
    /\ evolved player0 player'
    /\ mass player' = Rmax 0 (mass player0 - ejectedMass)
    /\ Forall inert extra.
Proof.
  unfold performEjection. cbv zeta.
  eexists. eexists. split; [reflexivity|]. split; [|split].
  - destruct (Rgtb _ 1e-9);
      [eapply evolved_trans; [|apply evolved_set_velocity]|];
      apply evolved_set_mass.
  - destruct (Rgtb _ 1e-9); reflexivity.
  - apply Forall_app. split.
    + destruct (Rgeb ejectedMass MIN_BODY_MASS) eqn:E; [|constructor].
      constructor; [|constructor]. repeat split. simpl.
      apply Rleb_iff in E. generalize MIN_BODY_MASS_pos. lra.
    + apply inert_spawnSparks.
Qed.

Lemma comboMultiplier_bounds (currentTime : Z) (s : State) :
  1 <= currentEjectionMultiplier s ->
  1 <= comboMultiplier currentTime s <= MAX_EJECTION_MULTIPLIER.
Proof.
  intros H. unfold comboMultiplier. cbv zeta.
  unfold EJECTION_GROWTH_RATE, MAX_EJECTION_MULTIPLIER.
  destruct (_ <=? _)%Z; [|lra].
  split; [apply Rmin_glb; lra | apply Rmin_r].
Qed.

Lemma SessionInv_ejectMass (e : Env) (angle : R) (s : State) :
  Inv s -> SessionInv s -> SessionInv (ejectMass e angle s).
Proof.
  intros HI HS. pose proof HI as ((Hsane & _) & _).
  pose proof HS as (S1 & S2 & S3 & S4 & S5 & S6).
  unfold ejectMass.
  destruct (findIndex isPlayer (celestialBodies s)) as [pi|] eqn:Hi;
    [|exact HS].
  destruct (nth_error (celestialBodies s) pi) as [player|] eqn:Hn;
    [|exact HS].
  destruct (Rleb (mass player) MIN_PLAYER_MASS); [exact HS|].
  cbv zeta.
  pose proof (comboMultiplier_bounds (now e) s (proj1 S3)) as Hm.
  destruct (_ && _).
  { unfold SessionInv. simpl. auto 7. }
  match goal with
  | |- context [performEjection e angle pi player ?m ?s1] =>
    destruct (performEjection_split e angle pi player m s1)
      as (player' & extra & E & Hev & _ & Hext)
  end.
  rewrite E. unfold SessionInv. simpl.
  destruct (findIndex_Some _ _ _ Hi) as (c & Hc & Hpl).
  assert (c = player) by congruence. subst c.
  assert (Hk : kept (celestialBodies s)
                    (update pi (fun _ => player') (celestialBodies s))).
  { apply kept_update_at. intros c Hc'.
    assert (c = player) by congruence. subst c.
    split; [exact Hev | intros _ Hnp; congruence]. }
  destruct (countIf_inert extra Hext) as (C1 & _).
  split; [|split; [|auto 6]].
  - rewrite countIf_app, (kept_count_player _ _ Hk), C1. lia.
  - apply Forall_app. split; [|apply atRest_inert, Hext].
    eapply kept_atRest; eauto.
Qed.

Lemma SessionInv_updatePhysics (e : Env) (dt : R) (s : State) :
  0 <= dt -> Inv s -> SessionInv s -> SessionInv (updatePhysics e dt s).
Proof.
  intros Hdt HI HS. unfold updatePhysics. cbv zeta.
  set (s4 := gravityAndMotion (now e) dt s).
  assert (H4 : sameSession s s4) by (apply sameSession_gravityAndMotion, HI).
  assert (I4 : Inv s4) by (eapply Inv_stage; eauto using sameSession_stage).
  set (s5 := checkCollisions (now e) dt s4).
  assert (H5 : sameSession s4 s5) by (apply sameSession_checkCollisions, I4).
  assert (I5 : Inv s5) by (eapply Inv_stage; eauto using sameSession_stage).
  assert (S5 : SessionInv s5).
  { apply (SessionInv_sameSession s4 s5 I4); [|exact H5].
    apply (SessionInv_sameSession s s4 HI HS H4). }
  destruct (playerNeedsReset s5).
  - apply SessionInv_resetPlayer; assumption.
  - apply SessionInv_decayEjectionMultiplier.
    apply SessionInv_checkSunAbsorption; assumption.
Qed.

Lemma SessionInv_step (s s' : State) :
  Inv s -> SessionInv s -> step s s' -> SessionInv s'.
Proof.
  intros HI HS Hst. destruct Hst as [env dt s [Hdt _]|env angle s|s|s].
  - apply SessionInv_updatePhysics; [lra | exact HI | exact HS].
  - apply SessionInv_ejectMass; assumption.
  - destruct HS as (S1 & S2 & S3 & S4 & S5 & S6).
    unfold SessionInv. simpl. auto 7.
  - destruct HS as (S1 & S2 & S3 & S4 & S5 & S6).
    unfold SessionInv. simpl. auto 7.
Qed.

(** Every state of the running game satisfies the session invariant. *)
Lemma reachable_SessionInv (s : State) : reachable s -> SessionInv s.
Proof.
  induction 1 as [env|s s' Hr IH Hst].
  - apply SessionInv_initializeGame.
  - exact (SessionInv_step s s' (reachable_Inv s Hr) IH Hst).
Qed.

(** ** What holds in every state of the running game *)

Lemma Inv_reentryState : Inv reentryState.
Proof.
  pose proof SUN_GAME_MASS_pos as HS.
  unfold Inv, reentryState. simpl.
  split; [|repeat split; try lra; discriminate].
  apply RegistryInv_sun_player; try reflexivity; simpl; lra.
Qed.

(** X18.  Between two operations of the running game there is exactly one player,
    and [find] returns it. *)
Theorem player_always_exists (s : State) :
  reachable s ->
  countIf isPlayer (celestialBodies s) = 1%nat
  /\ exists pi player,
       findBody isPlayer (celestialBodies s) = Some (pi, player)
       /\ 0 <= mass player.
Proof.
  intros Hr. destruct (reachable_SessionInv s Hr) as (S1 & _).
  split; [exact S1|].
  destruct (countIf_pos_find isPlayer (celestialBodies s)) as (pi & p & Hf);
    [lia|].
  exists pi, p. split; [exact Hf|].
  apply findBody_Some in Hf. destruct Hf as [_ Hn].
  destruct (reachable_Inv s Hr) as ((_ & _ & _ & Hm) & _).
  rewrite Forall_forall in Hm. apply Hm. eapply nth_error_In; eauto.
Qed.

Lemma player_always_exists_witness :
  countIf isPlayer (celestialBodies (initializeGame clickEnv)) = 1%nat
  /\ exists pi player,
       findBody isPlayer (celestialBodies (initializeGame clickEnv))
       = Some (pi, player)
       /\ 0 <= mass player.
Proof.
  apply (player_always_exists (initializeGame clickEnv)).
  apply reachable_init.
Defined.

(** X19.  In every state of the running game the sun, while it exists, is at the
    origin with zero velocity: nothing in the simulation moves it. *)
Theorem sun_never_moves (s : State) :
  reachable s -> Forall atRest (celestialBodies s).
Proof.
  intros Hr. destruct (reachable_SessionInv s Hr) as (_ & S2 & _). exact S2.
Qed.

Lemma sun_never_moves_witness :
  Forall atRest (celestialBodies (initializeGame clickEnv)).
Proof.
  apply (sun_never_moves (initializeGame clickEnv)). apply reachable_init.
Defined.

(** X20.  In every state of the running game the combo multiplier lies between 1
    and [MAX_EJECTION_MULTIPLIER], and the game speed is [BASE_GAME_SPEED] or
    [FAST_GAME_SPEED]. *)
Theorem session_controls_bounded (s : State) :
  reachable s ->
  1 <= currentEjectionMultiplier s <= MAX_EJECTION_MULTIPLIER
  /\ (currentGameSpeed s = BASE_GAME_SPEED
      \/ currentGameSpeed s = FAST_GAME_SPEED).
Proof.
  intros Hr. destruct (reachable_SessionInv s Hr) as (_ & _ & S3 & S4 & _).
  auto.
Qed.

Lemma session_controls_bounded_witness :
  1 <= currentEjectionMultiplier
         (ejectMass clickEnv 0 (initializeGame clickEnv))
    <= MAX_EJECTION_MULTIPLIER
  /\ (currentGameSpeed (ejectMass clickEnv 0 (initializeGame clickEnv))
      = BASE_GAME_SPEED
      \/ currentGameSpeed (ejectMass clickEnv 0 (initializeGame clickEnv))
         = FAST_GAME_SPEED).
Proof.
  apply (session_controls_bounded
           (ejectMass clickEnv 0 (initializeGame clickEnv))).
  eapply reachable_step; [apply reachable_init | apply step_click].
Defined.

(** X21.  In every state of the running game the two win flags agree, the
    absorption progress lies in [0, 1], and until the win it is exactly the
    share of the sun's game mass that has been consumed; once the game is
    won it stays above 0.98. *)
Theorem absorption_progress_tracks_game_mass (s : State) :
  reachable s ->
  playerIsGravitationalCenter s = gameWon s
  /\ 0 <= sunAbsorptionProgress s <= 1
  /\ (gameWon s = false ->
      sunAbsorptionProgress s = 1 - sunCurrentGameMass s / SUN_GAME_MASS)
  /\ (gameWon s = true ->
      0.98 < sunAbsorptionProgress s /\ sunCurrentGameMass s = 0).
Proof.
  intros Hr.
  destruct (reachable_SessionInv s Hr) as (_ & _ & _ & _ & S5 & S6).
  destruct (reachable_Inv s Hr) as (HR & _ & Hc & _).
  pose proof SUN_GAME_MASS_pos as HS.
  split; [exact S5|].
  destruct (gameWon s) eqn:Hw.
  - split; [lra|]. split; [discriminate|]. intros _. split; [lra | apply S6].
  - assert (0 <= sunCurrentGameMass s / SUN_GAME_MASS <= 1).
    { split.
      - apply Rmult_le_reg_r with SUN_GAME_MASS; [exact HS|].
        unfold Rdiv. rewrite Rmult_assoc, Rinv_l by lra. lra.
      - apply Rmult_le_reg_r with SUN_GAME_MASS; [exact HS|].
        unfold Rdiv. rewrite Rmult_assoc, Rinv_l by lra. lra. }
    split; [lra|]. split; [auto | discriminate].
Qed.

Lemma absorption_progress_tracks_game_mass_witness :
  playerIsGravitationalCenter (initializeGame clickEnv)
  = gameWon (initializeGame clickEnv)
  /\ 0 <= sunAbsorptionProgress (initializeGame clickEnv) <= 1
  /\ (gameWon (initializeGame clickEnv) = false ->
      sunAbsorptionProgress (initializeGame clickEnv)
      = 1 - sunCurrentGameMass (initializeGame clickEnv) / SUN_GAME_MASS)
  /\ (gameWon (initializeGame clickEnv) = true ->
      0.98 < sunAbsorptionProgress (initializeGame clickEnv)
      /\ sunCurrentGameMass (initializeGame clickEnv) = 0).
Proof.
  apply (absorption_progress_tracks_game_mass (initializeGame clickEnv)).
  apply reachable_init.
Defined.

(** ** The collision stage and the roles *)

(** X22.  In a state that satisfies the invariant the collision stage never adds
    a body and never removes the player, the sun or the gravitational
    center; it leaves the win flag, the blend, the sun's game mass and the
    ejection bookkeeping alone, and it never clears a pending reset
    request. *)
Theorem checkCollisions_keeps_roles (now : Z) (dt : R) (s : State) :
  Inv s ->
  (length (celestialBodies (checkCollisions now dt s))
   <= length (celestialBodies s))%nat
  /\ countIf isPlayer (celestialBodies (checkCollisions now dt s))
     = countIf isPlayer (celestialBodies s)
  /\ countIf isSun (celestialBodies (checkCollisions now dt s))
     = countIf isSun (celestialBodies s)
  /\ countIf isGravitationalCenter (celestialBodies (checkCollisions now dt s))
     = countIf isGravitationalCenter (celestialBodies s)
  /\ gameWon (checkCollisions now dt s) = gameWon s
  /\ gravityBlendFactor (checkCollisions now dt s) = gravityBlendFactor s
  /\ sunCurrentGameMass (checkCollisions now dt s) = sunCurrentGameMass s
  /\ currentEjectionMultiplier (checkCollisions now dt s)
     = currentEjectionMultiplier s
  /\ lastClickTime (checkCollisions now dt s) = lastClickTime s
  /\ (playerNeedsReset s = true ->
      playerNeedsReset (checkCollisions now dt s) = true).
Proof.
  intros HI.
  destruct (sameSession_checkCollisions now dt s HI)
    as (A0 & A1 & A2 & A3 & A4 & A5 & A6 & A7 & A8 & A9 & A10).
  split; [apply kept_length, A0|].
  split; [apply kept_count_player, A0|].
  split; [apply kept_count_sun, A0|].
  split; [apply thinned_count_center, kept_thinned, A0|].
  auto 10.
Qed.

Lemma checkCollisions_keeps_roles_witness :
  (length (celestialBodies (checkCollisions 0 0.016 reentryState))
   <= length (celestialBodies reentryState))%nat
  /\ countIf isPlayer (celestialBodies (checkCollisions 0 0.016 reentryState))
     = countIf isPlayer (celestialBodies reentryState)
  /\ countIf isSun (celestialBodies (checkCollisions 0 0.016 reentryState))
     = countIf isSun (celestialBodies reentryState)
  /\ countIf isGravitationalCenter
       (celestialBodies (checkCollisions 0 0.016 reentryState))
     = countIf isGravitationalCenter (celestialBodies reentryState)
  /\ gameWon (checkCollisions 0 0.016 reentryState) = gameWon reentryState
  /\ gravityBlendFactor (checkCollisions 0 0.016 reentryState)
     = gravityBlendFactor reentryState
  /\ sunCurrentGameMass (checkCollisions 0 0.016 reentryState)
     = sunCurrentGameMass reentryState
  /\ currentEjectionMultiplier (checkCollisions 0 0.016 reentryState)
     = currentEjectionMultiplier reentryState
  /\ lastClickTime (checkCollisions 0 0.016 reentryState)
     = lastClickTime reentryState
  /\ (playerNeedsReset reentryState = true ->
      playerNeedsReset (checkCollisions 0 0.016 reentryState) = true).
Proof.
  apply (checkCollisions_keeps_roles 0 0.016 reentryState).
  apply Inv_reentryState.
Defined.

(** ** Game mass in the absorption *)

(** X23.  In a state that satisfies the invariant, with the game not won,
    [checkSunAbsorption] keeps the sum of the player's mass and the sun's
    game mass: what the sun's game mass loses the player gains, also at the
    win, where the player receives the remainder; the player never loses
    mass and the sun's game mass never grows. *)
Theorem absorption_conserves_game_mass (dt : R) (s : State) (pi : nat)
    (player : Body) :
  0 <= dt -> Inv s -> gameWon s = false ->
  findBody isPlayer (celestialBodies s) = Some (pi, player) ->
  exists pi' player',
    findBody isPlayer (celestialBodies (checkSunAbsorption dt s))
    = Some (pi', player')
    /\ mass player' + sunCurrentGameMass (checkSunAbsorption dt s)
       = mass player + sunCurrentGameMass s
    /\ mass player <= mass player'
    /\ sunCurrentGameMass (checkSunAbsorption dt s) <= sunCurrentGameMass s.
Proof.
  intros Hdt HI Hw Hf.
  destruct (checkSunAbsorption_player dt s pi player HI Hw Hf)
    as (pi' & p' & Hn & Hp & Hsum & Hle).
  exists pi', p'. split; [|split; [exact Hsum | split; [exact Hle | lra]]].
  apply findBody_unique; auto.
  destruct (Inv_checkSunAbsorption dt s Hdt HI) as ((_ & H & _) & _).
  exact H.
Qed.

Lemma absorption_conserves_game_mass_witness :
  exists pi' player',
    findBody isPlayer (celestialBodies (checkSunAbsorption 0.016 reentryState))
    = Some (pi', player')
    /\ mass player'
       + sunCurrentGameMass (checkSunAbsorption 0.016 reentryState)
       = mass (CelestialBody (0.7 * SUN_GAME_MASS) 0 0 0 0 0
                             (0.8 * SUN_GAME_MASS) true false false)
         + sunCurrentGameMass reentryState
    /\ mass (CelestialBody (0.7 * SUN_GAME_MASS) 0 0 0 0 0
                           (0.8 * SUN_GAME_MASS) true false false)
       <= mass player'
    /\ sunCurrentGameMass (checkSunAbsorption 0.016 reentryState)
       <= sunCurrentGameMass reentryState.
Proof.
  apply (absorption_conserves_game_mass 0.016 reentryState 1).
  - lra.
  - apply Inv_reentryState.
  - reflexivity.
  - reflexivity.
Defined.

(** ** The player's mass floor *)

Lemma Forall_update_at (P : Body -> Prop) (f : Body -> Body) (l : list Body) :
  forall i, (forall c, nth_error l i = Some c -> P (f c)) ->
            Forall P l -> Forall P (update i f l).
Proof.
  induction l as [|h t IH]; intros [|i] Hf H; simpl; auto;
    inversion H; subst; constructor; auto.
Qed.

Lemma Forall_filter (P : Body -> Prop) (p : Body -> bool) (l : list Body) :
  Forall P l -> Forall P (filter p l).
Proof.
  induction 1 as [|h t Hh Ht IH]; simpl; [constructor|].
  destruct (p h); [constructor|]; auto.
Qed.

Lemma aboveFloor_pull (m gameDt : R) (source body : Body) :
  aboveFloor body -> aboveFloor (pull m gameDt source body).
Proof.
  unfold pull. destruct (gravityKick _ _ _ _ _ _ _ _ _). exact (fun H => H).
Qed.

Lemma aboveFloor_moveBody (gameDt : R) (body : Body) :
  aboveFloor body -> aboveFloor (moveBody gameDt body).
Proof.
  unfold moveBody. cbv zeta. destruct (Rgtb _ _); exact (fun H => H).
Qed.

Lemma aboveFloor_gravityAndMotion (now : Z) (dt : R) (s : State) :
  Forall aboveFloor (celestialBodies s) ->
  Forall aboveFloor (celestialBodies (gravityAndMotion now dt s)).
Proof.
  intros H. unfold gravityAndMotion. cbv zeta.
  set (s0 := cleanup now _).
  assert (H0 : Forall aboveFloor (celestialBodies s0))
    by (apply Forall_filter; exact H).
  set (sun := findBody isSun _). set (player := findBody isPlayer _).
  set (s1 := sunGravity _ sun s0).
  assert (H1 : Forall aboveFloor (celestialBodies s1)).
  { unfold s1, sunGravity. destruct sun as [[si sunB]|]; [|exact H0].
    destruct (Rltb _ 1); [|exact H0].
    apply Forall_forEachIndexFrom; [|exact H0].
    intros k c Hc. destruct (_ || _); [exact Hc | apply aboveFloor_pull, Hc]. }
  set (s2 := playerGravity _ player s1).
  assert (H2 : Forall aboveFloor (celestialBodies s2)).
  { unfold s2, playerGravity. destruct player as [[pi playerB]|]; [|exact H1].
    destruct (_ && _); [|exact H1].
    apply Forall_forEachIndexFrom; [|exact H1].
    intros k c Hc. destruct (_ || _); [exact Hc | apply aboveFloor_pull, Hc]. }
  set (s3 := postWinGravity _ sun player s2).
  assert (H3 : Forall aboveFloor (celestialBodies s3)).
  { unfold s3, postWinGravity. destruct sun; [exact H2|].
    destruct player as [[pi playerB]|]; [|exact H2].
    destruct (gameWon s2); [|exact H2].
    apply Forall_forEachIndexFrom; [|exact H2].
    intros k c Hc. destruct (_ || _); [exact Hc | apply aboveFloor_pull, Hc]. }
  set (s4 := flagMissingBodies sun player s3).
  assert (H4 : Forall aboveFloor (celestialBodies s4)).
  { unfold s4, flagMissingBodies. destruct sun, player; try exact H3.
    destruct (gameWon s3); exact H3. }
  unfold updatePositions. rewrite celestialBodies_set.
  clear - H4. induction H4; simpl; constructor;
    auto using aboveFloor_moveBody.
Qed.

(** A pair resolution that does not request a reset leaves every player at
    or above the floor. *)
Lemma aboveFloor_resolvePair (now : Z) (dt : R) (i j : nat) (s : State) :
  (j < i)%nat -> Forall aboveFloor (celestialBodies s) ->
  match resolvePair now dt i j s with
  | PairReturn s' => playerNeedsReset s' = true
  | PairContinue s' | PairBreak s' _ => Forall aboveFloor (celestialBodies s')
  end.
Proof.
  intros Hlt HF.
  destruct (nth_error (celestialBodies s) i) as [b1|] eqn:H1;
    [|unfold resolvePair; rewrite H1; exact HF].
  destruct (nth_error (celestialBodies s) j) as [b2|] eqn:H2;
    [|unfold resolvePair; rewrite H1, H2; exact HF].
  rewrite (resolvePair_unfold now dt i j s b1 b2 H1 H2).
  destruct (excluded now b1 b2); [exact HF|].
  destruct (negb (overlapping _ b1 b2)); [exact HF|].
  cbv zeta.
  destruct (big_small_indices i j b1 b2 s Hlt H1 H2) as (Hne & Hb & Hs & _).
  set (bigI := fst (bigOf i j b1 b2)) in *.
  set (smallI := fst (smallOf i j b1 b2)) in *.
  set (big := snd (bigOf i j b1 b2)) in *.
  set (small := snd (smallOf i j b1 b2)) in *.
  destruct (isGravitationalCenter small || isSpark big); [exact HF|].
  set (s1 := set_collisionDetectedThisFrame true s).
  set (t := transferAmount dt small).
  assert (Ht : 0 <= t) by (unfold t, transferAmount; apply Rmax_l).
  destruct (isPlayer _ && Rltb _ MIN_PLAYER_MASS) eqn:Ep; [reflexivity|].
  assert (HF2 : Forall aboveFloor
                  (celestialBodies (transferMass t bigI smallI small s1))).
  { unfold transferMass. cbv zeta. rewrite celestialBodies_set.
    apply Forall_update_at.
    - intros c Hc. rewrite nth_error_update_neq in Hc by exact Hne.
      assert (c = small) by (simpl in Hc; congruence). subst c.
      intros Hpl. simpl in Hpl. simpl in Ep. rewrite Hpl in Ep. simpl in Ep.
      apply Rltb_iff_false in Ep. exact Ep.
    - apply Forall_update; [|exact HF].
      intros c Hc Hpl. rewrite mass_set_mass, mass_absorbVelocity.
      assert (isPlayer c = true).
      { revert Hpl. simpl. unfold absorbVelocity.
        destruct (isPlayer c && Rgtb t 0); [destruct (Rgtb _ _)|]; auto. }
      specialize (Hc H). eapply Rle_trans; [|apply Rmax_r]. lra. }
  destruct (Rleb _ MIN_BODY_MASS || _); [|exact HF2].
  rewrite celestialBodies_set. apply Forall_splice1, HF2.
Qed.

Lemma aboveFloor_innerLoop (now : Z) (dt : R) (i : nat) :
  forall n s,
    (n <= i)%nat -> Forall aboveFloor (celestialBodies s) ->
    match innerLoop now dt i n s with
    | PairReturn s' => playerNeedsReset s' = true
    | PairContinue s' | PairBreak s' _ =>
      Forall aboveFloor (celestialBodies s')
    end.
Proof.
  induction n as [|j IH]; intros s Hle HF; simpl; [exact HF|].
  pose proof (aboveFloor_resolvePair now dt i j s ltac:(lia) HF) as H.
  destruct (resolvePair now dt i j s) as [s'|s' k|s']; auto.
  apply IH; [lia | exact H].
Qed.

Lemma aboveFloor_outerLoop (now : Z) (dt : R) :
  forall fuel n s,
    Forall aboveFloor (celestialBodies s) ->
    playerNeedsReset (outerLoop fuel now dt n s) = true
    \/ Forall aboveFloor (celestialBodies (outerLoop fuel now dt n s)).
Proof.
  induction fuel as [|fuel IH]; intros n s HF; simpl; [auto|].
  destruct n as [|i]; [auto|].
  destruct (nth_error (celestialBodies s) i); [|apply IH; exact HF].
  pose proof (aboveFloor_innerLoop now dt i i s (Nat.le_refl i) HF) as H.
  destruct (innerLoop now dt i i s) as [s'|s' k|s']; auto;
    destruct (playerNeedsReset s') eqn:E; auto.
Qed.

(** Where at most one body is a player, every player is above the floor as
    soon as one is. *)
Lemma aboveFloor_unique (l : list Body) (k : nat) (c : Body) :
  (countIf isPlayer l <= 1)%nat -> nth_error l k = Some c ->
  isPlayer c = true -> MIN_PLAYER_MASS <= mass c -> Forall aboveFloor l.
Proof.
  intros Hc Hk Hp Hm. apply Forall_nth_error. intros k' c' Hk' Hp'.
  pose proof (findBody_unique isPlayer l k c Hc Hk Hp) as F1.
  pose proof (findBody_unique isPlayer l k' c' Hc Hk' Hp') as F2.
  assert (c' = c) by congruence. subst c'. exact Hm.
Qed.

Lemma aboveFloor_checkSunAbsorption (dt : R) (s : State) :
  0 <= dt -> Inv s -> Forall aboveFloor (celestialBodies s) ->
  Forall aboveFloor (celestialBodies (checkSunAbsorption dt s)).
Proof.
  intros Hdt HI HF.
  destruct (gameWon s) eqn:Hw.
  { unfold checkSunAbsorption. rewrite Hw. exact HF. }
  destruct (findBody isPlayer (celestialBodies s)) as [[pi player]|] eqn:Hf.
  - destruct (checkSunAbsorption_player dt s pi player HI Hw Hf)
      as (pi' & p' & Hn & Hp & _ & Hle).
    apply findBody_Some in Hf. destruct Hf as [Hi Hnp].
    destruct (findIndex_Some _ _ _ Hi) as (c & Hc & Hpl).
    assert (c = player) by congruence. subst c.
    pose proof (proj1 (Forall_nth_error _ _) HF _ _ Hnp Hpl) as Hm.
    apply (aboveFloor_unique _ pi' p'); auto; [|lra].
    destruct (Inv_checkSunAbsorption dt s Hdt HI) as ((_ & H & _) & _).
    exact H.
  - unfold checkSunAbsorption. rewrite Hw.
    unfold findBody in Hf.
    destruct (findIndex isPlayer (celestialBodies s)) as [pi|] eqn:Hi;
      [|exact HF].
    destruct (findIndex_Some _ _ _ Hi) as (c & Hc & _).
    rewrite Hc in Hf. discriminate.
Qed.

Lemma aboveFloor_inert (extra : list Body) :
  Forall inert extra -> Forall aboveFloor extra.
Proof.
  intros H. eapply Forall_impl; [|exact H].
  intros c (P & _) Hp. congruence.
Qed.

Lemma populateSystem_center (e : Env) (numMasses : nat) (s : State)
    (c : nat) (centerBody : Body) :
  findBody isGravitationalCenter (celestialBodies s) = Some (c, centerBody) ->
  populateSystem e numMasses s
  = set_celestialBodies
      (celestialBodies s
       ++ spawnBodies e (sunCurrentGameMass s) centerBody 0 numMasses) s.
Proof.
  intros Hf. apply findBody_Some in Hf. destruct Hf as [Hi Hn].
  unfold populateSystem. rewrite Hi, Hn. reflexivity.
Qed.

(** The session [resetPlayer] builds, whatever the state it starts from. *)
Lemma resetPlayer_fresh (e : Env) (s : State) :
  exists sun p rest,
    celestialBodies (resetPlayer e s) = sun :: p :: rest
    /\ isSun sun = true /\ isGravitationalCenter sun = true
    /\ mass sun = SUN_GAME_MASS
    /\ isPlayer p = true /\ isGravitationalCenter p = false
    /\ mass p = PLAYER_INITIAL_MASS
    /\ length rest = INIT_NUM_BODIES /\ Forall inert rest
    /\ gameWon (resetPlayer e s) = false
    /\ playerNeedsReset (resetPlayer e s) = false
    /\ gravityBlendFactor (resetPlayer e s) = 0
    /\ sunAbsorptionProgress (resetPlayer e s) = 0
    /\ sunCurrentGameMass (resetPlayer e s) = SUN_GAME_MASS
    /\ currentEjectionMultiplier (resetPlayer e s) = 1
    /\ lastClickTime (resetPlayer e s) = 0%Z.
Proof.
  unfold resetPlayer. cbv zeta. generalize INIT_NUM_BODIES. intros n.
  set (sun0 := match findIndex isSun (celestialBodies s) with
               | Some i => _ | None => _ end).
  assert (Hsun : isSun sun0 = true /\ mass sun0 = SUN_GAME_MASS).
  { pose proof SUN_GAME_MASS_pos as HS. unfold sun0.
    destruct (findIndex isSun (celestialBodies s)) as [i|] eqn:Hf;
      [|split; reflexivity].
    destruct (findIndex_Some _ _ _ Hf) as (c & Hn & Hs). rewrite Hn.
    split; [exact Hs|]. simpl. apply Rmax_right. lra. }
  destruct Hsun as [Hs Hm].
  match goal with
  | |- context [populateSystem e n ?base] =>
    rewrite (populateSystem_center e n base 0
               (set_isGravitationalCenter true sun0)) by reflexivity
  end.
  simpl. eexists. eexists. eexists. split; [reflexivity|].
  repeat split; auto.
  - apply length_spawnBodies.
  - apply inert_spawnBodies.
Qed.

Lemma MIN_PLAYER_MASS_le_initial : MIN_PLAYER_MASS <= PLAYER_INITIAL_MASS.
Proof. unfold MIN_PLAYER_MASS. pose proof PLAYER_INITIAL_MASS_pos. lra. Qed.

Lemma aboveFloor_resetPlayer (e : Env) (s : State) :
  Forall aboveFloor (celestialBodies (resetPlayer e s)).
Proof.
  destruct (resetPlayer_fresh e s)
    as (sun & p & rest & -> & _ & _ & Hms & _ & _ & Hmp & _ & Hin & _).
  pose proof MIN_PLAYER_MASS_le_initial. pose proof PLAYER_INITIAL_MASS_pos.
  constructor; [|constructor; [|apply aboveFloor_inert, Hin]].
  - intros _. rewrite Hms. unfold SUN_GAME_MASS. lra.
  - intros _. rewrite Hmp. lra.
Qed.

Lemma aboveFloor_initializeGame (e : Env) :
  Forall aboveFloor (celestialBodies (initializeGame e)).
Proof.
  unfold initializeGame. cbv zeta.
  match goal with
  | |- context [populateSystem e INIT_NUM_BODIES ?base] =>
    destruct (populateSystem_spec e INIT_NUM_BODIES base) as (extra & He & ->)
  end.
  rewrite celestialBodies_set. simpl celestialBodies.
  pose proof MIN_PLAYER_MASS_le_initial.
  constructor; [intros H0; discriminate|].
  constructor; [intros _; exact H|]. apply aboveFloor_inert, He.
Qed.

Lemma aboveFloor_ejectMass (e : Env) (angle : R) (s : State) :
  Forall aboveFloor (celestialBodies s) ->
  Forall aboveFloor (celestialBodies (ejectMass e angle s)).
Proof.
  intros HF. unfold ejectMass.
  destruct (findIndex isPlayer (celestialBodies s)) as [pi|] eqn:Hi;
    [|exact HF].
  destruct (nth_error (celestialBodies s) pi) as [player|] eqn:Hn;
    [|exact HF].
  destruct (Rleb (mass player) MIN_PLAYER_MASS) eqn:Elow; [exact HF|].
  apply Rleb_iff_false in Elow. cbv zeta.
  set (s1 := set_currentEjectionMultiplier _ s).
  set (requested := requestedEjection _ _).
  destruct (Rltb (mass player - requested) MIN_PLAYER_MASS) eqn:Efl.
  - destruct (true && _); [exact HF|].
    destruct (performEjection_split e angle pi player
                (mass player - MIN_PLAYER_MASS) s1)
      as (player' & extra & E & _ & Hm & Hext).
    simpl celestialBodies. rewrite E.
    apply Forall_app. split; [|apply aboveFloor_inert, Hext].
    apply Forall_update_at; [|exact HF].
    intros c _ _. rewrite Hm. eapply Rle_trans; [|apply Rmax_r]. lra.
  - simpl andb. cbv iota.
    apply Rltb_iff_false in Efl.
    destruct (performEjection_split e angle pi player requested s1)
      as (player' & extra & E & _ & Hm & Hext).
    simpl celestialBodies. rewrite E.
    apply Forall_app. split; [|apply aboveFloor_inert, Hext].
    apply Forall_update_at; [|exact HF].
    intros c _ _. rewrite Hm. eapply Rle_trans; [|apply Rmax_r]. lra.
Qed.

Lemma aboveFloor_updatePhysics (e : Env) (dt : R) (s : State) :
  0 <= dt -> Inv s -> Forall aboveFloor (celestialBodies s) ->
  Forall aboveFloor (celestialBodies (updatePhysics e dt s)).
Proof.
  intros Hdt HI HF. unfold updatePhysics. cbv zeta.
  set (s4 := gravityAndMotion (now e) dt s).
  assert (I4 : Inv s4).
  { eapply Inv_stage; [exact HI|].
    apply sameSession_stage, sameSession_gravityAndMotion, HI. }
  assert (F4 : Forall aboveFloor (celestialBodies s4))
    by (apply aboveFloor_gravityAndMotion, HF).
  set (s5 := checkCollisions (now e) dt s4).
  assert (I5 : Inv s5).
  { eapply Inv_stage; [exact I4|].
    apply sameSession_stage, sameSession_checkCollisions, I4. }
  destruct (aboveFloor_outerLoop (now e) dt (length (celestialBodies s4))
              (length (celestialBodies s4)) s4 F4) as [Hflag|F5].
  - fold (checkCollisions (now e) dt s4) in Hflag. fold s5 in Hflag.
    rewrite Hflag. apply aboveFloor_resetPlayer.
  - fold (checkCollisions (now e) dt s4) in F5. fold s5 in F5.
    destruct (playerNeedsReset s5); [apply aboveFloor_resetPlayer|].
    unfold decayEjectionMultiplier. destruct (_ && _);
      apply aboveFloor_checkSunAbsorption; assumption.
Qed.

Lemma reachable_aboveFloor (s : State) :
  reachable s -> Forall aboveFloor (celestialBodies s).
Proof.
  induction 1 as [env|s s' Hr IH Hst].
  - apply aboveFloor_initializeGame.
  - pose proof (reachable_Inv s Hr) as HI.
    destruct Hst as [env dt s [Hdt _]|env angle s|s|s].
    + apply aboveFloor_updatePhysics; [lra | exact HI | exact IH].
    + apply aboveFloor_ejectMass, IH.
    + exact IH.
    + exact IH.
Qed.

(** X24.  Between two operations of the running game the player's mass is never
    below [MIN_PLAYER_MASS]: a collision that would take it below requests
    a reset, which the same tick serves, and neither ejection nor the other
    stages lower it past the floor. *)
Theorem player_mass_floor (s : State) :
  reachable s ->
  exists pi player,
    findBody isPlayer (celestialBodies s) = Some (pi, player)
    /\ MIN_PLAYER_MASS <= mass player.
Proof.
  intros Hr.
  destruct (reachable_SessionInv s Hr) as (S1 & _).
  destruct (countIf_pos_find isPlayer (celestialBodies s)) as (pi & p & Hf);
    [lia|].
  exists pi, p. split; [exact Hf|].
  apply findBody_Some in Hf. destruct Hf as [Hi Hn].
  destruct (findIndex_Some _ _ _ Hi) as (c & Hc & Hpl).
  assert (c = p) by congruence. subst c.
  exact (proj1 (Forall_nth_error _ _) (reachable_aboveFloor s Hr) _ _ Hn Hpl).
Qed.

Lemma player_mass_floor_witness :
  exists pi player,
    findBody isPlayer
      (celestialBodies (ejectMass clickEnv 0 (initializeGame clickEnv)))
    = Some (pi, player)
    /\ MIN_PLAYER_MASS <= mass player.
Proof.
  apply (player_mass_floor (ejectMass clickEnv 0 (initializeGame clickEnv))).
  eapply reachable_step; [apply reachable_init | apply step_click].
Defined.

(** ** A pending reset *)

Lemma Inv_flaggedState : Inv flaggedState.
Proof.
  apply (Inv_stage reentryState); [apply Inv_reentryState|].
  apply stage_set_playerNeedsReset.
Qed.

(** X25.  A tick that starts in an invariant state with a reset requested ends in
    the session [resetPlayer] builds: the sun with its full game mass first,
    the player with its initial mass second, [INIT_NUM_BODIES] ordinary
    bodies after them, the game not won, the request cleared, the blend and
    the absorption progress at 0 and the combo multiplier at 1. *)
Theorem pending_reset_is_served (e : Env) (dt : R) (s : State) :
  Inv s -> playerNeedsReset s = true ->
  updatePhysics e dt s
  = resetPlayer e (checkCollisions (now e) dt (gravityAndMotion (now e) dt s))
  /\ exists sun p rest,
       celestialBodies (updatePhysics e dt s) = sun :: p :: rest
       /\ isSun sun = true /\ isGravitationalCenter sun = true
       /\ mass sun = SUN_GAME_MASS
       /\ isPlayer p = true /\ isGravitationalCenter p = false
       /\ mass p = PLAYER_INITIAL_MASS
       /\ length rest = INIT_NUM_BODIES /\ Forall inert rest
       /\ gameWon (updatePhysics e dt s) = false
       /\ playerNeedsReset (updatePhysics e dt s) = false
       /\ gravityBlendFactor (updatePhysics e dt s) = 0
       /\ sunAbsorptionProgress (updatePhysics e dt s) = 0
       /\ sunCurrentGameMass (updatePhysics e dt s) = SUN_GAME_MASS
       /\ currentEjectionMultiplier (updatePhysics e dt s) = 1
       /\ lastClickTime (updatePhysics e dt s) = 0%Z.
Proof.
  intros HI Hflag.
  assert (E : updatePhysics e dt s
              = resetPlayer e (checkCollisions (now e) dt
                                 (gravityAndMotion (now e) dt s))).
  { unfold updatePhysics. cbv zeta.
    set (s4 := gravityAndMotion (now e) dt s).
    pose proof (sameSession_gravityAndMotion (now e) dt s HI) as H4.
    assert (I4 : Inv s4) by (eapply Inv_stage; eauto using sameSession_stage).
    pose proof (sameSession_checkCollisions (now e) dt s4 I4) as H5.
    destruct (sameSession_trans _ _ _ H4 H5)
      as (_ & _ & _ & _ & _ & _ & _ & _ & _ & _ & Hk).
    rewrite (Hk Hflag). reflexivity. }
  split; [exact E|]. rewrite E. apply resetPlayer_fresh.
Qed.

Lemma pending_reset_is_served_witness :
  updatePhysics clickEnv 0.016 flaggedState
  = resetPlayer clickEnv
      (checkCollisions (now clickEnv) 0.016
         (gravityAndMotion (now clickEnv) 0.016 flaggedState))
  /\ exists sun p rest,
       celestialBodies (updatePhysics clickEnv 0.016 flaggedState)
       = sun :: p :: rest
       /\ isSun sun = true /\ isGravitationalCenter sun = true
       /\ mass sun = SUN_GAME_MASS
       /\ isPlayer p = true /\ isGravitationalCenter p = false
       /\ mass p = PLAYER_INITIAL_MASS
       /\ length rest = INIT_NUM_BODIES /\ Forall inert rest
       /\ gameWon (updatePhysics clickEnv 0.016 flaggedState) = false
       /\ playerNeedsReset (updatePhysics clickEnv 0.016 flaggedState) = false
       /\ gravityBlendFactor (updatePhysics clickEnv 0.016 flaggedState) = 0
       /\ sunAbsorptionProgress (updatePhysics clickEnv 0.016 flaggedState) = 0
       /\ sunCurrentGameMass (updatePhysics clickEnv 0.016 flaggedState)
          = SUN_GAME_MASS
       /\ currentEjectionMultiplier (updatePhysics clickEnv 0.016 flaggedState)
          = 1
       /\ lastClickTime (updatePhysics clickEnv 0.016 flaggedState) = 0%Z.
Proof.
  apply (pending_reset_is_served clickEnv 0.016 flaggedState).
  - apply Inv_flaggedState.
  - reflexivity.
Defined.

(** ** The permutation table of the noise *)

Lemma toUint32_range (z : Z) : (0 <= toUint32 z < 4294967296)%Z.
Proof. unfold toUint32. apply Z.mod_pos_bound. lia. Qed.

Lemma mulberry32_bits_range (seed : Z) :
  (0 <= snd (mulberry32_bits seed) < 4294967296)%Z.
Proof.
  unfold mulberry32_bits. cbv zeta. cbn [snd].
  unfold ushr at 1. rewrite Z.shiftr_0_r. apply toUint32_range.
Qed.

Lemma mulberry32_range (seed : Z) : 0 <= snd (mulberry32 seed) < 1.
Proof.
  unfold mulberry32. pose proof (mulberry32_bits_range seed) as H.
  destruct (mulberry32_bits seed) as [seed' bits]. cbn [snd] in *.
  destruct H as [H0 H1]. apply IZR_le in H0. apply IZR_lt in H1.
  split.
  - apply Rmult_le_reg_r with 4294967296; [lra|].
    unfold Rdiv. rewrite Rmult_assoc, Rinv_l by lra. lra.
  - apply Rmult_lt_reg_r with 4294967296; [lra|].
    unfold Rdiv. rewrite Rmult_assoc, Rinv_l by lra. lra.
Qed.

(** [Math.floor(rng() * (i + 1))] is an index in [0, i]. *)
Lemma shuffle_index (r : R) (i : nat) :
  0 <= r < 1 -> (Z.to_nat (Int_part (r * INR (i + 1))) <= i)%nat.
Proof.
  intros [H0 H1].
  assert (Hi : 0 < INR (i + 1)) by (apply lt_0_INR; lia).
  destruct (base_Int_part (r * INR (i + 1))) as [A B].
  assert (Hlt : (Int_part (r * INR (i + 1)) < Z.of_nat (i + 1))%Z).
  { apply lt_IZR. rewrite <- INR_IZR_INZ. nra. }
  lia.
Qed.

Lemma length_assign (p : list nat) :
  forall i v, length (assign i v p) = length p.
Proof. induction p as [|h t IH]; intros [|i] v; simpl; auto. Qed.

Lemma nth_assign (p : list nat) :
  forall i k v, (i < length p)%nat ->
    nth k (assign i v p) 0%nat = if (k =? i)%nat then v else nth k p 0%nat.
Proof.
  induction p as [|h t IH]; intros [|i] [|k] v Hi; simpl in *; try lia; auto.
  apply IH. lia.
Qed.

Lemma count_occ_assign (x : nat) (p : list nat) :
  forall i v, (i < length p)%nat ->
    (count_occ Nat.eq_dec (assign i v p) x
     + (if Nat.eq_dec (nth i p 0%nat) x then 1 else 0)
     = count_occ Nat.eq_dec p x + (if Nat.eq_dec v x then 1 else 0))%nat.
Proof.
  induction p as [|h t IH]; intros [|i] v Hi; simpl in *; try lia.
  - destruct (Nat.eq_dec v x), (Nat.eq_dec h x); lia.
  - specialize (IH i v ltac:(lia)).
    destruct (Nat.eq_dec h x); lia.
Qed.

Lemma Permutation_swap (i j : nat) (p : list nat) :
  (i < length p)%nat -> (j < length p)%nat -> Permutation (swap i j p) p.
Proof.
  intros Hi Hj. apply (Permutation_count_occ Nat.eq_dec). intros x.
  unfold swap. cbv zeta.
  pose proof (count_occ_assign x p i (nth j p 0%nat) Hi) as H1.
  pose proof (count_occ_assign x (assign i (nth j p 0%nat) p) j
                (nth i p 0%nat)) as H2.
  rewrite length_assign in H2. specialize (H2 Hj).
  rewrite (nth_assign p i j _ Hi) in H2.
  destruct (Nat.eqb_spec j i) as [E|Hne]; [subst j|];
    destruct (Nat.eq_dec (nth i p 0%nat) x);
    try destruct (Nat.eq_dec (nth j p 0%nat) x); lia.
Qed.

Lemma length_swap (i j : nat) (p : list nat) :
  length (swap i j p) = length p.
Proof. unfold swap. rewrite !length_assign. reflexivity. Qed.

Lemma Permutation_shuffle :
  forall i seed p, (i < length p)%nat -> Permutation (shuffle i seed p) p.
Proof.
  induction i as [|i IH]; intros seed p Hi; cbn [shuffle]; [reflexivity|].
  pose proof (mulberry32_range seed) as Hr.
  destruct (mulberry32 seed) as [seed' r]. cbn [snd] in Hr.
  pose proof (shuffle_index r (S i) Hr) as Hj.
  rewrite IH by (rewrite length_swap; lia).
  apply Permutation_swap; lia.
Qed.

Lemma land_255 (i : nat) : Nat.land i 255 = (i mod 256)%nat.
Proof. change 255%nat with (Nat.ones 8). apply Nat.land_ones. Qed.

Lemma map_nth_seq (p : list nat) :
  map (fun i => nth i p 0%nat) (seq 0 (length p)) = p.
Proof.
  apply (nth_ext _ _ 0%nat 0%nat).
  - rewrite length_map, length_seq. reflexivity.
  - intros k Hk. rewrite length_map, length_seq in Hk.
    rewrite (nth_indep _ 0%nat (nth 0 p 0%nat))
      by (rewrite length_map, length_seq; exact Hk).
    change (nth 0 p 0%nat) with ((fun i => nth i p 0%nat) 0%nat).
    rewrite map_nth, seq_nth by exact Hk. reflexivity.
Qed.

Lemma seq_add_256 (a : nat) :
  seq (a + 256) 256 = map (fun i => (i + 256)%nat) (seq a 256).
Proof.
  generalize 256%nat at 2 4. intros n. revert a.
  induction n as [|n IH]; intros a; cbn [seq map]; [reflexivity|].
  f_equal. apply (IH (S a)).
Qed.

(** What the table is: 512 entries, the first 256 the shuffled array, the
    last 256 its copy. *)
Lemma createSimplexPerm_spec (seed : Z) :
  exists p,
    Permutation p (seq 0 256) /\ createSimplexPerm seed = p ++ p.
Proof.
  unfold createSimplexPerm. cbv zeta.
  set (p := shuffle 255 seed (seq 0 256)).
  assert (Hp : Permutation p (seq 0 256)).
  { apply Permutation_shuffle. rewrite length_seq. lia. }
  assert (Hl : length p = 256%nat).
  { rewrite (Permutation_length Hp). apply length_seq. }
  exists p. split; [exact Hp|].
  change 512%nat with (256 + 256)%nat. rewrite seq_app, map_app.
  f_equal.
  - transitivity (map (fun i => nth i p 0%nat) (seq 0 256));
      [|rewrite <- Hl; apply map_nth_seq].
    apply map_ext_in. intros i Hi. apply in_seq in Hi.
    rewrite land_255, Nat.mod_small by lia. reflexivity.
  - transitivity (map (fun i => nth i p 0%nat) (seq 0 256));
      [|rewrite <- Hl; apply map_nth_seq].
    rewrite (seq_add_256 0), map_map.
    apply map_ext_in. intros i Hi. apply in_seq in Hi.
    rewrite land_255.
    replace (i + 256)%nat with (i + 1 * 256)%nat by lia.
    rewrite Nat.Div0.mod_add, Nat.mod_small by lia. reflexivity.
Qed.

Lemma bitand_255 (i : Z) : (0 <= bitand i 255 < 256)%Z.
Proof.
  unfold bitand. change (toInt32 255) with (Z.ones 8).
  rewrite Z.land_ones by lia.
  pose proof (Z.mod_pos_bound (toInt32 i) (2 ^ 8) ltac:(lia)) as H.
  change (2 ^ 8)%Z with 256%Z in *.
  set (m := (toInt32 i mod 256)%Z) in *.
  unfold toInt32. rewrite Z.mod_small by lia. lia.
Qed.

Lemma grad_defined (hash : nat) (gx gy : R) :
  exists g, grad hash gx gy = Some g.
Proof.
  unfold grad.
  destruct (nth_error SIMPLEX_GRAD (Nat.land hash 7)) as [g|] eqn:E.
  - eexists. reflexivity.
  - apply nth_error_None in E. change 7%nat with (Nat.ones 3) in E.
    rewrite Nat.land_ones in E.
    pose proof (Nat.mod_upper_bound hash (2 ^ 3) ltac:(discriminate)) as H.
    change (length SIMPLEX_GRAD) with (2 ^ 3)%nat in E. lia.
Qed.

Lemma permAt_defined (perm : list nat) (a b : nat) :
  length perm = 512%nat -> Forall (fun v => (v < 256)%nat) perm ->
  (a <= 256)%nat -> (b <= 256)%nat ->
  exists hash, permAt perm a b = Some hash.
Proof.
  intros Hl Hf Ha Hb. unfold permAt.
  destruct (nth_error perm b) as [v|] eqn:Eb.
  - assert (Hv : (v < 256)%nat).
    { rewrite Forall_forall in Hf. apply Hf. eapply nth_error_In; eauto. }
    destruct (nth_error perm (a + v)) as [h|] eqn:Ea; [eauto|].
    apply nth_error_None in Ea. lia.
  - apply nth_error_None in Eb. lia.
Qed.

Lemma corner_defined (perm : list nat) (t : R) (a b : nat) (gx gy : R) :
  length perm = 512%nat -> Forall (fun v => (v < 256)%nat) perm ->
  (a <= 256)%nat -> (b <= 256)%nat ->
  exists n, corner perm t a b gx gy = Some n.
Proof.
  intros Hl Hf Ha Hb. unfold corner.
  destruct (Rgtb t 0); [|eauto].
  destruct (permAt_defined perm a b Hl Hf Ha Hb) as [h ->].
  destruct (grad_defined h gx gy) as [g ->]. cbn [option_map]. eauto.
Qed.

Lemma simplex2DWithPerm_defined (x y : R) (perm : list nat) :
  length perm = 512%nat -> Forall (fun v => (v < 256)%nat) perm ->
  exists n, simplex2DWithPerm x y perm = Some n.
Proof.
  intros Hl Hf. unfold simplex2DWithPerm. cbv zeta.
  set (i := Int_part _). set (j := Int_part _).
  pose proof (bitand_255 i) as Hi. pose proof (bitand_255 j) as Hj.
  set (c := Rgtb _ _).
  assert (Hi1 : ((if c then 1 else 0) <= 1)%nat) by (destruct c; lia).
  assert (Hj1 : ((if c then 0 else 1) <= 1)%nat) by (destruct c; lia).
  edestruct (corner_defined perm) as [n0 ->]; [exact Hl|exact Hf| | |].
  1-2: lia.
  edestruct (corner_defined perm) as [n1 ->]; [exact Hl|exact Hf| | |].
  1-2: lia.
  edestruct (corner_defined perm) as [n2 ->]; [exact Hl|exact Hf| | |].
  1-2: lia.
  eauto.
Qed.

Lemma createSimplexPerm_shape (seed : Z) :
  length (createSimplexPerm seed) = 512%nat
  /\ Forall (fun v => (v < 256)%nat) (createSimplexPerm seed).
Proof.
  destruct (createSimplexPerm_spec seed) as [p [Hp ->]].
  pose proof (Permutation_length Hp) as Hl. rewrite length_seq in Hl.
  split.
  - rewrite length_app. lia.
  - apply Forall_app. 
    assert (H : Forall (fun v => (v < 256)%nat) p).
    { apply Forall_forall. intros v Hv.
      apply (Permutation_in _ Hp) in Hv. apply in_seq in Hv. lia. }
    split; exact H.
Qed.

(** X27.  The table [createSimplexPerm(seed)] returns has 512 entries; its first
    256 entries are the numbers 0 to 255, each exactly once, in the order the
    seed shuffles them into, and its last 256 entries repeat the first 256. *)
Theorem createSimplexPerm_table (seed : Z) :
  length (createSimplexPerm seed) = 512%nat
  /\ Permutation (firstn 256 (createSimplexPerm seed)) (seq 0 256)
  /\ skipn 256 (createSimplexPerm seed) = firstn 256 (createSimplexPerm seed).
Proof.
  destruct (createSimplexPerm_spec seed) as [p [Hp E]].
  pose proof (Permutation_length Hp) as Hl. rewrite length_seq in Hl.
  rewrite E. split; [rewrite length_app; lia|].
  assert (Ef : firstn 256 (p ++ p) = p).
  { rewrite <- Hl, firstn_app, firstn_all, Nat.sub_diag.
    cbn [firstn]. apply app_nil_r. }
  assert (Es : skipn 256 (p ++ p) = p).
  { rewrite <- Hl, skipn_app, skipn_all, Nat.sub_diag. reflexivity. }
  rewrite Ef, Es. split; [exact Hp|reflexivity].
Qed.

(** X28.  On a table made by [createSimplexPerm], [simplex2DWithPerm] returns a
    number at every point: each of its reads [perm[a + perm[b]]] and
    [SIMPLEX_GRAD[hash & 7]] falls inside the table it reads. *)
Theorem simplex2DWithPerm_reads_in_bounds (seed : Z) (x y : R) :
  exists n, simplex2DWithPerm x y (createSimplexPerm seed) = Some n.
Proof.
  destruct (createSimplexPerm_shape seed) as [Hl Hf].
  apply simplex2DWithPerm_defined; assumption.
Qed.

(** ** The win transition and the won session *)

(** [checkSunAbsorption] sets [gameWon] in the winning call and in no other;
    the winning call zeroes the sun's game mass and leaves
    [playerNeedsReset] alone. *)
Lemma checkSunAbsorption_win (dt : R) (s : State) :
  gameWon s = false ->
  (gameWon (checkSunAbsorption dt s) = true <-> winningCall dt s)
  /\ (winningCall dt s ->
      sunCurrentGameMass (checkSunAbsorption dt s) = 0
      /\ playerNeedsReset (checkSunAbsorption dt s) = playerNeedsReset s).
Proof.
  intros Hw.
  unfold winningCall, absorptionPhase, gameMassAfterTransfer,
    checkSunAbsorption.
  rewrite Hw.
  assert (Hno : forall (v : R) (P : Prop),
            (gameWon s = true <-> Inactive = Absorbing /\ v < SUN_GAME_MASS * 0.02)
            /\ (Inactive = Absorbing /\ v < SUN_GAME_MASS * 0.02 -> P)).
  { intros v P. split; [split|]; [congruence| |]; intros [H _]; discriminate. }
  destruct (findIndex isPlayer (celestialBodies s)) as [pi|]; [|apply Hno].
  destruct (findIndex isSun (celestialBodies s)) as [si|]; [|apply Hno].
  destruct (nth_error (celestialBodies s) pi) as [player|]; [|apply Hno].
  destruct (nth_error (celestialBodies s) si) as [sun|]; [|apply Hno].
  destruct (negb (canAbsorb player)).
  { destruct (Rltb _ _); simpl; rewrite Hw;
      (split; [split|]; [congruence| |]; intros [H _]; discriminate). }
  destruct (Rgtb _ _).
  { simpl; rewrite Hw;
      (split; [split|]; [congruence| |]; intros [H _]; discriminate). }
  destruct (Rleb _ 0); [apply Hno|].
  rewrite applyAbsorption_mass.
  destruct (Rltb _ (SUN_GAME_MASS * 0.02)) eqn:E.
  - apply Rltb_iff in E. split; [split; auto|].
    intros _. split; reflexivity.
  - apply Rltb_iff_false in E. simpl. rewrite Hw.
    split; [split|]; [congruence| |]; intros [_ H]; lra.
Qed.

(** With the sun and the player one on the other, an eligible player
    absorbs. *)
Lemma absorbing_on_sun (dt : R) (s : State) (sun player : Body) :
  celestialBodies s = [sun; player] ->
  isSun sun = true -> isPlayer sun = false ->
  isSun player = false -> isPlayer player = true ->
  x sun = x player -> y sun = y player ->
  gameWon s = false -> canAbsorb player = true ->
  playerSunDist player sun = 0
  /\ (0 < absorptionTransfer dt s player sun ->
      absorptionPhase dt s = Absorbing
      /\ gameMassAfterTransfer dt s
         = sunCurrentGameMass s - absorptionTransfer dt s player sun).
Proof.
  intros Hl Hss Hsp Hps Hpp Hx Hy Hw Hcan.
  assert (Hdist : playerSunDist player sun = 0).
  { unfold playerSunDist. rewrite Hx, Hy.
    replace ((x player - x player) * (x player - x player)
             + (y player - y player) * (y player - y player)) with 0 by ring.
    apply sqrt_0. }
  split; [exact Hdist|]. intros Ht.
  unfold absorptionPhase, gameMassAfterTransfer. rewrite Hw, Hl. simpl.
  rewrite Hsp, Hpp, Hss. simpl. rewrite Hcan. simpl.
  rewrite Hdist.
  assert (Hrange : Rgtb 0 (absorptionRange (sunCurrentGameMass s) player sun)
                   = false).
  { unfold Rgtb, absorptionRange, SUN_ABSORPTION_RANGE_MULTIPLIER.
    apply Rltb_false.
    generalize (touchDist_pos (sunCurrentGameMass s) player sun). lra. }
  rewrite Hrange, (Rleb_false _ _ Ht). split; reflexivity.
Qed.

Lemma nearWinState_wins :
  Inv nearWinState /\ winningCall 0.01 nearWinState.
Proof.
  pose proof SUN_GAME_MASS_pos as HS.
  split.
  { unfold Inv, nearWinState. simpl.
    split; [|repeat split; try lra; discriminate].
    apply RegistryInv_sun_player; try reflexivity; simpl; lra. }
  set (sun := CelestialBody (0.02001 * SUN_GAME_MASS) 0 0 0 0 0
                (0.02001 * SUN_GAME_MASS) false true false).
  set (player := CelestialBody (0.02001 * SUN_GAME_MASS) 0 0 0 0 0
                   SUN_GAME_MASS true false false).
  assert (Hratio : massRatio player = 1).
  { unfold massRatio. apply Rdiv_eq; [lra|]. simpl. lra. }
  assert (Hcan : canAbsorb player = true).
  { unfold canAbsorb, Rgeb, SUN_ABSORPTION_START_RATIO. rewrite Hratio.
    apply Rleb_true. lra. }
  destruct (absorbing_on_sun 0.01 nearWinState sun player eq_refl eq_refl
              eq_refl eq_refl eq_refl eq_refl eq_refl eq_refl Hcan)
    as [Hdist Habs].
  assert (Ht : absorptionTransfer 0.01 nearWinState player sun
               = 0.000030015 * SUN_GAME_MASS).
  { unfold absorptionTransfer. cbv zeta.
    rewrite (absorptionRate_on_sun _ _ _ Hdist), Hratio.
    change (sunCurrentGameMass nearWinState) with (0.02001 * SUN_GAME_MASS).
    change (currentGameSpeed nearWinState) with BASE_GAME_SPEED.
    unfold SUN_ABSORPTION_RATE, SUN_ABSORPTION_START_RATIO, BASE_GAME_SPEED.
    rewrite (Rdiv_eq (1 - 0.4) (1 - 0.4) 1) by lra.
    rewrite (Rmin_right 2 1) by lra.
    rewrite (Rmax_right 0.2 1) by lra.
    rewrite Rmin_left by nra. rewrite Rmax_right by nra. lra. }
  destruct Habs as [Hph Hm]; [rewrite Ht; lra|].
  split; [exact Hph|]. rewrite Hm, Ht.
  change (sunCurrentGameMass nearWinState) with (0.02001 * SUN_GAME_MASS).
  lra.
Qed.

(** In a won session the only player is the gravitational center. *)
Lemma won_playersAreCenter (l : list Body) :
  RegistryInv true l -> playersAreCenter l.
Proof.
  intros (_ & Hp & (_ & Hone & Hcp) & _).
  destruct (countIf_pos_find isGravitationalCenter l) as (k & c & Hf); [lia|].
  apply findBody_Some in Hf. destruct Hf as [Hfi Hk].
  destruct (findIndex_Some _ _ _ Hfi) as (c' & Hk' & Hc).
  assert (c' = c) by congruence. subst c'.
  assert (Hpc : isPlayer c = true).
  { apply (proj1 (Forall_nth_error _ _) Hcp k c Hk Hc). }
  apply Forall_nth_error. intros k2 c2 Hk2 Hp2.
  pose proof (findBody_unique isPlayer l k c Hp Hk Hpc) as F1.
  pose proof (findBody_unique isPlayer l k2 c2 Hp Hk2 Hp2) as F2.
  rewrite F1 in F2. injection F2 as -> ->. exact Hc.
Qed.

Lemma playersAreCenter_thinned (l l' : list Body) :
  thinned l l' -> playersAreCenter l -> playersAreCenter l'.
Proof.
  apply thinned_Forall.
  intros c c' (E1 & _ & _ & E4 & _) H. rewrite E1, E4. exact H.
Qed.

(** While every player is the center, a pair resolution never requests a
    reset: a small player is skipped as the center. *)
Lemma resolvePair_no_reset (now : Z) (dt : R) (i j : nat) (s : State) :
  playersAreCenter (celestialBodies s) ->
  match resolvePair now dt i j s with
  | PairReturn _ => False
  | o => playerNeedsReset (outcomeState o) = playerNeedsReset s
  end.
Proof.
  intros HP.
  destruct (nth_error (celestialBodies s) i) as [b1|] eqn:H1;
    [|unfold resolvePair; rewrite H1; reflexivity].
  destruct (nth_error (celestialBodies s) j) as [b2|] eqn:H2;
    [|unfold resolvePair; rewrite H1, H2; reflexivity].
  rewrite (resolvePair_unfold now dt i j s b1 b2 H1 H2).
  destruct (excluded now b1 b2); [reflexivity|].
  destruct (negb (overlapping _ b1 b2)); [reflexivity|].
  cbv zeta.
  set (small := snd (smallOf i j b1 b2)).
  assert (Hs : isPlayer small = true -> isGravitationalCenter small = true).
  { pose proof (proj1 (Forall_nth_error _ _) HP) as HP'.
    unfold small, smallOf. destruct (Rgeb (mass b1) (mass b2)); simpl; eauto. }
  destruct (isGravitationalCenter small || isSpark _) eqn:E1; [reflexivity|].
  apply orb_false_iff in E1. destruct E1 as [Ec _].
  assert (Hpl : isPlayer small = false).
  { destruct (isPlayer small); [|reflexivity].
    rewrite (Hs eq_refl) in Ec. discriminate. }
  simpl isPlayer. rewrite Hpl. simpl andb. cbv iota.
  destruct (_ || _); reflexivity.
Qed.

Lemma innerLoop_no_reset (now : Z) (dt : R) (i : nat) :
  forall n s,
    playersAreCenter (celestialBodies s) ->
    match innerLoop now dt i n s with
    | PairReturn _ => False
    | o => playerNeedsReset (outcomeState o) = playerNeedsReset s
    end.
Proof.
  induction n as [|j IH]; intros s HP; simpl; [reflexivity|].
  pose proof (resolvePair_no_reset now dt i j s HP) as H.
  pose proof (stage_resolvePair now dt i j s) as (T & _).
  destruct (resolvePair now dt i j s) as [s'|s' k|s']; simpl in *;
    try assumption.
  specialize (IH s' (playersAreCenter_thinned _ _ T HP)).
  destruct (innerLoop now dt i j s'); simpl in *; congruence.
Qed.

Lemma outerLoop_no_reset (now : Z) (dt : R) :
  forall fuel n s,
    playersAreCenter (celestialBodies s) ->
    playerNeedsReset (outerLoop fuel now dt n s) = playerNeedsReset s.
Proof.
  induction fuel as [|fuel IH]; intros n s HP; simpl; [reflexivity|].
  destruct n as [|i]; [reflexivity|].
  destruct (nth_error (celestialBodies s) i); [|apply IH, HP].
  pose proof (innerLoop_no_reset now dt i i s HP) as H.
  pose proof (stage_innerLoop now dt i i s) as (T & _).
  destruct (innerLoop now dt i i s) as [s'|s' k|s']; simpl in *;
    [| |contradiction];
    (destruct (playerNeedsReset s') eqn:E; [congruence|]);
    rewrite IH by (eapply playersAreCenter_thinned; eauto); congruence.
Qed.

(** The stages before the collision stage request a reset only when the
    game is not won. *)
Lemma gravityAndMotion_won (now : Z) (dt : R) (s : State) :
  gameWon s = true ->
  playerNeedsReset (gravityAndMotion now dt s) = playerNeedsReset s.
Proof.
  intros Hw. unfold gravityAndMotion. cbv zeta.
  set (s0 := cleanup now (set_collisionDetectedThisFrame false s)).
  set (sun := findBody isSun (celestialBodies s0)).
  set (player := findBody isPlayer (celestialBodies s0)).
  clearbody sun player.
  assert (H0 : gameWon s0 = true /\ playerNeedsReset s0 = playerNeedsReset s)
    by (split; [exact Hw | reflexivity]).
  clearbody s0. destruct H0 as [W0 F0].
  set (gameDt := dt * currentGameSpeed s). clearbody gameDt.
  assert (H1 : gameWon (sunGravity gameDt sun s0) = true
               /\ playerNeedsReset (sunGravity gameDt sun s0)
                  = playerNeedsReset s).
  { unfold sunGravity. destruct sun as [[si sunB]|]; [|auto].
    destruct (Rltb _ 1); auto. }
  set (s1 := sunGravity gameDt sun s0) in *. clearbody s1.
  destruct H1 as [W1 F1].
  assert (H2 : gameWon (playerGravity gameDt player s1) = true
               /\ playerNeedsReset (playerGravity gameDt player s1)
                  = playerNeedsReset s).
  { unfold playerGravity. destruct player as [[pi playerB]|]; [|auto].
    destruct (_ && _); auto. }
  set (s2 := playerGravity gameDt player s1) in *. clearbody s2.
  destruct H2 as [W2 F2].
  assert (H3 : gameWon (postWinGravity gameDt sun player s2) = true
               /\ playerNeedsReset (postWinGravity gameDt sun player s2)
                  = playerNeedsReset s).
  { unfold postWinGravity. destruct sun as [[si sunB]|]; [auto|].
    destruct player as [[pi playerB]|]; [|auto].
    rewrite W2. auto. }
  set (s3 := postWinGravity gameDt sun player s2) in *. clearbody s3.
  destruct H3 as [W3 F3].
  unfold updatePositions, flagMissingBodies.
  destruct sun as [[si sunB]|]; [exact F3|].
  destruct player as [[pi playerB]|]; [exact F3|].
  rewrite W3. exact F3.
Qed.

Lemma ejectMass_playerNeedsReset (env : Env) (angle : R) (s : State) :
  playerNeedsReset (ejectMass env angle s) = playerNeedsReset s.
Proof.
  unfold ejectMass.
  destruct (findIndex isPlayer (celestialBodies s)) as [pi|]; [|reflexivity].
  destruct (nth_error (celestialBodies s) pi) as [player|]; [|reflexivity].
  destruct (Rleb (mass player) MIN_PLAYER_MASS); [reflexivity|].
  cbv zeta. destruct (_ && _); reflexivity.
Qed.

Lemma decayEjectionMultiplier_flags (env : Env) (s : State) :
  gameWon (decayEjectionMultiplier env s) = gameWon s
  /\ playerNeedsReset (decayEjectionMultiplier env s) = playerNeedsReset s.
Proof.
  unfold decayEjectionMultiplier. destruct (_ && _); split; reflexivity.
Qed.

Lemma initializeGame_gameWon (env : Env) : gameWon (initializeGame env) = false.
Proof.
  unfold initializeGame. cbv zeta.
  match goal with
  | |- gameWon (populateSystem env INIT_NUM_BODIES ?base) = _ =>
    destruct (populateSystem_spec env INIT_NUM_BODIES base) as (extra & _ & ->)
  end.
  reflexivity.
Qed.

Lemma resetPlayer_gameWon (env : Env) (s : State) :
  gameWon (resetPlayer env s) = false.
Proof.
  unfold resetPlayer. cbv zeta.
  match goal with
  | |- gameWon (populateSystem env INIT_NUM_BODIES ?base) = _ =>
    destruct (populateSystem_spec env INIT_NUM_BODIES base) as (extra & _ & ->)
  end.
  reflexivity.
Qed.

(** The state that enters [checkSunAbsorption] in a tick. *)
Lemma Inv_beforeAbsorption (now : Z) (dt : R) (s : State) :
  Inv s ->
  Inv (checkCollisions now dt (gravityAndMotion now dt s))
  /\ gameWon (checkCollisions now dt (gravityAndMotion now dt s)) = gameWon s.
Proof.
  intros HI.
  assert (St : stage s (checkCollisions now dt (gravityAndMotion now dt s))).
  { eapply stage_trans; [|apply stage_checkCollisions].
    apply stage_gravityAndMotion. destruct HI as ((Hs & _) & _). exact Hs. }
  split; [apply (Inv_stage s); assumption|].
  destruct St as (_ & E & _). exact E.
Qed.

(** A won session stays won: a tick, a click and the speed keys keep
    [gameWon] set and request no reset. *)
Lemma won_step (s s' : State) :
  Inv s -> step s s' -> gameWon s = true -> playerNeedsReset s = false ->
  gameWon s' = true /\ playerNeedsReset s' = false.
Proof.
  intros HI Hst Hw Hf.
  destruct Hst as [env dt s [Hdt _]|env angle s|s|s].
  - unfold updatePhysics. cbv zeta.
    destruct (Inv_beforeAbsorption (now env) dt s HI) as [H5 W5].
    set (s5 := checkCollisions (now env) dt (gravityAndMotion (now env) dt s))
      in *.
    assert (HP : playersAreCenter
                   (celestialBodies (gravityAndMotion (now env) dt s))).
    { apply won_playersAreCenter.
      assert (HIg : Inv (gravityAndMotion (now env) dt s)).
      { apply (Inv_stage s); [exact HI|]. apply stage_gravityAndMotion.
        destruct HI as ((Hs & _) & _). exact Hs. }
      assert (Wg : gameWon (gravityAndMotion (now env) dt s) = true).
      { destruct (stage_gravityAndMotion (now env) dt s) as (_ & E & _);
          [destruct HI as ((Hs & _) & _); exact Hs|].
        rewrite E. exact Hw. }
      destruct HIg as (HR & _). rewrite Wg in HR. exact HR. }
    assert (F5 : playerNeedsReset s5 = false).
    { unfold s5, checkCollisions.
      rewrite (outerLoop_no_reset _ _ _ _ _ HP), (gravityAndMotion_won _ _ _ Hw).
      exact Hf. }
    rewrite F5.
    destruct (decayEjectionMultiplier_flags env (checkSunAbsorption dt s5))
      as [-> ->].
    unfold checkSunAbsorption. rewrite W5, Hw. rewrite W5, Hw. auto.
  - rewrite gameWon_ejectMass, ejectMass_playerNeedsReset. auto.
  - auto.
  - auto.
Qed.

(** The tick that wins leaves no reset pending. *)
Lemma winning_tick (env : Env) (dt : R) (s : State) :
  Inv s -> gameWon s = false ->
  gameWon (updatePhysics env dt s) = true ->
  playerNeedsReset (updatePhysics env dt s) = false
  /\ winningCall dt (checkCollisions (now env) dt
                       (gravityAndMotion (now env) dt s)).
Proof.
  intros HI Hw. unfold updatePhysics. cbv zeta.
  destruct (Inv_beforeAbsorption (now env) dt s HI) as [H5 W5].
  set (s5 := checkCollisions (now env) dt (gravityAndMotion (now env) dt s))
    in *.
  rewrite Hw in W5.
  destruct (playerNeedsReset s5) eqn:F5.
  - rewrite resetPlayer_gameWon. discriminate.
  - destruct (decayEjectionMultiplier_flags env (checkSunAbsorption dt s5))
      as [-> ->].
    intros Hwon.
    destruct (checkSunAbsorption_win dt s5 W5) as [Hiff Hres].
    apply Hiff in Hwon. destruct (Hres Hwon) as [_ ->]. auto.
Qed.

(** In the running game a won session has no reset pending. *)
Lemma reachable_won_no_reset (s : State) :
  reachable s -> gameWon s = true -> playerNeedsReset s = false.
Proof.
  induction 1 as [env|s s' Hr IH Hst]; intros Hw.
  - rewrite initializeGame_gameWon in Hw. discriminate.
  - pose proof (reachable_Inv s Hr) as HI.
    destruct (gameWon s) eqn:W.
    + apply (won_step s s' HI Hst W (IH eq_refl)).
    + destruct Hst as [env dt s _|env angle s|s|s].
      * apply (winning_tick env dt s HI W Hw).
      * rewrite gameWon_ejectMass in Hw. congruence.
      * simpl in Hw. congruence.
      * simpl in Hw. congruence.
Qed.

(** C3.  Win terminal.  [Inv] is the invariant of the running game: it holds
    after [initializeGame], and every tick, click and key press keeps it
    ([reachable_Inv]).  In a state that satisfies it:
    - if [gameWon] is set, no body is a sun, the blend is 1 and exactly one
      body, a player (and the only one), is the gravitational center;
    - the win transition establishes this: while the game is not won,
      [checkSunAbsorption] sets [gameWon] exactly in the call whose transfer
      leaves the sun less than 2% of [SUN_GAME_MASS], and that call removes
      the sun, sets the blend to 1, makes the player the only center and
      zeroes the sun's game mass; the tick in which this happens leaves no
      reset pending;
    - every later tick, click and key press keeps it: from a won state with
      no reset pending, each operation of the game loop leads to a won state
      with no reset pending, again without a sun, with blend 1 and the
      player as the only center; in the running game a won session never
      has a reset pending, so there every operation that follows the win
      leads to a won state.  Only [resetPlayer] clears [gameWon]. *)
Theorem win_terminal :
  forall s : State,
    Inv s ->
    (gameWon s = true -> WinTerminal s)
    /\ (forall dt : R,
          0 <= dt -> gameWon s = false ->
          (gameWon (checkSunAbsorption dt s) = true <-> winningCall dt s)
          /\ (winningCall dt s ->
              WinTerminal (checkSunAbsorption dt s)
              /\ sunCurrentGameMass (checkSunAbsorption dt s) = 0))
    /\ (forall (env : Env) (dt : R),
          0 < dt <= 0.1 -> gameWon s = false ->
          gameWon (updatePhysics env dt s) = true ->
          playerNeedsReset (updatePhysics env dt s) = false
          /\ WinTerminal (updatePhysics env dt s))
    /\ (forall s' : State,
          step s s' -> gameWon s = true -> playerNeedsReset s = false ->
          gameWon s' = true /\ playerNeedsReset s' = false
          /\ WinTerminal s')
    /\ (forall r r' : State,
          reachable r -> step r r' -> gameWon r = true ->
          gameWon r' = true /\ WinTerminal r')
    /\ (forall env : Env, gameWon (resetPlayer env s) = false).
Proof.
  intros s HI. split; [|split; [|split; [|split; [|split]]]].
  - apply Inv_WinTerminal, HI.
  - intros dt Hdt Hw.
    destruct (checkSunAbsorption_win dt s Hw) as [Hiff Hres].
    split; [exact Hiff|]. intros Hc. split; [|apply Hres, Hc].
    apply Inv_WinTerminal; [apply Inv_checkSunAbsorption; assumption|].
    apply Hiff, Hc.
  - intros env dt Hdt Hw Hwon.
    split; [apply (winning_tick env dt s HI Hw Hwon)|].
    apply Inv_WinTerminal; [|exact Hwon].
    apply Inv_updatePhysics; [lra | exact HI].
  - intros s' Hst Hw Hf.
    destruct (won_step s s' HI Hst Hw Hf) as [W' F'].
    split; [exact W'|]. split; [exact F'|].
    apply Inv_WinTerminal; [exact (Inv_step s s' HI Hst) | exact W'].
  - intros r r' Hr Hst Hw.
    pose proof (reachable_Inv r Hr) as HIr.
    destruct (won_step r r' HIr Hst Hw (reachable_won_no_reset r Hr Hw))
      as [W' _].
    split; [exact W'|].
    apply Inv_WinTerminal; [exact (Inv_step r r' HIr Hst) | exact W'].
  - intros env. apply resetPlayer_gameWon.
Qed.

Lemma win_terminal_witness :
  gameWon nearWinState = false
  /\ gameWon (checkSunAbsorption 0.01 nearWinState) = true
  /\ WinTerminal (checkSunAbsorption 0.01 nearWinState)
  /\ sunCurrentGameMass (checkSunAbsorption 0.01 nearWinState) = 0.
Proof.
  destruct nearWinState_wins as [HI Hc].
  destruct (win_terminal nearWinState HI) as (_ & H2 & _).
  destruct (H2 0.01 ltac:(lra) eq_refl) as [Hiff Hres].
  split; [reflexivity|]. split; [apply Hiff, Hc|]. apply Hres, Hc.
Defined.

(** ** The gravitational center *)

Lemma won_center_is_player (l : list Body) :
  RegistryInv true l ->
  Forall (fun c => isSun c = false) l
  /\ Forall (fun c => isGravitationalCenter c = isPlayer c) l.
Proof.
  intros HR. pose proof (won_playersAreCenter l HR) as HP.
  destruct HR as (_ & _ & (Hns & _ & Hcp) & _).
  split; [exact Hns|].
  unfold playersAreCenter in HP.
  rewrite Forall_forall in *. intros c Hin.
  specialize (HP c Hin). specialize (Hcp c Hin).
  destruct (isGravitationalCenter c), (isPlayer c); auto.
  symmetry. auto.
Qed.


(** C5.  Exactly one gravitational center.  Every state of the running game
    satisfies [Inv] ([reachable_Inv]) and so has exactly one body with
    [isGravitationalCenter] set.  In a state that satisfies [Inv]:
    - the count is one; before the win the flag is on the one sun and on no
      other body, after the win there is no sun and the flag is on the
      player and on no other body;
    - [initializeGame] and [resetPlayer] give a session that is not won,
      with the flag on the sun;
    - [checkSunAbsorption] hands the flag over exactly in the winning call:
      after it the game is won, the sun is gone and the flag is on the
      player; after every other call the game is still not won and the flag
      is still on the sun;
    - every operation of the game loop keeps the count at one, and in the
      running game every operation that follows the win leaves the flag on
      the player; adding a body built by the constructor with
      [isSun = false] keeps the count at one. *)
Theorem exactly_one_gravitational_center :
  forall s : State,
    Inv s ->
    countIf isGravitationalCenter (celestialBodies s) = 1%nat
    /\ (gameWon s = false ->
        countIf isSun (celestialBodies s) = 1%nat
        /\ Forall (fun c => isGravitationalCenter c = isSun c)
                  (celestialBodies s))
    /\ (gameWon s = true ->
        Forall (fun c => isSun c = false) (celestialBodies s)
        /\ Forall (fun c => isGravitationalCenter c = isPlayer c)
                  (celestialBodies s))
    /\ (forall env : Env,
          gameWon (initializeGame env) = false
          /\ countIf isGravitationalCenter
                     (celestialBodies (initializeGame env)) = 1%nat
          /\ Forall (fun c => isGravitationalCenter c = isSun c)
                    (celestialBodies (initializeGame env)))
    /\ (forall env : Env,
          gameWon (resetPlayer env s) = false
          /\ countIf isGravitationalCenter
                     (celestialBodies (resetPlayer env s)) = 1%nat
          /\ Forall (fun c => isGravitationalCenter c = isSun c)
                    (celestialBodies (resetPlayer env s)))
    /\ (forall dt : R,
          0 <= dt -> gameWon s = false ->
          countIf isGravitationalCenter
                  (celestialBodies (checkSunAbsorption dt s)) = 1%nat
          /\ (winningCall dt s ->
              gameWon (checkSunAbsorption dt s) = true
              /\ Forall (fun c => isSun c = false)
                        (celestialBodies (checkSunAbsorption dt s))
              /\ Forall (fun c => isGravitationalCenter c = isPlayer c)
                        (celestialBodies (checkSunAbsorption dt s)))
          /\ (~ winningCall dt s ->
              gameWon (checkSunAbsorption dt s) = false
              /\ Forall (fun c => isGravitationalCenter c = isSun c)
                        (celestialBodies (checkSunAbsorption dt s))))
    /\ (forall s' : State,
          step s s' ->
          countIf isGravitationalCenter (celestialBodies s') = 1%nat)
    /\ (forall r : State,
          reachable r ->
          countIf isGravitationalCenter (celestialBodies r) = 1%nat)
    /\ (forall r r' : State,
          reachable r -> step r r' -> gameWon r = true ->
          gameWon r' = true
          /\ Forall (fun c => isGravitationalCenter c = isPlayer c)
                    (celestialBodies r'))
    /\ (forall (cur : R) (t : Z) (x0 y0 vx0 vy0 m : R) (player spark : bool),
          countIf isGravitationalCenter
            (celestialBodies s
             ++ [CelestialBody cur t x0 y0 vx0 vy0 m player false spark])
          = 1%nat).
Proof.
  intros s HI.
  assert (Hsun : forall q : State,
            Inv q -> gameWon q = false ->
            countIf isSun (celestialBodies q) = 1%nat
            /\ Forall (fun c => isGravitationalCenter c = isSun c)
                      (celestialBodies q)).
  { intros q ((_ & _ & Hrole & _) & _) Hw. rewrite Hw in Hrole. exact Hrole. }
  assert (Hpl : forall q : State,
            Inv q -> gameWon q = true ->
            Forall (fun c => isSun c = false) (celestialBodies q)
            /\ Forall (fun c => isGravitationalCenter c = isPlayer c)
                      (celestialBodies q)).
  { intros q (HR & _) Hw. rewrite Hw in HR.
    apply won_center_is_player, HR. }
  split; [apply Inv_one_center, HI|].
  split; [apply Hsun, HI|].
  split; [apply Hpl, HI|].
  split; [|split; [|split; [|split; [|split; [|split]]]]].
  - intros env. pose proof (Inv_initializeGame env) as H0.
    pose proof (initializeGame_gameWon env) as W0.
    split; [exact W0|]. split; [apply Inv_one_center, H0|].
    apply (Hsun _ H0 W0).
  - intros env. pose proof (Inv_resetPlayer env s HI) as H0.
    pose proof (resetPlayer_gameWon env s) as W0.
    split; [exact W0|]. split; [apply Inv_one_center, H0|].
    apply (Hsun _ H0 W0).
  - intros dt Hdt Hw.
    pose proof (Inv_checkSunAbsorption dt s Hdt HI) as H0.
    destruct (checkSunAbsorption_win dt s Hw) as [Hiff _].
    split; [apply Inv_one_center, H0|]. split.
    + intros Hc. apply Hiff in Hc. split; [exact Hc|]. apply (Hpl _ H0 Hc).
    + intros Hn.
      assert (W0 : gameWon (checkSunAbsorption dt s) = false).
      { destruct (gameWon (checkSunAbsorption dt s)); [|reflexivity].
        exfalso. apply Hn, Hiff. reflexivity. }
      split; [exact W0|]. apply (Hsun _ H0 W0).
  - intros s' Hst. apply Inv_one_center. exact (Inv_step s s' HI Hst).
  - intros r Hr. apply Inv_one_center, reachable_Inv, Hr.
  - intros r r' Hr Hst Hw.
    pose proof (reachable_Inv r Hr) as HIr.
    destruct (won_step r r' HIr Hst Hw (reachable_won_no_reset r Hr Hw))
      as [W' _].
    split; [exact W'|].
    apply (Hpl r' (Inv_step r r' HIr Hst) W').
  - intros cur t x0 y0 vx0 vy0 m player spark.
    rewrite countIf_app, (Inv_one_center s HI). reflexivity.
Qed.

Lemma exactly_one_gravitational_center_witness :
  countIf isGravitationalCenter (celestialBodies nearWinState) = 1%nat
  /\ Forall (fun c => isGravitationalCenter c = isSun c)
            (celestialBodies nearWinState)
  /\ gameWon (checkSunAbsorption 0.01 nearWinState) = true
  /\ countIf isGravitationalCenter
             (celestialBodies (checkSunAbsorption 0.01 nearWinState)) = 1%nat
  /\ Forall (fun c => isGravitationalCenter c = isPlayer c)
            (celestialBodies (checkSunAbsorption 0.01 nearWinState)).
Proof.
  destruct nearWinState_wins as [HI Hc].
  destruct (exactly_one_gravitational_center nearWinState HI)
    as (H1 & H2 & _ & _ & _ & H6 & _).
  destruct (H2 eq_refl) as [_ Hs].
  destruct (H6 0.01 ltac:(lra) eq_refl) as (Hn & Hw & _).
  destruct (Hw Hc) as (W & _ & Hp).
  repeat split; assumption.
Defined.

(** ** The ejection that does not take place *)




(** ** The collision stage and the game speed *)

(** [checkCollisions] on a registry of two bodies that collide, the first the
    heavier: the transfer is [min(small.mass, small.mass * 4.0 * dt)], the
    raw [dt] of the tick with no game-speed factor, and the lighter body
    is removed when it is left with at most [MIN_BODY_MASS]. *)
Lemma checkCollisions_pair (now : Z) (dt : R) (s : State) (c1 c2 : Body) :
  celestialBodies s = [c1; c2] ->
  excluded now c2 c1 = false ->
  overlapping (sunCurrentGameMass s) c2 c1 = true ->
  isSpark c1 = false ->
  isGravitationalCenter c2 = false -> isSpark c2 = false ->
  isPlayer c2 = false ->
  0 <= mass c2 < mass c1 -> 0 <= dt ->
  let t := Rmin (mass c2) (mass c2 * MASS_TRANSFER_PERCENT_PER_SEC * dt) in
  map mass (celestialBodies (checkCollisions now dt s))
  = if Rleb (mass c2 - t) MIN_BODY_MASS then [mass c1 + t]
    else [mass c1 + t; mass c2 - t].
Proof.
  intros Hl Hex Hov Hk1 Hc2 Hk2 Hp2 Hm Hdt t.
  assert (H1 : nth_error (celestialBodies s) 1 = Some c2)
    by (rewrite Hl; reflexivity).
  assert (H0 : nth_error (celestialBodies s) 0 = Some c1)
    by (rewrite Hl; reflexivity).
  assert (Ht : 0 <= t <= mass c2).
  { unfold t, MASS_TRANSFER_PERCENT_PER_SEC.
    split; [apply Rmin_glb; nra | apply Rmin_l]. }
  assert (Eta : transferAmount dt c2 = t).
  { unfold transferAmount. rewrite Hk2. fold t. apply Rmax_right, Ht. }
  assert (Hbs : bigOf 1 0 c2 c1 = (0%nat, c1) /\ smallOf 1 0 c2 c1 = (1%nat, c2)).
  { unfold bigOf, smallOf, Rgeb. rewrite Rleb_false by lra. auto. }
  destruct Hbs as [Eb Es].
  pose proof (resolvePair_unfold now dt 1 0 s c2 c1 H1 H0) as Hres.
  rewrite Hex, Hov in Hres. cbv zeta in Hres. rewrite Eb, Es in Hres.
  cbn [fst snd negb] in Hres. rewrite Hc2, Hk1, Eta in Hres.
  cbn [orb] in Hres.
  assert (Ep : isPlayer (set_mass (sunCurrentGameMass s) (mass c2 - t) c2)
               = false) by exact Hp2.
  assert (Ek : isSpark (set_mass (sunCurrentGameMass s) (mass c2 - t) c2)
               = false) by exact Hk2.
  rewrite Ep, Ek, mass_set_mass in Hres. cbn [andb orb] in Hres.
  rewrite (Rmax_right 0 (mass c2 - t)) in Hres by lra.
  rewrite orb_false_r in Hres.
  set (s2 := transferMass t 0 1 c2 (set_collisionDetectedThisFrame true s))
    in *.
  assert (Hl2 : map mass (celestialBodies s2) = [mass c1 + t; mass c2 - t]).
  { unfold s2, transferMass. rewrite celestialBodies_set.
    cbn [celestialBodies set_collisionDetectedThisFrame]. rewrite Hl.
    cbn [update map]. rewrite !mass_set_mass, mass_absorbVelocity.
    rewrite !Rmax_right by lra. reflexivity. }
  unfold checkCollisions. rewrite Hl. cbn [length outerLoop].
  rewrite H1. cbn [innerLoop]. rewrite Hres.
  destruct (Rleb (mass c2 - t) MIN_BODY_MASS).
  - cbn [playerNeedsReset set_celestialBodies Nat.ltb Nat.leb].
    assert (E : map mass (splice1 1 (celestialBodies s2)) = [mass c1 + t]).
    { destruct (celestialBodies s2) as [|a [|b [|c l]]]; try discriminate.
      injection Hl2 as E1 _. cbn [splice1 map]. rewrite E1. reflexivity. }
    destruct (playerNeedsReset s2); rewrite celestialBodies_set; exact E.
  - destruct (playerNeedsReset s2) eqn:Ef; [exact Hl2|].
    assert (H0' : nth_error (celestialBodies s2) 0 <> None).
    { destruct (celestialBodies s2); [discriminate|]. discriminate. }
    destruct (nth_error (celestialBodies s2) 0); [|contradiction].
    exact Hl2.
Qed.

Lemma calculateRadiusFromMass_initial :
  calculateRadiusFromMass PLAYER_INITIAL_MASS = 30.
Proof.
  pose proof PLAYER_INITIAL_MASS_pos as HP. pose proof PI_gt_3 as Hpi.
  unfold calculateRadiusFromMass. rewrite Rleb_false by lra. cbv zeta.
  rewrite PLAYER_INITIAL_MASS_eq. unfold DENSITY.
  replace (3 * (36000000 * PI / 1000) / (4 * PI)) with (30 ^ 3)
    by (field; lra).
  apply cbrt_cube. lra.
Qed.

Lemma radius_full_sun (c : Body) :
  isSun c = true -> radius SUN_GAME_MASS c = 120.
Proof.
  intros H. unfold radius. rewrite H.
  pose proof SUN_GAME_MASS_pos as HS.
  unfold getSunDisplayRadius, SUN_DISPLAY_RADIUS.
  replace (SUN_GAME_MASS / SUN_GAME_MASS) with 1 by (field; lra).
  rewrite (Rmax_right 0 1) by lra. rewrite cbrt_1.
  rewrite Rmax_right by lra. ring.
Qed.

(** The falling body after the gravity and motion stages of a tick whose
    scaled time step is [gameDt]. *)
Lemma infall_moved (gameDt : R) (sun b : Body) :
  x sun = 0 -> y sun = 0 ->
  x b = 280 -> y b = 0 -> vx b = - 10000 -> vy b = 0 ->
  0 <= gameDt <= 0.016 ->
  let b' := moveBody gameDt
              (pull (SUN_GRAVITATIONAL_MASS * (1 - 0)) gameDt sun b) in
  y b' = 0
  /\ 280 - 10200 * gameDt <= x b' <= 280 - 10000 * gameDt
  /\ mass b' = mass b /\ _radius b' = _radius b
  /\ isPlayer b' = isPlayer b /\ isSun b' = isSun b
  /\ isSpark b' = isSpark b
  /\ isGravitationalCenter b' = isGravitationalCenter b
  /\ creationTime b' = creationTime b.
Proof.
  intros Xs Ys Xb Yb VXb VYb Hdt b'. subst b'.
  unfold pull, gravityKick. cbn [num_sub num_add num_mul num_div num_sqrt
                                 num_gt0 num_1em6 JSNumber_R].
  rewrite Xs, Ys, Xb, Yb, VXb, VYb.
  replace ((0 - 280) * (0 - 280) + (0 - 0) * (0 - 0)) with 78400 by ring.
  set (dist := sqrt (78400 + 1e-6)).
  assert (Hd : 280 <= dist).
  { unfold dist. rewrite <- (sqrt_square 280) by lra. apply sqrt_le_1; lra. }
  unfold Rgtb. rewrite (Rltb_true 0 dist) by lra.
  set (acc := G * (SUN_GRAVITATIONAL_MASS * (1 - 0)) / 78400).
  assert (Hacc : 0 <= acc <= 8600).
  { unfold acc, G, SUN_GRAVITATIONAL_MASS. lra. }
  set (kx := acc * (0 - 280) / dist).
  assert (Hkx : - 8600 <= kx <= 0).
  { unfold kx.
    assert (Hq : 0 < / dist) by (apply Rinv_0_lt_compat; lra).
    assert (Hq1 : 280 * / dist <= 1).
    { apply (Rmult_le_reg_r dist); [lra|].
      rewrite Rmult_assoc, Rinv_l by lra. lra. }
    unfold Rdiv.
    replace (acc * (0 - 280) * / dist) with (- (acc * (280 * / dist)))
      by ring.
    assert (0 <= acc * (280 * / dist) <= acc) by nra. lra. }
  replace (acc * (0 - 0) / dist) with 0 by (unfold Rdiv; ring).
  replace (0 + 0 * gameDt) with 0 by ring.
  set (v1 := - 10000 + kx * gameDt).
  assert (Hv1 : - 10200 <= v1 <= - 10000) by (unfold v1; nra).
  unfold moveBody. cbv zeta.
  cbn [vx vy x y set_velocity].
  assert (Hcap : Rgtb (v1 * v1 + 0 * 0) (MAX_V * MAX_V) = false).
  { unfold Rgtb, MAX_V. apply Rltb_false. nra. }
  rewrite Hcap. cbn [vx vy x y mass _radius isPlayer isSun isSpark
                     isGravitationalCenter creationTime set_velocity
                     set_position].
  rewrite Xb, Yb.
  repeat split; try reflexivity; nra.
Qed.

(** What the gravity and motion stages leave of a body: its mass, radius,
    roles and creation time. *)
Lemma moved_keeps (m gameDt : R) (source c : Body) :
  let c' := moveBody gameDt (pull m gameDt source c) in
  mass c' = mass c /\ _radius c' = _radius c
  /\ isPlayer c' = isPlayer c /\ isSun c' = isSun c
  /\ isSpark c' = isSpark c
  /\ isGravitationalCenter c' = isGravitationalCenter c
  /\ creationTime c' = creationTime c.
Proof.
  unfold moveBody, pull. destruct (gravityKick _ _ _ _ _ _ _ _ _).
  cbv zeta. destruct (Rgtb _ (MAX_V * MAX_V)); repeat split; reflexivity.
Qed.

Lemma moveBody_at_rest (gameDt : R) (c : Body) :
  vx c = 0 -> vy c = 0 ->
  x (moveBody gameDt c) = x c /\ y (moveBody gameDt c) = y c
  /\ mass (moveBody gameDt c) = mass c
  /\ isPlayer (moveBody gameDt c) = isPlayer c
  /\ isSun (moveBody gameDt c) = isSun c
  /\ isSpark (moveBody gameDt c) = isSpark c
  /\ isGravitationalCenter (moveBody gameDt c) = isGravitationalCenter c.
Proof.
  intros Hx Hy. unfold moveBody. cbv zeta. rewrite Hx, Hy.
  replace (0 * 0 + 0 * 0) with 0 by ring.
  unfold Rgtb, MAX_V. rewrite Rltb_false by lra.
  cbn [x y mass isPlayer isSun isSpark isGravitationalCenter set_position].
  rewrite Hx, Hy. repeat split; try reflexivity; ring.
Qed.

(** The stages before the collision stage on a registry that holds the sun,
    the player and one ordinary body, while the blend is 0: the player and
    the body are pulled towards the sun and all three are moved, with the
    scaled step [dt * currentGameSpeed]. *)
Lemma gravityAndMotion_sun_player_body (now : Z) (dt : R) (s : State)
    (sun p b : Body) :
  celestialBodies s = [sun; p; b] ->
  isSun sun = true -> isPlayer sun = false -> isSpark sun = false ->
  isPlayer p = true -> isSun p = false -> isSpark p = false ->
  isPlayer b = false -> isSun b = false -> isSpark b = false ->
  isGravitationalCenter b = false ->
  0 < mass p -> MIN_BODY_MASS <= mass b ->
  gravityBlendFactor s = 0 ->
  let gameDt := dt * currentGameSpeed s in
  let gm := SUN_GRAVITATIONAL_MASS * (1 - 0) in
  gravityAndMotion now dt s
  = set_celestialBodies
      [moveBody gameDt sun;
       moveBody gameDt (pull gm gameDt sun p);
       moveBody gameDt (pull gm gameDt sun b)]
      (set_collisionDetectedThisFrame false s).
Proof.
  intros Hl Hss Hsp Hsk Hpp Hps Hpk Hbp Hbs Hbk Hbc Hmp Hm Hg gameDt gm.
  pose proof MIN_BODY_MASS_pos as HMB.
  unfold gravityAndMotion. cbv zeta. fold gameDt.
  assert (E0 : cleanup now (set_collisionDetectedThisFrame false s)
               = set_collisionDetectedThisFrame false s).
  { unfold cleanup.
    cbn [celestialBodies set_collisionDetectedThisFrame]. rewrite Hl.
    cbn [filter]. unfold keepBody.
    rewrite Hsk, Hss, Hpk, Hpp, Hbk, Hbp, Hbc, Hbs, (Rltb_false _ _ Hm).
    cbn [andb negb]. rewrite andb_false_r. cbn [andb].
    rewrite <- Hl. destruct s; reflexivity. }
  rewrite E0. set (s0 := set_collisionDetectedThisFrame false s).
  assert (Hl0 : celestialBodies s0 = [sun; p; b]) by exact Hl.
  assert (Hfs : findBody isSun (celestialBodies s0) = Some (0%nat, sun)).
  { rewrite Hl0. unfold findBody. cbn [findIndex]. rewrite Hss. reflexivity. }
  assert (Hfp : findBody isPlayer (celestialBodies s0) = Some (1%nat, p)).
  { rewrite Hl0. unfold findBody. cbn [findIndex]. rewrite Hsp, Hpp.
    reflexivity. }
  rewrite Hfs, Hfp.
  unfold sunGravity.
  change (gravityBlendFactor s0) with (gravityBlendFactor s). rewrite Hg.
  rewrite (Rltb_true 0 1) by lra.
  rewrite Hl0. unfold forEachIndex. cbn [forEachIndexFrom Nat.eqb orb].
  rewrite (Rleb_false (mass b) 0), (Rleb_false (mass p) 0) by lra.
  unfold playerGravity.
  cbn [gravityBlendFactor set_celestialBodies set_collisionDetectedThisFrame
       s0].
  rewrite Hg. unfold Rgtb at 1. rewrite (Rltb_false 0 0) by lra.
  cbn [andb].
  unfold postWinGravity, flagMissingBodies, updatePositions.
  rewrite celestialBodies_set. cbn [map].
  reflexivity.
Qed.

Lemma excluded_player_sun (now : Z) (b1 b2 : Body) :
  isPlayer b1 = true -> isSun b2 = true -> excluded now b1 b2 = true.
Proof.
  intros H1 H2. unfold excluded. rewrite H1, H2. cbn [andb].
  rewrite !orb_true_r. reflexivity.
Qed.

Lemma excluded_immune_player (now : Z) (b1 b2 : Body) :
  immune now b1 = true -> isPlayer b2 = true -> isSpark b1 = false ->
  excluded now b1 b2 = true.
Proof.
  intros H1 H2 H3. unfold excluded. rewrite H1, H2, H3. cbn [andb orb].
  rewrite !orb_true_r. reflexivity.
Qed.

(** [checkCollisions] on a registry of three bodies of which only the third
    and the first can collide: it leaves the state as it is when they are
    apart, and makes the transfer [min(small.mass, small.mass * 4.0 * dt)]
    from the third to the heavier first when they overlap. *)
Lemma checkCollisions_third_first (now : Z) (dt : R) (s : State)
    (c0 c1 c2 : Body) :
  celestialBodies s = [c0; c1; c2] ->
  excluded now c2 c1 = true ->
  isPlayer c1 = true -> isSun c0 = true ->
  (excluded now c2 c0 || negb (overlapping (sunCurrentGameMass s) c2 c0) = true
   -> checkCollisions now dt s = s)
  /\ (excluded now c2 c0 = false ->
      overlapping (sunCurrentGameMass s) c2 c0 = true ->
      isSpark c0 = false ->
      isGravitationalCenter c2 = false -> isSpark c2 = false ->
      isPlayer c2 = false ->
      0 <= mass c2 < mass c0 -> 0 <= dt ->
      let t := Rmin (mass c2) (mass c2 * MASS_TRANSFER_PERCENT_PER_SEC * dt) in
      MIN_BODY_MASS < mass c2 - t ->
      playerNeedsReset (checkCollisions now dt s) = playerNeedsReset s
      /\ exists c0' c2',
           celestialBodies (checkCollisions now dt s) = [c0'; c1; c2']
           /\ isPlayer c0' = isPlayer c0
           /\ mass c0' = mass c0 + t /\ mass c2' = mass c2 - t).
Proof.
  intros Hl Hex21 Hp1 Hs0.
  assert (H2 : nth_error (celestialBodies s) 2 = Some c2)
    by (rewrite Hl; reflexivity).
  assert (H1 : nth_error (celestialBodies s) 1 = Some c1)
    by (rewrite Hl; reflexivity).
  assert (H0 : nth_error (celestialBodies s) 0 = Some c0)
    by (rewrite Hl; reflexivity).
  assert (R21 : resolvePair now dt 2 1 s = PairContinue s).
  { rewrite (resolvePair_unfold now dt 2 1 s c2 c1 H2 H1), Hex21.
    reflexivity. }
  assert (Hrest : forall q c0',
            celestialBodies q = [c0'; c1; c2] \/
            (exists c2', celestialBodies q = [c0'; c1; c2']) ->
            isSun c0' = true ->
            (if playerNeedsReset q then q else outerLoop 2 now dt 2 q) = q).
  { intros q c0' Hq Hs0'.
    destruct (playerNeedsReset q) eqn:Ef; [reflexivity|].
    assert (Hq1 : nth_error (celestialBodies q) 1 = Some c1)
      by (destruct Hq as [->|[c2' ->]]; reflexivity).
    assert (Hq0 : nth_error (celestialBodies q) 0 = Some c0')
      by (destruct Hq as [->|[c2' ->]]; reflexivity).
    assert (R10 : resolvePair now dt 1 0 q = PairContinue q).
    { rewrite (resolvePair_unfold now dt 1 0 q c1 c0' Hq1 Hq0).
      rewrite (excluded_player_sun now c1 c0' Hp1 Hs0'). reflexivity. }
    cbn [outerLoop]. rewrite Hq1. cbn [innerLoop]. rewrite R10.
    rewrite Ef, Hq0. reflexivity. }
  split.
  - intros Hno.
    assert (R20 : resolvePair now dt 2 0 s = PairContinue s).
    { rewrite (resolvePair_unfold now dt 2 0 s c2 c0 H2 H0).
      destruct (excluded now c2 c0); [reflexivity|].
      simpl in Hno. rewrite Hno. reflexivity. }
    unfold checkCollisions. rewrite Hl. cbn [length outerLoop].
    rewrite H2. cbn [innerLoop]. rewrite R21, R20.
    apply (Hrest s c0); auto.
  - intros Hex Hov Hk0 Hc2 Hk2 Hp2 Hm Hdt t Hleft.
    assert (Ht : 0 <= t <= mass c2).
    { unfold t, MASS_TRANSFER_PERCENT_PER_SEC.
      split; [apply Rmin_glb; nra | apply Rmin_l]. }
    assert (Eta : transferAmount dt c2 = t).
    { unfold transferAmount. rewrite Hk2. fold t. apply Rmax_right, Ht. }
    assert (Hbs : bigOf 2 0 c2 c0 = (0%nat, c0)
                  /\ smallOf 2 0 c2 c0 = (2%nat, c2)).
    { unfold bigOf, smallOf, Rgeb. rewrite Rleb_false by lra. auto. }
    destruct Hbs as [Eb Es].
    pose proof (resolvePair_unfold now dt 2 0 s c2 c0 H2 H0) as R20.
    rewrite Hex, Hov in R20. cbv zeta in R20. rewrite Eb, Es in R20.
    cbn [fst snd negb] in R20. rewrite Hc2, Hk0, Eta in R20.
    cbn [orb] in R20.
    assert (Ep : isPlayer (set_mass (sunCurrentGameMass s) (mass c2 - t) c2)
                 = false) by exact Hp2.
    assert (Ek : isSpark (set_mass (sunCurrentGameMass s) (mass c2 - t) c2)
                 = false) by exact Hk2.
    rewrite Ep, Ek, mass_set_mass in R20. cbn [andb orb] in R20.
    rewrite (Rmax_right 0 (mass c2 - t)) in R20 by lra.
    rewrite orb_false_r, (Rleb_false _ _ Hleft) in R20.
    set (s2 := transferMass t 0 2 c2 (set_collisionDetectedThisFrame true s))
      in *.
    set (c0' := set_mass (sunCurrentGameMass s)
                  (mass (absorbVelocity t c2 c0) + t)
                  (absorbVelocity t c2 c0)).
    set (c2' := set_mass (sunCurrentGameMass s) (mass c2 - t) c2).
    assert (Hl2 : celestialBodies s2 = [c0'; c1; c2']).
    { unfold s2, transferMass. rewrite celestialBodies_set.
      cbn [celestialBodies set_collisionDetectedThisFrame sunCurrentGameMass].
      rewrite Hl. reflexivity. }
    assert (Hs0' : isSun c0' = true).
    { unfold c0'. cbn [isSun set_mass]. unfold absorbVelocity.
      destruct (isPlayer c0 && Rgtb t 0); [destruct (Rgtb _ 1e-9)|];
        exact Hs0. }
    assert (E : checkCollisions now dt s = s2).
    { unfold checkCollisions. rewrite Hl. cbn [length outerLoop].
      rewrite H2. cbn [innerLoop]. rewrite R21, R20.
      apply (Hrest s2 c0'); [right; exists c2'; exact Hl2 | exact Hs0']. }
    rewrite E. split; [reflexivity|].
    exists c0', c2'. split; [exact Hl2|]. split.
    { unfold c0'. cbn [isPlayer set_mass]. unfold absorbVelocity.
      destruct (isPlayer c0 && Rgtb t 0); [destruct (Rgtb _ 1e-9)|];
        reflexivity. }
    unfold c0', c2'. rewrite !mass_set_mass, mass_absorbVelocity.
    rewrite !Rmax_right by lra. auto.
Qed.

(** A player that is too light to absorb leaves the registry to
    [checkSunAbsorption] as it is. *)
Lemma checkSunAbsorption_too_light (dt : R) (s : State) :
  (forall pi p,
      findIndex isPlayer (celestialBodies s) = Some pi ->
      nth_error (celestialBodies s) pi = Some p -> canAbsorb p = false) ->
  celestialBodies (checkSunAbsorption dt s) = celestialBodies s.
Proof.
  intros H. unfold checkSunAbsorption.
  destruct (gameWon s); [reflexivity|].
  destruct (findIndex isPlayer (celestialBodies s)) as [pi|] eqn:Hf;
    [|reflexivity].
  destruct (findIndex isSun (celestialBodies s)) as [si|]; [|reflexivity].
  destruct (nth_error (celestialBodies s) pi) as [player|] eqn:Hn;
    [|reflexivity].
  destruct (nth_error (celestialBodies s) si) as [sun|]; [|reflexivity].
  rewrite (H pi player eq_refl Hn). cbn [negb].
  destruct (Rltb _ _); reflexivity.
Qed.

Lemma infallState_bodies :
  exists sun p b,
    celestialBodies infallState = [sun; p; b]
    /\ (isSun sun = true /\ isPlayer sun = false /\ isSpark sun = false
        /\ x sun = 0 /\ y sun = 0 /\ vx sun = 0 /\ vy sun = 0
        /\ mass sun = SUN_GAME_MASS)
    /\ (isPlayer p = true /\ isSun p = false /\ isSpark p = false
        /\ mass p = PLAYER_INITIAL_MASS)
    /\ (isPlayer b = false /\ isSun b = false /\ isSpark b = false
        /\ isGravitationalCenter b = false
        /\ x b = 280 /\ y b = 0 /\ vx b = - 10000 /\ vy b = 0
        /\ mass b = PLAYER_INITIAL_MASS
        /\ _radius b = calculateRadiusFromMass PLAYER_INITIAL_MASS
        /\ creationTime b = 0%Z).
Proof. eexists. eexists. eexists. repeat split; reflexivity. Qed.

Lemma Inv_infallState : Inv infallState.
Proof.
  pose proof SUN_GAME_MASS_pos as HS. pose proof PLAYER_INITIAL_MASS_pos as HP.
  unfold Inv, infallState. simpl.
  split; [|repeat split; try lra; discriminate].
  apply (RegistryInv_app_inert false [_; _] [_]).
  - apply RegistryInv_sun_player; try reflexivity; simpl; lra.
  - repeat constructor. simpl. lra.
Qed.

(** The registry after a tick that finds no reset pending after its
    collision stage and a player too light to absorb is the registry that
    stage leaves. *)
Lemma tick_too_light (env : Env) (dt : R) (s : State) :
  let s5 := checkCollisions (now env) dt (gravityAndMotion (now env) dt s) in
  playerNeedsReset s5 = false ->
  (forall pi p,
      findIndex isPlayer (celestialBodies s5) = Some pi ->
      nth_error (celestialBodies s5) pi = Some p -> canAbsorb p = false) ->
  celestialBodies (updatePhysics env dt s) = celestialBodies s5.
Proof.
  intros s5 Hf Hno. unfold updatePhysics. cbv zeta. fold s5. rewrite Hf.
  rewrite <- (checkSunAbsorption_too_light dt s5 Hno).
  unfold decayEjectionMultiplier. destruct (_ && _); reflexivity.
Qed.

Lemma canAbsorb_initial (p : Body) :
  mass p = PLAYER_INITIAL_MASS -> canAbsorb p = false.
Proof.
  intros H. pose proof PLAYER_INITIAL_MASS_pos as HP.
  unfold canAbsorb, massRatio, Rgeb, SUN_ABSORPTION_START_RATIO.
  rewrite H. apply Rleb_false.
  apply (Rmult_lt_reg_r SUN_GAME_MASS); [apply SUN_GAME_MASS_pos|].
  unfold Rdiv. rewrite Rmult_assoc, Rinv_l
    by (generalize SUN_GAME_MASS_pos; lra).
  unfold SUN_GAME_MASS. lra.
Qed.

(** The tick of the falling body at either game speed: where the collision
    stage finds the three bodies. *)
Lemma infall_moved_state (speed : R) :
  0 <= speed <= 1 ->
  let s := set_currentGameSpeed speed infallState in
  exists sun' p' b',
    gravityAndMotion (now clickEnv) 0.016 s
    = set_celestialBodies [sun'; p'; b']
        (set_collisionDetectedThisFrame false s)
    /\ (isSun sun' = true /\ isPlayer sun' = false /\ isSpark sun' = false
        /\ x sun' = 0 /\ y sun' = 0 /\ mass sun' = SUN_GAME_MASS
        /\ radius SUN_GAME_MASS sun' = 120)
    /\ (isPlayer p' = true /\ mass p' = PLAYER_INITIAL_MASS)
    /\ (excluded (now clickEnv) b' p' = true
        /\ excluded (now clickEnv) b' sun' = false
        /\ isPlayer b' = false /\ isSpark b' = false
        /\ isGravitationalCenter b' = false
        /\ y b' = 0
        /\ 280 - 10200 * (0.016 * speed) <= x b'
           <= 280 - 10000 * (0.016 * speed)
        /\ mass b' = PLAYER_INITIAL_MASS /\ radius SUN_GAME_MASS b' = 30).
Proof.
  intros Hsp s.
  destruct infallState_bodies
    as (sun & p & b & Hl & (Hss & Hsp' & Hsk & Xs & Ys & VXs & VYs & Ms)
        & (Hpp & Hps & Hpk & Mp)
        & (Hbp & Hbs & Hbk & Hbc & Xb & Yb & VXb & VYb & Mb & Rb & Tb)).
  pose proof PLAYER_INITIAL_MASS_pos as HP.
  assert (HMB : MIN_BODY_MASS <= mass b).
  { rewrite Mb. unfold MIN_BODY_MASS. lra. }
  assert (HMP : 0 < mass p) by (rewrite Mp; lra).
  pose proof (gravityAndMotion_sun_player_body (now clickEnv) 0.016 s sun p b
                Hl Hss Hsp' Hsk Hpp Hps Hpk Hbp Hbs Hbk Hbc HMP HMB eq_refl)
    as Hgm.
  cbv zeta in Hgm.
  change (currentGameSpeed s) with speed in Hgm.
  set (gameDt := 0.016 * speed) in *.
  assert (Hg : 0 <= gameDt <= 0.016) by (unfold gameDt; nra).
  destruct (moveBody_at_rest gameDt sun VXs VYs)
    as (Xs' & Ys' & Ms' & Ps' & Ss' & Ks' & Cs').
  destruct (infall_moved gameDt sun b Xs Ys Xb Yb VXb VYb Hg)
    as (Yb' & Xb' & Mb' & Rb' & Pb' & Sb' & Kb' & Cb' & Tb').
  destruct (moved_keeps (SUN_GRAVITATIONAL_MASS * (1 - 0)) gameDt sun p)
    as (Mp' & _ & Pp' & _).
  set (sun' := moveBody gameDt sun) in *.
  set (p' := moveBody gameDt
               (pull (SUN_GRAVITATIONAL_MASS * (1 - 0)) gameDt sun p)) in *.
  set (b' := moveBody gameDt
               (pull (SUN_GRAVITATIONAL_MASS * (1 - 0)) gameDt sun b)) in *.
  exists sun', p', b'.
  split; [exact Hgm|].
  split.
  { repeat split; try congruence. apply radius_full_sun. congruence. }
  split; [split; congruence|].
  assert (Hrb : radius SUN_GAME_MASS b' = 30).
  { unfold radius. rewrite Sb', Hbs, Rb', Rb, calculateRadiusFromMass_initial.
    apply Rmax_right. lra. }
  assert (Him : immune (now clickEnv) b' = true).
  { unfold immune. rewrite Kb', Hbk, Sb', Hbs, Pb', Hbp, Tb', Tb.
    reflexivity. }
  split.
  { apply excluded_immune_player; congruence. }
  split.
  { unfold excluded. rewrite Him. unfold immune.
    rewrite Pb', Hbp, Kb', Hbk, Ps', Hsp', Ks', Hsk, Ss', Hss.
    reflexivity. }
  repeat split; try congruence; lra.
Qed.

(** C10, as the code has it.  [updatePhysics] hands [checkCollisions] the raw
    [dt]; the collision stage does not read [currentGameSpeed]: run on two
    states that differ only in the game speed it gives results that differ
    only in the game speed; and the transfer it makes is
    [min(small.mass, small.mass * 4.0 * dt)] whatever the game speed is: on a
    registry of two overlapping, non-immune ordinary bodies, the first the
    heavier, the stage leaves the masses [big + transfer] and
    [small - transfer] (the small body removed when it is left with at most
    [MIN_BODY_MASS]).  Sun absorption and the stages before the collision
    stage use the scaled step [dt * currentGameSpeed] instead. *)
Theorem collisions_use_raw_dt :
  forall (time : Z) (dt v : R) (s : State) (c1 c2 : Body),
    celestialBodies s = [c1; c2] ->
    ordinary c1 -> ordinary c2 ->
    immune time c1 = false -> immune time c2 = false ->
    overlapping (sunCurrentGameMass s) c2 c1 = true ->
    0 <= mass c2 < mass c1 -> 0 <= dt ->
    let t := Rmin (mass c2) (mass c2 * MASS_TRANSFER_PERCENT_PER_SEC * dt) in
    transferAmount dt c2 = t
    /\ map mass (celestialBodies
                   (checkCollisions time dt (set_currentGameSpeed v s)))
       = (if Rleb (mass c2 - t) MIN_BODY_MASS then [mass c1 + t]
          else [mass c1 + t; mass c2 - t])
    /\ (forall q : State,
          checkCollisions time dt (set_currentGameSpeed v q)
          = set_currentGameSpeed v (checkCollisions time dt q))
    /\ (forall (env : Env) (q : State),
          let s5 := checkCollisions (now env) dt
                      (gravityAndMotion (now env) dt q) in
          updatePhysics env dt q
          = if playerNeedsReset s5 then resetPlayer env s5
            else decayEjectionMultiplier env (checkSunAbsorption dt s5))
    /\ (forall (q : State) (player sun : Body),
          absorptionTransfer dt (set_currentGameSpeed v q) player sun
          = Rmax 0 (Rmin (sunCurrentGameMass q
                          * absorptionRate (sunCurrentGameMass q) player sun
                          * (dt * v))
                         (sunCurrentGameMass q)))
    /\ (forall (q : State),
          gravityAndMotion time dt (set_currentGameSpeed v q)
          = let gameDt := dt * v in
            let s0 := cleanup time (set_collisionDetectedThisFrame false
                                      (set_currentGameSpeed v q)) in
            let sun := findBody isSun (celestialBodies s0) in
            let player := findBody isPlayer (celestialBodies s0) in
            updatePositions gameDt
              (flagMissingBodies sun player
                 (postWinGravity gameDt sun player
                    (playerGravity gameDt player
                       (sunGravity gameDt sun s0))))).
Proof.
  intros time dt v s c1 c2 Hl O1 O2 I1 I2 Hov Hm Hdt t.
  assert (Hcomm : forall q : State,
            checkCollisions time dt (set_currentGameSpeed v q)
            = set_currentGameSpeed v (checkCollisions time dt q)).
  { intros q. unfold checkCollisions.
    cbn [celestialBodies set_currentGameSpeed]. apply outerLoop_speed. }
  destruct O1 as (P1 & S1 & K1 & C1). destruct O2 as (P2 & S2 & K2 & C2).
  split.
  { unfold transferAmount. rewrite K2. fold t. apply Rmax_right.
    unfold t, MASS_TRANSFER_PERCENT_PER_SEC. apply Rmin_glb; nra. }
  split.
  { rewrite Hcomm. cbn [celestialBodies set_currentGameSpeed].
    apply (checkCollisions_pair time dt s c1 c2 Hl); auto.
    apply excluded_ordinary; repeat split; auto. }
  split; [exact Hcomm|].
  repeat split; reflexivity.
Qed.

Lemma collisions_use_raw_dt_witness :
  transferAmount 0.1 (scenarioBody 10) = 4
  /\ map mass (celestialBodies
                 (checkCollisions 1000 0.1
                    (set_currentGameSpeed BASE_GAME_SPEED scenarioState)))
     = [104].
Proof.
  pose proof PLAYER_INITIAL_MASS_pos as HP.
  destruct (collisions_use_raw_dt 1000 0.1 BASE_GAME_SPEED scenarioState
              (scenarioBody 100) (scenarioBody 10) eq_refl)
    as (Ht & Hm & _).
  - repeat split.
  - repeat split.
  - reflexivity.
  - reflexivity.
  - apply overlapping_same_position; reflexivity.
  - simpl. lra.
  - lra.
  - assert (E : Rmin (mass (scenarioBody 10))
                  (mass (scenarioBody 10) * MASS_TRANSFER_PERCENT_PER_SEC * 0.1)
                = 4).
    { simpl. unfold MASS_TRANSFER_PERCENT_PER_SEC. rewrite Rmin_right; lra. }
    rewrite E in Ht, Hm. split; [exact Ht|].
    rewrite Hm. simpl mass.
    rewrite Rleb_true by (unfold MIN_BODY_MASS; lra).
    f_equal. lra.
Defined.

(** C10, as the claim states it, fails: two ticks that are identical except
    for [currentGameSpeed] do not transfer the same collision mass.  An
    ordinary body falls towards the sun from 280 at 10000 per second.  In a
    16 ms tick at the base speed 0.1 the motion stage advances it by about
    16, so the collision stage finds it more than 263 from the sun, outside
    the touch distance 150, and nothing is transferred; in the same tick at
    the fast speed 1 the motion stage advances it by about 160, the
    collision stage finds it inside the touch distance and transfers
    [mass * 4.0 * 0.016], 6.4% of its mass, to the sun. *)
Lemma game_speed_changes_collisions :
  let slow := updatePhysics clickEnv 0.016 infallState in
  let fast := updatePhysics clickEnv 0.016
                (set_currentGameSpeed FAST_GAME_SPEED infallState) in
  Inv infallState
  /\ infallState = set_currentGameSpeed BASE_GAME_SPEED infallState
  /\ map mass (celestialBodies slow)
     = [SUN_GAME_MASS; PLAYER_INITIAL_MASS; PLAYER_INITIAL_MASS]
  /\ map mass (celestialBodies fast)
     = [SUN_GAME_MASS + 0.064 * PLAYER_INITIAL_MASS;
        PLAYER_INITIAL_MASS;
        PLAYER_INITIAL_MASS - 0.064 * PLAYER_INITIAL_MASS].
Proof.
  pose proof PLAYER_INITIAL_MASS_pos as HP.
  split; [apply Inv_infallState|].
  split; [reflexivity|]. split.
  - destruct (infall_moved_state BASE_GAME_SPEED)
      as (sun' & p' & b' & Hgm & (Ss & Ps & Ks & Xs & Ys & Ms & Rs)
          & (Pp & Mp) & (Hex1 & Hex0 & Pb & Kb & Cb & Yb & Xb & Mb & Rb));
      [unfold BASE_GAME_SPEED; lra|].
    change (set_currentGameSpeed BASE_GAME_SPEED infallState)
      with infallState in Hgm.
    set (m := set_celestialBodies [sun'; p'; b']
                (set_collisionDetectedThisFrame false infallState)) in *.
    destruct (checkCollisions_third_first (now clickEnv) 0.016 m sun' p' b'
                eq_refl Hex1 Pp Ss) as [Hapart _].
    assert (E : checkCollisions (now clickEnv) 0.016 m = m).
    { apply Hapart. rewrite Hex0. cbn [orb]. unfold overlapping. cbv zeta.
      change (sunCurrentGameMass m) with SUN_GAME_MASS.
      rewrite Rs, Rb, Xs, Ys, Yb. unfold Rgeb.
      rewrite Rleb_true; [reflexivity|].
      unfold BASE_GAME_SPEED in Xb. nra. }
    rewrite (tick_too_light clickEnv 0.016 infallState); rewrite Hgm, E.
    + unfold m. rewrite celestialBodies_set. cbn [map].
      rewrite Ms, Mp, Mb. reflexivity.
    + reflexivity.
    + unfold m. rewrite celestialBodies_set. cbn [findIndex].
      rewrite Ps, Pp. cbn [option_map]. intros pi p Hpi Hn.
      injection Hpi as <-. injection Hn as <-.
      apply canAbsorb_initial, Mp.
  - destruct (infall_moved_state FAST_GAME_SPEED)
      as (sun' & p' & b' & Hgm & (Ss & Ps & Ks & Xs & Ys & Ms & Rs)
          & (Pp & Mp) & (Hex1 & Hex0 & Pb & Kb & Cb & Yb & Xb & Mb & Rb));
      [unfold FAST_GAME_SPEED; lra|].
    set (m := set_celestialBodies [sun'; p'; b']
                (set_collisionDetectedThisFrame false
                   (set_currentGameSpeed FAST_GAME_SPEED infallState))) in *.
    destruct (checkCollisions_third_first (now clickEnv) 0.016 m sun' p' b'
                eq_refl Hex1 Pp Ss) as [_ Hhit].
    destruct Hhit as (Hf & c0' & c2' & Hl5 & P0 & M0 & M2);
      try assumption.
    { unfold overlapping. cbv zeta.
      change (sunCurrentGameMass m) with SUN_GAME_MASS.
      rewrite Rs, Rb, Xs, Ys, Yb. unfold Rgeb.
      rewrite Rleb_false; [reflexivity|].
      unfold FAST_GAME_SPEED in Xb. nra. }
    { rewrite Ms, Mb. unfold SUN_GAME_MASS. lra. }
    { lra. }
    { rewrite Mb. unfold MASS_TRANSFER_PERCENT_PER_SEC, MIN_BODY_MASS.
      rewrite Rmin_right by lra. lra. }
    rewrite Ms, Mb in M0. rewrite Mb in M2.
    unfold MASS_TRANSFER_PERCENT_PER_SEC in M0, M2.
    rewrite (Rmin_right PLAYER_INITIAL_MASS) in M0, M2 by lra.
    rewrite (tick_too_light clickEnv 0.016
               (set_currentGameSpeed FAST_GAME_SPEED infallState));
      rewrite Hgm.
    + rewrite Hl5. cbn [map]. rewrite M0, Mp, M2.
      f_equal; [|f_equal; f_equal]; lra.
    + rewrite Hf. reflexivity.
    + rewrite Hl5. cbn [findIndex]. rewrite P0, Ps, Pp. cbn [option_map].
      intros pi p Hpi Hn. injection Hpi as <-. injection Hn as <-.
      apply canAbsorb_initial, Mp.
Qed.
